(** * Stagehand capture-to-PDF pipeline: a shallow embedding

    The development follows [src/utils/pdf.ts] and
    [src/app/api/stagehand/main.ts].  JavaScript values are modelled as the
    code has them:

    - a string is the list of its UTF-16 code units ([jsstring]);
    - a [number] is an IEEE 754 binary64 value ([float], Rocq's primitive
      floats), except where the code only ever handles small integers
      (indices, bytes, counts), which are [nat] or [Z];
    - a regular expression literal is a term of [Regex.regex], run by a
      backtracking matcher that follows the ECMAScript matching order;
    - a function that may throw returns a [result]. *)

From Stdlib Require Import String Ascii.
From Stdlib Require Import ZArith NArith List Bool Lia Floats DecimalString.
Import ListNotations.

Set Implicit Arguments.
Set Warnings "-inexact-float".

(* ------------------------------------------------------------------ *)
(** * JavaScript strings *)
(* ------------------------------------------------------------------ *)

Module JsString.

(** A UTF-16 code unit.  Values are below 65536 in a real string; nothing
    below depends on that bound. *)
Definition codeunit := N.
Definition jsstring := list codeunit.

Definition cu (a : ascii) : codeunit := N_of_ascii a.

(** The string written by an ASCII literal. *)
Definition js (s : string) : jsstring := map cu (list_ascii_of_string s).

(** [s.slice(i, j)] for [0 <= i] and [0 <= j]: both ends are clamped to the
    length and an end before the start gives the empty string. *)
Definition slice (s : jsstring) (i j : nat) : jsstring :=
  firstn (j - i) (skipn i s).

(** [s[i]]: the one-unit string at [i].  Out of range the code would read
    [undefined]; the callers below never index out of range. *)
Definition char_at (s : jsstring) (i : nat) : jsstring :=
  match nth_error s i with
  | Some c => [c]
  | None => []
  end.

Definition in_range (lo hi c : codeunit) : bool :=
  (N.leb lo c && N.leb c hi)%bool.

Definition is_char (a : ascii) (c : codeunit) : bool := N.eqb c (cu a).

(** [s.startsWith(p)] on suffixes, and [s.includes(p)]. *)
Fixpoint starts_with (p s : jsstring) : bool :=
  match p, s with
  | [], _ => true
  | _ :: _, [] => false
  | a :: p', b :: s' => (N.eqb a b && starts_with p' s')%bool
  end.

Fixpoint includes (p s : jsstring) : bool :=
  (starts_with p s ||
   match s with
   | [] => false
   | _ :: s' => includes p s'
   end)%bool.

End JsString.
Import JsString.

(* ------------------------------------------------------------------ *)
(** * Regular expressions *)
(* ------------------------------------------------------------------ *)

Module Regex.

(** The fragment of ECMAScript patterns the sources use.  Quantifiers are
    greedy.  [r+] is [Seq r (Star r)], [r{2}] is [Seq r r] and [r?] is
    [Or r Empty] (the quantified atoms of the sources never match the empty
    string, and no capture group sits under a quantifier). *)
Inductive regex : Type :=
| Empty
| Class (p : codeunit -> bool)
| Seq (r1 r2 : regex)
| Or (r1 r2 : regex)
| Star (r : regex)
| Group (n : nat) (r : regex)
| Ahead (r : regex)
| EndOfInput.

Definition Plus (r : regex) : regex := Seq r (Star r).
Definition Opt (r : regex) : regex := Or r Empty.
Definition Chr (a : ascii) : regex := Class (is_char a).

Fixpoint Lit (s : list ascii) : regex :=
  match s with
  | [] => Empty
  | a :: s' => Seq (Chr a) (Lit s')
  end.

(** The least number of code units a match of [r] consumes. *)
Fixpoint min_len (r : regex) : nat :=
  match r with
  | Empty => 0
  | Class _ => 1
  | Seq r1 r2 => min_len r1 + min_len r2
  | Or r1 r2 => Nat.min (min_len r1) (min_len r2)
  | Star _ => 0
  | Group _ r1 => min_len r1
  | Ahead _ => 0
  | EndOfInput => 0
  end.

Definition captures := list (nat * jsstring).
Definition mresult := option (jsstring * captures).
Definition cont := jsstring -> captures -> mresult.

(** [r*] with [m] the matcher of [r] and [k] what follows: [n] bounds the
    number of rounds; each round shortens the rest of the input, so
    [length s] rounds are always enough ([star_iter_fuel]).  An iteration
    that consumes nothing is rejected, as the specification's RepeatMatcher
    does. *)
Fixpoint star_iter (m : jsstring -> captures -> cont -> mresult) (k : cont)
  (n : nat) (s : jsstring) (c : captures) {struct n} : mresult :=
  match n with
  | O => k s c
  | S n' =>
      match
        m s c (fun s1 c1 =>
                 if length s1 <? length s then star_iter m k n' s1 c1
                 else None)
      with
      | Some x => Some x
      | None => k s c
      end
  end.

(** The matcher works on the rest of the input and calls its continuation
    at every way of matching, in the order a backtracking engine tries
    them; the first success wins. *)
Fixpoint rmatch (r : regex) (s : jsstring) (c : captures) (k : cont)
  {struct r} : mresult :=
  match r with
  | Empty => k s c
  | Class p =>
      match s with
      | x :: s' => if p x then k s' c else None
      | [] => None
      end
  | Seq r1 r2 => rmatch r1 s c (fun s1 c1 => rmatch r2 s1 c1 k)
  | Or r1 r2 =>
      match rmatch r1 s c k with
      | Some x => Some x
      | None => rmatch r2 s c k
      end
  | Star r1 => star_iter (rmatch r1) k (length s) s c
  | Group n r1 =>
      rmatch r1 s c
        (fun s1 c1 => k s1 ((n, firstn (length s - length s1) s) :: c1))
  | Ahead r1 =>
      match rmatch r1 s c (fun s1 c1 => Some (s1, c1)) with
      | Some (_, c1) => k s c1
      | None => None
      end
  | EndOfInput =>
      match s with
      | [] => k s c
      | _ :: _ => None
      end
  end.

(** A match object: [m.index], [m[0]] and the numbered groups. *)
Record MatchResult : Type := mkMatch {
  index : nat;
  matched : jsstring;
  groups : captures
}.

Definition group (n : nat) (m : MatchResult) : jsstring :=
  match find (fun p => Nat.eqb (fst p) n) (groups m) with
  | Some p => snd p
  | None => []
  end.

Definition match_end (m : MatchResult) : nat := index m + length (matched m).

(** A match starting exactly at the head of [s]. *)
Definition match_here (r : regex) (s : jsstring) : option (nat * captures) :=
  match rmatch r s [] (fun s' c => Some (s', c)) with
  | Some (s', c) => Some (length s - length s', c)
  | None => None
  end.

(** The leftmost match in [s], whose head is at index [i] of the input. *)
Fixpoint search (r : regex) (s : jsstring) (i : nat) : option MatchResult :=
  match match_here r s with
  | Some (l, c) => Some (mkMatch i (firstn l s) c)
  | None =>
      match s with
      | [] => None
      | _ :: t => search r t (S i)
      end
  end.

(** [re.exec(str)] for a [g] pattern whose [lastIndex] is given: the match
    and the new [lastIndex]. *)
Definition exec (r : regex) (str : jsstring) (lastIndex : nat)
  : option MatchResult * nat :=
  if length str <? lastIndex then (None, 0)
  else
    match search r (skipn lastIndex str) lastIndex with
    | Some m => (Some m, match_end m)
    | None => (None, 0)
    end.

(** [re.test(str)], same convention. *)
Definition test (r : regex) (str : jsstring) (lastIndex : nat) : bool * nat :=
  match exec r str lastIndex with
  | (Some _, li) => (true, li)
  | (None, li) => (false, li)
  end.

(** [str.replace(re, rep)] for a [g] pattern and a replacement text without
    [$]: every match, left to right, is replaced; after an empty match the
    scan moves on by one code unit. *)
Fixpoint replace_loop (fuel : nat) (r : regex) (rep s : jsstring) : jsstring :=
  match fuel with
  | O => s
  | S f =>
      match search r s 0 with
      | None => s
      | Some m =>
          firstn (index m) s ++ rep ++
          match matched m with
          | [] =>
              match skipn (index m) s with
              | [] => []
              | x :: t => x :: replace_loop f r rep t
              end
          | _ :: _ => replace_loop f r rep (skipn (match_end m) s)
          end
      end
  end.

Definition replace (r : regex) (rep str : jsstring) : jsstring :=
  replace_loop (S (length str)) r rep str.

End Regex.
Import Regex.

(* ------------------------------------------------------------------ *)
(** * Text wrapping ([wrapText]) *)
(* ------------------------------------------------------------------ *)

Module Wrap.

(** [[/?&#\-_.]] *)
Definition url_sep (c : codeunit) : bool :=
  (is_char "/" c || is_char "?" c || is_char "&" c || is_char "#" c ||
   is_char "-" c || is_char "_" c || is_char "." c)%bool.

(** [[0-9A-Fa-f]] *)
Definition hex_digit (c : codeunit) : bool :=
  (in_range (cu "0") (cu "9") c || in_range (cu "A") (cu "F") c ||
   in_range (cu "a") (cu "f") c)%bool.

(** [/[/?&#\-_.]|(?:%[0-9A-Fa-f]{2})+(?=[/?&#\-_.]|$)/g] *)
Definition breakRe : regex :=
  Or (Class url_sep)
     (Seq (Plus (Seq (Chr "%") (Seq (Class hex_digit) (Class hex_digit))))
          (Ahead (Or (Class url_sep) EndOfInput))).

(** The loop [while (m !== null) { bestBreak = ...; m = breakRe.exec(segment) }]
    with the pattern's [lastIndex] threaded through.  Every match is at
    least one unit long, so [length segment] rounds and the final failing
    [exec] fit in the fuel given by [lastBreak]. *)
Fixpoint break_loop (fuel : nat) (segment : jsstring) (lastIndex : nat)
  (bestBreak : Z) : Z :=
  match fuel with
  | O => bestBreak
  | S f =>
      match exec breakRe segment lastIndex with
      | (Some m, li) =>
          break_loop f segment li (Z.of_nat (index m + length (matched m)))
      | (None, _) => bestBreak
      end
  end.

Definition lastBreak (segment : jsstring) : Z :=
  break_loop (S (length segment)) segment 0 (-1).

Section WrapText.

Variables (text : jsstring) (maxWidth : float)
          (measureFn : jsstring -> float) (urlMode : bool).

(** [measureFn(text.slice(start, end)) <= maxWidth] *)
Definition fits (start end_ : nat) : bool :=
  (measureFn (slice text start end_) <=? maxWidth)%float.

(** The inner [while]: [end] grows while it is within the text and the
    slice fits.  [end] can grow at most up to [length text + 1], where the
    first test fails, so the fuel [growEnd] gives is never used up. *)
Fixpoint grow (fuel : nat) (start end_ : nat) : nat :=
  match fuel with
  | O => end_
  | S f =>
      if ((end_ <=? length text) && fits start end_)%bool
      then grow f start (S end_)
      else end_
  end.

Definition growEnd (start : nat) : nat :=
  grow (S (length text)) start (start + 1).

(** One round of the outer [while]: the new [lines] and [start]. *)
Definition step (start : nat) (lines : list jsstring)
  : list jsstring * nat :=
  let end_ := growEnd start in
  let lineEnd := end_ - 1 in
  if lineEnd <=? start then
    (lines ++ [char_at text start], start + 1)
  else if urlMode then
    let segment := slice text start lineEnd in
    let bestBreak := lastBreak segment in
    if (0 <? bestBreak)%Z then
      (lines ++ [slice text start (start + Z.to_nat bestBreak)],
       start + Z.to_nat bestBreak)
    else
      (lines ++ [segment], lineEnd)
  else
    (lines ++ [slice text start lineEnd], lineEnd).

(** The outer [while (start < text.length)].  [None] is a run that has
    not left the loop when the fuel is used up. *)
Fixpoint wrapLoop (fuel : nat) (start : nat) (lines : list jsstring)
  : option (list jsstring) :=
  if start <? length text then
    match fuel with
    | O => None
    | S f =>
        let '(lines', start') := step start lines in
        wrapLoop f start' lines'
    end
  else Some lines.

(** [wrapText(text, maxWidth, measureFn, urlMode)].  [start] grows in
    every round ([step_progress] below), so [length text] rounds are
    enough and the [None] branch is never taken ([wrapLoop_returns]). *)
Definition wrapText : list jsstring :=
  match wrapLoop (length text) 0 [] with
  | Some lines => lines
  | None => []
  end.

End WrapText.

(** ** What the specification asks of the lines *)

(** The measure of a prefix is at most the measure of the whole string. *)
Definition monotone (measureFn : jsstring -> float) : Prop :=
  forall s t, (measureFn s <=? measureFn (s ++ t))%float = true.

(** A percent-encoded triplet [%XX], and a run of one or more of them. *)
Definition is_triplet (t : jsstring) : Prop :=
  exists h1 h2, t = [cu "%"; h1; h2] /\
                hex_digit h1 = true /\ hex_digit h2 = true.

Inductive triplet_run : jsstring -> Prop :=
| run_one t : is_triplet t -> triplet_run t
| run_more t run : is_triplet t -> triplet_run run -> triplet_run (t ++ run).

(** What comes next is a separator or the end. *)
Definition sep_or_end (post : jsstring) : Prop :=
  post = [] \/ exists c post', post = c :: post' /\ url_sep c = true.

(** [boundary candidate e]: an occurrence of the URL-boundary pattern ends
    at index [e] of the candidate.  The occurrence is a separator, or a
    run of triplets that no triplet precedes or follows (a maximal run) and
    that a separator or the end of the candidate follows. *)
Inductive boundary (candidate : jsstring) : nat -> Prop :=
| boundary_sep pre c post :
    candidate = pre ++ c :: post -> url_sep c = true ->
    boundary candidate (length pre + 1)
| boundary_run pre run post :
    candidate = pre ++ run ++ post -> triplet_run run ->
    (forall pre' t, pre = pre' ++ t -> ~ is_triplet t) ->
    (forall t post', post = t ++ post' -> ~ is_triplet t) ->
    sep_or_end post ->
    boundary candidate (length pre + length run).

(** ** The pattern read off directly

    What [breakRe] matches at the head of a string, written without the
    matcher ([match_here_breakRe] proves the two agree). *)

(** The length of the longest run of triplets at the head of [s]. *)
Fixpoint run_len (s : jsstring) : nat :=
  match s with
  | p :: h1 :: h2 :: rest =>
      if (is_char "%" p && hex_digit h1 && hex_digit h2)%bool
      then 3 + run_len rest
      else 0
  | _ => 0
  end.

Definition followed (s : jsstring) : bool :=
  match s with
  | [] => true
  | c :: _ => url_sep c
  end.

Definition break_here (s : jsstring) : option nat :=
  match s with
  | [] => None
  | c :: _ =>
      if url_sep c then Some 1
      else if ((0 <? run_len s) && followed (skipn (run_len s) s))%bool
           then Some (run_len s)
           else None
  end.

(** The two parts of the second alternative of [breakRe]. *)
Definition triplet_re : regex :=
  Seq (Chr "%") (Seq (Class hex_digit) (Class hex_digit)).

Definition ahead_re : regex := Ahead (Or (Class url_sep) EndOfInput).

(** What the loop of [lastBreak] has established when [lastIndex] is [L]
    and [bestBreak] is [B]: every match that starts before [L] ends by [L],
    and [B] is [-1] before the first match and the end of a match, equal to
    [L], after. *)
Definition scanned (seg : jsstring) (L : nat) (B : Z) : Prop :=
  L <= length seg /\
  (forall p l, p < L -> break_here (skipn p seg) = Some l -> p + l <= L) /\
  ((B = (-1)%Z /\ L = 0) \/
   (B = Z.of_nat L /\
    exists p l, break_here (skipn p seg) = Some l /\ p + l = L)).

(** A measure to run examples with: a string of up to three units is 1
    wide, a longer one 100. *)
Definition three_wide (s : jsstring) : float :=
  if length s <=? 3 then 1%float else 100%float.

End Wrap.
Import Wrap.

(* ------------------------------------------------------------------ *)
(** * Numbers *)
(* ------------------------------------------------------------------ *)

Module Num.

(** The [number] holding an integer.  The conversion is exact for
    [|z| <= 2^53], which covers every integer the code converts (bytes,
    quantised channels, sample counts, line counts). *)
Definition of_Z (z : Z) : float :=
  match z with
  | Z0 => 0%float
  | Zpos _ => PrimFloat.of_uint63 (Uint63.of_Z z)
  | Zneg p => (- PrimFloat.of_uint63 (Uint63.of_Z (Zpos p)))%float
  end.

Definition of_nat (n : nat) : float := of_Z (Z.of_nat n).

(** [Math.max(a, b)]: [NaN] if either is [NaN], otherwise the larger, with
    [+0] above [-0]. *)
Definition Math_max (a b : float) : float :=
  if (PrimFloat.is_nan a || PrimFloat.is_nan b)%bool then PrimFloat.nan
  else if (a <? b)%float then b
  else if (b <? a)%float then a
  else if (PrimFloat.is_zero a && PrimFloat.get_sign a)%bool then b
  else a.

(** [x >= 0] *)
Definition nonneg (x : float) : bool := (0 <=? x)%float.

(** A value of the floating-point specification that is zero, or finite
    or infinite with the sign [s] (so not NaN). *)
Definition signed (s : bool) (v : spec_float) : Prop :=
  match v with
  | S754_nan => False
  | S754_zero _ => True
  | S754_infinity s' => s' = s
  | S754_finite s' _ _ => s' = s
  end.

End Num.

(* ------------------------------------------------------------------ *)
(** * Colours *)
(* ------------------------------------------------------------------ *)

(** [type RGB = { r: number; g: number; b: number }], channels being
    integers. *)
Record RGB : Type := mkRGB { r : Z; g : Z; b : Z }.

(** pdf-lib's [rgb(red, green, blue)] colour value. *)
Record PdfColor : Type := rgb { red : float; green : float; blue : float }.

Module Contrast.

Section ContrastColor.

(** The exponentiation operator [**] of the engine, which the language
    defines up to an implementation-approximated result. *)
Variable pow : float -> float -> float.

Definition toLinear (c : Z) : float :=
  let s := (Num.of_Z c / 255)%float in
  if (s <=? 0.04045)%float then (s / 12.92)%float
  else pow ((s + 0.055) / 1.055)%float 2.4%float.

Definition luminance (bg : RGB) : float :=
  (0.2126 * toLinear (r bg) + 0.7152 * toLinear (g bg) +
   0.0722 * toLinear (b bg))%float.

(** [L > 0.179 ? rgb(0, 0, 0) : rgb(1, 1, 1)] *)
Definition contrastColor (bg : RGB) : PdfColor :=
  let L := luminance bg in
  if (0.179 <? L)%float then rgb 0 0 0 else rgb 1 1 1.

(** ** The WCAG 2.1 relative luminance, as the specification words it

    Each channel is scaled to [0, 1] and made linear by the piecewise
    sRGB function; the luminance is the sum weighted by 0.2126, 0.7152
    and 0.0722. *)
Definition srgb_to_linear (channel : Z) : float :=
  let v := (Num.of_Z channel / 255)%float in
  if (v <=? 0.04045)%float then (v / 12.92)%float
  else pow ((v + 0.055) / 1.055)%float 2.4%float.

Definition relative_luminance (c : RGB) : float :=
  (0.2126 * srgb_to_linear (r c) + 0.7152 * srgb_to_linear (g c) +
   0.0722 * srgb_to_linear (b c))%float.

End ContrastColor.

(** A stand-in for [**] to run examples with: [x ** 2.5] whatever the
    exponent. *)
Definition pow_2_5 (x _ : float) : float := (x * x * PrimFloat.sqrt x)%float.

End Contrast.
Import Contrast.

(* ------------------------------------------------------------------ *)
(** * Exceptions *)
(* ------------------------------------------------------------------ *)

(** The outcome of a call that may throw a value of type [E]. *)
Inductive result (E A : Type) : Type :=
| Ok (a : A)
| Throw (e : E).
Arguments Ok {E A} a.
Arguments Throw {E A} e.

Definition bind {E A B : Type} (x : result E A) (f : A -> result E B)
  : result E B :=
  match x with
  | Ok a => f a
  | Throw e => Throw e
  end.

Notation "'do' x <- a ; b" := (bind a (fun x => b))
  (at level 10, x name, a at level 100, b at level 200).

(* ------------------------------------------------------------------ *)
(** * PNG decoding and the vibrant colour ([vibrantColorFromPng]) *)
(* ------------------------------------------------------------------ *)

Module Png.

(** The exceptions the function can raise: [RangeError] from
    [DataView.getUint32] and from [new Uint8Array(n)], [TypeError] from a
    [DecompressionStream] fed a stream it cannot inflate. *)
Inductive error : Type := RangeError | TypeError.

(** A [Uint8Array]: its elements, and the bytes of its underlying
    [ArrayBuffer] that come after its last element.  A [DataView] built from
    [arr.buffer] and [arr.byteOffset] alone sees both. *)
Record Uint8Array : Type := mkArray {
  elements : list Byte.byte;
  beyond : list Byte.byte
}.

Definition of_bytes (l : list Byte.byte) : Uint8Array := mkArray l [].

Definition u8 (x : Byte.byte) : Z := Z.of_N (Byte.to_N x).

(** The byte [z mod 256]. *)
Definition byte_of_Z (z : Z) : Byte.byte :=
  match Byte.of_N (Z.to_N (z mod 256)) with
  | Some x => x
  | None => Byte.x00
  end.

Definition bytes_of (l : list Z) : list Byte.byte := map byte_of_Z l.

(** [l[i]], [undefined] being [None]. *)
Fixpoint zget {A : Type} (l : list A) (i : Z) : option A :=
  match l with
  | [] => None
  | x :: t =>
      if (i <? 0)%Z then None
      else if (i =? 0)%Z then Some x
      else zget t (i - 1)
  end.

(** [l[i] = v] on a typed array: a write outside the array is ignored. *)
Fixpoint zset {A : Type} (l : list A) (i : Z) (v : A) : list A :=
  match l with
  | [] => []
  | x :: t =>
      if (i <? 0)%Z then l
      else if (i =? 0)%Z then v :: t
      else x :: zset t (i - 1) v
  end.

Fixpoint zskip {A : Type} (l : list A) (i : Z) : list A :=
  match l with
  | [] => []
  | _ :: t => if (i <=? 0)%Z then l else zskip t (i - 1)
  end.

Fixpoint ztake {A : Type} (l : list A) (n : Z) : list A :=
  match l with
  | [] => []
  | x :: t => if (n <=? 0)%Z then [] else x :: ztake t (n - 1)
  end.

(** [arr.slice(i, j)] for [0 <= i <= j]. *)
Definition zslice {A : Type} (l : list A) (i j : Z) : list A :=
  ztake (zskip l i) (j - i).

Definition zlength {A : Type} (l : list A) : Z := Z.of_nat (length l).

(** [0, 1, ..., n - 1], the values a counting [for] loop runs through. *)
Definition range (n : Z) : list Z := map Z.of_nat (seq 0 (Z.to_nat n)).

(** [pngBuffer[i]] as a number. *)
Definition at_ (a : Uint8Array) (i : Z) : option Z :=
  option_map u8 (zget (elements a) i).

(** [view.getUint32(off)], big-endian; it throws unless the four bytes lie
    inside the view. *)
Definition getUint32 (a : Uint8Array) (off : Z) : result error Z :=
  let view := elements a ++ beyond a in
  match zget view off, zget view (off + 1), zget view (off + 2),
        zget view (off + 3) with
  | Some b0, Some b1, Some b2, Some b3 =>
      Ok (u8 b0 * 16777216 + u8 b1 * 65536 + u8 b2 * 256 + u8 b3)%Z
  | _, _, _, _ => Throw RangeError
  end.

(** [String.fromCharCode(x)] of an element read: [undefined] gives the
    code unit 0. *)
Definition charCode (x : option Z) : codeunit :=
  match x with
  | Some v => Z.to_N v
  | None => 0%N
  end.

(** The variables of the chunk loop. *)
Record Chunks : Type := mkChunks {
  offset : Z;
  width : Z;
  height : Z;
  bitDepth : option Z;
  colorType : option Z;
  idatChunks : list (list Byte.byte)
}.

Definition chunks0 : Chunks := mkChunks 8 0 0 (Some 0%Z) (Some 0%Z) [].

Definition is_value (x : option Z) (v : Z) : bool :=
  match x with
  | Some y => (y =? v)%Z
  | None => false
  end.

Section Chunks.

Variable pngBuffer : Uint8Array.

(** One round of [while (offset < pngBuffer.length)]: [inl] is the state
    to go on with, [inr] the state at [break]. *)
Definition chunk_step (st : Chunks) : result error (Chunks + Chunks) :=
  let offset := offset st in
  do length <- getUint32 pngBuffer offset;
  let type :=
    [charCode (at_ pngBuffer (offset + 4));
     charCode (at_ pngBuffer (offset + 5));
     charCode (at_ pngBuffer (offset + 6));
     charCode (at_ pngBuffer (offset + 7))] in
  let data := zslice (elements pngBuffer) (offset + 8) (offset + 8 + length) in
  if list_eq_dec N.eq_dec type (js "IHDR") then
    do w <- getUint32 pngBuffer (offset + 8);
    do h <- getUint32 pngBuffer (offset + 12);
    Ok (inl (mkChunks (offset + (12 + length)) w h
               (at_ pngBuffer (offset + 16)) (at_ pngBuffer (offset + 17))
               (idatChunks st)))
  else if list_eq_dec N.eq_dec type (js "IDAT") then
    Ok (inl (mkChunks (offset + (12 + length)) (width st) (height st)
               (bitDepth st) (colorType st) (idatChunks st ++ [data])))
  else if list_eq_dec N.eq_dec type (js "IEND") then
    Ok (inr st)
  else
    Ok (inl (mkChunks (offset + (12 + length)) (width st) (height st)
               (bitDepth st) (colorType st) (idatChunks st))).

(** The chunk loop.  [offset] grows by at least 12 in every round, so
    the fuel [parseChunks] gives is never used up
    ([chunk_loop_fuel]). *)
Fixpoint chunk_loop (fuel : nat) (st : Chunks) : result error Chunks :=
  if (offset st <? zlength (elements pngBuffer))%Z then
    match fuel with
    | O => Ok st
    | S f =>
        do next <- chunk_step st;
        match next with
        | inl st' => chunk_loop f st'
        | inr st' => Ok st'
        end
    end
  else Ok st.

Definition parseChunks : result error Chunks :=
  chunk_loop (length (elements pngBuffer)) chunks0.

End Chunks.

(** ** The layout of a PNG stream

    A chunk is a big-endian length, a four-byte type, the data and a
    four-byte CRC; a stream is an eight-byte signature and then chunks. *)
Record Chunk : Type := mkChunk {
  ctype : list Byte.byte;
  cdata : list Byte.byte;
  crc : list Byte.byte
}.

Definition be32 (n : Z) : list Byte.byte :=
  [byte_of_Z (n / 16777216); byte_of_Z (n / 65536); byte_of_Z (n / 256);
   byte_of_Z n].

Definition encode_chunk (c : Chunk) : list Byte.byte :=
  be32 (zlength (cdata c)) ++ ctype c ++ cdata c ++ crc c.

Definition type_name (c : Chunk) : jsstring :=
  map (fun x => Z.to_N (u8 x)) (ctype c).

Definition type_is (name : string) (c : Chunk) : bool :=
  if list_eq_dec N.eq_dec (type_name c) (js name) then true else false.

(** The type and the CRC have four bytes and the length fits its field. *)
Definition framed (c : Chunk) : Prop :=
  length (ctype c) = 4%nat /\ length (crc c) = 4%nat /\
  (zlength (cdata c) < 4294967296)%Z.

(** The data of an [IHDR] chunk: width, height, bit depth, colour type,
    and the rest (compression, filter and interlace methods). *)
Definition ihdr_data (w h depth colour : Z) (rest : list Byte.byte)
  : list Byte.byte :=
  be32 w ++ be32 h ++ [byte_of_Z depth; byte_of_Z colour] ++ rest.

(** [bitDepth !== 8 || (colorType !== 2 && colorType !== 6)] *)
Definition unsupported (st : Chunks) : bool :=
  (negb (is_value (bitDepth st) 8) ||
   (negb (is_value (colorType st) 2) && negb (is_value (colorType st) 6)))%bool.

(** ** Filter reconstruction *)

(** [(rawByte + p) & 0xff]; with [rawByte] undefined the sum is [NaN] and
    the result 0. *)
Definition add_mask (rawByte : option Z) (p : Z) : Z :=
  match rawByte with
  | Some v => Z.land (v + p) 255
  | None => 0
  end.

(** What a [Uint8Array] element becomes when assigned [rawByte] itself. *)
Definition store (rawByte : option Z) : Z :=
  match rawByte with
  | Some v => v
  | None => 0
  end.

Definition paeth (a b c : Z) : Z :=
  let p := (a + b - c)%Z in
  let pa := Z.abs (p - a) in
  let pb := Z.abs (p - b) in
  let pc := Z.abs (p - c) in
  if ((pa <=? pb) && (pa <=? pc))%Z%bool then a
  else if (pb <=? pc)%Z then b
  else c.

(** [pixels[i]] for an index inside the array. *)
Definition px (pixels : list Z) (i : Z) : Z :=
  match zget pixels i with
  | Some v => v
  | None => 0
  end.

Section Defilter.

Variables (raw : list Z) (channels stride : Z).

(** The body of the inner [for (x ...)] loop. *)
Definition defilter_byte (y : Z) (pixels : list Z) (x : Z) : list Z :=
  let filterByte := zget raw (y * (stride + 1)) in
  let src := (y * (stride + 1) + 1)%Z in
  let dst := (y * stride)%Z in
  let a := if (channels <=? x)%Z then px pixels (dst + x - channels) else 0%Z in
  let b := if (0 <? y)%Z then px pixels (dst - stride + x) else 0%Z in
  let c :=
    if ((channels <=? x) && (0 <? y))%Z%bool
    then px pixels (dst - stride + x - channels) else 0%Z in
  let rawByte := zget raw (src + x) in
  let val :=
    match filterByte with
    | Some 0%Z => store rawByte
    | Some 1%Z => add_mask rawByte a
    | Some 2%Z => add_mask rawByte b
    | Some 3%Z => add_mask rawByte (Z.shiftr (a + b) 1)
    | Some 4%Z => add_mask rawByte (paeth a b c)
    | _ => store rawByte
    end in
  zset pixels (dst + x) val.

Definition defilter_row (pixels : list Z) (y : Z) : list Z :=
  fold_left (defilter_byte y) (range stride) pixels.

(** [pixels], after both loops, from the zero-filled array. *)
Definition defilter (height : Z) : list Z :=
  fold_left defilter_row (range height)
    (repeat 0%Z (Z.to_nat (height * stride))).

End Defilter.

(** ** Sampling and scoring *)

(** A value of the [buckets] map. *)
Record Entry : Type := mkEntry { er : Z; eg : Z; eb : Z; count : Z }.

(** The [buckets] map in insertion order.  Its key [`${qr},${qg},${qb}`]
    determines, and is determined by, the three integers, which stand for
    it here. *)
Definition Buckets := list ((Z * Z * Z) * Entry).

Definition key_eqb (k1 k2 : Z * Z * Z) : bool :=
  let '(a1, b1, c1) := k1 in
  let '(a2, b2, c2) := k2 in
  ((a1 =? a2) && (b1 =? b2) && (c1 =? c2))%Z%bool.

(** [entry.count++] on the entry under [k], or [buckets.set(k, ...)] at the
    end of the map when there is none. *)
Fixpoint bump (k : Z * Z * Z) (fresh : Entry) (m : Buckets) : Buckets :=
  match m with
  | [] => [(k, fresh)]
  | (k', e) :: m' =>
      if key_eqb k k' then (k', mkEntry (er e) (eg e) (eb e) (count e + 1)) :: m'
      else (k', e) :: bump k fresh m'
  end.

(** [Math.round(v / 8) * 8] for a byte [v]: [v / 8] is exact and rounding
    takes halves upwards. *)
Definition quantize (v : Z) : Z := ((v + 4) / 8 * 8)%Z.

(** A sampled pixel passes the alpha, grey, black and white tests. *)
Definition survives (r g b a : Z) : bool :=
  let max := Z.max (Z.max r g) b in
  let min := Z.min (Z.min r g) b in
  (negb (a <? 200) &&
   negb ((max - min <? 30) || (max <? 40) || (240 <? max)))%Z%bool.

Section Sampling.

Variables (pixels : list Z) (channels : Z).

Definition alpha_at (i : Z) : Z :=
  if (channels =? 4)%Z then px pixels (i * channels + 3) else 255%Z.

Definition pixel_survives (i : Z) : bool :=
  let base := (i * channels)%Z in
  survives (px pixels base) (px pixels (base + 1)) (px pixels (base + 2))
    (alpha_at i).

(** The body of the sampling loop. *)
Definition sample (buckets : Buckets) (i : Z) : Buckets :=
  let base := (i * channels)%Z in
  let r := px pixels base in
  let g := px pixels (base + 1) in
  let b := px pixels (base + 2) in
  let a := alpha_at i in
  if (a <? 200)%Z then buckets
  else
    let max := Z.max (Z.max r g) b in
    let min := Z.min (Z.min r g) b in
    if ((max - min <? 30) || (max <? 40) || (240 <? max))%Z%bool then buckets
    else
      let qr := quantize r in
      let qg := quantize g in
      let qb := quantize b in
      bump (qr, qg, qb) (mkEntry qr qg qb 1) buckets.

(** [for (let i = 0; i < width * height; i += step)]; [step >= 1], so
    [width * height] rounds are enough. *)
Fixpoint sample_loop (fuel : nat) (total step i : Z) (buckets : Buckets)
  : Buckets :=
  if (i <? total)%Z then
    match fuel with
    | O => buckets
    | S f => sample_loop f total step (i + step) (sample buckets i)
    end
  else buckets.

End Sampling.

Section Vibrant.

(** What the platform provides: the inflate of a zlib stream
    ([DecompressionStream("deflate")]; [None] is a stream it rejects),
    [Math.log1p], and the largest length [new Uint8Array(n)] accepts,
    which the language leaves to the engine. *)
Variable inflate : list Byte.byte -> option (list Byte.byte).
Variable log1p : float -> float.
Variable maxByteLength : Z.

Definition score (e : Entry) : float :=
  let max := (Num.of_Z (Z.max (Z.max (er e) (eg e)) (eb e)) / 255)%float in
  let min := (Num.of_Z (Z.min (Z.min (er e) (eg e)) (eb e)) / 255)%float in
  let l := ((max + min) / 2)%float in
  let s := ((max - min) / (1 - PrimFloat.abs (2 * l - 1)))%float in
  (s * log1p (Num.of_Z (count e)))%float.

(** The body of the loop over [buckets.values()], on [best] and
    [bestScore]. *)
Definition pick (acc : RGB * float) (e : Entry) : RGB * float :=
  let score := score e in
  if (snd acc <? score)%float then (mkRGB (er e) (eg e) (eb e), score)
  else acc.

Definition best_of (buckets : Buckets) : RGB :=
  fst (fold_left pick (map snd buckets) (mkRGB 128 128 128, (-1)%float)).

Definition vibrantColorFromPng (pngBuffer : Uint8Array) : result error RGB :=
  do st <- parseChunks pngBuffer;
  if unsupported st then Ok (mkRGB 0 0 0)
  else
    let channels := if is_value (colorType st) 6 then 4%Z else 3%Z in
    let compressed := concat (idatChunks st) in
    match inflate compressed with
    | None => Throw TypeError
    | Some decompressed =>
        let raw := map u8 decompressed in
        let stride := (width st * channels)%Z in
        if (maxByteLength <? height st * stride)%Z then Throw RangeError
        else
          let pixels := defilter raw channels stride (height st) in
          let total := (width st * height st)%Z in
          let step := Z.max 1 (total / 10000) in
          let buckets :=
            sample_loop pixels channels (Z.to_nat total) total step 0 [] in
          match buckets with
          | [] => Ok (mkRGB 0 0 0)
          | _ :: _ => Ok (best_of buckets)
          end
    end.

End Vibrant.

(** ** Inputs to run examples with *)

Local Open Scope Z_scope.

Definition signature : list Byte.byte :=
  bytes_of [137; 80; 78; 71; 13; 10; 26; 10].

(** An [IHDR] chunk for a [w] by [h] image ([w], [h] below 256). *)
Definition ihdr (w h depth colour : Z) : list Byte.byte :=
  bytes_of [0; 0; 0; 13; 73; 72; 68; 82; 0; 0; 0; w; 0; 0; 0; h;
            depth; colour; 0; 0; 0; 1; 2; 3; 4].

Definition idat (data : list Z) : list Byte.byte :=
  bytes_of ([0; 0; 0; zlength data; 73; 68; 65; 84] ++ data ++ [9; 9; 9; 9]).

Definition iend : list Byte.byte :=
  bytes_of [0; 0; 0; 0; 73; 69; 78; 68; 174; 66; 96; 130].

(** A file cut one byte after the signature. *)
Definition truncated : Uint8Array := of_bytes (signature ++ bytes_of [0]).

(** A 16-bit image, and a 2 by 1 image of 8-bit RGB. *)
Definition deep : Uint8Array := of_bytes (signature ++ ihdr 2 1 16 2 ++ iend).

Definition small : Uint8Array :=
  of_bytes (signature ++ ihdr 2 1 8 2 ++ idat [1; 2; 3] ++ iend).

(** Stand-ins for the platform's inflate: one row of two grey pixels, and
    one row, with the Sub filter, of a red pixel twice. *)
Definition grey_row (_ : list Byte.byte) : option (list Byte.byte) :=
  Some (bytes_of [0; 90; 90; 90; 100; 100; 100]).

Definition red_row (_ : list Byte.byte) : option (list Byte.byte) :=
  Some (bytes_of [1; 200; 20; 20; 0; 0; 0]).

End Png.

(* ------------------------------------------------------------------ *)
(** * Page layout ([computeLayout]) *)
(* ------------------------------------------------------------------ *)

Module ElementRect.
Record t : Type := mk {
  left : float;
  top : float;
  right : float;
  bottom : float;
  width : float;
  height : float;
  fullHeight : float;
  fullWidth : float;
  backgroundColor : jsstring
}.
End ElementRect.

Module Spacing.
Record t : Type := mk {
  top : float;
  right : float;
  bottom : float;
  left : float
}.

(** Every field is finite and at least 0. *)
Definition valid (s : t) : Prop :=
  Forall (fun x => PrimFloat.is_finite x = true /\ Num.nonneg x = true)
    [top s; right s; bottom s; left s].
End Spacing.

Module Layout.

Record Layout : Type := mkLayout {
  pageWidth : float;
  pageHeight : float;
  margin : Spacing.t;
  padding : Spacing.t;
  bottomMargin : float;
  contentWidth : float;
  contentHeight : float;
  paddedWidth : float;
  paddedHeight : float;
  textX : float;
  textPadX : float;
  labelFontSize : float;
  urlFontSize : float;
  topBannerFontSize : float;
  labelRowH : float;
  urlRowH : float;
  labelToUrlGap : float;
  textBlockPad : float;
  urlLines : list jsstring
}.

Definition PX_TO_PT : float := (72 / 96)%float.

Section ComputeLayout.

(** [fontMono.widthOfTextAtSize(s, size)] of the embedded font. *)
Variable widthOfTextAtSize : jsstring -> float -> float.

Definition computeLayout (rect : ElementRect.t) (url : jsstring)
  (marginOpt paddingOpt : option Spacing.t) : Layout :=
  let contentWidth := (ElementRect.width rect * PX_TO_PT)%float in
  let contentHeight := (ElementRect.height rect * PX_TO_PT)%float in
  let padding :=
    match paddingOpt with
    | Some p => p
    | None => Spacing.mk 20 20 20 20
    end in
  let margin :=
    match marginOpt with
    | Some m => m
    | None => Spacing.mk 16 16 16 16
    end in
  let labelFontSize := 9%float in
  let urlFontSize := 12%float in
  let lineGap := 2%float in
  let labelRowH := (labelFontSize + lineGap)%float in
  let urlRowH := (urlFontSize + lineGap)%float in
  let textBlockPad := 5%float in
  let labelToUrlGap := 4%float in
  let topBannerFontSize := 9%float in
  let textPadX := 10%float in
  let paddedWidth :=
    (contentWidth + Spacing.left padding + Spacing.right padding)%float in
  let textX := (Spacing.left margin + textPadX)%float in
  let availableTextWidth := (paddedWidth - textPadX * 2)%float in
  let urlLines :=
    wrapText url availableTextWidth
      (fun s => widthOfTextAtSize s urlFontSize) true in
  let bottomTextHeight :=
    (textBlockPad + labelRowH + labelToUrlGap +
     Num.of_nat (length urlLines) * urlRowH)%float in
  let bottomMargin := Num.Math_max (Spacing.bottom margin) bottomTextHeight in
  let paddedHeight :=
    (contentHeight + Spacing.top padding + Spacing.bottom padding)%float in
  let pageWidth :=
    (paddedWidth + Spacing.left margin + Spacing.right margin)%float in
  let pageHeight :=
    (paddedHeight + Spacing.top margin + bottomMargin)%float in
  mkLayout pageWidth pageHeight margin padding bottomMargin contentWidth
    contentHeight paddedWidth paddedHeight textX textPadX labelFontSize
    urlFontSize topBannerFontSize labelRowH urlRowH labelToUrlGap
    textBlockPad urlLines.

End ComputeLayout.

(** Inputs to run examples with: a monospaced font whose glyphs are 0.6
    of the size wide, and a 400 by 300 pixel element. *)
Definition courier (s : jsstring) (size : float) : float :=
  (Num.of_nat (length s) * (size * 0.6))%float.

Definition rect400 : ElementRect.t :=
  ElementRect.mk 10 20 410 320 400 300 2000 1920 (js "rgb(255, 255, 255)").

(** A URL that takes seven lines under that element. *)
Definition long_url : jsstring :=
  js "https://example.com/archive/2024/reports/quarterly/finance/summary/index.html?section=overview&page=12&sort=ascending&filter=none&highlight=true&token=0123456789abcdef0123456789abcdef0123456789abcdef&mode=print".

End Layout.

(* ------------------------------------------------------------------ *)
(** * Gradient transparency fix ([fixGradientTransparency]) *)
(* ------------------------------------------------------------------ *)

Module Gradient.

(** [\s]: the white space and line terminator code units. *)
Definition is_space (c : codeunit) : bool :=
  (in_range 9 13 c || N.eqb c 32 || N.eqb c 160 || N.eqb c 5760 ||
   in_range 8192 8202 c || N.eqb c 8232 || N.eqb c 8233 || N.eqb c 8239 ||
   N.eqb c 8287 || N.eqb c 12288 || N.eqb c 65279)%N%bool.

(** [\d] *)
Definition digit (c : codeunit) : bool := in_range (cu "0") (cu "9") c.

Fixpoint seqs (l : list regex) : regex :=
  match l with
  | [] => Empty
  | [r] => r
  | r :: l' => Seq r (seqs l')
  end.

Definition lit (s : string) : regex := Lit (list_ascii_of_string s).

(** [\s*] and [\s+] *)
Definition ws : regex := Star (Class is_space).
Definition ws1 : regex := Plus (Class is_space).

(** [/rgba\(\s*0\s*,\s*0\s*,\s*0\s*,\s*0\s*\)|rgba\(\s*0\s+0\s+0\s*\/\s*0[^)]*\)/g] *)
Definition TRANSPARENT_RE : regex :=
  Or (seqs [lit "rgba("; ws; Chr "0"; ws; Chr ","; ws; Chr "0"; ws; Chr ",";
            ws; Chr "0"; ws; Chr ","; ws; Chr "0"; ws; Chr ")"])
     (seqs [lit "rgba("; ws; Chr "0"; ws1; Chr "0"; ws1; Chr "0"; ws;
            Chr "/"; ws; Chr "0";
            Star (Class (fun c => negb (is_char ")" c))); Chr ")"]).

(** [/rgba?\(\s*(\d+)\s*[, ]\s*(\d+)\s*[, ]\s*(\d+)(?:\s*[,/]\s*[\d.]+)?\s*\)/g] *)
Definition colorRe : regex :=
  seqs [lit "rgb"; Opt (Chr "a"); Chr "("; ws;
        Group 1 (Plus (Class digit)); ws;
        Class (fun c => is_char "," c || is_char " " c)%bool; ws;
        Group 2 (Plus (Class digit)); ws;
        Class (fun c => is_char "," c || is_char " " c)%bool; ws;
        Group 3 (Plus (Class digit));
        Opt (seqs [ws; Class (fun c => is_char "," c || is_char "/" c)%bool;
                   ws; Plus (Class (fun c => digit c || is_char "." c)%bool)]);
        ws; Chr ")"].

(** [`rgba(${r}, ${g}, ${b}, 0)`] *)
Definition toRgba0 (r g b : jsstring) : jsstring :=
  js "rgba(" ++ r ++ js ", " ++ g ++ js ", " ++ b ++ js ", 0)".

Definition Color := (jsstring * jsstring * jsstring)%type.

(** The loop that fills [opaqueColors]: [lastIndex] is [colorRe.lastIndex];
    [TRANSPARENT_RE.lastIndex] is 0 before every [test(full)], having been
    reset after the previous one.  Every match of [colorRe] is at least one
    unit long, so [length bg] rounds and the failing [exec] fit in the fuel
    [opaqueColorsOf] gives. *)
Fixpoint collect (fuel : nat) (bg : jsstring) (lastIndex : nat)
  (opaqueColors : list Color) : list Color :=
  match fuel with
  | O => opaqueColors
  | S f =>
      match exec colorRe bg lastIndex with
      | (Some m, li) =>
          let full := matched m in
          collect f bg li
            (if fst (test TRANSPARENT_RE full 0) then opaqueColors
             else opaqueColors ++ [(group 1 m, group 2 m, group 3 m)])
      | (None, _) => opaqueColors
      end
  end.

Definition opaqueColorsOf (bg : jsstring) : list Color :=
  collect (S (length bg)) bg 0 [].

(** The loop body for one element whose computed [background-image] is
    [bg], [tli] being [TRANSPARENT_RE.lastIndex] on entry: the value
    assigned to [el.style.backgroundImage], if any, and [lastIndex] on
    exit. *)
Definition fixBackground (tli : nat) (bg : jsstring) : option jsstring * nat :=
  if negb (includes (js "gradient") bg) then (None, tli)
  else
    let '(found, tli1) := test TRANSPARENT_RE bg tli in
    if negb found then (None, tli1)
    else
      match opaqueColorsOf bg with
      | [] => (None, 0)
      | (r, g, b) :: _ => (Some (replace TRANSPARENT_RE (toRgba0 r g b) bg), 0)
      end.

(** An element: its computed [background-image] and what the function has
    assigned to its inline style. *)
Record Element : Type := mkElement {
  computedBackgroundImage : jsstring;
  styleBackgroundImage : option jsstring
}.

Fixpoint fixElements (tli : nat) (els : list Element) : list Element :=
  match els with
  | [] => []
  | el :: rest =>
      let '(fixed, tli') := fixBackground tli (computedBackgroundImage el) in
      match fixed with
      | Some v => mkElement (computedBackgroundImage el) (Some v)
      | None => el
      end :: fixElements tli' rest
  end.

(** [fixGradientTransparency(page)] on the elements of the page. *)
Definition fixGradientTransparency (els : list Element) : list Element :=
  fixElements 0 els.

(** What the function does to one element, the pattern's [lastIndex] being
    0 ([fixGradientTransparency_map]). *)
Definition fixElement (el : Element) : Element :=
  match fst (fixBackground 0 (computedBackgroundImage el)) with
  | Some v => mkElement (computedBackgroundImage el) (Some v)
  | None => el
  end.

(** The string has a transparent-black stop. *)
Definition has_transparent (bg : jsstring) : bool :=
  fst (test TRANSPARENT_RE bg 0).

(** ** The rewriting the specification words describe

    Each transparent-black stop takes the channels of the opaque stop
    nearest to it in the gradient's list of colour stops (the earlier one
    when two are equally near). *)

(** The colour tokens of [bg] in order: transparent-black ([None]) or
    opaque with its channels. *)
Fixpoint stops (fuel : nat) (bg : jsstring) (lastIndex : nat)
  : list (option Color) :=
  match fuel with
  | O => []
  | S f =>
      match exec colorRe bg lastIndex with
      | (Some m, li) =>
          (if fst (test TRANSPARENT_RE (matched m) 0) then None
           else Some (group 1 m, group 2 m, group 3 m)) :: stops f bg li
      | (None, _) => []
      end
  end.

(** The first opaque stop of a list. *)
Fixpoint first_opaque (l : list (option Color)) : option (nat * Color) :=
  match l with
  | [] => None
  | Some c :: _ => Some (0, c)
  | None :: l' =>
      match first_opaque l' with
      | Some (d, c) => Some (S d, c)
      | None => None
      end
  end.

(** The opaque stop nearest to a stop, given the stops before it (nearest
    first) and after it. *)
Definition nearest (before after : list (option Color)) : option Color :=
  match first_opaque before, first_opaque after with
  | Some (d1, c1), Some (d2, c2) => if d2 <? d1 then Some c2 else Some c1
  | Some (_, c1), None => Some c1
  | None, Some (_, c2) => Some c2
  | None, None => None
  end.

(** The nearest opaque stop for each transparent-black stop, in order. *)
Fixpoint nearest_colors (before after : list (option Color))
  : list (option Color) :=
  match after with
  | [] => []
  | Some c :: rest => nearest_colors (Some c :: before) rest
  | None :: rest => nearest before rest :: nearest_colors (None :: before) rest
  end.

(** Replace the successive matches of [TRANSPARENT_RE] by the successive
    replacement texts. *)
Fixpoint replace_each (fuel : nat) (reps : list (option Color)) (s : jsstring)
  : jsstring :=
  match fuel with
  | O => s
  | S f =>
      match search TRANSPARENT_RE s 0, reps with
      | Some m, Some (r, g, b) :: reps' =>
          firstn (index m) s ++ toRgba0 r g b ++
          replace_each f reps' (skipn (match_end m) s)
      | Some m, None :: reps' =>
          firstn (match_end m) s ++ replace_each f reps' (skipn (match_end m) s)
      | _, _ => s
      end
  end.

Definition nearestOpaqueFix (bg : jsstring) : jsstring :=
  replace_each (S (length bg))
    (nearest_colors [] (stops (S (length bg)) bg 0)) bg.

(** A gradient from red over green to transparent, as the browser
    serialises it. *)
Definition red_green_transparent : jsstring :=
  js "linear-gradient(rgb(255, 0, 0), rgb(0, 255, 0), rgba(0, 0, 0, 0))".

End Gradient.

(* ------------------------------------------------------------------ *)
(** * The capture loop of [main] *)
(* ------------------------------------------------------------------ *)

Module Orchestrator.

(** A thrown value: a [SelectorNotFoundError], any other [Error] with its
    [message], or a value that is not an [Error], with what [String(v)]
    gives for it. *)
Inductive thrown : Type :=
| SelectorNotFoundError (message : jsstring)
| OtherError (message : jsstring)
| NotAnError (text : jsstring).

Record Selectors : Type := mkSelectors {
  main_selector : option jsstring;
  wait : option (list jsstring);
  remove : option (list jsstring)
}.

Record Document : Type := mkDocument {
  margin : option Spacing.t;
  padding : option Spacing.t
}.

Record Item : Type := mkItem {
  url : jsstring;
  selectors : option Selectors;
  document : option Document
}.

Record Body : Type := mkBody {
  name : option jsstring;
  body_selectors : option Selectors;
  body_document : option Document;
  items : list Item
}.

(** [CaptureOptions]; [selector] is what [(a ?? b)!] evaluates to, which is
    [undefined] when neither side gives one. *)
Record CaptureOptions : Type := mkOptions {
  selector : option jsstring;
  opt_wait : list jsstring;
  opt_remove : list jsstring;
  opt_margin : option Spacing.t;
  opt_padding : option Spacing.t
}.

(** [o?.f] and [a ?? b] *)
Definition field {A B : Type} (o : option A) (f : A -> option B) : option B :=
  match o with
  | Some a => f a
  | None => None
  end.

Definition orElse {A : Type} (a b : option A) : option A :=
  match a with
  | Some _ => a
  | None => b
  end.

Definition orEmpty {A : Type} (a : option (list A)) : list A :=
  match a with
  | Some l => l
  | None => []
  end.

Definition optionsOf (body : Body) (item : Item) : CaptureOptions :=
  mkOptions
    (orElse (field (selectors item) main_selector)
            (field (body_selectors body) main_selector))
    (orEmpty (orElse (field (selectors item) wait)
                     (field (body_selectors body) wait)))
    (orEmpty (orElse (field (selectors item) remove)
                     (field (body_selectors body) remove)))
    (orElse (field (document item) margin) (field (body_document body) margin))
    (orElse (field (document item) padding)
            (field (body_document body) padding)).

Definition MAX_ATTEMPTS : nat := 3.

(** [!(err instanceof SelectorNotFoundError)]: the loop goes on to the next
    attempt after such an error. *)
Definition retryable (err : thrown) : bool :=
  match err with
  | SelectorNotFoundError _ => false
  | _ => true
  end.

(** [lastError instanceof Error ? lastError.message : String(lastError)] *)
Definition messageOf (lastError : option thrown) : jsstring :=
  match lastError with
  | Some (SelectorNotFoundError m) => m
  | Some (OtherError m) => m
  | Some (NotAnError t) => t
  | None => js "undefined"
  end.

(** [new Error(`Failed to capture ${item.url} after ${MAX_ATTEMPTS} attempts: ${message}`)] *)
Definition captureFailure (item : Item) (lastError : option thrown) : thrown :=
  OtherError
    (js "Failed to capture " ++ url item ++ js " after " ++
     js (NilEmpty.string_of_uint (Nat.to_uint MAX_ATTEMPTS)) ++
     js " attempts: " ++ messageOf lastError).

Section Main.

(** The browser behind the connection, as a state the calls transform;
    [capturePageInput] returns a page input or throws. *)
Variables (World PageInput : Type).
Variable capturePageInput :
  World -> jsstring -> CaptureOptions -> result thrown PageInput * World.
(** [browser.close().catch(() => {})], and what follows the loop
    ([buildMultiPagePdf] and [put]). *)
Variable close : World -> World.
Variable deliver : list PageInput -> World -> result thrown jsstring * World.

(** A record of one call of [capturePageInput]; the list of calls is
    kept beside the state to state what the loop did. *)
Record Call : Type := mkCall {
  call_url : jsstring;
  call_attempt : nat;
  call_outcome : result thrown PageInput
}.

(** How the attempts of one item end: [captured] set, [err] rethrown, or
    the loop left with [captured] still false. *)
Inductive ItemResult : Type :=
| Captured (p : PageInput)
| Rethrown (err : thrown)
| NotCaptured (lastError : option thrown).

(** [for (let attempt = 1; attempt <= MAX_ATTEMPTS; attempt++)], over the
    values [attempt] is still to take. *)
Fixpoint attempt_loop (attempts : list nat) (item : Item)
  (options : CaptureOptions) (lastError : option thrown) (w : World)
  (log : list Call) : ItemResult * World * list Call :=
  match attempts with
  | [] => (NotCaptured lastError, w, log)
  | attempt :: rest =>
      let '(out, w') := capturePageInput w (url item) options in
      let log' := log ++ [mkCall (url item) attempt out] in
      match out with
      | Ok p => (Captured p, w', log')
      | Throw (SelectorNotFoundError m) =>
          (Rethrown (SelectorNotFoundError m), w', log')
      | Throw err => attempt_loop rest item options (Some err) w' log'
      end
  end.

Definition captureItem (body : Body) (item : Item) (w : World)
  (log : list Call) : ItemResult * World * list Call :=
  attempt_loop (seq 1 MAX_ATTEMPTS) item (optionsOf body item) None w log.

(** [for (const item of body.items)] *)
Fixpoint item_loop (body : Body) (todo : list Item)
  (pageInputs : list PageInput) (w : World) (log : list Call)
  : result thrown (list PageInput) * World * list Call :=
  match todo with
  | [] => (Ok pageInputs, w, log)
  | item :: rest =>
      match captureItem body item w log with
      | (Captured p, w', log') =>
          item_loop body rest (pageInputs ++ [p]) w' log'
      | (Rethrown err, w', log') => (Throw err, w', log')
      | (NotCaptured lastError, w', log') =>
          (Throw (captureFailure item lastError), w', log')
      end
  end.

(** [main], from the connected browser on: the loop, the [finally], and
    the delivery of the document when the loop has not thrown. *)
Definition main (body : Body) (w : World)
  : result thrown jsstring * World * list Call :=
  let '(res, w1, log) := item_loop body (items body) [] w [] in
  let w2 := close w1 in
  match res with
  | Throw err => (Throw err, w2, log)
  | Ok pageInputs =>
      let '(out, w3) := deliver pageInputs w2 in
      (out, w3, log)
  end.

End Main.

Arguments Rethrown {PageInput} err.
Arguments NotCaptured {PageInput} lastError.

(** A browser to run examples with, which fails twice with a time-out and
    then answers: its state is the number of calls it has served. *)
Definition flaky (w : nat) (_ : jsstring) (_ : CaptureOptions)
  : result thrown nat * nat :=
  (if w <? 2 then Throw (OtherError (js "Navigation timeout")) else Ok w, S w).

Definition one_item : Item := mkItem (js "https://example.com/") None None.

Definition one_body : Body :=
  mkBody None (Some (mkSelectors (Some (js "#main")) None None)) None [one_item].

End Orchestrator.

(* ------------------------------------------------------------------ *)
(** * K-sortable identifiers ([src/utils/ksuid.ts]) *)
(* ------------------------------------------------------------------ *)

Module Ksuid.

Import Png.

(** What the functions throw: an [Error] with its message, or the
    [RangeError] of a [DataView] access outside the buffer. *)
Inductive error : Type :=
| Error (message : jsstring)
| ViewRangeError.

Definition BASE62 : jsstring :=
  js "0123456789ABCDEFGHIJKLMNOPQRSTUVWXYZabcdefghijklmnopqrstuvwxyz".

(** [s.charAt(i)] for a number [i] that is an integer: the empty string
    outside the string. *)
Definition charAt (s : jsstring) (i : Z) : jsstring :=
  if (i <? 0)%Z then [] else char_at s (Z.to_nat i).

(** [view.getUint32(off, false)] on a view over the whole buffer. *)
Definition getUint32 (view : list Byte.byte) (off : Z) : result error Z :=
  match Png.getUint32 (of_bytes view) off with
  | Ok v => Ok v
  | Throw _ => Throw ViewRangeError
  end.

(** The body of [for (const c of bp)], on [quotient] and [remainder]: one
    step of the long division of the digits [bp], most significant first
    in base [srcBase], by [dstBase].  The [BigInt] operators [/] and [%]
    truncate. *)
Definition divide_step (srcBase dstBase : Z) (acc : list Z * Z) (c : Z)
  : list Z * Z :=
  let '(quotient, remainder) := acc in
  let value := (c + remainder * srcBase)%Z in
  let digit := Z.quot value dstBase in
  (if (negb (length quotient =? 0) || negb (digit =? 0)%Z)%bool
   then quotient ++ [digit] else quotient,
   Z.rem value dstBase).

Definition divide (srcBase dstBase : Z) (bp : list Z) : list Z * Z :=
  fold_left (divide_step srcBase dstBase) bp ([], 0%Z).

(** [while (bp.length !== 0)] of [base62].  Every round divides the number
    [bp] holds by 62, and a number of five 32-bit words is used up after
    27 rounds, so the fuel [base62] gives is never used up
    ([base62_loop_returns]). *)
Fixpoint base62_loop (fuel : nat) (bp : list Z) (n : Z) (str : list jsstring)
  : option (list jsstring) :=
  match bp with
  | [] => Some str
  | _ :: _ =>
      match fuel with
      | O => None
      | S f =>
          let '(quotient, remainder) := divide 4294967296 62 bp in
          let n' := (n - 1)%Z in
          base62_loop f quotient n' (zset str n' (charAt BASE62 remainder))
      end
  end.

Definition base62 (view : list Byte.byte) : result error jsstring :=
  if negb (length view =? 20) then Throw (Error (js "incorrect buffer size"))
  else
    let str := repeat (js "0") 27 in
    do w0 <- getUint32 view 0;
    do w1 <- getUint32 view 4;
    do w2 <- getUint32 view 8;
    do w3 <- getUint32 view 12;
    do w4 <- getUint32 view 16;
    let bp := [w0; w1; w2; w3; w4] in
    match base62_loop (S (32 * length bp)) bp 27 str with
    | Some str' => Ok (concat str')
    | None => Ok []
    end.

(** The three ranges of the [for] loop of [debase62]: the value of a
    symbol, if it is one. *)
Definition symbol_value (c : codeunit) : option Z :=
  let v := Z.of_N c in
  if ((48 <=? v) && (v <=? 57))%Z%bool then Some (v - 48)%Z
  else if ((65 <=? v) && (v <=? 90))%Z%bool then Some (10 + (v - 65))%Z
  else if ((97 <=? v) && (v <=? 122))%Z%bool then Some (36 + (v - 97))%Z
  else None.

(** [`Unexpected symbol "${str.charAt(i)}"`] *)
Definition unexpected_symbol (c : codeunit) : error :=
  Error (js "Unexpected symbol " ++ [34%N] ++ [c] ++ [34%N]).

(** The [for] loop that fills [bp]; it throws at the first code unit that
    is no symbol. *)
Fixpoint symbols (str : jsstring) : result error (list Z) :=
  match str with
  | [] => Ok []
  | c :: rest =>
      match symbol_value c with
      | Some v => do vs <- symbols rest; Ok (v :: vs)
      | None => Throw (unexpected_symbol c)
      end
  end.

(** [x >> k] for an integer [x]: the shift is applied to [ToInt32(x)]. *)
Definition ToInt32 (x : Z) : Z :=
  let m := (x mod 4294967296)%Z in
  if (2147483648 <=? m)%Z then (m - 4294967296)%Z else m.

Definition sar (x k : Z) : Z := Z.shiftr (ToInt32 x) k.

(** [while (bp.length !== 0)] of [debase62].  The first division leaves
    fewer digits than it was given, and so does every later one, so
    [length bp] rounds are enough ([debase62_loop_returns]). *)
Fixpoint debase62_loop (fuel : nat) (bp : list Z) (n : Z)
  (dst : list Byte.byte) : option (result error (list Byte.byte)) :=
  match bp with
  | [] => Some (Ok dst)
  | _ :: _ =>
      match fuel with
      | O => None
      | S f =>
          let '(quotient, remainder) := divide 62 4294967296 bp in
          if (n <? 4)%Z then Some (Throw (Error (js "short buffer")))
          else
            let dst1 := zset dst (n - 4) (byte_of_Z (sar remainder 24)) in
            let dst2 := zset dst1 (n - 3) (byte_of_Z (sar remainder 16)) in
            let dst3 := zset dst2 (n - 2) (byte_of_Z (sar remainder 8)) in
            let dst4 := zset dst3 (n - 1) (byte_of_Z remainder) in
            debase62_loop f quotient (n - 4) dst4
      end
  end.

Definition debase62 (str : jsstring) : result error (list Byte.byte) :=
  if negb (length str =? 27)
  then Throw (Error (js "Expected 27 characters long base62 string"))
  else
    do bp <- symbols str;
    let dst := repeat Byte.x00 20 in
    match debase62_loop (S (length bp)) bp 20 dst with
    | Some out => out
    | None => Ok dst
    end.

(** ** Numbers as the functions use them *)

(** [Math.round(x)]: [x] itself when it is not finite or is an integer,
    otherwise the integer nearest to it, the larger one at a tie, with the
    sign of [x] when that integer is zero.  A finite float is
    [m * 2 ^ e]; with [e < 0] the integer is [floor (x + 1/2)]. *)
Definition Math_round (x : float) : float :=
  match Prim2SF x with
  | S754_finite s m e =>
      if (0 <=? e)%Z then x
      else
        let num := if s then Z.neg m else Z.pos m in
        let r := ((2 * num + 2 ^ (- e)) / 2 ^ (1 - e))%Z in
        if (r =? 0)%Z then (if s then (-0)%float else 0%float)
        else Num.of_Z r
  | _ => x
  end.

(** [ToUint32(x)], which [setUint32] applies to the number it is given: 0
    for [NaN], the infinities and the zeros, otherwise [x] truncated and
    reduced modulo [2 ^ 32]. *)
Definition ToUint32 (x : float) : Z :=
  match Prim2SF x with
  | S754_finite s m e =>
      let mag :=
        if (0 <=? e)%Z then (Z.pos m * 2 ^ e)%Z else (Z.pos m / 2 ^ (- e))%Z in
      ((if s then - mag else mag) mod 4294967296)%Z
  | _ => 0%Z
  end.

Definition toEpoch (timestamp : float) (desc : bool) : float :=
  if negb desc then (Math_round (timestamp / 1000) - 14e8)%float
  else (4294967295 - (Math_round (timestamp / 1000) - 14e8))%float.

Definition fromEpoch (timestamp : float) (desc : bool) : float :=
  if negb desc then ((14e8 + timestamp) * 1000)%float
  else ((4294967295 - timestamp + 14e8) * 1000)%float.

(** ** [generate] and [parse] *)

(** [view.setUint8(offset, b)]; it throws outside the buffer. *)
Definition setUint8 (view : list Byte.byte) (offset : Z) (b : Byte.byte)
  : result error (list Byte.byte) :=
  if ((0 <=? offset) && (offset <? zlength view))%Z%bool
  then Ok (zset view offset b)
  else Throw ViewRangeError.

(** [view.setUint32(offset, value, false)] *)
Definition setUint32 (view : list Byte.byte) (offset : Z) (value : float)
  : result error (list Byte.byte) :=
  let v := ToUint32 value in
  if ((0 <=? offset) && (offset + 4 <=? zlength view))%Z%bool
  then
    Ok (zset (zset (zset (zset view offset (byte_of_Z (v / 16777216)))
                      (offset + 1) (byte_of_Z (v / 65536)))
                (offset + 2) (byte_of_Z (v / 256)))
          (offset + 3) (byte_of_Z v))
  else Throw ViewRangeError.

(** [for (const b of Array.from(rnd)) view.setUint8(offset++, b)] *)
Fixpoint set_bytes (view : list Byte.byte) (offset : Z) (rnd : list Byte.byte)
  : result error (list Byte.byte) :=
  match rnd with
  | [] => Ok view
  | b :: rest =>
      do view' <- setUint8 view offset b;
      set_bytes view' (offset + 1) rest
  end.

(** A string in a condition: [undefined] and the empty string are false. *)
Definition truthy (prefix : option jsstring) : bool :=
  match prefix with
  | Some (_ :: _) => true
  | _ => false
  end.

Definition text_of (prefix : option jsstring) : jsstring :=
  match prefix with
  | Some p => p
  | None => js "undefined"
  end.

(** [generate(prefix, desc, timestamp)], [rnd] being what [randomBytes()]
    returns. *)
Definition generate (prefix : option jsstring) (desc : bool)
  (timestamp : float) (rnd : list Byte.byte) : result error jsstring :=
  let view := repeat Byte.x00 20 in
  let ts := toEpoch timestamp desc in
  do view1 <- setUint32 view 0 ts;
  do view2 <- set_bytes view1 4 rnd;
  do id <- base62 view2;
  if desc then
    Ok (if truthy prefix then text_of prefix ++ js "_z" ++ id else js "z" ++ id)
  else
    Ok (if truthy prefix then text_of prefix ++ js "_" ++ id else id).

(** [s.indexOf(p)] from index [i] on, [-1] being [None]. *)
Fixpoint indexOf (p s : jsstring) (i : nat) : option nat :=
  if starts_with p s then Some i
  else
    match s with
    | [] => None
    | _ :: t => indexOf p t (S i)
    end.

(** What [parse] returns: [ts] is the time value [fromEpoch(tsValue, desc)]
    the [Date] is built from. *)
Record Parsed : Type := mkParsed {
  ts : float;
  rnd : list Byte.byte;
  prefix : option jsstring
}.

Definition decimal (n : nat) : jsstring :=
  js (NilEmpty.string_of_uint (Nat.to_uint n)).

Definition has_z (ksuid : jsstring) : bool :=
  if list_eq_dec N.eq_dec (char_at ksuid 0) (js "z") then true else false.

Definition parse (ksuid : jsstring) : result error Parsed :=
  let '(prefix, ksuid) :=
    match indexOf (js "_") ksuid 0 with
    | Some prefixPosition =>
        (Some (slice ksuid 0 prefixPosition),
         slice ksuid (prefixPosition + 1) (length ksuid))
    | None => (None, ksuid)
    end in
  if ((28 <? length ksuid) || (length ksuid <? 27))%bool then
    Throw (Error (js "Incorrect length: " ++ decimal (length ksuid) ++
                  js ", expected 27 or 28"))
  else
    let desc := ((length ksuid =? 28) && has_z ksuid)%bool in
    if ((length ksuid =? 28) && negb (has_z ksuid))%bool then
      Throw (Error (js "KSUID is 28 symbol, but first char is not " ++
                    [34%N] ++ js "z" ++ [34%N]))
    else
      do buf <- debase62 (if desc then slice ksuid 1 28 else ksuid);
      do tsValue <- getUint32 buf 0;
      Ok (mkParsed (fromEpoch (Num.of_Z tsValue) desc) (zskip buf 4) prefix).

(** ** What the strings are compared with *)

(** The number a list of digits writes in base [base], most significant
    digit first. *)
Definition number (base : Z) (digits : list Z) : Z :=
  fold_left (fun acc d => (acc * base + d)%Z) digits 0%Z.

(** The [n] least significant digits of [v] in base [base], most
    significant first. *)
Fixpoint numeral (base : Z) (n : nat) (v : Z) : list Z :=
  match n with
  | O => []
  | S n' => numeral base n' (v / base) ++ [(v mod base)%Z]
  end.

(** Every digit is a digit of the base; the first digit is not zero. *)
Definition below (base : Z) (ds : list Z) : Prop :=
  Forall (fun d => (0 <= d < base)%Z) ds.

Definition normal (ds : list Z) : Prop :=
  match ds with
  | [] => True
  | d :: _ => (0 < d)%Z
  end.

(** The number a buffer holds, big-endian. *)
Definition big_endian (bytes : list Byte.byte) : Z := number 256 (map u8 bytes).

(** The symbol that stands for a digit. *)
Definition symbol (d : Z) : codeunit :=
  nth (Z.to_nat d) BASE62 0%N.

(** [a < b] on strings: the order of the code units at the first
    difference, a proper prefix coming first. *)
Fixpoint string_lt (a b : jsstring) : bool :=
  match a, b with
  | _, [] => false
  | [], _ :: _ => true
  | x :: a', y :: b' => ((x <? y)%N || ((x =? y)%N && string_lt a' b'))%bool
  end.

End Ksuid.

(* ------------------------------------------------------------------ *)
(** * CSS colours for pdf-lib ([cssRgbToPdfLib]) *)
(* ------------------------------------------------------------------ *)

Module CssColor.

Import Gradient.

(** [/rgba?\((\d+),\s*(\d+),\s*(\d+)/] *)
Definition rgbRe : regex :=
  seqs [lit "rgb"; Opt (Chr "a"); Chr "(";
        Group 1 (Plus (Class digit)); Chr ","; ws;
        Group 2 (Plus (Class digit)); Chr ","; ws;
        Group 3 (Plus (Class digit))].

(** The integer a string of decimal digits writes. *)
Definition decimal_value (s : jsstring) : Z :=
  fold_left (fun acc c => (acc * 10 + (Z.of_N c - 48))%Z) s 0%Z.

(** [Number(s)] for a string of decimal digits: the float nearest to the
    integer it writes, ties going to the even one. *)
Definition Number (s : jsstring) : float :=
  SF2Prim (binary_normalize prec emax (decimal_value s) 0 false).

Section CssRgbToPdfLib.

(** pdf-lib's [rgb(red, green, blue)], which builds the colour value or
    throws when a channel is outside [0, 1]: the function below only
    chooses its arguments. *)
Variable Colour : Type.
Variable rgb : float -> float -> float -> Colour.

(** [color.match(re)] of a pattern without [g] is the leftmost match. *)
Definition cssRgbToPdfLib (color : jsstring) : Colour :=
  match search rgbRe color 0 with
  | None => rgb 1 1 1
  | Some m =>
      rgb (Number (group 1 m) / 255) (Number (group 2 m) / 255)
          (Number (group 3 m) / 255)
  end.

End CssRgbToPdfLib.

End CssColor.

(* ------------------------------------------------------------------ *)
(** * The link action ([addLinkAnnotation]) *)
(* ------------------------------------------------------------------ *)

Module LinkAnnotation.

(** [url.replace(/\\/g, "\\\\").replace(/'/g, "\\'")]: the first pattern
    is one backslash and its replacement two; the second is one quote and
    its replacement a backslash and a quote. *)
Definition escapedUrl (url : jsstring) : jsstring :=
  replace (Chr "'") (js "\'") (replace (Chr "\") (js "\\") url).

(** [`app.launchURL('${escapedUrl}', true);`], the text of the [JS] entry
    of the action. *)
Definition launchAction (url : jsstring) : jsstring :=
  js "app.launchURL('" ++ escapedUrl url ++ js "', true);".

(** The [Rect] entry of the annotation: [x, y, x + w, y + h]. *)
Definition annotationRect (x y w h : float) : list float :=
  [x; y; (x + w)%float; (y + h)%float].

(** ** Reading a string literal

    The text after the opening quote of a single-quoted literal, read up to
    the closing quote: the string the literal denotes and what follows the
    closing quote.  A backslash makes the backslash or quote after it part
    of the string; the other escape sequences and a line break inside the
    literal are not read ([None]), nor is a literal that is not closed. *)
Fixpoint read_literal (s : jsstring) : option (jsstring * jsstring) :=
  match s with
  | [] => None
  | c :: t =>
      if is_char "'" c then Some ([], t)
      else if is_char "\" c then
        match t with
        | e :: t' =>
            if (is_char "\" e || is_char "'" e)%bool then
              match read_literal t' with
              | Some (body, rest) => Some (e :: body, rest)
              | None => None
              end
            else None
        | [] => None
        end
      else if (N.eqb c 10 || N.eqb c 13)%bool then None
      else
        match read_literal t with
        | Some (body, rest) => Some (c :: body, rest)
        | None => None
        end
  end.

End LinkAnnotation.

(* ------------------------------------------------------------------ *)
(** * The filters of a PNG encoder *)
(* ------------------------------------------------------------------ *)

Module PngFilter.

Import Png.
Local Open Scope Z_scope.

(** What the PNG format has an encoder do, to compare the reconstruction
    of [vibrantColorFromPng] with: every row is written as its filter type
    and then, for each byte, the byte minus a prediction, modulo 256.  The
    prediction is made from the byte [channels] places to the left ([a]),
    the byte above ([b]) and the byte above that one ([c]), each 0 outside
    the image: nothing for type 0, [a] for 1 (Sub), [b] for 2 (Up), the
    floor of their mean for 3 (Average) and the Paeth choice for 4. *)
Definition predictor (ft a b c : Z) : Z :=
  match ft with
  | 1 => a
  | 2 => b
  | 3 => (a + b) / 2
  | 4 => paeth a b c
  | _ => 0
  end.

Section Encoder.

(** The image, row after row, [stride] bytes a row. *)
Variables (image : list Z) (channels stride : Z).

Definition left_of (y x : Z) : Z :=
  if channels <=? x then px image (y * stride + x - channels) else 0.

Definition above (y x : Z) : Z :=
  if 0 <? y then px image ((y - 1) * stride + x) else 0.

Definition above_left (y x : Z) : Z :=
  if ((channels <=? x) && (0 <? y))%bool
  then px image ((y - 1) * stride + x - channels) else 0.

Definition filter_byte (ft y x : Z) : Z :=
  (px image (y * stride + x)
   - predictor ft (left_of y x) (above y x) (above_left y x)) mod 256.

Definition filter_row (y ft : Z) : list Z :=
  ft :: map (filter_byte ft y) (range stride).

(** The filtered image, [types] giving the filter type of each row. *)
Definition filter_image (types : list Z) : list Z :=
  concat (map (fun p => filter_row (fst p) (snd p))
            (combine (range (zlength types)) types)).

End Encoder.

(** A colour the sampling can return: its channels are multiples of 8
    between 0 and 240, the largest is at least 40 and the largest and the
    smallest are at least 24 apart. *)
Definition vivid (c : RGB) : Prop :=
  let max := Z.max (Z.max (r c) (g c)) (b c) in
  let min := Z.min (Z.min (r c) (g c)) (b c) in
  (0 <= r c <= 240 /\ 0 <= g c <= 240 /\ 0 <= b c <= 240) /\
  (r c mod 8 = 0 /\ g c mod 8 = 0 /\ b c mod 8 = 0) /\
  40 <= max /\ 24 <= max - min.

(** ** An encoded image to run examples with

    Two rows of two RGB pixels, the first row filtered with Paeth and the
    second with Average, in a stream whose [IDAT] data is the filtered
    rows themselves (as after a compression that stores them). *)
Definition two_rows : list Z :=
  [200; 20; 20; 210; 30; 25; 190; 25; 15; 100; 200; 250].

Definition two_rows_idat : Chunk :=
  mkChunk (bytes_of [73; 68; 65; 84])
    (bytes_of (filter_image two_rows 3 6 [4; 3])) (bytes_of [9; 9; 9; 9]).

Definition iend_chunk : Chunk :=
  mkChunk (bytes_of [73; 69; 78; 68]) [] (bytes_of [174; 66; 96; 130]).

Definition two_rows_png : Uint8Array :=
  mkArray
    (signature ++
     encode_chunk (mkChunk (bytes_of [73; 72; 68; 82])
                     (ihdr_data 2 (zlength [4; 3]) 8 2 (bytes_of [0; 0; 0]))
                     (bytes_of [1; 2; 3; 4])) ++
     concat (map encode_chunk [two_rows_idat]) ++
     encode_chunk iend_chunk ++ []) [].

End PngFilter.

(* ------------------------------------------------------------------ *)
(** * Reading the record of the calls of [main] *)
(* ------------------------------------------------------------------ *)

Module CaptureLog.

Import Orchestrator.

Section Log.

Variable PageInput : Type.

(** The call returned a page input. *)
Definition succeeded (c : Call PageInput) : bool :=
  match call_outcome c with
  | Ok _ => true
  | Throw _ => false
  end.

(** The page inputs the calls returned, in the order of the calls. *)
Definition captured (log : list (Call PageInput)) : list PageInput :=
  flat_map (fun c => match call_outcome c with
                     | Ok p => [p]
                     | Throw _ => []
                     end) log.

End Log.

End CaptureLog.

(* ------------------------------------------------------------------ *)
(** * File names ([buildFileName]) *)
(* ------------------------------------------------------------------ *)

Module FileName.

(** [new URL(url)] throws a [TypeError] for a string that is not a URL. *)
Inductive error : Type := TypeError.

(** [[^a-zA-Z0-9_\-]] *)
Definition unsafe (c : codeunit) : bool :=
  negb (in_range (cu "a") (cu "z") c || in_range (cu "A") (cu "Z") c ||
        in_range (cu "0") (cu "9") c || is_char "_" c || is_char "-" c).

(** [/_+/g] *)
Definition underscores : regex := Plus (Chr "_").

(** [_$], the second alternative of [/^_|_$/g] *)
Definition last_underscore : regex := Seq (Chr "_") EndOfInput.

(** [s.replace(/^_|_$/g, "")].  Without the [m] flag [^] matches at index
    0 and nowhere else: there the pattern is [_|_$], and from any later
    index on it is [_$].  So the scan looks for a match of [_|_$] at index
    0; if there is one it is removed and the scan goes on behind it, with
    [_$]; if there is none, [_$] does not match at index 0 either, and the
    scan for it can start at index 0 as well. *)
Definition strip_ends (s : jsstring) : jsstring :=
  match match_here (Or (Chr "_") last_underscore) s with
  | Some (l, _) => replace last_underscore [] (skipn l s)
  | None => replace last_underscore [] s
  end.

Section BuildFileName.

(** [new URL(url)], of which the function reads [hostname] and
    [pathname]; [None] is a string the parser rejects. *)
Variable parseURL : jsstring -> option (jsstring * jsstring).

Definition buildFileName (url : jsstring) : result error jsstring :=
  match parseURL url with
  | None => Throw TypeError
  | Some (hostname, pathname) =>
      Ok (strip_ends
            (replace underscores (js "_")
               (replace (Class unsafe) (js "_") (hostname ++ pathname)))
          ++ js ".pdf")
  end.

End BuildFileName.

(** A parser to run examples with: it knows the URL of the function's
    documentation and a URL with an empty host. *)
Definition example_parser (url : jsstring) : option (jsstring * jsstring) :=
  if list_eq_dec N.eq_dec url (js "https://example.com/foo/bar?x=1")
  then Some (js "example.com", js "/foo/bar")
  else if list_eq_dec N.eq_dec url (js "file:///")
  then Some ([], js "/")
  else None.

End FileName.

(* ------------------------------------------------------------------ *)
(** * Capturing one page ([setupPage], [removeElements], [capturePageInput]) *)
(* ------------------------------------------------------------------ *)

Module PageInput.
Record t : Type := mk {
  rawPdf : list Byte.byte;
  rect : ElementRect.t;
  dominantColor : RGB;
  url : jsstring;
  margin : option Spacing.t;
  padding : option Spacing.t
}.
End PageInput.

Module Capture.

Import Orchestrator.

(** What the functions ask of the Puppeteer page, with the arguments they
    pass.  The three scripts given to [page.evaluate] stand for themselves:
    the removal of the elements matching [selectors], the isolation of the
    element matching [selector] and the gradient fix. *)
Inductive Op : Type :=
| setUserAgent (userAgent : jsstring)
| setViewport (width height deviceScaleFactor : Z)
    (isLandscape isMobile hasTouch : bool)
| emulateMediaType (type : jsstring)
| goto (url waitUntil : jsstring) (timeout : Z)
| waitForSelector (selector : option jsstring) (timeout : Z)
| evaluate_remove (selectors : list jsstring)
| evaluate_isolate (selector : option jsstring)
| screenshot (x y width height scale : float) (type : jsstring)
| evaluate_fixGradient
| pdf (width height : float) (printBackground : bool)
| close.

Definition USER_AGENT : jsstring :=
  js "Mozilla/5.0 (Macintosh; Intel Mac OS X 10_15_7) AppleWebKit/537.36 (KHTML, like Gecko) Chrome/122.0.0.0 Safari/537.36".

(** [`${selector}`]; [main] passes [(a ?? b)!], which can be
    [undefined]. *)
Definition text_of (selector : option jsstring) : jsstring :=
  match selector with
  | Some s => s
  | None => js "undefined"
  end.

(** [new SelectorNotFoundError(selector, url)] *)
Definition selectorNotFound (selector : option jsstring) (url : jsstring)
  : thrown :=
  SelectorNotFoundError
    (js "Selector " ++ [34%N] ++ text_of selector ++ [34%N] ++
     js " not found on " ++ url).

Section Page.

(** The page behind the calls, as a state they transform.  A call
    returns or throws; [answer] is for the calls whose value the code
    does not use, and the three others return the rectangle (or [null])
    of the isolation script, the bytes of the screenshot and the bytes
    of the printed page. *)
Variable World : Type.
Variable answer : Op -> World -> result thrown unit * World.
Variable isolated :
  option jsstring -> World -> result thrown (option ElementRect.t) * World.
Variable produced : Op -> World -> result thrown (list Byte.byte) * World.
(** [page.close().catch(() => {})]: whether closing fails is not seen. *)
Variable closed : World -> World.

(** What [vibrantColorFromPng] needs of the platform, and the messages
    of the errors it can throw. *)
Variable inflate : list Byte.byte -> option (list Byte.byte).
Variable log1p : float -> float.
Variable maxByteLength : Z.
Variable message : Png.error -> jsstring.

(** The state of a run: the page and the calls made so far. *)
Definition State : Type := World * list Op.

(** An asynchronous function on the page: it returns or throws, and
    leaves a state. *)
Definition Task (A : Type) : Type := State -> result thrown A * State.

Definition ret {A : Type} (a : A) : Task A := fun s => (Ok a, s).

Definition throw {A : Type} (e : thrown) : Task A := fun s => (Throw e, s).

Definition then_ {A B : Type} (t : Task A) (f : A -> Task B) : Task B :=
  fun s =>
    match t s with
    | (Ok a, s') => f a s'
    | (Throw e, s') => (Throw e, s')
    end.

(** [try { body } finally { last }], with a [last] that does not
    throw. *)
Definition finally {A : Type} (body : Task A) (last : State -> State)
  : Task A :=
  fun s => let '(r, s') := body s in (r, last s').

Definition call {A : Type}
  (f : Op -> World -> result thrown A * World) (op : Op) : Task A :=
  fun '(w, log) => let '(r, w') := f op w in (r, (w', log ++ [op])).

(** [for (const x of l) { await f(x) }] *)
Fixpoint for_of {A : Type} (l : list A) (f : A -> Task unit) : Task unit :=
  match l with
  | [] => ret tt
  | x :: l' => then_ (f x) (fun _ => for_of l' f)
  end.

Definition setupPage (url : jsstring) (selector : option jsstring)
  (wait : list jsstring) : Task unit :=
  then_ (call answer (setUserAgent USER_AGENT)) (fun _ =>
  then_ (call answer (setViewport 1920 1080 1 true false true)) (fun _ =>
  then_ (call answer (emulateMediaType (js "screen"))) (fun _ =>
  then_ (call answer (goto url (js "networkidle0") 60000)) (fun _ =>
  then_ (for_of wait (fun waitSelector =>
           call answer (waitForSelector (Some waitSelector) 60000)))
        (fun _ =>
  call answer (waitForSelector selector 60000)))))).

Definition removeElements (selectors : list jsstring) : Task unit :=
  match selectors with
  | [] => ret tt
  | _ :: _ => call answer (evaluate_remove selectors)
  end.

Definition isolateElement (selector : option jsstring)
  : Task (option ElementRect.t) :=
  call (fun _ => isolated selector) (evaluate_isolate selector).

Definition fixGradientTransparency : Task unit :=
  call answer evaluate_fixGradient.

(** [vibrantColorFromPng(new Uint8Array(screenshotBuffer))]: the copy is
    an array of its own, with nothing behind its last element. *)
Definition vibrantColor (screenshotBuffer : list Byte.byte) : Task RGB :=
  match Png.vibrantColorFromPng inflate log1p maxByteLength
          (Png.of_bytes screenshotBuffer) with
  | Ok c => ret c
  | Throw e => throw (OtherError (message e))
  end.

(** [capturePageInput], from the page [browser.pages()] gives on. *)
Definition capturePageInput (url : jsstring) (options : CaptureOptions)
  : Task PageInput.t :=
  let selector := selector options in
  let wait := opt_wait options in
  let remove := opt_remove options in
  let margin := opt_margin options in
  let padding := opt_padding options in
  finally
    (then_ (setupPage url selector wait) (fun _ =>
     then_ (removeElements remove) (fun _ =>
     then_ (isolateElement selector) (fun rect =>
     match rect with
     | None => throw (selectorNotFound selector url)
     | Some rect =>
         then_ (call produced
                  (screenshot (ElementRect.left rect) (ElementRect.top rect)
                     (ElementRect.width rect) (ElementRect.height rect)
                     0.1 (js "png")))
               (fun screenshotBuffer =>
         then_ (vibrantColor screenshotBuffer) (fun dominantColor =>
         then_ fixGradientTransparency (fun _ =>
         then_ (call produced
                  (pdf (ElementRect.fullWidth rect)
                     (ElementRect.fullHeight rect) true))
               (fun rawPdf =>
         ret (PageInput.mk rawPdf rect dominantColor url margin
                padding)))))
     end))))
    (fun '(w, log) => (closed w, log ++ [close])).

(** ** The calls of a capture, to compare the record with

    Everything up to the isolation script, and what follows it once it
    has returned a rectangle. *)
Definition opening (url : jsstring) (options : CaptureOptions) : list Op :=
  [setUserAgent USER_AGENT; setViewport 1920 1080 1 true false true;
   emulateMediaType (js "screen"); goto url (js "networkidle0") 60000] ++
  map (fun w => waitForSelector (Some w) 60000) (opt_wait options) ++
  [waitForSelector (selector options) 60000] ++
  match opt_remove options with
  | [] => []
  | _ :: _ => [evaluate_remove (opt_remove options)]
  end ++
  [evaluate_isolate (selector options)].

Definition rendering (rect : ElementRect.t) : list Op :=
  [screenshot (ElementRect.left rect) (ElementRect.top rect)
     (ElementRect.width rect) (ElementRect.height rect) 0.1 (js "png");
   evaluate_fixGradient;
   pdf (ElementRect.fullWidth rect) (ElementRect.fullHeight rect) true].

(** A list is the beginning of another. *)
Definition begins (l1 l2 : list Op) : Prop := exists rest, l2 = l1 ++ rest.

(** A task adds to the record all of [script] when it returns, and a
    beginning of it when it throws. *)
Definition follows {A : Type} (t : Task A) (script : list Op) : Prop :=
  forall w log,
    exists ops,
      snd (snd (t (w, log))) = log ++ ops /\
      match fst (t (w, log)) with
      | Ok _ => ops = script
      | Throw _ => begins ops script
      end.

End Page.

(** A page to run examples with: every call answers, and the isolation
    script finds no element.  Its state counts the calls. *)
Definition blank_answer (A : Type) (a : A) (_ : Op) (w : nat)
  : result thrown A * nat := (Ok a, S w).

Definition blank_isolated (_ : option jsstring) (w : nat)
  : result thrown (option ElementRect.t) * nat := (Ok None, S w).

Definition main_only : CaptureOptions :=
  mkOptions (Some (js "#main")) [] [js ".ads"] None None.

End Capture.

(* ------------------------------------------------------------------ *)
(** * The selectors of the form ([parseLines], [buildSelectors]) *)
(* ------------------------------------------------------------------ *)

Module Form.

Import Gradient Orchestrator.

(** [type SelectorFields = { main: string; wait: string; remove: string }] *)
Record SelectorFields : Type := mkFields {
  main : jsstring;
  wait : jsstring;
  remove : jsstring
}.

(** [s.split(sep)] for a separator of one code unit: the pieces between
    its occurrences, one piece when there is none. *)
Fixpoint split (sep : codeunit) (s : jsstring) : list jsstring :=
  match s with
  | [] => [[]]
  | c :: t =>
      if N.eqb c sep then [] :: split sep t
      else
        match split sep t with
        | piece :: pieces => (c :: piece) :: pieces
        | [] => [[c]]
        end
  end.

(** [s.trimStart()], [s.trimEnd()] and [s.trim()]: the white space and
    line terminators they remove are the code units of [\s]. *)
Fixpoint trimStart (s : jsstring) : jsstring :=
  match s with
  | [] => []
  | c :: t => if is_space c then trimStart t else s
  end.

Definition trimEnd (s : jsstring) : jsstring := rev (trimStart (rev s)).

Definition trim (s : jsstring) : jsstring := trimEnd (trimStart s).

(** [Boolean(s)] of a string *)
Definition truthy (s : jsstring) : bool :=
  match s with
  | [] => false
  | _ :: _ => true
  end.

Definition parseLines (s : jsstring) : list jsstring :=
  filter truthy (map trim (split 10%N s)).

(** [obj] has the key only when the field is given; an [obj] without keys
    is [undefined]. *)
Definition buildSelectors (sel : SelectorFields) : option Selectors :=
  let wait := parseLines (wait sel) in
  let remove := parseLines (remove sel) in
  let obj_main := if truthy (main sel) then Some (main sel) else None in
  let obj_wait :=
    match wait with
    | [] => None
    | _ :: _ => Some wait
    end in
  let obj_remove :=
    match remove with
    | [] => None
    | _ :: _ => Some remove
    end in
  match obj_main, obj_wait, obj_remove with
  | None, None, None => None
  | _, _, _ => Some (mkSelectors obj_main obj_wait obj_remove)
  end.

(** ** What to compare [parseLines] with *)

(** [lines.join("\n")] *)
Fixpoint join_lines (lines : list jsstring) : jsstring :=
  match lines with
  | [] => []
  | [l] => l
  | l :: rest => l ++ 10%N :: join_lines rest
  end.

(** A line as a selector is meant to be: not empty, without a line feed,
    and without white space at either end. *)
Definition clean (l : jsstring) : Prop :=
  l <> [] /\ ~ In 10%N l /\
  (forall c rest, l = c :: rest -> is_space c = false) /\
  (forall front c, l = front ++ [c] -> is_space c = false).

End Form.

(* ------------------------------------------------------------------ *)
(** * Background images as texts and colour tokens *)
(* ------------------------------------------------------------------ *)

Module GradientSyntax.

Import Gradient.

(** What the claim about [fixGradientTransparency] speaks of, written
    without the patterns of the code: a background image is a text in
    which colour tokens stand, and a colour token is written the way a
    computed style writes it, in the legacy syntax [rgb(r, g, b)],
    [rgba(r, g, b, a)] or in the modern one [rgb(r g b)],
    [rgba(r g b / a)]. *)
Inductive Syntax : Type := Legacy | Modern.

Record Token : Type := mkToken {
  syntax : Syntax;
  red_of : jsstring;
  green_of : jsstring;
  blue_of : jsstring;
  alpha_of : option jsstring
}.

Definition write_token (t : Token) : jsstring :=
  match syntax t, alpha_of t with
  | Legacy, None =>
      js "rgb(" ++ red_of t ++ js ", " ++ green_of t ++ js ", " ++
      blue_of t ++ js ")"
  | Legacy, Some a =>
      js "rgba(" ++ red_of t ++ js ", " ++ green_of t ++ js ", " ++
      blue_of t ++ js ", " ++ a ++ js ")"
  | Modern, None =>
      js "rgb(" ++ red_of t ++ js " " ++ green_of t ++ js " " ++
      blue_of t ++ js ")"
  | Modern, Some a =>
      js "rgba(" ++ red_of t ++ js " " ++ green_of t ++ js " " ++
      blue_of t ++ js " / " ++ a ++ js ")"
  end.

(** The image: the text before each token, and the text after the last. *)
Record Image : Type := mkImage {
  tokens : list (jsstring * Token);
  ending : jsstring
}.

Fixpoint write_tokens (l : list (jsstring * Token)) (ending : jsstring)
  : jsstring :=
  match l with
  | [] => ending
  | (text, t) :: l' => text ++ write_token t ++ write_tokens l' ending
  end.

Definition write (image : Image) : jsstring :=
  write_tokens (tokens image) (ending image).

Definition is_zero (n : jsstring) : bool :=
  if list_eq_dec N.eq_dec n (js "0") then true else false.

(** A transparent-black stop: [rgba(0, 0, 0, 0)] or [rgba(0 0 0 / 0)]. *)
Definition transparent_black (t : Token) : bool :=
  (is_zero (red_of t) && is_zero (green_of t) && is_zero (blue_of t) &&
   match alpha_of t with
   | Some a => is_zero a
   | None => false
   end)%bool.

(** A black of the modern syntax whose alpha starts with a 0 without being
    written [0]: [rgba(0 0 0 / 0.5)], say. *)
Definition black_with_zero_led_alpha (t : Token) : bool :=
  match syntax t, alpha_of t with
  | Modern, Some (c :: a) =>
      (is_zero (red_of t) && is_zero (green_of t) && is_zero (blue_of t) &&
       is_char "0" c && negb (is_zero (c :: a)))%bool
  | _, _ => false
  end.

(** Channels are written with digits, an alpha with digits and dots. *)
Definition numeral (n : jsstring) : Prop :=
  n <> [] /\ forallb digit n = true.

Definition alpha_value (a : jsstring) : Prop :=
  a <> [] /\ forallb (fun c => digit c || is_char "." c)%bool a = true.

Definition well_written_token (t : Token) : Prop :=
  numeral (red_of t) /\ numeral (green_of t) /\ numeral (blue_of t) /\
  match alpha_of t with
  | Some a => alpha_value a
  | None => True
  end.

(** A text between tokens has no [rgb] in it. *)
Definition plain (text : jsstring) : Prop :=
  includes (js "rgb") text = false.

Definition well_written (image : Image) : Prop :=
  Forall (fun p => plain (fst p) /\ well_written_token (snd p))
    (tokens image) /\
  plain (ending image).

Definition has_transparent_black (image : Image) : bool :=
  existsb transparent_black (map snd (tokens image)).

Definition no_zero_led_alpha (image : Image) : Prop :=
  Forall (fun p => black_with_zero_led_alpha (snd p) = false)
    (tokens image).

(** The colour tokens of the image other than its transparent-black
    stops, and the image in which every transparent-black stop is
    written with the channels of [c] and alpha 0. *)
Definition other_tokens (image : Image) : list Token :=
  filter (fun t => negb (transparent_black t)) (map snd (tokens image)).

Definition recolour (c t : Token) : Token :=
  if transparent_black t
  then mkToken Legacy (red_of c) (green_of c) (blue_of c) (Some (js "0"))
  else t.

Definition recoloured (c : Token) (image : Image) : Image :=
  mkImage (map (fun p => (fst p, recolour c (snd p))) (tokens image))
    (ending image).

(** Images to run examples with. *)
Definition fading : Image :=
  mkImage
    [(js "linear-gradient(to right, ",
      mkToken Modern (js "0") (js "0") (js "0") (Some (js "0")));
     (js " 0%, ",
      mkToken Legacy (js "255") (js "100") (js "50") None);
     (js " 50%, ",
      mkToken Legacy (js "0") (js "0") (js "0") (Some (js "0")))]
    (js " 100%)").

Definition half_black_to_blue : jsstring :=
  js "linear-gradient(rgba(0 0 0 / 0.5), rgb(10 20 30))".

End GradientSyntax.

(* ------------------------------------------------------------------ *)
(** * Proof automation *)
(* ------------------------------------------------------------------ *)

Module Tactics.

Ltac classes :=
  unfold url_sep, hex_digit, in_range, is_char, cu in *;
  cbn [N_of_ascii N_of_digits] in *;
  repeat match goal with
         | H : _ = true |- _ =>
             first [ apply andb_prop in H; destruct H
                   | apply orb_prop in H; destruct H
                   | apply N.leb_le in H
                   | apply N.eqb_eq in H ]
         end.

Ltac calls_done :=
  simpl; rewrite <- ?app_assoc; simpl; repeat split;
  first [ reflexivity | lia
        | solve [ repeat first [ apply Forall_nil | apply Forall_cons ];
                  first [ reflexivity | eexists; split; reflexivity ] ]
        | solve [ eexists; repeat split; reflexivity ] ].

Ltac ranges :=
  repeat match goal with
         | E : (_ && _)%bool = true |- _ =>
             apply andb_true_iff in E; destruct E
         | E : (_ && _)%bool = false |- _ => apply andb_false_iff in E
         | E : (_ <=? _) = true |- _ => apply Z.leb_le in E
         | E : (_ <=? _) = false |- _ => apply Z.leb_gt in E
         end.

End Tactics.
Import Tactics.

(* ================================================================== *)
(** * Properties *)
(* ================================================================== *)

Module RegexFacts.

(** The matcher only looks at what its continuation returns. *)
Lemma star_iter_ext m k1 k2 :
  (forall s c k k', (forall s' c', k s' c' = k' s' c') -> m s c k = m s c k') ->
  (forall s c, k1 s c = k2 s c) ->
  forall n s c, star_iter m k1 n s c = star_iter m k2 n s c.
Proof.
  intros Hm Hk n. induction n as [|n IH]; intros s c; simpl.
  - apply Hk.
  - rewrite Hk.
    rewrite (Hm s c _ (fun s1 c1 =>
               if length s1 <? length s then star_iter m k2 n s1 c1 else None)).
    + reflexivity.
    + intros s' c'. destruct (length s' <? length s); auto.
Qed.

Lemma rmatch_ext r :
  forall s c k k', (forall s' c', k s' c' = k' s' c') ->
                   rmatch r s c k = rmatch r s c k'.
Proof.
  induction r as [|p|r1 IH1 r2 IH2|r1 IH1 r2 IH2|r1 IH1|n r1 IH1|r1 IH1|];
    intros s c k k' H; simpl.
  - apply H.
  - destruct s as [|x s']; [reflexivity|]. destruct (p x); auto.
  - apply IH1. intros s' c'. apply IH2. exact H.
  - rewrite (IH1 s c k k' H), (IH2 s c k k' H). reflexivity.
  - apply star_iter_ext; assumption.
  - apply IH1. intros s' c'. apply H.
  - destruct (rmatch r1 s c (fun s1 c1 => Some (s1, c1))) as [[? ?]|]; auto.
  - destruct s; auto.
Qed.

(** A successful match is a success of the continuation, on a rest that
    is no longer than the input. *)
Lemma star_iter_sound m k :
  (forall s c k x, m s c k = Some x ->
     exists s' c', length s' <= length s /\ k s' c' = Some x) ->
  forall n s c x, star_iter m k n s c = Some x ->
    exists s' c', length s' <= length s /\ k s' c' = Some x.
Proof.
  intros Hm n. induction n as [|n IH]; intros s c x; simpl.
  - intros H. exists s, c. auto.
  - destruct (m s c _) as [y|] eqn:E.
    + intros Hx. inversion Hx; subst y; clear Hx.
      apply Hm in E. destruct E as (s1 & c1 & Hl & E).
      destruct (length s1 <? length s) eqn:El; [|discriminate].
      apply IH in E. destruct E as (s2 & c2 & Hl2 & E).
      exists s2, c2. split; [lia | exact E].
    + intros H. exists s, c. auto.
Qed.

Lemma rmatch_sound r :
  forall s c k x, rmatch r s c k = Some x ->
    exists s' c', length s' <= length s /\ k s' c' = Some x.
Proof.
  induction r as [|p|r1 IH1 r2 IH2|r1 IH1 r2 IH2|r1 IH1|n r1 IH1|r1 IH1|];
    intros s c k x; simpl.
  - intros H. exists s, c. auto.
  - destruct s as [|y s']; [discriminate|].
    destruct (p y); [|discriminate].
    intros H. exists s', c. simpl. split; [lia | exact H].
  - intros H. apply IH1 in H. destruct H as (s1 & c1 & Hl & H).
    apply IH2 in H. destruct H as (s2 & c2 & Hl2 & H).
    exists s2, c2. split; [lia | exact H].
  - destruct (rmatch r1 s c k) as [y|] eqn:E.
    + intros Hx. inversion Hx; subst y. apply IH1 in E. exact E.
    + intros H. apply IH2 in H. exact H.
  - apply star_iter_sound. exact IH1.
  - intros H. apply IH1 in H. destruct H as (s1 & c1 & Hl & H).
    exists s1. eexists. split; [exact Hl | exact H].
  - destruct (rmatch r1 s c (fun s1 c1 => Some (s1, c1))) as [[s1 c1]|];
      [|discriminate].
    intros H. exists s, c1. auto.
  - destruct s; [|discriminate]. intros H. exists [], c. auto.
Qed.

Lemma rmatch_fail r s c k :
  (forall s' c', k s' c' = None) -> rmatch r s c k = None.
Proof.
  intros H. destruct (rmatch r s c k) as [x|] eqn:E; [|reflexivity].
  apply rmatch_sound in E. destruct E as (s' & c' & _ & E).
  rewrite H in E. discriminate.
Qed.

(** The bound on the rounds of [r*] is never what stops it. *)
Lemma star_iter_fuel r k :
  forall n n' s c, length s <= n -> length s <= n' ->
    star_iter (rmatch r) k n s c = star_iter (rmatch r) k n' s c.
Proof.
  induction n as [|n IH]; intros n' s c Hn Hn'.
  - destruct s; [|simpl in Hn; lia].
    destruct n' as [|n']; [reflexivity|]. simpl.
    rewrite rmatch_fail; [reflexivity|]. intros s' c'.
    destruct (length s' <? 0) eqn:E; [|reflexivity].
    apply Nat.ltb_lt in E. lia.
  - destruct n' as [|n'].
    + destruct s; [|simpl in Hn'; lia]. simpl.
      rewrite rmatch_fail; [reflexivity|]. intros s' c'.
      destruct (length s' <? 0) eqn:E; [|reflexivity].
      apply Nat.ltb_lt in E. lia.
    + simpl.
      rewrite (rmatch_ext r s c _
                 (fun s1 c1 => if length s1 <? length s
                               then star_iter (rmatch r) k n' s1 c1 else None)).
      * reflexivity.
      * intros s' c'. destruct (length s' <? length s) eqn:E; [|reflexivity].
        apply Nat.ltb_lt in E. apply IH; lia.
Qed.

(** [r*] is one more [r] that consumes something and then [r*] again, or
    else what follows. *)
Lemma star_unfold r s c k :
  rmatch (Star r) s c k =
  match rmatch r s c (fun s1 c1 =>
          if length s1 <? length s then rmatch (Star r) s1 c1 k else None)
  with
  | Some x => Some x
  | None => k s c
  end.
Proof.
  simpl. destruct s as [|y s'].
  - simpl. rewrite rmatch_fail; [reflexivity|]. intros s' c'. reflexivity.
  - change (length (y :: s')) with (S (length s')). simpl star_iter.
    rewrite (rmatch_ext r (y :: s') c _
               (fun s1 c1 => if length s1 <? length (y :: s')
                             then star_iter (rmatch r) k (length s1) s1 c1 else None)).
    + reflexivity.
    + intros s1 c1. simpl length.
      destruct (length s1 <? S (length s')) eqn:E; [|reflexivity].
      apply Nat.ltb_lt in E. apply star_iter_fuel; lia.
Qed.

(** ** Searching *)

Lemma match_here_length r s l c :
  match_here r s = Some (l, c) -> l <= length s.
Proof.
  unfold match_here.
  destruct (rmatch r s [] _) as [[s' c']|] eqn:E; [|discriminate].
  intros H. inversion H. lia.
Qed.

Lemma search_some r :
  forall s i m, search r s i = Some m ->
    exists j, index m = i + j /\ j <= length s /\
      match_here r (skipn j s) = Some (length (matched m), groups m) /\
      matched m = firstn (length (matched m)) (skipn j s) /\
      (forall j', j' < j -> match_here r (skipn j' s) = None).
Proof.
  induction s as [|x s IH]; intros i m; simpl.
  - destruct (match_here r []) as [[l c]|] eqn:E; [|discriminate].
    intros H. inversion H; subst m; clear H. simpl.
    pose proof (match_here_length _ _ E) as Hl. simpl in Hl.
    assert (l = 0) by lia. subst l.
    exists 0. simpl. repeat split; auto; try lia; intros; lia.
  - destruct (match_here r (x :: s)) as [[l c]|] eqn:E.
    + intros H. inversion H; subst m; clear H. simpl.
      pose proof (match_here_length _ _ E) as Hl.
      exists 0. simpl skipn. rewrite length_firstn, Nat.min_l by exact Hl.
      repeat split; auto; try lia; intros; lia.
    + intros H. apply IH in H.
      destruct H as (j & Hi & Hj & Hm & Hf & Hn).
      exists (S j). simpl skipn. repeat split; auto; try lia.
      intros j' Hj'. destruct j' as [|j']; [exact E|].
      simpl. apply Hn. lia.
Qed.

Lemma search_none r :
  forall s i, search r s i = None ->
    forall j, match_here r (skipn j s) = None.
Proof.
  induction s as [|x s IH]; intros i; simpl.
  - destruct (match_here r []) as [[l c]|] eqn:E; [discriminate|].
    intros _ j. destruct j; exact E.
  - destruct (match_here r (x :: s)) as [[l c]|] eqn:E; [discriminate|].
    intros H j. destruct j as [|j]; [exact E|]. simpl. eapply IH; eauto.
Qed.

Lemma search_bounds r s i m :
  search r s i = Some m -> i <= index m /\ match_end m <= i + length s.
Proof.
  intros H. apply search_some in H.
  destruct H as (j & Hi & Hj & Hm & _ & _).
  apply match_here_length in Hm. rewrite length_skipn in Hm.
  unfold match_end. lia.
Qed.

(** ** Matches are not shorter than the pattern's least length *)

Lemma rmatch_consumes r :
  forall s c k x, rmatch r s c k = Some x ->
    exists s' c', length s' + min_len r <= length s /\ k s' c' = Some x.
Proof.
  induction r as [|p|r1 IH1 r2 IH2|r1 IH1 r2 IH2|r1 IH1|n r1 IH1|r1 IH1|];
    intros s c k x H;
    try (apply rmatch_sound in H; destruct H as (s' & c' & Hl & H);
         exists s', c'; cbn [min_len]; split; [lia | exact H]).
  - simpl in H. destruct s as [|y s']; [discriminate|].
    destruct (p y); [|discriminate].
    exists s', c. simpl. split; [lia | exact H].
  - simpl in H. apply IH1 in H. destruct H as (s1 & c1 & Hl & H).
    apply IH2 in H. destruct H as (s2 & c2 & Hl2 & H).
    exists s2, c2. cbn [min_len]. split; [lia | exact H].
  - simpl in H. destruct (rmatch r1 s c k) as [y|] eqn:E.
    + inversion H; subst y. apply IH1 in E.
      destruct E as (s' & c' & Hl & E). exists s', c'. cbn [min_len].
      split; [lia | exact E].
    + apply IH2 in H. destruct H as (s' & c' & Hl & H). exists s', c'.
      cbn [min_len]. split; [lia | exact H].
  - simpl in H. apply IH1 in H. destruct H as (s1 & c1 & Hl & H).
    exists s1. eexists. cbn [min_len]. split; [exact Hl | exact H].
Qed.

Lemma match_here_min r s l c :
  match_here r s = Some (l, c) -> min_len r <= l.
Proof.
  unfold match_here.
  destruct (rmatch r s [] _) as [[s' c']|] eqn:E; [|discriminate].
  apply rmatch_consumes in E. destruct E as (s1 & c1 & Hl & E).
  inversion E; subst. intros H. inversion H. lia.
Qed.

Lemma search_min r s i m :
  search r s i = Some m -> min_len r <= length (matched m).
Proof.
  intros H. apply search_some in H.
  destruct H as (j & _ & _ & Hm & _ & _).
  apply match_here_min in Hm. exact Hm.
Qed.

(** An [exec] that finds a match of a pattern that cannot match the empty
    string moves [lastIndex] forwards, within the string. *)
Lemma exec_advances r str L m li :
  0 < min_len r -> L <= length str -> exec r str L = (Some m, li) ->
  L < li <= length str.
Proof.
  intros Hmin HL. unfold exec.
  destruct (length str <? L) eqn:E; [intros H; inversion H|].
  destruct (search r (skipn L str) L) as [m'|] eqn:Es; intros H; inversion H.
  subst. pose proof (search_min _ _ _ Es) as Hm.
  apply search_bounds in Es. rewrite length_skipn in Es.
  unfold match_end in *. lia.
Qed.

(** The fuel of [replace] is never what stops it. *)
Lemma replace_loop_fuel r rep :
  forall f1 f2 s, length s < f1 -> length s < f2 ->
    replace_loop f1 r rep s = replace_loop f2 r rep s.
Proof.
  induction f1 as [|f1 IH]; intros f2 s H1 H2; [lia|].
  destruct f2 as [|f2]; [lia|]. simpl.
  destruct (search r s 0) as [m|] eqn:Es; [|reflexivity].
  pose proof (search_bounds _ _ _ Es) as Hb.
  apply search_some in Es. destruct Es as (j & Hi & Hj & _ & Hm & _).
  f_equal. f_equal. destruct (matched m) as [|y rest] eqn:Em.
  - destruct (skipn (index m) s) as [|x t] eqn:Ek; [reflexivity|].
    f_equal. assert (Hl : length (skipn (index m) s) = S (length t))
      by (rewrite Ek; reflexivity).
    rewrite length_skipn in Hl. apply IH; lia.
  - assert (Hl : 0 < length (matched m)) by (rewrite Em; simpl; lia).
    apply IH; rewrite length_skipn; unfold match_end in *; rewrite Em in *; lia.
Qed.

End RegexFacts.

Module FloatFacts.

Lemma SFcompare_trans_le x y z :
  SFleb x y = true -> SFleb y z = true -> SFleb x z = true.
Proof.
  unfold SFleb.
  destruct x as [sx|sx| |sx mx ex], y as [sy|sy| |sy my ey],
           z as [sz|sz| |sz mz ez]; simpl; try discriminate; auto;
    try (destruct sx, sy; simpl; auto; discriminate);
    try (destruct sy, sz; simpl; auto; discriminate);
    try (destruct sx, sz; simpl; auto; discriminate);
    try (destruct sx, sy, sz; simpl; auto; discriminate).
  destruct sx, sy, sz; simpl; auto; try discriminate;
    destruct (Z.compare_spec ex ey), (Z.compare_spec ey ez),
             (Z.compare_spec ex ez); try lia; auto; try discriminate;
    subst;
    rewrite ?Pos.compare_cont_spec in *; simpl in *;
    destruct (Pos.compare_spec mx my), (Pos.compare_spec my mz),
             (Pos.compare_spec mx mz); simpl in *; try lia; auto;
      try discriminate.
Qed.

Lemma leb_trans (x y z : float) :
  (x <=? y)%float = true -> (y <=? z)%float = true -> (x <=? z)%float = true.
Proof.
  rewrite !leb_spec. apply SFcompare_trans_le.
Qed.

End FloatFacts.

Module WrapFacts.
Import RegexFacts FloatFacts.

(** ** Slices *)

Lemma slice_length (s : jsstring) i j :
  i <= j -> j <= length s -> length (slice s i j) = j - i.
Proof.
  intros Hij Hj. unfold slice. rewrite length_firstn, length_skipn. lia.
Qed.

Lemma firstn_plus (A : Type) (a b : nat) :
  forall l : list A, firstn (a + b) l = firstn a l ++ firstn b (skipn a l).
Proof.
  induction a as [|a IH]; intros l; simpl; [reflexivity|].
  destruct l as [|x l]; simpl.
  - rewrite firstn_nil. reflexivity.
  - rewrite IH. reflexivity.
Qed.

Lemma slice_app (s : jsstring) i j :
  i <= j -> firstn i s ++ slice s i j = firstn j s.
Proof.
  intros Hij. unfold slice.
  replace j with (i + (j - i)) at 2 by lia.
  rewrite firstn_plus. reflexivity.
Qed.

Lemma slice_prefix (s : jsstring) i j k :
  i <= j -> j <= k -> slice s i k = slice s i j ++ slice s j k.
Proof.
  intros Hij Hjk. unfold slice.
  replace (k - i) with ((j - i) + (k - j)) by lia.
  rewrite firstn_plus, skipn_skipn.
  replace (j - i + i) with j by lia. reflexivity.
Qed.

Lemma char_at_slice (s : jsstring) i :
  i < length s -> char_at s i = slice s i (i + 1).
Proof.
  intros Hi. unfold char_at, slice.
  replace (i + 1 - i) with 1 by lia.
  destruct (nth_error s i) as [c|] eqn:E.
  - apply nth_error_split in E. destruct E as (l1 & l2 & Hs & Hl).
    subst s i. rewrite skipn_app, Nat.sub_diag, skipn_all. reflexivity.
  - apply nth_error_None in E. lia.
Qed.

(** ** The pattern's loop *)

Lemma exec_bounds r str L m li :
  L <= length str -> exec r str L = (Some m, li) ->
  li = match_end m /\ L <= index m /\ match_end m <= length str.
Proof.
  intros HL. unfold exec.
  destruct (length str <? L) eqn:E; [intros H; inversion H|].
  destruct (search r (skipn L str) L) as [m'|] eqn:Es; intros H; inversion H.
  subst. apply search_bounds in Es. rewrite length_skipn in Es.
  repeat split; lia.
Qed.

Lemma break_loop_le :
  forall fuel seg L B,
    L <= length seg -> (B <= Z.of_nat (length seg))%Z ->
    (break_loop fuel seg L B <= Z.of_nat (length seg))%Z.
Proof.
  induction fuel as [|f IH]; intros seg L B HL HB; simpl; [exact HB|].
  destruct (exec breakRe seg L) as [[m|] li] eqn:E; [|exact HB].
  apply exec_bounds in E; [|exact HL]. destruct E as (-> & _ & He).
  apply IH; unfold match_end in *; lia.
Qed.

Lemma lastBreak_le seg : (lastBreak seg <= Z.of_nat (length seg))%Z.
Proof. unfold lastBreak. apply break_loop_le; lia. Qed.

Section Loop.

Variables (text : jsstring) (maxWidth : float)
          (measureFn : jsstring -> float) (urlMode : bool).

Local Abbreviation fits := (fits text maxWidth measureFn).
Local Abbreviation grow := (grow text maxWidth measureFn).
Local Abbreviation growEnd := (growEnd text maxWidth measureFn).
Local Abbreviation step := (step text maxWidth measureFn urlMode).
Local Abbreviation wrapLoop := (wrapLoop text maxWidth measureFn urlMode).

(** ** The inner loop *)

Lemma grow_spec start :
  forall fuel e0,
    let e := grow fuel start e0 in
    e0 <= e /\
    (e0 <= length text + 1 -> e <= length text + 1) /\
    (forall e', e0 <= e' < e -> fits start e' = true) /\
    (length text + 1 - e0 < fuel ->
     ((e <=? length text) && fits start e)%bool = false).
Proof.
  induction fuel as [|f IH]; intros e0; simpl.
  - repeat split; intros; lia.
  - destruct ((e0 <=? length text) && fits start e0)%bool eqn:E.
    + specialize (IH (S e0)). simpl in IH.
      destruct IH as (H1 & H2 & H3 & H4).
      apply andb_prop in E. destruct E as [El Ef].
      apply Nat.leb_le in El.
      assert (H2' := H2 ltac:(lia)).
      repeat split; try lia.
      * intros e' He'. destruct (Nat.eq_dec e' e0) as [->|Hne]; [exact Ef|].
        apply H3. lia.
      * intros Hf. apply H4. lia.
    + repeat split; intros; try lia; exact E.
Qed.

Lemma growEnd_spec start :
  start < length text ->
  let e := growEnd start in
  start + 1 <= e <= length text + 1 /\
  (forall e', start + 1 <= e' < e -> fits start e' = true) /\
  ((e <=? length text) && fits start e)%bool = false.
Proof.
  intros Hs. unfold Wrap.growEnd.
  destruct (grow_spec start (S (length text)) (start + 1)) as (H1 & H2 & H3 & H4).
  repeat split; try lia; auto. apply H4. lia.
Qed.

(** ** One round *)

(** Every round emits the slice from [start] up to the new [start], which
    is further on and within the text. *)
Lemma step_slice start lines :
  start < length text ->
  exists e, step start lines = (lines ++ [slice text start e], e) /\
            start < e <= length text.
Proof.
  intros Hs. unfold Wrap.step.
  destruct (growEnd_spec Hs) as (Hb & Hfit & Hexit).
  set (e := growEnd start) in *.
  destruct (e - 1 <=? start) eqn:E1.
  - exists (start + 1). rewrite char_at_slice by exact Hs. split; [reflexivity | lia].
  - apply Nat.leb_gt in E1. destruct urlMode.
    + pose proof (lastBreak_le (slice text start (e - 1))) as Hle.
      rewrite slice_length in Hle by lia.
      destruct (0 <? lastBreak (slice text start (e - 1)))%Z eqn:E2.
      * apply Z.ltb_lt in E2.
        exists (start + Z.to_nat (lastBreak (slice text start (e - 1)))).
        split; [reflexivity | lia].
      * exists (e - 1). split; [reflexivity | lia].
    + exists (e - 1). split; [reflexivity | lia].
Qed.

(** ** The outer loop *)

(** A property of [start] and [lines] that every round keeps holds when
    the loop is left, and the loop is left within [length text - start]
    rounds. *)
Lemma wrapLoop_invariant (I : nat -> list jsstring -> Prop) :
  (forall start lines, start < length text -> I start lines ->
     I (snd (step start lines)) (fst (step start lines))) ->
  forall fuel start lines,
    length text - start <= fuel -> start <= length text -> I start lines ->
    exists out, wrapLoop fuel start lines = Some out /\ I (length text) out.
Proof.
  intros Hstep. induction fuel as [|f IH]; intros start lines Hf Hs HI.
  - assert (start = length text) by lia. subst start. simpl.
    rewrite Nat.ltb_irrefl. eauto.
  - simpl. destruct (start <? length text) eqn:E.
    + apply Nat.ltb_lt in E.
      specialize (Hstep start lines E HI).
      destruct (step_slice lines E) as (e & He & Hb).
      rewrite He in *. simpl in Hstep.
      apply IH; auto; lia.
    + apply Nat.ltb_ge in E. assert (start = length text) by lia.
      subst start. eauto.
Qed.

Lemma wrapLoop_returns :
  wrapLoop (length text) 0 [] = Some (wrapText text maxWidth measureFn urlMode).
Proof.
  destruct (@wrapLoop_invariant (fun _ _ => True)) with
    (fuel := length text) (start := 0) (lines := @nil jsstring)
    as (out & Hout & _); auto; try lia.
  unfold wrapText. rewrite Hout. reflexivity.
Qed.

Lemma wrapText_invariant (I : nat -> list jsstring -> Prop) :
  (forall start lines, start < length text -> I start lines ->
     I (snd (step start lines)) (fst (step start lines))) ->
  I 0 [] -> I (length text) (wrapText text maxWidth measureFn urlMode).
Proof.
  intros Hstep H0.
  destruct (wrapLoop_invariant I Hstep) with
    (fuel := length text) (start := 0) (lines := @nil jsstring)
    as (out & Hout & HI); auto; try lia.
  rewrite wrapLoop_returns in Hout. inversion Hout; subst out. exact HI.
Qed.

Lemma wrapText_concat :
  concat (wrapText text maxWidth measureFn urlMode) = text.
Proof.
  pose proof (@wrapText_invariant
                (fun start lines => start <= length text /\
                                    concat lines = firstn start text)) as H.
  simpl in H. destruct H as [_ H].
  - intros start lines Hs [_ Hc].
    destruct (step_slice lines Hs) as (e & He & Hb). rewrite He. simpl.
    split; [lia|]. rewrite concat_app, Hc. simpl. rewrite app_nil_r.
    apply slice_app. lia.
  - split; [lia | reflexivity].
  - rewrite H. apply firstn_all.
Qed.

End Loop.

End WrapFacts.

Module BreakFacts.
Import RegexFacts WrapFacts.

(** ** Code unit classes *)

Lemma pct_eq p : is_char "%" p = true -> p = cu "%".
Proof. unfold is_char. apply N.eqb_eq. Qed.

Lemma pct_not_sep : url_sep (cu "%") = false.
Proof. reflexivity. Qed.

Lemma hex_not_sep c : hex_digit c = true -> url_sep c = false.
Proof.
  intros H. classes;
    repeat (apply orb_false_intro); apply N.eqb_neq; simpl in *; lia.
Qed.

Lemma hex_not_pct c : hex_digit c = true -> is_char "%" c = false.
Proof.
  intros H. classes; apply N.eqb_neq; simpl in *; lia.
Qed.

Lemma sep_not_pct c : url_sep c = true -> is_char "%" c = false.
Proof.
  intros H. classes; subst; reflexivity.
Qed.


(** ** The matcher on [breakRe] *)

Lemma rmatch_triplet s c k :
  rmatch triplet_re s c k =
  match s with
  | p :: h1 :: h2 :: rest =>
      if (is_char "%" p && hex_digit h1 && hex_digit h2)%bool
      then k rest c else None
  | _ => None
  end.
Proof.
  destruct s as [|p [|h1 [|h2 rest]]]; simpl; try reflexivity.
  - destruct (is_char "%" p); reflexivity.
  - destruct (is_char "%" p); simpl; [|reflexivity].
    destruct (hex_digit h1); reflexivity.
  - destruct (is_char "%" p); simpl; [|reflexivity].
    destruct (hex_digit h1); simpl; [|reflexivity].
    destruct (hex_digit h2); reflexivity.
Qed.

Lemma rmatch_ahead s c :
  rmatch ahead_re s c (fun s' c' => Some (s', c')) =
  if followed s then Some (s, c) else None.
Proof.
  destruct s as [|x s]; simpl; [reflexivity|].
  destruct (url_sep x); reflexivity.
Qed.

Lemma run_len_le : forall n s, length s <= n -> run_len s <= length s.
Proof.
  induction n as [|n IH]; intros s Hn.
  - destruct s; simpl in *; lia.
  - destruct s as [|p [|h1 [|h2 rest]]]; simpl; try lia.
    destruct (is_char "%" p && hex_digit h1 && hex_digit h2)%bool; [|lia].
    simpl in Hn. specialize (IH rest). lia.
Qed.

(** The greedy run and the look-ahead: only the longest run can be
    followed by a separator or the end, since a shorter one is followed by
    the [%] of the next triplet. *)
Lemma rmatch_run :
  forall n s c, length s <= n ->
    rmatch (Star triplet_re) s c
      (fun s2 c2 => rmatch ahead_re s2 c2 (fun s' c' => Some (s', c'))) =
    if followed (skipn (run_len s) s)
    then Some (skipn (run_len s) s, c) else None.
Proof.
  induction n as [|n IH]; intros s c Hn; rewrite star_unfold, rmatch_triplet.
  - destruct s; [|simpl in Hn; lia]. reflexivity.
  - destruct s as [|p [|h1 [|h2 rest]]];
      try (rewrite rmatch_ahead; reflexivity).
    cbn [run_len].
    destruct (is_char "%" p && hex_digit h1 && hex_digit h2)%bool eqn:E.
    + assert (Hl : (length rest <? length (p :: h1 :: h2 :: rest)) = true)
        by (apply Nat.ltb_lt; simpl; lia).
      rewrite Hl, IH by (simpl in Hn; lia).
      cbn [skipn Nat.add].
      destruct (followed (skipn (run_len rest) rest)); [reflexivity|].
      rewrite rmatch_ahead. cbn [followed].
      apply andb_prop in E. destruct E as [E _].
      apply andb_prop in E. destruct E as [E _].
      apply pct_eq in E. subst p. rewrite pct_not_sep. reflexivity.
    + rewrite rmatch_ahead. reflexivity.
Qed.

Lemma match_here_breakRe s :
  match_here breakRe s = option_map (fun l => (l, [])) (break_here s).
Proof.
  unfold match_here.
  change (rmatch breakRe s [] (fun s' c => Some (s', c))) with
    (match rmatch (Class url_sep) s [] (fun s' c => Some (s', c)) with
     | Some x => Some x
     | None =>
         rmatch triplet_re s []
           (fun s1 c1 =>
              rmatch (Star triplet_re) s1 c1
                (fun s2 c2 => rmatch ahead_re s2 c2 (fun s' c => Some (s', c))))
     end).
  rewrite rmatch_triplet. unfold break_here.
  destruct s as [|x s]; [reflexivity|].
  change (rmatch (Class url_sep) (x :: s) [] (fun s' c => Some (s', c)))
    with (if url_sep x then Some (s, @nil (nat * jsstring)) else None).
  destruct (url_sep x) eqn:Ex.
  - cbn [option_map length]. f_equal. f_equal. lia.
  - destruct s as [|h1 [|h2 rest]]; try reflexivity.
    cbn [run_len].
    destruct (is_char "%" x && hex_digit h1 && hex_digit h2)%bool; [|reflexivity].
    cbv beta iota. rewrite (@rmatch_run (length rest)) by lia.
    cbn [skipn Nat.add Nat.ltb Nat.leb andb].
    destruct (followed (skipn (run_len rest) rest)); [|reflexivity].
    cbn [option_map length]. rewrite length_skipn.
    pose proof (@run_len_le (length rest) rest (le_n _)).
    f_equal. f_equal. lia.
Qed.

End BreakFacts.

Module ScanFacts.
Import RegexFacts WrapFacts BreakFacts.

Lemma break_here_bounds s l :
  break_here s = Some l -> 1 <= l <= length s.
Proof.
  unfold break_here. destruct s as [|c s]; [discriminate|].
  destruct (url_sep c).
  - intros H. inversion H. simpl. lia.
  - destruct (0 <? run_len (c :: s)) eqn:E; simpl; [|discriminate].
    destruct (followed _); [|discriminate].
    intros H. inversion H. subst l. apply Nat.ltb_lt in E.
    pose proof (@run_len_le (length (c :: s)) (c :: s) (le_n _)).
    simpl in *. lia.
Qed.

Lemma match_here_break s l c :
  match_here breakRe s = Some (l, c) -> break_here s = Some l.
Proof.
  rewrite match_here_breakRe. destruct (break_here s); simpl; congruence.
Qed.

Lemma match_here_no_break s :
  match_here breakRe s = None -> break_here s = None.
Proof.
  rewrite match_here_breakRe. destruct (break_here s); simpl; congruence.
Qed.

(** ** What one [exec] finds *)

Lemma exec_break_some seg L m li :
  L <= length seg -> exec breakRe seg L = (Some m, li) ->
  exists p l, L <= p /\ break_here (skipn p seg) = Some l /\
              index m + length (matched m) = p + l /\ li = p + l /\
              (forall j, L <= j < p -> break_here (skipn j seg) = None).
Proof.
  intros HL. unfold exec.
  destruct (length seg <? L) eqn:E; [intros H; inversion H|].
  destruct (search breakRe (skipn L seg) L) as [m'|] eqn:Es;
    intros H; inversion H; subst m' li; clear H.
  apply search_some in Es.
  destruct Es as (j & Hi & Hj & Hm & _ & Hn).
  rewrite skipn_skipn in Hm. apply match_here_break in Hm.
  exists (j + L), (length (matched m)). unfold match_end.
  repeat split; try lia; auto.
  intros j' Hj'. specialize (Hn (j' - L) ltac:(lia)).
  rewrite skipn_skipn in Hn. replace (j' - L + L) with j' in Hn by lia.
  apply match_here_no_break. exact Hn.
Qed.

Lemma exec_break_none seg L li :
  L <= length seg -> exec breakRe seg L = (None, li) ->
  forall j, L <= j -> break_here (skipn j seg) = None.
Proof.
  intros HL. unfold exec.
  destruct (length seg <? L) eqn:E.
  - apply Nat.ltb_lt in E. lia.
  - destruct (search breakRe (skipn L seg) L) as [m'|] eqn:Es;
      intros H; inversion H.
    intros j Hj. pose proof (search_none _ _ _ Es (j - L)) as Hn.
    rewrite skipn_skipn in Hn. replace (j - L + L) with j in Hn by lia.
    apply match_here_no_break. exact Hn.
Qed.

(** ** Inside a run *)

(** A match that starts inside a matched run ends where the run ends. *)
Lemma run_inside :
  forall n s, length s <= n ->
    forall d l, 0 < d < run_len s -> break_here (skipn d s) = Some l ->
                d + l <= run_len s.
Proof.
  induction n as [|n IH]; intros s Hn d l Hd.
  - destruct s; simpl in *; lia.
  - destruct s as [|p [|h1 [|h2 rest]]]; simpl in Hd; try lia.
    cbn [run_len] in *.
    destruct (is_char "%" p && hex_digit h1 && hex_digit h2)%bool eqn:E;
      [|lia].
    apply andb_prop in E. destruct E as [E E2].
    apply andb_prop in E. destruct E as [E0 E1].
    destruct d as [|[|[|d]]]; try lia.
    + (* at the first digit *)
      cbn [skipn]. unfold break_here.
      rewrite (hex_not_sep _ E1).
      replace (run_len (h1 :: h2 :: rest)) with 0; [discriminate|].
      destruct rest as [|x rest]; cbn [run_len]; [reflexivity|].
      rewrite (hex_not_pct _ E1). reflexivity.
    + (* at the second digit *)
      cbn [skipn]. unfold break_here.
      rewrite (hex_not_sep _ E2).
      replace (run_len (h2 :: rest)) with 0; [discriminate|].
      destruct rest as [|x [|y rest]]; cbn [run_len]; try reflexivity.
      rewrite (hex_not_pct _ E2). reflexivity.
    + (* at the next triplet *)
      cbn [skipn]. destruct (Nat.eq_dec d 0) as [->|Hd0].
      * cbn [skipn]. unfold break_here.
        destruct rest as [|x rest]; [discriminate|].
        destruct (url_sep x) eqn:Ex.
        -- (* a separator cannot start a run *)
           exfalso. assert (Hr : run_len (x :: rest) = 0).
           { destruct rest as [|y [|z rest]]; cbn [run_len]; try reflexivity.
             rewrite (sep_not_pct _ Ex). reflexivity. }
           lia.
        -- destruct ((0 <? run_len (x :: rest)) &&
                     followed (skipn (run_len (x :: rest)) (x :: rest)))%bool;
             [|discriminate].
           intros H. assert (Hl : run_len (x :: rest) = l) by congruence. lia.
      * intros H. specialize (IH rest ltac:(simpl in Hn; lia) d l ltac:(lia) H).
        lia.
Qed.

Lemma break_inside s l d l' :
  break_here s = Some l -> 0 < d < l ->
  break_here (skipn d s) = Some l' -> d + l' <= l.
Proof.
  intros Hb Hd Hb'. unfold break_here in Hb.
  destruct s as [|c s]; [discriminate|].
  destruct (url_sep c).
  - inversion Hb. lia.
  - destruct ((0 <? run_len (c :: s)) &&
              followed (skipn (run_len (c :: s)) (c :: s)))%bool;
      [|discriminate].
    assert (Hl : run_len (c :: s) = l) by congruence. subst l.
    apply (@run_inside (length (c :: s)) (c :: s) (le_n _) d l' Hd Hb').
Qed.

(** ** The loop *)

Lemma break_loop_spec seg :
  forall fuel L B,
    length seg - L < fuel -> scanned seg L B ->
    let B' := break_loop fuel seg L B in
    (forall p l, break_here (skipn p seg) = Some l ->
                 (Z.of_nat (p + l) <= B')%Z) /\
    (B' = (-1)%Z \/
     exists p l, break_here (skipn p seg) = Some l /\ B' = Z.of_nat (p + l)).
Proof.
  induction fuel as [|f IH]; intros L B Hf (HL & Hbefore & HB); [lia|].
  simpl. destruct (exec breakRe seg L) as [[m|] li] eqn:E.
  - destruct (exec_break_some _ HL E) as (p & l & HLp & Hb & Hm & -> & Hnone).
    rewrite Hm.
    pose proof (break_here_bounds _ Hb) as Hl. rewrite length_skipn in Hl.
    apply IH; [lia|].
    split; [lia|]. split.
    + intros p' l' Hp' Hb'.
      destruct (Nat.lt_ge_cases p' L) as [H1|H1].
      { specialize (Hbefore p' l' H1 Hb'). lia. }
      destruct (Nat.lt_ge_cases p' p) as [H2|H2].
      { rewrite Hnone in Hb' by lia. discriminate. }
      destruct (Nat.eq_dec p' p) as [->|H3].
      { rewrite Hb in Hb'. inversion Hb'. lia. }
      assert (Hin : p' - p + l' <= l).
      { apply break_inside with (s := skipn p seg); auto; [lia|].
        rewrite skipn_skipn. replace (p' - p + p) with p' by lia. exact Hb'. }
      lia.
    + right. split; [reflexivity|]. exists p, l. auto.
  - split.
    + intros p l Hb.
      destruct (Nat.lt_ge_cases p L) as [H1|H1].
      * specialize (Hbefore p l H1 Hb).
        destruct HB as [[_ ->]|[-> _]]; lia.
      * rewrite (exec_break_none _ HL E) in Hb by lia. discriminate.
    + destruct HB as [[-> _]|[-> (p & l & Hb & Hpl)]]; [left; reflexivity|].
      right. exists p, l. subst L. auto.
Qed.

(** [lastBreak] is the greatest end of a match of the pattern, and [-1]
    when there is none. *)
Lemma lastBreak_spec seg :
  (forall p l, break_here (skipn p seg) = Some l ->
               (Z.of_nat (p + l) <= lastBreak seg)%Z) /\
  (lastBreak seg = (-1)%Z \/
   exists p l, break_here (skipn p seg) = Some l /\
               lastBreak seg = Z.of_nat (p + l)).
Proof.
  unfold lastBreak. apply break_loop_spec; [lia|].
  split; [lia|]. split; [intros; lia|]. left. auto.
Qed.

End ScanFacts.

Module BoundaryFacts.
Import RegexFacts WrapFacts BreakFacts ScanFacts.

Lemma triplet_cond p h1 h2 :
  (is_char "%" p && hex_digit h1 && hex_digit h2)%bool = true <->
  is_triplet [p; h1; h2].
Proof.
  split.
  - intros E. apply andb_prop in E. destruct E as [E E2].
    apply andb_prop in E. destruct E as [E0 E1].
    apply pct_eq in E0. subst p. exists h1, h2. auto.
  - intros (a & b & Heq & Ha & Hb). inversion Heq; subst.
    rewrite Ha, Hb. reflexivity.
Qed.

Lemma triplet_length t : is_triplet t -> length t = 3.
Proof. intros (a & b & -> & _). reflexivity. Qed.

Lemma run_len_triplet t post :
  is_triplet t -> run_len (t ++ post) = 3 + run_len post.
Proof.
  intros Ht. pose proof Ht as (a & b & -> & Ha & Hb).
  cbn [app run_len]. apply triplet_cond in Ht. rewrite Ht. reflexivity.
Qed.

Lemma run_len_app run post :
  triplet_run run -> run_len (run ++ post) = length run + run_len post.
Proof.
  induction 1 as [t Ht|t run Ht Hrun IH].
  - rewrite run_len_triplet, (triplet_length Ht) by exact Ht. reflexivity.
  - rewrite <- app_assoc, run_len_triplet, IH, length_app, (triplet_length Ht)
      by exact Ht. lia.
Qed.

Lemma run_starts_pct run :
  triplet_run run -> exists rest, run = cu "%" :: rest.
Proof.
  destruct 1 as [t (a & b & -> & _)|t run (a & b & -> & _) _]; simpl; eauto.
Qed.

Lemma followed_iff post : followed post = true <-> sep_or_end post.
Proof.
  unfold sep_or_end. destruct post as [|c post]; simpl.
  - split; auto.
  - split.
    + intros H. right. eauto.
    + intros [H|(c' & post' & Heq & H)]; [discriminate|].
      inversion Heq; subst. exact H.
Qed.

Lemma followed_no_run post : followed post = true -> run_len post = 0.
Proof.
  destruct post as [|c [|h1 [|h2 rest]]]; simpl; try reflexivity.
  intros H. rewrite (sep_not_pct _ H). reflexivity.
Qed.

Lemma followed_no_triplet post :
  followed post = true -> forall t post', post = t ++ post' -> ~ is_triplet t.
Proof.
  intros H t post' -> Ht. apply followed_no_run in H.
  rewrite run_len_triplet in H by exact Ht. lia.
Qed.

(** The longest run at the head of a string is a run. *)
Lemma run_len_run :
  forall n s, length s <= n -> 0 < run_len s ->
    triplet_run (firstn (run_len s) s).
Proof.
  induction n as [|n IH]; intros s Hn Hr.
  - destruct s; simpl in *; lia.
  - destruct s as [|p [|h1 [|h2 rest]]]; simpl in Hr; try lia.
    cbn [run_len] in *.
    destruct (is_char "%" p && hex_digit h1 && hex_digit h2)%bool eqn:E;
      [|lia].
    apply triplet_cond in E. cbn [Nat.add firstn].
    change (p :: h1 :: h2 :: firstn (run_len rest) rest)
      with ([p; h1; h2] ++ firstn (run_len rest) rest).
    destruct (Nat.eq_dec (run_len rest) 0) as [H0|H0].
    + rewrite H0. cbn [firstn]. rewrite app_nil_r. apply run_one. exact E.
    + apply run_more; [exact E|]. apply IH; [simpl in Hn; lia | lia].
Qed.

(** A run is part of a run that no triplet precedes. *)
Lemma extend_left :
  forall n pre, length pre <= n ->
    forall run, triplet_run run ->
      exists pre' run',
        pre ++ run = pre' ++ run' /\ triplet_run run' /\
        (forall pre'' t, pre' = pre'' ++ t -> ~ is_triplet t).
Proof.
  induction n as [|n IH]; intros pre Hn run Hrun.
  - destruct pre; [|simpl in Hn; lia].
    exists [], run. repeat split; auto.
    intros pre'' t Heq Ht. apply triplet_length in Ht.
    symmetry in Heq. apply app_eq_nil in Heq. destruct Heq as [_ ->].
    simpl in Ht. lia.
  - destruct (rev pre) as [|h2 [|h1 [|p r]]] eqn:Er.
    + exists pre, run. repeat split; auto.
      intros pre'' t -> Ht. pose proof Ht as (a & b & -> & _).
      rewrite rev_app_distr in Er. simpl in Er. discriminate.
    + exists pre, run. repeat split; auto.
      intros pre'' t -> Ht. pose proof Ht as (a & b & -> & _).
      rewrite rev_app_distr in Er. simpl in Er. discriminate.
    + exists pre, run. repeat split; auto.
      intros pre'' t -> Ht. pose proof Ht as (a & b & -> & _).
      rewrite rev_app_distr in Er. simpl in Er. discriminate.
    + assert (Hpre : pre = rev r ++ [p; h1; h2]).
      { rewrite <- (rev_involutive pre), Er. simpl.
        rewrite <- !app_assoc. reflexivity. }
      destruct (is_char "%" p && hex_digit h1 && hex_digit h2)%bool eqn:E.
      * apply triplet_cond in E.
        destruct (IH (rev r)) with (run := [p; h1; h2] ++ run)
          as (pre' & run' & Heq & Hrun' & Hmax).
        { subst pre. rewrite length_app in Hn. simpl in Hn. lia. }
        { apply run_more; assumption. }
        exists pre', run'. repeat split; auto.
        rewrite <- Heq, Hpre, <- app_assoc. reflexivity.
      * exists pre, run. repeat split; auto.
        intros pre'' t Heq (a & b & -> & Ha & Hb).
        rewrite Heq, rev_app_distr in Er. simpl in Er.
        inversion Er; subst. rewrite Ha, Hb in E. discriminate.
Qed.

(** ** Occurrences of the pattern and matches *)

Lemma boundary_break seg e :
  boundary seg e ->
  exists p l, break_here (skipn p seg) = Some l /\ p + l = e.
Proof.
  destruct 1 as [pre c post -> Hc|pre run post -> Hrun _ _ Hpost].
  - exists (length pre), 1. split; [|reflexivity].
    rewrite skipn_app, skipn_all, Nat.sub_diag. simpl. rewrite Hc. reflexivity.
  - exists (length pre), (length run). split; [|reflexivity].
    rewrite skipn_app, skipn_all, Nat.sub_diag. cbn [skipn app].
    destruct (run_starts_pct Hrun) as (rest & Hrest).
    apply followed_iff in Hpost.
    assert (Hlen : run_len (run ++ post) = length run).
    { rewrite run_len_app, (followed_no_run _ Hpost) by exact Hrun. lia. }
    unfold break_here. rewrite Hlen.
    rewrite skipn_app, skipn_all, Nat.sub_diag. cbn [skipn app].
    rewrite Hpost. rewrite Hrest at 1. cbn [app]. rewrite pct_not_sep.
    replace (0 <? length run) with true; [reflexivity|].
    symmetry. apply Nat.ltb_lt. rewrite Hrest. simpl. lia.
Qed.

Lemma break_boundary seg p l :
  break_here (skipn p seg) = Some l -> boundary seg (p + l).
Proof.
  intros Hb. pose proof (break_here_bounds _ Hb) as Hl.
  rewrite length_skipn in Hl.
  assert (Hp : length (firstn p seg) = p)
    by (rewrite length_firstn; lia).
  unfold break_here in Hb.
  destruct (skipn p seg) as [|c post] eqn:Es; [discriminate|].
  destruct (url_sep c) eqn:Ec.
  - inversion Hb; subst l. rewrite <- Hp at 1.
    apply boundary_sep with (c := c) (post := post); [|exact Ec].
    rewrite <- Es. symmetry. apply firstn_skipn.
  - destruct (0 <? run_len (c :: post)) eqn:E0; [|discriminate].
    destruct (followed (skipn (run_len (c :: post)) (c :: post))) eqn:Ef;
      [|discriminate].
    cbn [andb] in Hb.
    assert (Hl' : run_len (c :: post) = l) by congruence.
    apply Nat.ltb_lt in E0.
    pose proof (@run_len_run (length (c :: post)) (c :: post) (le_n _) E0)
      as Hrun.
    destruct (@extend_left (length (firstn p seg)) (firstn p seg) (le_n _)
                _ Hrun) as (pre' & run' & Heq & Hrun' & Hmax).
    assert (Hlen : length pre' + length run' = p + l).
    { rewrite <- length_app, <- Heq, length_app, Hp, length_firstn.
      pose proof (@run_len_le (length (c :: post)) (c :: post) (le_n _)).
      lia. }
    rewrite <- Hlen.
    apply boundary_run with (post := skipn (run_len (c :: post)) (c :: post));
      auto.
    + rewrite app_assoc, <- Heq, <- app_assoc, firstn_skipn, <- Es.
      symmetry. apply firstn_skipn.
    + apply followed_no_triplet. exact Ef.
    + apply followed_iff. exact Ef.
Qed.

(** [lastBreak] is the end of the last occurrence of the pattern in the
    candidate, and is not positive exactly when there is none. *)
Lemma lastBreak_boundary seg :
  (0 < lastBreak seg)%Z ->
  boundary seg (Z.to_nat (lastBreak seg)) /\
  (forall e, boundary seg e -> e <= Z.to_nat (lastBreak seg)).
Proof.
  intros Hpos. destruct (lastBreak_spec seg) as (Hmax & [Hnone|Hsome]); [lia|].
  destruct Hsome as (p & l & Hb & HB). split.
  - rewrite HB, Nat2Z.id. apply break_boundary. exact Hb.
  - intros e He. apply boundary_break in He.
    destruct He as (p' & l' & Hb' & <-).
    specialize (Hmax p' l' Hb'). lia.
Qed.

Lemma lastBreak_no_boundary seg :
  (lastBreak seg <= 0)%Z -> forall e, ~ boundary seg e.
Proof.
  intros Hle e He. apply boundary_break in He.
  destruct He as (p & l & Hb & <-).
  destruct (lastBreak_spec seg) as (Hmax & _).
  specialize (Hmax p l Hb).
  apply break_here_bounds in Hb. lia.
Qed.

End BoundaryFacts.

Module WrapClaims.
Import RegexFacts FloatFacts WrapFacts BreakFacts ScanFacts BoundaryFacts.

Section Rounds.

Variables (text : jsstring) (maxWidth : float)
          (measureFn : jsstring -> float).

Local Abbreviation fits := (fits text maxWidth measureFn).
Local Abbreviation growEnd := (growEnd text maxWidth measureFn).
Local Abbreviation step := (step text maxWidth measureFn).

(** The candidate of a round is the longest slice from [start] that
    fits: every shorter non-empty slice fits too, and the candidate ends
    with the text or just before a unit that no longer fits. *)
Lemma candidate_maximal_fit start :
  start < length text ->
  let lineEnd := growEnd start - 1 in
  start <= lineEnd <= length text /\
  (forall e, start < e <= lineEnd -> fits start e = true) /\
  (lineEnd = length text \/ fits start (lineEnd + 1) = false).
Proof.
  intros Hs. destruct (@growEnd_spec text maxWidth measureFn start Hs) as (Hb & Hfit & Hexit).
  cbv zeta. set (e := growEnd start) in *.
  split; [lia|]. split.
  - intros e' He'. apply Hfit. lia.
  - apply andb_false_iff in Hexit. destruct Hexit as [H|H].
    + apply Nat.leb_gt in H. left. lia.
    + right. replace (e - 1 + 1) with e by lia. exact H.
Qed.

(** A round whose first unit alone does not fit emits that unit. *)
Lemma step_too_wide urlMode start lines :
  start < length text -> fits start (start + 1) = false ->
  step urlMode start lines = (lines ++ [char_at text start], start + 1).
Proof.
  intros Hs Hw. unfold Wrap.step.
  destruct (@growEnd_spec text maxWidth measureFn start Hs) as (Hb & Hfit & _).
  set (e := growEnd start) in *.
  destruct (Nat.eq_dec e (start + 1)) as [He|He].
  - rewrite He. replace (start + 1 - 1 <=? start) with true; [reflexivity|].
    symmetry. apply Nat.leb_le. lia.
  - rewrite Hfit in Hw by lia. discriminate.
Qed.

(** The line of a round that is longer than one unit: it is a prefix of
    the candidate, in both modes. *)
Lemma step_line urlMode start lines :
  start < length text ->
  let lineEnd := growEnd start - 1 in
  (lineEnd <= start /\
   step urlMode start lines = (lines ++ [slice text start (start + 1)], start + 1)) \/
  (start < lineEnd /\ fits start lineEnd = true /\
   exists b, start < b <= lineEnd /\
     step urlMode start lines = (lines ++ [slice text start b], b)).
Proof.
  intros Hs. cbv zeta. unfold Wrap.step.
  destruct (@candidate_maximal_fit start Hs) as (Hb & Hfit & _).
  cbv zeta in Hb, Hfit. set (lineEnd := growEnd start - 1) in *.
  destruct (lineEnd <=? start) eqn:E1.
  - apply Nat.leb_le in E1. left. rewrite char_at_slice by exact Hs. auto.
  - apply Nat.leb_gt in E1. right. split; [exact E1|].
    split; [apply Hfit; lia|]. destruct urlMode.
    + pose proof (lastBreak_le (slice text start lineEnd)) as Hle.
      rewrite slice_length in Hle by lia.
      destruct (0 <? lastBreak (slice text start lineEnd))%Z eqn:E2.
      * apply Z.ltb_lt in E2.
        exists (start + Z.to_nat (lastBreak (slice text start lineEnd))).
        split; [lia | reflexivity].
      * exists lineEnd. split; [lia | reflexivity].
    + exists lineEnd. split; [lia | reflexivity].
Qed.

End Rounds.

(** C1. The lines [wrapText] returns, concatenated in order, are the
    text: whatever the text, the width and the measure function, and in
    both modes. *)
Theorem wrapText_lines_concat (text : jsstring) (maxWidth : float)
  (measureFn : jsstring -> float) :
  concat (wrapText text maxWidth measureFn false) = text /\
  concat (wrapText text maxWidth measureFn true) = text.
Proof. split; apply wrapText_concat. Qed.

(** C9. [wrapText] terminates: its loop is left within [length text]
    rounds, because every round moves [start] forwards and keeps it within
    the text; and a round whose first unit alone is wider than [maxWidth]
    emits that one unit as a line and moves [start] by one. *)
Theorem wrapText_terminates (text : jsstring) (maxWidth : float)
  (measureFn : jsstring -> float) (urlMode : bool) (start : nat)
  (lines : list jsstring) :
  start < length text ->
  wrapLoop text maxWidth measureFn urlMode (length text) 0 [] =
    Some (wrapText text maxWidth measureFn urlMode) /\
  start < snd (step text maxWidth measureFn urlMode start lines)
        <= length text /\
  (fits text maxWidth measureFn start (start + 1) = false ->
   step text maxWidth measureFn urlMode start lines =
     (lines ++ [char_at text start], start + 1)).
Proof.
  intros Hs. split; [apply wrapLoop_returns|]. split.
  - destruct (@step_slice text maxWidth measureFn urlMode start lines Hs) as (e & He & Hb).
    rewrite He. simpl. exact Hb.
  - apply step_too_wide. exact Hs.
Qed.

(** C10. With a monotonic measure function, every line of [wrapText] that
    is longer than one unit measures at most [maxWidth], in both modes. *)
Theorem wrapText_lines_fit (text : jsstring) (maxWidth : float)
  (measureFn : jsstring -> float) (urlMode : bool) (line : jsstring) :
  monotone measureFn ->
  In line (wrapText text maxWidth measureFn urlMode) ->
  1 < length line ->
  (measureFn line <=? maxWidth)%float = true.
Proof.
  intros Hmono Hin Hlen.
  pose proof (@wrapText_invariant text maxWidth measureFn urlMode
                (fun _ lines =>
                   Forall (fun l => 1 < length l ->
                                    (measureFn l <=? maxWidth)%float = true)
                          lines)) as H.
  cbv beta in H.
  assert (HF : Forall (fun l => 1 < length l ->
                         (measureFn l <=? maxWidth)%float = true)
                 (wrapText text maxWidth measureFn urlMode)).
  2: { rewrite Forall_forall in HF. apply HF; assumption. }
  apply H; clear H.
  - intros start lines Hs HI.
    destruct (@step_line text maxWidth measureFn urlMode start lines Hs)
      as [(Hle & ->)|(Hlt & Hfit & b & Hb & ->)]; simpl;
      apply Forall_app; split; auto; apply Forall_cons; auto.
    + intros Hl. rewrite slice_length in Hl by lia. lia.
    + intros _. unfold fits in Hfit.
      rewrite (@slice_prefix text start b) in Hfit by lia.
      eapply leb_trans; [apply Hmono | exact Hfit].
  - constructor.
Qed.

(** C7. In URL mode, a round whose candidate is longer than one unit
    breaks just after the last occurrence of the URL-boundary pattern in
    the candidate; when the candidate has no occurrence, the whole
    candidate is the line. *)
Theorem url_mode_breaks_after_last_boundary (text : jsstring)
  (maxWidth : float) (measureFn : jsstring -> float) (start : nat)
  (lines : list jsstring) :
  start < length text ->
  let lineEnd := growEnd text maxWidth measureFn start - 1 in
  let candidate := slice text start lineEnd in
  1 < length candidate ->
  (exists e,
      boundary candidate e /\
      (forall e', boundary candidate e' -> e' <= e) /\
      step text maxWidth measureFn true start lines =
        (lines ++ [firstn e candidate], start + e)) \/
  ((forall e, ~ boundary candidate e) /\
   step text maxWidth measureFn true start lines =
     (lines ++ [candidate], lineEnd)).
Proof.
  intros Hs lineEnd candidate Hlen.
  destruct (@candidate_maximal_fit text maxWidth measureFn start Hs) as (Hb & _).
  fold lineEnd in Hb.
  assert (Hcl : length candidate = lineEnd - start)
    by (apply slice_length; lia).
  unfold step. fold lineEnd. fold candidate.
  replace (lineEnd <=? start) with false
    by (symmetry; apply Nat.leb_gt; lia).
  destruct (0 <? lastBreak candidate)%Z eqn:E.
  - apply Z.ltb_lt in E. left.
    destruct (lastBreak_boundary candidate E) as (Hbd & Hmax).
    pose proof (lastBreak_le candidate) as Hle.
    exists (Z.to_nat (lastBreak candidate)).
    split; [exact Hbd|]. split; [exact Hmax|].
    f_equal. f_equal. f_equal. unfold candidate, slice.
    rewrite firstn_firstn.
    replace (start + Z.to_nat (lastBreak candidate) - start)
      with (Z.to_nat (lastBreak candidate)) by lia.
    f_equal. fold (slice text start lineEnd). fold candidate. lia.
  - apply Z.ltb_ge in E. right. split; [|reflexivity].
    apply lastBreak_no_boundary. exact E.
Qed.

(** ** The claims at concrete inputs *)

Lemma three_wide_monotone : monotone three_wide.
Proof.
  intros s t. unfold three_wide. rewrite length_app.
  destruct (length s <=? 3) eqn:E1, (length s + length t <=? 3) eqn:E2;
    try reflexivity.
  apply Nat.leb_gt in E1. apply Nat.leb_le in E2. lia.
Qed.

Example wrap_url_mode :
  wrapText (js "a/bcdefg") 50 three_wide true = [js "a/"; js "bcd"; js "efg"].
Proof. vm_compute. reflexivity. Qed.

Example wrap_generic_mode :
  wrapText (js "a/bcdefg") 50 three_wide false = [js "a/b"; js "cde"; js "fg"].
Proof. vm_compute. reflexivity. Qed.

Example wrap_percent_run :
  wrapText (js "x%41%42/y") 50 (fun s => Num.of_nat (length s)) true =
  [js "x%41%42/"; js "y"].
Proof. vm_compute. reflexivity. Qed.

Example wrap_too_narrow :
  wrapText (js "abc") 0.5 three_wide true = [js "a"; js "b"; js "c"].
Proof. vm_compute. reflexivity. Qed.

Lemma wrapText_terminates_witness :
  0 < length (js "abc") /\
  wrapLoop (js "abc") 0.5 three_wide true (length (js "abc")) 0 [] =
    Some (wrapText (js "abc") 0.5 three_wide true) /\
  0 < snd (step (js "abc") 0.5 three_wide true 0 []) <= length (js "abc") /\
  (fits (js "abc") 0.5 three_wide 0 (0 + 1) = false ->
   step (js "abc") 0.5 three_wide true 0 [] =
     ([] ++ [char_at (js "abc") 0], 0 + 1)).
Proof.
  split; [vm_compute; lia|].
  apply (@wrapText_terminates (js "abc") 0.5 three_wide true 0 []).
  vm_compute. lia.
Defined.

Lemma wrapText_lines_fit_witness :
  monotone three_wide /\
  In (js "bcd") (wrapText (js "a/bcdefg") 50 three_wide true) /\
  1 < length (js "bcd") /\
  (three_wide (js "bcd") <=? 50)%float = true.
Proof.
  split; [exact three_wide_monotone|].
  split; [vm_compute; auto|]. split; [vm_compute; lia|].
  apply (@wrapText_lines_fit (js "a/bcdefg") 50 three_wide true (js "bcd")).
  - exact three_wide_monotone.
  - vm_compute. auto.
  - vm_compute. lia.
Defined.

Lemma url_mode_breaks_after_last_boundary_witness :
  0 < length (js "a/b-cdefg") /\
  1 < length (slice (js "a/b-cdefg") 0
                (growEnd (js "a/b-cdefg") 50 (fun s => Num.of_nat (length s)) 0 - 1)) /\
  let lineEnd := growEnd (js "a/b-cdefg") 50 (fun s => Num.of_nat (length s)) 0 - 1 in
  let candidate := slice (js "a/b-cdefg") 0 lineEnd in
  (exists e,
      boundary candidate e /\
      (forall e', boundary candidate e' -> e' <= e) /\
      step (js "a/b-cdefg") 50 (fun s => Num.of_nat (length s)) true 0 [] =
        ([] ++ [firstn e candidate], 0 + e)) \/
  ((forall e, ~ boundary candidate e) /\
   step (js "a/b-cdefg") 50 (fun s => Num.of_nat (length s)) true 0 [] =
     ([] ++ [candidate], lineEnd)).
Proof.
  split; [vm_compute; lia|]. split; [vm_compute; lia|].
  apply (@url_mode_breaks_after_last_boundary (js "a/b-cdefg") 50
           (fun s => Num.of_nat (length s)) 0 []);
    vm_compute; lia.
Defined.

Example url_break_after_last_separator :
  step (js "a/b-cdefg") 50 (fun s => Num.of_nat (length s)) true 0 [] =
  ([js "a/b-"], 4).
Proof. vm_compute. reflexivity. Qed.

End WrapClaims.

Module RoundFacts.
Import FloatFacts.

(** ** Not-a-number *)

Lemma SFeqb_refl v : v <> S754_nan -> SFeqb v v = true.
Proof.
  unfold SFeqb. destruct v as [s|s| |s m e]; simpl; try congruence.
  - destruct s; reflexivity.
  - intros _. destruct s; rewrite Z.compare_refl, Pos.compare_cont_refl;
      reflexivity.
Qed.

Lemma is_nan_false x : Prim2SF x <> S754_nan -> PrimFloat.is_nan x = false.
Proof.
  intros H. unfold PrimFloat.is_nan. rewrite eqb_spec, SFeqb_refl; auto.
Qed.

Lemma is_nan_false_inv x : PrimFloat.is_nan x = false -> Prim2SF x <> S754_nan.
Proof.
  unfold PrimFloat.is_nan. rewrite eqb_spec. intros H E. rewrite E in H.
  discriminate.
Qed.

(** ** Rounding a positive mantissa never gives NaN and keeps the sign *)

Lemma shr_1_nonneg mrs : (0 <= shr_m mrs -> 0 <= shr_m (shr_1 mrs))%Z.
Proof.
  destruct mrs as [m r0 s0]. simpl.
  destruct m as [|[p|p|]|p]; simpl; lia.
Qed.

Lemma iter_shr_nonneg p :
  forall mrs, (0 <= shr_m mrs -> 0 <= shr_m (iter_pos shr_1 p mrs))%Z.
Proof.
  induction p as [p IH|p IH|]; intros mrs H; simpl.
  - apply IH. apply IH. apply shr_1_nonneg. exact H.
  - apply IH. apply IH. exact H.
  - apply shr_1_nonneg. exact H.
Qed.

Lemma shr_fexp_nonneg prec emax m e l :
  (0 <= m -> 0 <= shr_m (fst (shr_fexp prec emax m e l)))%Z.
Proof.
  intros H. unfold shr_fexp, shr.
  assert (H0 : (0 <= shr_m (shr_record_of_loc m l))%Z)
    by (destruct l as [|[| |]]; exact H).
  destruct (fexp prec emax (Zdigits2 m + e) - e)%Z; simpl; auto.
  apply iter_shr_nonneg. exact H0.
Qed.

Lemma round_nearest_even_nonneg m l :
  (0 <= m -> 0 <= round_nearest_even m l)%Z.
Proof.
  intros H. unfold round_nearest_even.
  destruct l as [|[| |]]; try destruct (Z.even m); lia.
Qed.

Lemma binary_round_aux_signed prec emax s m e l :
  Num.signed s (binary_round_aux prec emax s (Zpos m) e l).
Proof.
  unfold binary_round_aux.
  pose proof (@shr_fexp_nonneg prec emax (Zpos m) e l ltac:(lia)) as H1.
  destruct (shr_fexp prec emax (Zpos m) e l) as [mrs' e'] eqn:E1.
  simpl in H1.
  pose proof (@shr_fexp_nonneg prec emax
                (round_nearest_even (shr_m mrs') (loc_of_shr_record mrs'))
                e' loc_Exact
                (round_nearest_even_nonneg _ H1)) as H2.
  destruct (shr_fexp prec emax _ e' loc_Exact) as [mrs'' e''] eqn:E2.
  simpl in H2.
  destruct (shr_m mrs'') as [|q|q]; simpl.
  - exact I.
  - destruct (e'' <=? emax - prec)%Z; reflexivity.
  - lia.
Qed.

Lemma binary_round_signed prec emax s m e :
  Num.signed s (binary_round prec emax s m e).
Proof.
  unfold binary_round.
  destruct (shl_align m e _) as [mz ez]. apply binary_round_aux_signed.
Qed.

(** ** The numbers of the layout *)

Lemma of_uint63_signed i : Num.signed false (Prim2SF (PrimFloat.of_uint63 i)).
Proof.
  rewrite of_uint63_spec. unfold binary_normalize.
  pose proof (Uint63.to_Z_bounded i) as Hb.
  destruct (Uint63.to_Z i) as [|p|p]; simpl; auto.
  - apply binary_round_signed.
  - lia.
Qed.

Lemma of_nat_signed n : Num.signed false (Prim2SF (Num.of_nat n)).
Proof.
  unfold Num.of_nat, Num.of_Z. destruct (Z.of_nat n) as [|p|p] eqn:E.
  - vm_compute. exact I.
  - apply of_uint63_signed.
  - lia.
Qed.

(** A non-negative number times a positive finite number is not negative
    and not NaN. *)
Lemma mul_signed x y m e :
  Num.signed false (Prim2SF x) -> Prim2SF y = S754_finite false m e ->
  Num.signed false (Prim2SF (x * y)%float).
Proof.
  intros Hx Hy. rewrite mul_spec, Hy. unfold SF64mul, SFmul.
  destruct (Prim2SF x) as [s|s| |s mx ex]; simpl in *; auto.
  - subst s. reflexivity.
  - subst s. apply binary_round_aux_signed.
Qed.

(** A positive finite number plus a non-negative number is not NaN. *)
Lemma add_not_nan x y m e :
  Prim2SF x = S754_finite false m e -> Num.signed false (Prim2SF y) ->
  Prim2SF (x + y)%float <> S754_nan.
Proof.
  intros Hx Hy. rewrite add_spec, Hx. unfold SF64add, SFadd.
  destruct (Prim2SF y) as [s|s| |s my ey]; simpl in *; try congruence.
  subst s. unfold cond_Zopp. cbn [Z.add binary_normalize].
  pose proof (binary_round_signed prec emax false
                (fst (shl_align m e (Z.min e ey)) +
                 fst (shl_align my ey (Z.min e ey)))%positive (Z.min e ey)) as H.
  intros E. rewrite E in H. exact H.
Qed.

(** ** [Math.max] *)

Lemma ltb_leb x y : (x <? y)%float = true -> (x <=? y)%float = true.
Proof.
  rewrite ltb_spec, leb_spec. unfold SFltb, SFleb.
  destruct (SFcompare (Prim2SF x) (Prim2SF y)) as [[| |]|]; congruence.
Qed.

Lemma leb_refl x : PrimFloat.is_nan x = false -> (x <=? x)%float = true.
Proof.
  intros H. apply is_nan_false_inv in H. rewrite leb_spec.
  unfold SFleb. destruct (Prim2SF x) as [s|s| |s m e]; simpl; try congruence.
  - destruct s; reflexivity.
  - destruct s; rewrite Z.compare_refl, Pos.compare_cont_refl; reflexivity.
Qed.

Lemma zero_leb x y :
  PrimFloat.is_zero x = true -> PrimFloat.is_nan y = false ->
  (y <? x)%float = false -> (x <=? y)%float = true.
Proof.
  unfold PrimFloat.is_zero. rewrite eqb_spec, ltb_spec, leb_spec.
  intros Hz Hy. apply is_nan_false_inv in Hy. revert Hz.
  change (Prim2SF zero) with (S754_zero false).
  unfold SFeqb, SFltb, SFleb.
  destruct (Prim2SF x) as [s|s| |s m e]; simpl; try discriminate.
  - intros _. destruct (Prim2SF y) as [s'|s'| |s' m' e']; simpl;
      try congruence; destruct s'; congruence.
  - destruct s; discriminate.
  - destruct s; discriminate.
Qed.

(** [Math.max(a, b) >= a] when neither is NaN. *)
Lemma Math_max_ge_l a b :
  PrimFloat.is_nan a = false -> PrimFloat.is_nan b = false ->
  (a <=? Num.Math_max a b)%float = true.
Proof.
  intros Ha Hb. unfold Num.Math_max. rewrite Ha, Hb. simpl.
  destruct (a <? b)%float eqn:E1; [apply ltb_leb; exact E1|].
  destruct (b <? a)%float eqn:E2; [apply leb_refl; exact Ha|].
  destruct (PrimFloat.is_zero a) eqn:Ez; simpl; [|apply leb_refl; exact Ha].
  destruct (PrimFloat.get_sign a); [|apply leb_refl; exact Ha].
  apply zero_leb; assumption.
Qed.

End RoundFacts.

Module LayoutClaims.
Import FloatFacts RoundFacts Layout.

Lemma valid_bottom_not_nan (m : Spacing.t) :
  Spacing.valid m -> PrimFloat.is_nan (Spacing.bottom m) = false.
Proof.
  unfold Spacing.valid. intros H.
  inversion H as [|? ? _ H1]; subst. inversion H1 as [|? ? _ H2]; subst.
  inversion H2 as [|? ? [Hf _] _]; subst.
  unfold PrimFloat.is_finite in Hf.
  destruct (PrimFloat.is_nan (Spacing.bottom m)); [discriminate|reflexivity].
Qed.

(** The height of the footer block is a number, however many lines the
    URL wraps to. *)
Lemma footer_height_not_nan n :
  PrimFloat.is_nan (5 + (9 + 2) + 4 + Num.of_nat n * (12 + 2))%float = false.
Proof.
  apply is_nan_false.
  eapply add_not_nan; [vm_compute; reflexivity|].
  eapply mul_signed; [apply of_nat_signed | vm_compute; reflexivity].
Qed.

Lemma not_ltb_leb x y :
  PrimFloat.is_nan x = false -> PrimFloat.is_nan y = false ->
  (x <? y)%float = false -> (y <=? x)%float = true.
Proof.
  intros Hx Hy. apply is_nan_false_inv in Hx, Hy.
  rewrite ltb_spec, leb_spec. unfold SFltb, SFleb.
  destruct (Prim2SF x) as [sx|sx| |sx mx ex],
           (Prim2SF y) as [sy|sy| |sy my ey]; simpl;
    try congruence; try (destruct sx; congruence);
    try (destruct sy; congruence); try (destruct sx, sy; congruence).
  destruct sx, sy; simpl; try congruence;
    rewrite (Z.compare_antisym ex ey);
    destruct (Z.compare_spec ex ey); simpl; try congruence;
    rewrite ?Pos.compare_cont_spec; simpl;
    rewrite (Pos.compare_antisym mx my);
    destruct (Pos.compare mx my); simpl; congruence.
Qed.

(** [Math.max(a, b) >= b] when neither is NaN. *)
Lemma Math_max_ge_r a b :
  PrimFloat.is_nan a = false -> PrimFloat.is_nan b = false ->
  (b <=? Num.Math_max a b)%float = true.
Proof.
  intros Ha Hb. unfold Num.Math_max. rewrite Ha, Hb. simpl.
  destruct (a <? b)%float eqn:E1; [apply leb_refl; exact Hb|].
  destruct (b <? a)%float eqn:E2; [apply ltb_leb; exact E2|].
  destruct (PrimFloat.is_zero a && PrimFloat.get_sign a)%bool;
    [apply leb_refl; exact Hb|].
  apply not_ltb_leb; assumption.
Qed.

(** C2. The layout of [computeLayout], for spacings whose fields are
    finite and at least 0, in terms of what was asked for.  The margin and
    the padding of the layout are the given ones, or 16 and 20 points on
    every side where none is given.  The padded content is the rectangle
    in points with the padding around it, and the URL lines are the URL
    wrapped, in URL mode, to the padded width less 10 points on either
    side, measured at 12 points; put together they are the URL.  The
    bottom margin is the larger of the bottom margin asked for and the
    height of the footer block with these lines; it is at least the
    former, and at least the latter.  The page is the padded content plus
    the left and right margins in width, plus the top margin and the
    bottom margin of the layout in height. *)
Theorem computeLayout_invariants
  (widthOfTextAtSize : jsstring -> float -> float) (rect : ElementRect.t)
  (url : jsstring) (marginOpt paddingOpt : option Spacing.t) :
  (forall m, marginOpt = Some m -> Spacing.valid m) ->
  (forall p, paddingOpt = Some p -> Spacing.valid p) ->
  let asked :=
    match marginOpt with Some m => m | None => Spacing.mk 16 16 16 16 end in
  let around :=
    match paddingOpt with Some p => p | None => Spacing.mk 20 20 20 20 end in
  let width :=
    (ElementRect.width rect * (72 / 96) +
     Spacing.left around + Spacing.right around)%float in
  let height :=
    (ElementRect.height rect * (72 / 96) +
     Spacing.top around + Spacing.bottom around)%float in
  let lines :=
    wrapText url (width - 10 * 2)%float
      (fun s => widthOfTextAtSize s 12%float) true in
  let footer :=
    (5 + (9 + 2) + 4 + Num.of_nat (length lines) * (12 + 2))%float in
  let L := computeLayout widthOfTextAtSize rect url marginOpt paddingOpt in
  (margin L = asked /\ padding L = around /\
   paddedWidth L = width /\ paddedHeight L = height /\
   urlLines L = lines /\ concat (urlLines L) = url) /\
  (Spacing.bottom asked <=? bottomMargin L)%float = true /\
  pageWidth L = (width + Spacing.left asked + Spacing.right asked)%float /\
  pageHeight L = (height + Spacing.top asked + bottomMargin L)%float /\
  bottomMargin L = Num.Math_max (Spacing.bottom asked) footer /\
  (footer <=? bottomMargin L)%float = true.
Proof.
  intros Hm _ asked around width height lines footer L.
  assert (Ha : PrimFloat.is_nan (Spacing.bottom asked) = false).
  { unfold asked. destruct marginOpt as [m|]; [|reflexivity].
    apply valid_bottom_not_nan. apply Hm. reflexivity. }
  assert (Hf : PrimFloat.is_nan footer = false)
    by apply footer_height_not_nan.
  assert (Hb : bottomMargin L = Num.Math_max (Spacing.bottom asked) footer)
    by reflexivity.
  split; [|split; [|split; [|split; [|split]]]].
  - repeat split. apply WrapFacts.wrapText_concat.
  - rewrite Hb. apply Math_max_ge_l; assumption.
  - reflexivity.
  - reflexivity.
  - exact Hb.
  - rewrite Hb. apply Math_max_ge_r; assumption.
Qed.

Lemma computeLayout_invariants_witness :
  Spacing.valid (Spacing.mk 16 16 100 16) /\
  margin (computeLayout courier rect400 long_url
            (Some (Spacing.mk 16 16 100 16)) None) =
    Spacing.mk 16 16 100 16 /\
  length (urlLines (computeLayout courier rect400 long_url
                      (Some (Spacing.mk 16 16 100 16)) None)) = 7 /\
  bottomMargin (computeLayout courier rect400 long_url
                  (Some (Spacing.mk 16 16 100 16)) None) = 118%float /\
  pageHeight (computeLayout courier rect400 long_url
                (Some (Spacing.mk 16 16 100 16)) None) = 399%float.
Proof.
  assert (Hv : Spacing.valid (Spacing.mk 16 16 100 16))
    by (repeat constructor).
  assert (Hm : forall m, Some (Spacing.mk 16 16 100 16) = Some m ->
                         Spacing.valid m)
    by (intros m E; injection E as <-; exact Hv).
  assert (Hp : forall p, @None Spacing.t = Some p -> Spacing.valid p)
    by (intros p E; discriminate E).
  destruct (@computeLayout_invariants courier rect400 long_url
              (Some (Spacing.mk 16 16 100 16)) None Hm Hp)
    as ((Hmar & _ & _ & _ & Hlines & _) & _ & _ & Hpage & Hbot & _).
  split; [exact Hv|]. split; [exact Hmar|].
  split; [rewrite Hlines; vm_compute; reflexivity|].
  split; [rewrite Hbot; vm_compute; reflexivity|].
  rewrite Hpage, Hbot. vm_compute. reflexivity.
Defined.

Example layout_400x300 :
  let L := computeLayout courier rect400 (js "https://example.com/a/b?c=d")
             None None in
  (pageWidth L, pageHeight L, bottomMargin L, length (urlLines L)) =
  (372%float, 329%float, 48%float, 2).
Proof. vm_compute. reflexivity. Qed.

End LayoutClaims.

Module ContrastClaims.
Import Contrast.

(** C6. [contrastColor] is white on black and, the engine computing
    [1 ** 2.4] as 1, black on white; and for every colour it is black
    exactly when the WCAG 2.1 relative luminance is above 0.179, and white
    otherwise. *)
Theorem contrastColor_by_luminance (pow : float -> float -> float) (bg : RGB) :
  contrastColor pow (mkRGB 0 0 0) = rgb 1 1 1 /\
  (pow 1%float 2.4%float = 1%float ->
   contrastColor pow (mkRGB 255 255 255) = rgb 0 0 0) /\
  ((0.179 <? relative_luminance pow bg)%float = true ->
   contrastColor pow bg = rgb 0 0 0) /\
  ((0.179 <? relative_luminance pow bg)%float = false ->
   contrastColor pow bg = rgb 1 1 1).
Proof.
  split; [reflexivity|]. split; [|split].
  - intros Hpow. unfold contrastColor, luminance, toLinear. cbn [r g b].
    replace (Num.of_Z 255 / 255)%float with 1%float by reflexivity.
    replace (1 <=? 0.04045)%float with false by reflexivity.
    replace ((1 + 0.055) / 1.055)%float with 1%float by reflexivity.
    rewrite Hpow. reflexivity.
  - intros H. unfold contrastColor.
    change (luminance pow bg) with (relative_luminance pow bg).
    rewrite H. reflexivity.
  - intros H. unfold contrastColor.
    change (luminance pow bg) with (relative_luminance pow bg).
    rewrite H. reflexivity.
Qed.

Lemma contrastColor_by_luminance_witness :
  pow_2_5 1%float 2.4%float = 1%float /\
  (0.179 <? relative_luminance pow_2_5 (mkRGB 200 24 24))%float = false /\
  (0.179 <? relative_luminance pow_2_5 (mkRGB 240 240 16))%float = true /\
  contrastColor pow_2_5 (mkRGB 255 255 255) = rgb 0 0 0 /\
  contrastColor pow_2_5 (mkRGB 200 24 24) = rgb 1 1 1 /\
  contrastColor pow_2_5 (mkRGB 240 240 16) = rgb 0 0 0.
Proof.
  split; [reflexivity|]. split; [reflexivity|]. split; [reflexivity|].
  split; [|split].
  - apply (contrastColor_by_luminance pow_2_5 (mkRGB 0 0 0)). reflexivity.
  - apply (contrastColor_by_luminance pow_2_5 (mkRGB 200 24 24)). reflexivity.
  - apply (contrastColor_by_luminance pow_2_5 (mkRGB 240 240 16)). reflexivity.
Defined.

End ContrastClaims.

Module GradientClaims.
Import RegexFacts Gradient.

(** A failing [test] leaves [lastIndex] at 0. *)
Lemma test_false_lastIndex r str L :
  fst (test r str L) = false -> snd (test r str L) = 0.
Proof.
  unfold test, exec. destruct (length str <? L); [reflexivity|].
  destruct (search r (skipn L str) L); simpl; [discriminate | reflexivity].
Qed.

(** [TRANSPARENT_RE.lastIndex] is 0 again on leaving the loop body. *)
Lemma fixBackground_lastIndex bg : snd (fixBackground 0 bg) = 0.
Proof.
  unfold fixBackground.
  destruct (includes (js "gradient") bg); simpl; [|reflexivity].
  pose proof (@test_false_lastIndex TRANSPARENT_RE bg 0) as H.
  destruct (test TRANSPARENT_RE bg 0) as [found tli1]. simpl in *.
  destruct found; simpl.
  - destruct (opaqueColorsOf bg) as [|[[r g] b] rest]; reflexivity.
  - apply H. reflexivity.
Qed.

(** Both patterns consume something whenever they match. *)
Lemma patterns_not_empty :
  0 < min_len TRANSPARENT_RE /\ 0 < min_len colorRe.
Proof. split; vm_compute; lia. Qed.

(** The fuel of the loop over the colour tokens is never what stops it. *)
Lemma collect_fuel bg :
  forall f1 f2 L acc,
    L <= length bg -> length bg - L < f1 -> length bg - L < f2 ->
    collect f1 bg L acc = collect f2 bg L acc.
Proof.
  induction f1 as [|f1 IH]; intros f2 L acc HL H1 H2; [lia|].
  destruct f2 as [|f2]; [lia|]. simpl.
  destruct (exec colorRe bg L) as [[m|] li] eqn:E; [|reflexivity].
  apply exec_advances in E; [|apply patterns_not_empty | exact HL].
  apply IH; lia.
Qed.

Lemma fixGradientTransparency_map els :
  fixGradientTransparency els = map fixElement els.
Proof.
  unfold fixGradientTransparency. induction els as [|el rest IH]; simpl.
  - reflexivity.
  - unfold fixElement at 1.
    pose proof (fixBackground_lastIndex (computedBackgroundImage el)) as H.
    destruct (fixBackground 0 (computedBackgroundImage el)) as [fixed tli'].
    simpl in *. subst tli'. rewrite IH. reflexivity.
Qed.


Example gradient_without_transparent_stop :
  fixGradientTransparency
    [mkElement (js "linear-gradient(rgb(1, 2, 3), rgb(4, 5, 6))") None;
     mkElement (js "none") None] =
    [mkElement (js "linear-gradient(rgb(1, 2, 3), rgb(4, 5, 6))") None;
     mkElement (js "none") None].
Proof. reflexivity. Qed.

Example gradient_from_transparent :
  fixGradientTransparency
    [mkElement (js "linear-gradient(to right, rgba(0, 0, 0, 0) 0%, rgb(255, 100, 50) 100%)") None] =
    [mkElement (js "linear-gradient(to right, rgba(0, 0, 0, 0) 0%, rgb(255, 100, 50) 100%)")
       (Some (js "linear-gradient(to right, rgba(255, 100, 50, 0) 0%, rgb(255, 100, 50) 100%)"))].
Proof. reflexivity. Qed.

End GradientClaims.

Module OrchestratorClaims.
Import Orchestrator.

Section Main.

Variables (World PageInput : Type).
Variable capturePageInput :
  World -> jsstring -> CaptureOptions -> result thrown PageInput * World.
Variable close : World -> World.
Variable deliver : list PageInput -> World -> result thrown jsstring * World.

Local Abbreviation captureItem := (captureItem capturePageInput).
Local Abbreviation item_loop := (item_loop capturePageInput).
Local Abbreviation main := (main capturePageInput close deliver).
Local Abbreviation Call := (Call PageInput).

(** The items after one that was not captured are not reached. *)
Lemma item_loop_app body done rest :
  forall pageInputs w log,
    item_loop body (done ++ rest) pageInputs w log =
    match item_loop body done pageInputs w log with
    | (Ok pageInputs', w', log') => item_loop body rest pageInputs' w' log'
    | (Throw err, w', log') => (Throw err, w', log')
    end.
Proof.
  induction done as [|item done IH]; intros pageInputs w log; simpl.
  - reflexivity.
  - destruct (captureItem body item w log) as [[[p|err|lastError] w'] log'];
      auto.
Qed.

(** What [main] returns when the items before [item] are captured and
    [item] is not. *)
Lemma main_aborts body done item rest pageInputs w w1 log1 :
  items body = done ++ item :: rest ->
  item_loop body done [] w [] = (Ok pageInputs, w1, log1) ->
  main body w =
  match captureItem body item w1 log1 with
  | (Captured p, w2, log2) =>
      main body w
  | (Rethrown err, w2, log2) => (Throw err, close w2, log2)
  | (NotCaptured lastError, w2, log2) =>
      (Throw (captureFailure item lastError), close w2, log2)
  end.
Proof.
  intros Hitems Hdone.
  destruct (captureItem body item w1 log1) as [[[p|err|lastError] w2] log2]
    eqn:E; [reflexivity| |];
    unfold Orchestrator.main; rewrite Hitems, item_loop_app, Hdone;
    simpl; rewrite E; reflexivity.
Qed.

(** The attempts of one item: the calls made, the last of them apart. *)
Lemma captureItem_calls body item w log :
  exists (before : list Call) (final : Call),
    snd (captureItem body item w log) = log ++ before ++ [final] /\
    length before < MAX_ATTEMPTS /\
    map (@call_attempt PageInput) (before ++ [final]) =
      seq 1 (length before + 1) /\
    Forall (fun c => call_url c = url item) (before ++ [final]) /\
    Forall (fun c => exists err, call_outcome c = Throw err /\
                                 retryable err = true) before /\
    match fst (fst (captureItem body item w log)) with
    | Captured p => call_outcome final = Ok p
    | Rethrown err =>
        call_outcome final = Throw err /\ retryable err = false
    | NotCaptured lastError =>
        length before + 1 = MAX_ATTEMPTS /\
        exists err, call_outcome final = Throw err /\
                    retryable err = true /\ lastError = Some err
    end.
Proof.
  unfold Orchestrator.captureItem, MAX_ATTEMPTS. cbn [seq attempt_loop].
  set (o := optionsOf body item).
  destruct (capturePageInput w (url item) o) as [out1 w1].
  destruct out1 as [p1|[m1|m1|t1]].
  all: try (eexists [], _; calls_done).
  all: destruct (capturePageInput w1 (url item) o) as [out2 w2].
  all: destruct out2 as [p2|[m2|m2|t2]]; try (eexists [_], _; calls_done).
  all: destruct (capturePageInput w2 (url item) o) as [out3 w3].
  all: destruct out3 as [p3|[m3|m3|t3]]; eexists [_; _], _; calls_done.
Qed.


End Main.


(** The retry scenarios of the specification. *)
Example fails_twice_then_succeeds :
  main flaky (fun w => w) (fun _ w => (Ok (js "https://blob/pdf"), w)) one_body 0 =
  (Ok (js "https://blob/pdf"), 3,
   [mkCall (js "https://example.com/") 1 (Throw (OtherError (js "Navigation timeout")));
    mkCall (js "https://example.com/") 2 (Throw (OtherError (js "Navigation timeout")));
    mkCall (js "https://example.com/") 3 (Ok 2)]).
Proof. reflexivity. Qed.

Example selector_not_found_aborts :
  main (fun (w : nat) (_ : jsstring) (_ : CaptureOptions) =>
          (@Throw thrown nat (SelectorNotFoundError (js "Selector not found")), S w))
       (fun w => w) (fun _ w => (Ok (js "https://blob/pdf"), w))
       (mkBody None None None [one_item; one_item]) 0 =
  (Throw (SelectorNotFoundError (js "Selector not found")), 1,
   [mkCall (js "https://example.com/") 1
      (Throw (SelectorNotFoundError (js "Selector not found")))]).
Proof. reflexivity. Qed.

Example three_failures_abort :
  main (fun (w : nat) (_ : jsstring) (_ : CaptureOptions) =>
          (@Throw thrown nat (OtherError (js "net::ERR_FAILED")), S w))
       (fun w => w) (fun _ w => (Ok (js "https://blob/pdf"), w))
       (mkBody None None None [one_item; one_item]) 0 =
  (Throw (OtherError
            (js "Failed to capture https://example.com/ after 3 attempts: net::ERR_FAILED")),
   3,
   [mkCall (js "https://example.com/") 1 (Throw (OtherError (js "net::ERR_FAILED")));
    mkCall (js "https://example.com/") 2 (Throw (OtherError (js "net::ERR_FAILED")));
    mkCall (js "https://example.com/") 3 (Throw (OtherError (js "net::ERR_FAILED")))]).
Proof. reflexivity. Qed.

End OrchestratorClaims.

Module PngFacts.
Import Png.
Open Scope Z_scope.

(** ** The chunk loop *)

Lemma u8_nonneg x : 0 <= u8 x.
Proof. unfold u8. lia. Qed.

Lemma getUint32_nonneg a off v : getUint32 a off = Ok v -> 0 <= v.
Proof.
  unfold getUint32.
  destruct (zget _ off) as [b0|]; [|discriminate].
  destruct (zget _ (off + 1)) as [b1|]; [|discriminate].
  destruct (zget _ (off + 2)) as [b2|]; [|discriminate].
  destruct (zget _ (off + 3)) as [b3|]; [|discriminate].
  intros H. inversion H.
  pose proof (u8_nonneg b0). pose proof (u8_nonneg b1).
  pose proof (u8_nonneg b2). pose proof (u8_nonneg b3). lia.
Qed.

Lemma getUint32_throws a off e : getUint32 a off = Throw e -> e = RangeError.
Proof.
  unfold getUint32.
  destruct (zget _ off); [|congruence].
  destruct (zget _ (off + 1)); [|congruence].
  destruct (zget _ (off + 2)); [|congruence].
  destruct (zget _ (off + 3)); congruence.
Qed.

(** A round that goes on moves [offset] by at least 12. *)
Lemma chunk_step_offset a st st' :
  chunk_step a st = Ok (inl st') -> offset st + 12 <= offset st'.
Proof.
  unfold chunk_step.
  destruct (getUint32 a (offset st)) as [len|e] eqn:El; [|discriminate].
  apply getUint32_nonneg in El. cbn [bind].
  destruct (list_eq_dec _ _ _).
  - destruct (getUint32 a (offset st + 8)); [|discriminate].
    destruct (getUint32 a (offset st + 12)); [|discriminate].
    cbn [bind]. intros H. assert (Hoff : offset st' = offset st + (12 + len)) by (inversion H; reflexivity). lia.
  - destruct (list_eq_dec _ _ _).
    + intros H. assert (Hoff : offset st' = offset st + (12 + len)) by (inversion H; reflexivity). lia.
    + destruct (list_eq_dec _ _ _); [discriminate|].
      intros H. assert (Hoff : offset st' = offset st + (12 + len)) by (inversion H; reflexivity). lia.
Qed.

Lemma chunk_step_throws a st e : chunk_step a st = Throw e -> e = RangeError.
Proof.
  unfold chunk_step.
  destruct (getUint32 a (offset st)) as [len|e0] eqn:El.
  - cbn [bind]. destruct (list_eq_dec _ _ _).
    + destruct (getUint32 a (offset st + 8)) eqn:E8.
      * destruct (getUint32 a (offset st + 12)) eqn:E12; cbn [bind];
          [discriminate|].
        intros H. inversion H; subst. eapply getUint32_throws; eauto.
      * cbn [bind]. intros H. inversion H; subst.
        eapply getUint32_throws; eauto.
    + destruct (list_eq_dec _ _ _); [discriminate|].
      destruct (list_eq_dec _ _ _); discriminate.
  - cbn [bind]. intros H. inversion H; subst. eapply getUint32_throws; eauto.
Qed.

(** The fuel of the chunk loop is never what stops it. *)
Lemma chunk_loop_fuel a :
  forall fuel fuel' st,
    zlength (elements a) - offset st <= Z.of_nat fuel -> (fuel <= fuel')%nat ->
    chunk_loop a fuel' st = chunk_loop a fuel st.
Proof.
  induction fuel as [|f IH]; intros fuel' st Hf Hle.
  - destruct fuel'; simpl;
      destruct (offset st <? zlength (elements a)) eqn:E; auto.
    apply Z.ltb_lt in E. lia.
  - destruct fuel' as [|f']; [lia|]. simpl.
    destruct (offset st <? zlength (elements a)) eqn:E; [|reflexivity].
    destruct (chunk_step a st) as [[st'|st']|e] eqn:Es; cbn [bind]; auto.
    apply chunk_step_offset in Es. apply IH; lia.
Qed.

Lemma chunk_loop_throws a :
  forall fuel st e, chunk_loop a fuel st = Throw e -> e = RangeError.
Proof.
  induction fuel as [|f IH]; intros st e; simpl;
    destruct (offset st <? zlength (elements a)); try discriminate.
  destruct (chunk_step a st) as [[st'|st']|e0] eqn:Es; cbn [bind].
  - apply IH.
  - discriminate.
  - intros H. inversion H; subst. eapply chunk_step_throws; eauto.
Qed.

Lemma parseChunks_throws a e : parseChunks a = Throw e -> e = RangeError.
Proof. apply chunk_loop_throws. Qed.

(** ** Sampling *)

Lemma sample_skip pixels channels buckets i :
  pixel_survives pixels channels i = false ->
  sample pixels channels buckets i = buckets.
Proof.
  unfold pixel_survives, survives, sample.
  destruct (alpha_at pixels channels i <? 200); [reflexivity|].
  destruct (_ || _ || _)%bool; [reflexivity | discriminate].
Qed.

Lemma sample_loop_skip pixels channels total step :
  0 < step ->
  forall fuel k buckets,
    0 <= k ->
    (forall k', k <= k' -> k' * step < total ->
                pixel_survives pixels channels (k' * step) = false) ->
    sample_loop pixels channels fuel total step (k * step) buckets = buckets.
Proof.
  intros Hstep. induction fuel as [|f IH]; intros k buckets Hk Hnone; simpl;
    destruct (k * step <? total) eqn:E; auto.
  apply Z.ltb_lt in E. rewrite sample_skip by (apply Hnone; lia).
  replace (k * step + step) with ((k + 1) * step) by lia.
  apply IH; [lia|]. intros k' Hk' Hlt. apply Hnone; lia.
Qed.

Lemma is_value_false x v : is_value x v = false <-> x <> Some v.
Proof.
  unfold is_value. destruct x as [y|].
  - destruct (Z.eqb_spec y v); split; congruence.
  - split; congruence.
Qed.

(** The fuel of the sampling loop is never what stops it. *)
Lemma sample_loop_fuel pixels channels total step :
  0 < step ->
  forall f1 f2 i buckets,
    total - i <= Z.of_nat f1 -> total - i <= Z.of_nat f2 ->
    sample_loop pixels channels f1 total step i buckets =
    sample_loop pixels channels f2 total step i buckets.
Proof.
  intros Hstep. induction f1 as [|f1 IH]; intros f2 i buckets H1 H2.
  - destruct f2; simpl; destruct (i <? total) eqn:E; auto.
    apply Z.ltb_lt in E. lia.
  - destruct f2 as [|f2]; simpl; destruct (i <? total) eqn:E; auto.
    + apply Z.ltb_lt in E. lia.
    + apply IH; lia.
Qed.

Lemma unsupported_iff st :
  unsupported st = true <->
  bitDepth st <> Some 8 \/ (colorType st <> Some 2 /\ colorType st <> Some 6).
Proof.
  unfold unsupported.
  rewrite orb_true_iff, andb_true_iff, !negb_true_iff, !is_value_false.
  reflexivity.
Qed.

End PngFacts.

Module StreamFacts.
Import Png PngFacts.
Open Scope Z_scope.

(** ** Indexing by integers *)

Lemma zlength_cons (A : Type) (x : A) l : zlength (x :: l) = 1 + zlength l.
Proof. unfold zlength. simpl length. lia. Qed.

Lemma zlength_app (A : Type) (l1 l2 : list A) :
  zlength (l1 ++ l2) = zlength l1 + zlength l2.
Proof. unfold zlength. rewrite length_app. lia. Qed.

Lemma zlength_nonneg (A : Type) (l : list A) : 0 <= zlength l.
Proof. unfold zlength. lia. Qed.

Lemma zget_app (A : Type) (pre l : list A) k :
  0 <= k -> zget (pre ++ l) (zlength pre + k) = zget l k.
Proof.
  intros Hk. induction pre as [|x pre IH].
  - reflexivity.
  - rewrite zlength_cons. pose proof (zlength_nonneg pre).
    cbn [app zget].
    replace (1 + zlength pre + k <? 0) with false by (symmetry; apply Z.ltb_ge; lia).
    replace (1 + zlength pre + k =? 0) with false by (symmetry; apply Z.eqb_neq; lia).
    replace (1 + zlength pre + k - 1) with (zlength pre + k) by lia.
    exact IH.
Qed.

Lemma zskip_app (A : Type) (pre l : list A) :
  zskip (pre ++ l) (zlength pre) = l.
Proof.
  induction pre as [|x pre IH].
  - destruct l; reflexivity.
  - rewrite zlength_cons. pose proof (zlength_nonneg pre).
    cbn [app zskip].
    replace (1 + zlength pre <=? 0) with false by (symmetry; apply Z.leb_gt; lia).
    replace (1 + zlength pre - 1) with (zlength pre) by lia.
    exact IH.
Qed.

Lemma ztake_app (A : Type) (d l : list A) : ztake (d ++ l) (zlength d) = d.
Proof.
  induction d as [|x d IH].
  - destruct l; reflexivity.
  - rewrite zlength_cons. pose proof (zlength_nonneg d).
    cbn [app ztake].
    replace (1 + zlength d <=? 0) with false by (symmetry; apply Z.leb_gt; lia).
    replace (1 + zlength d - 1) with (zlength d) by lia.
    rewrite IH. reflexivity.
Qed.

(** ** Bytes *)

Lemma u8_byte_of_Z z : u8 (byte_of_Z z) = z mod 256.
Proof.
  unfold u8, byte_of_Z.
  pose proof (Z.mod_pos_bound z 256 ltac:(lia)) as Hb.
  destruct (Byte.of_N (Z.to_N (z mod 256))) as [x|] eqn:E.
  - apply Byte.to_of_N in E. rewrite E. lia.
  - apply Byte.of_N_None_iff in E. lia.
Qed.

Lemma u8_small z : 0 <= z < 256 -> u8 (byte_of_Z z) = z.
Proof. intros H. rewrite u8_byte_of_Z. apply Z.mod_small. exact H. Qed.

(** The four bytes of [be32 n] read back as [n]. *)
Lemma be32_value n :
  0 <= n < 4294967296 ->
  (n / 16777216) mod 256 * 16777216 + (n / 65536) mod 256 * 65536 +
  (n / 256) mod 256 * 256 + n mod 256 = n.
Proof.
  intros Hn.
  pose proof (Z.div_mod n 256 ltac:(lia)) as H0.
  pose proof (Z.div_mod (n / 256) 256 ltac:(lia)) as H1.
  pose proof (Z.div_mod (n / 256 / 256) 256 ltac:(lia)) as H2.
  rewrite (Z.div_div n 256 256) in H1, H2 by lia.
  rewrite (Z.div_div n (256 * 256) 256) in H2 by lia.
  change (256 * 256) with 65536 in *. change (65536 * 256) with 16777216 in *.
  assert (H3 : n / 16777216 < 256) by (apply Z.div_lt_upper_bound; lia).
  assert (H4 : 0 <= n / 16777216) by (apply Z.div_pos; lia).
  rewrite (Z.mod_small (n / 16777216) 256) by lia. lia.
Qed.

Lemma getUint32_be32 a pre n post :
  elements a ++ beyond a = pre ++ be32 n ++ post ->
  0 <= n < 4294967296 ->
  getUint32 a (zlength pre) = Ok n.
Proof.
  intros Hv Hn. unfold getUint32. rewrite Hv.
  replace (zlength pre) with (zlength pre + 0) at 1 by lia.
  rewrite !zget_app by lia. cbn [be32 app zget Z.ltb Z.eqb Z.compare Z.sub
    Z.add Z.opp Z.pos_sub Z.succ_double Z.pred_double Z.double Pos.pred_double].
  rewrite !u8_byte_of_Z. rewrite be32_value by exact Hn. reflexivity.
Qed.


(** ** Reading one chunk *)

Lemma encode_chunk_length c :
  framed c -> zlength (encode_chunk c) = 12 + zlength (cdata c).
Proof.
  intros (Ht & Hc & _). unfold encode_chunk, zlength.
  rewrite !length_app, Ht, Hc. simpl length. lia.
Qed.

Lemma chunk_length_field a pre c post :
  elements a = pre ++ encode_chunk c ++ post -> framed c ->
  getUint32 a (zlength pre) = Ok (zlength (cdata c)).
Proof.
  intros He (_ & _ & Hlen).
  apply getUint32_be32 with (post := ctype c ++ cdata c ++ crc c ++ post ++ beyond a).
  - rewrite He. unfold encode_chunk. rewrite <- !app_assoc. reflexivity.
  - pose proof (zlength_nonneg (cdata c)). lia.
Qed.

Lemma chunk_type_field a pre c post :
  elements a = pre ++ encode_chunk c ++ post -> framed c ->
  [charCode (at_ a (zlength pre + 4)); charCode (at_ a (zlength pre + 5));
   charCode (at_ a (zlength pre + 6)); charCode (at_ a (zlength pre + 7))] =
  type_name c.
Proof.
  intros He (Ht & _ & _). unfold at_, type_name. rewrite He.
  unfold encode_chunk.
  destruct (ctype c) as [|t0 [|t1 [|t2 [|t3 [|t4 rest]]]]]; try discriminate.
  rewrite !zget_app by lia. reflexivity.
Qed.

Lemma chunk_data_field a pre c post :
  elements a = pre ++ encode_chunk c ++ post -> framed c ->
  zslice (elements a) (zlength pre + 8) (zlength pre + 8 + zlength (cdata c)) =
  cdata c.
Proof.
  intros He (Ht & _ & _). unfold zslice. rewrite He. unfold encode_chunk.
  replace (pre ++ (be32 (zlength (cdata c)) ++ ctype c ++ cdata c ++ crc c) ++ post)
    with ((pre ++ be32 (zlength (cdata c)) ++ ctype c) ++ cdata c ++ crc c ++ post)
    by (rewrite <- !app_assoc; reflexivity).
  replace (zlength pre + 8)
    with (zlength (pre ++ be32 (zlength (cdata c)) ++ ctype c)).
  - rewrite zskip_app.
    replace (zlength (pre ++ be32 (zlength (cdata c)) ++ ctype c) +
             zlength (cdata c) -
             zlength (pre ++ be32 (zlength (cdata c)) ++ ctype c))
      with (zlength (cdata c)) by lia.
    apply ztake_app.
  - unfold zlength. rewrite !length_app, Ht. simpl length. lia.
Qed.

(** One round on a chunk that is neither [IHDR] nor [IEND]. *)
Lemma chunk_step_other a pre c post st :
  elements a = pre ++ encode_chunk c ++ post -> framed c ->
  offset st = zlength pre ->
  type_name c <> js "IHDR" -> type_name c <> js "IEND" ->
  chunk_step a st =
  Ok (inl (mkChunks (offset st + (12 + zlength (cdata c))) (width st)
             (height st) (bitDepth st) (colorType st)
             (idatChunks st ++ if type_is "IDAT" c then [cdata c] else []))).
Proof.
  intros He Hf Ho Hh Hd. unfold chunk_step. rewrite Ho.
  rewrite (chunk_length_field _ _ _ He Hf). cbn [bind].
  rewrite (chunk_type_field _ _ _ He Hf), (chunk_data_field _ _ _ He Hf).
  unfold type_is.
  destruct (list_eq_dec N.eq_dec (type_name c) (js "IHDR")); [contradiction|].
  destruct (list_eq_dec N.eq_dec (type_name c) (js "IDAT")); [reflexivity|].
  destruct (list_eq_dec N.eq_dec (type_name c) (js "IEND")); [contradiction|].
  rewrite app_nil_r. reflexivity.
Qed.

Lemma chunk_step_iend a pre c post st :
  elements a = pre ++ encode_chunk c ++ post -> framed c ->
  offset st = zlength pre -> type_name c = js "IEND" ->
  chunk_step a st = Ok (inr st).
Proof.
  intros He Hf Ho Hd. unfold chunk_step. rewrite Ho.
  rewrite (chunk_length_field _ _ _ He Hf). cbn [bind].
  rewrite (chunk_type_field _ _ _ He Hf), Hd. reflexivity.
Qed.

Lemma chunk_step_ihdr a pre w h depth colour rest crc0 post st :
  elements a =
    pre ++ encode_chunk (mkChunk (bytes_of [73; 72; 68; 82])
                           (ihdr_data w h depth colour rest) crc0) ++ post ->
  framed (mkChunk (bytes_of [73; 72; 68; 82])
            (ihdr_data w h depth colour rest) crc0) ->
  offset st = zlength pre ->
  0 <= w < 4294967296 -> 0 <= h < 4294967296 ->
  0 <= depth < 256 -> 0 <= colour < 256 ->
  chunk_step a st =
  Ok (inl (mkChunks
             (offset st + (12 + zlength (ihdr_data w h depth colour rest)))
             w h (Some depth) (Some colour) (idatChunks st))).
Proof.
  intros He Hf Ho Hw Hh Hd Hc. unfold chunk_step. rewrite Ho.
  rewrite (chunk_length_field _ _ _ He Hf). cbn [bind cdata].
  rewrite (chunk_type_field _ _ _ He Hf).
  change (type_name _) with (js "IHDR").
  destruct (list_eq_dec N.eq_dec (js "IHDR") (js "IHDR")); [|contradiction].
  set (hdr := be32 (zlength (ihdr_data w h depth colour rest)) ++
              bytes_of [73; 72; 68; 82]).
  assert (Hhdr : zlength hdr = 8) by reflexivity.
  assert (Hbe : forall n, zlength (be32 n) = 4) by reflexivity.
  assert (He' : elements a =
                pre ++ hdr ++ be32 w ++ be32 h ++
                [byte_of_Z depth; byte_of_Z colour] ++ rest ++ crc0 ++ post).
  { rewrite He. unfold encode_chunk, ihdr_data, hdr. cbn [ctype cdata crc].
    rewrite <- !app_assoc. reflexivity. }
  assert (Ew : getUint32 a (zlength pre + 8) = Ok w).
  { replace (zlength pre + 8) with (zlength (pre ++ hdr))
      by (rewrite zlength_app; lia).
    apply getUint32_be32 with
      (post := be32 h ++ [byte_of_Z depth; byte_of_Z colour] ++ rest ++
               crc0 ++ post ++ beyond a); [|exact Hw].
    rewrite He', <- !app_assoc. reflexivity. }
  assert (Eh : getUint32 a (zlength pre + 12) = Ok h).
  { replace (zlength pre + 12) with (zlength (pre ++ hdr ++ be32 w))
      by (rewrite !zlength_app, Hbe; lia).
    apply getUint32_be32 with
      (post := [byte_of_Z depth; byte_of_Z colour] ++ rest ++
               crc0 ++ post ++ beyond a); [|exact Hh].
    rewrite He', <- !app_assoc. reflexivity. }
  assert (Ed : at_ a (zlength pre + 16) = Some depth /\
               at_ a (zlength pre + 17) = Some colour).
  { unfold at_.
    replace (elements a)
      with ((pre ++ hdr ++ be32 w ++ be32 h) ++
            [byte_of_Z depth; byte_of_Z colour] ++ rest ++ crc0 ++ post)
      by (rewrite He', <- !app_assoc; reflexivity).
    replace (zlength pre + 16)
      with (zlength (pre ++ hdr ++ be32 w ++ be32 h) + 0)
      by (rewrite !zlength_app, !Hbe; lia).
    replace (zlength pre + 17)
      with (zlength (pre ++ hdr ++ be32 w ++ be32 h) + 1)
      by (rewrite !zlength_app, !Hbe; lia).
    rewrite !zget_app by lia. cbn [app zget Z.ltb Z.eqb Z.compare Z.sub
      Z.add Z.opp Z.pos_sub option_map].
    rewrite !u8_small by assumption. split; reflexivity. }
  destruct Ed as [Ed Ec]. rewrite Ew, Eh, Ed, Ec. reflexivity.
Qed.

(** ** The chunk loop on a well-formed stream *)

Lemma chunk_loop_stream a last trailing :
  framed last -> type_name last = js "IEND" ->
  forall middle pre st fuel,
    elements a =
      pre ++ concat (map encode_chunk middle) ++ encode_chunk last ++ trailing ->
    offset st = zlength pre ->
    Forall framed middle ->
    Forall (fun c => type_name c <> js "IHDR" /\ type_name c <> js "IEND")
           middle ->
    zlength (elements a) - offset st <= Z.of_nat fuel ->
    chunk_loop a fuel st =
    Ok (mkChunks (offset st + zlength (concat (map encode_chunk middle)))
          (width st) (height st) (bitDepth st) (colorType st)
          (idatChunks st ++ map cdata (filter (type_is "IDAT") middle))).
Proof.
  intros Hlast Hend. induction middle as [|c middle IH];
    intros pre st fuel He Ho Hfr Hty Hfuel.
  - cbn [map concat app] in He.
    assert (Hlen : zlength (elements a) =
                   zlength pre + (12 + zlength (cdata last)) + zlength trailing).
    { rewrite He, !zlength_app, (encode_chunk_length Hlast). lia. }
    pose proof (zlength_nonneg (cdata last)).
    pose proof (zlength_nonneg trailing).
    destruct fuel as [|f]; [lia|]. cbn [chunk_loop].
    replace (offset st <? zlength (elements a)) with true
      by (symmetry; apply Z.ltb_lt; lia).
    rewrite (chunk_step_iend _ _ _ st He Hlast Ho Hend). cbn [bind].
    destruct st as [o w h bd ct idat]. cbn. rewrite app_nil_r.
    f_equal. f_equal. lia.
  - inversion Hfr as [|? ? Hc Hfr']; subst.
    inversion Hty as [|? ? [Hh Hd] Hty']; subst.
    cbn [map concat] in He. rewrite <- app_assoc in He.
    assert (Hlen : zlength (elements a) =
                   zlength pre + (12 + zlength (cdata c)) +
                   zlength (concat (map encode_chunk middle) ++
                            encode_chunk last ++ trailing)).
    { rewrite He, !zlength_app, (encode_chunk_length Hc), ?zlength_app. lia. }
    pose proof (zlength_nonneg (cdata c)).
    pose proof (zlength_nonneg (concat (map encode_chunk middle) ++
                                encode_chunk last ++ trailing)).
    destruct fuel as [|f]; [lia|]. cbn [chunk_loop].
    replace (offset st <? zlength (elements a)) with true
      by (symmetry; apply Z.ltb_lt; lia).
    rewrite (chunk_step_other _ _ _ st He Hc Ho Hh Hd). cbn [bind].
    rewrite (IH (pre ++ encode_chunk c)); auto.
    + cbn [offset width height bitDepth colorType idatChunks map concat filter].
      rewrite zlength_app, (encode_chunk_length Hc).
      f_equal. f_equal; [lia|].
      rewrite <- app_assoc. f_equal.
      destruct (type_is "IDAT" c); reflexivity.
    + rewrite <- app_assoc. exact He.
    + cbn [offset]. rewrite zlength_app, (encode_chunk_length Hc). lia.
    + cbn [offset]. lia.
Qed.

(** A stream made of a signature, an [IHDR] chunk, chunks that are neither
    [IHDR] nor [IEND], and an [IEND] chunk, with anything after it: the
    chunk loop ends at [IEND] without throwing, with the header fields of
    [IHDR] and the data of the [IDAT] chunks in order. *)
Theorem parseChunks_well_formed sig w h depth colour rest crc0 middle last
  trailing beyond :
  length sig = 8%nat ->
  0 <= w < 4294967296 -> 0 <= h < 4294967296 ->
  0 <= depth < 256 -> 0 <= colour < 256 ->
  length crc0 = 4%nat -> zlength rest < 4294967286 ->
  Forall framed middle ->
  Forall (fun c => type_name c <> js "IHDR" /\ type_name c <> js "IEND")
         middle ->
  framed last -> type_name last = js "IEND" ->
  let first := mkChunk (bytes_of [73; 72; 68; 82])
                 (ihdr_data w h depth colour rest) crc0 in
  parseChunks
    (mkArray (sig ++ encode_chunk first ++
              concat (map encode_chunk middle) ++
              encode_chunk last ++ trailing) beyond) =
  Ok (mkChunks
        (8 + zlength (encode_chunk first) +
         zlength (concat (map encode_chunk middle)))
        w h (Some depth) (Some colour)
        (map cdata (filter (type_is "IDAT") middle))).
Proof.
  intros Hsig Hw Hh Hd Hc Hcrc Hrest Hfr Hty Hlast Hend first.
  assert (Hfirst : framed first).
  { unfold framed, first. cbn [ctype cdata crc]. repeat split; auto.
    unfold ihdr_data, zlength in *. rewrite !length_app. simpl length. lia. }
  assert (Hs8 : zlength sig = 8) by (unfold zlength; lia).
  unfold parseChunks. cbn [elements].
  set (a := mkArray _ beyond).
  assert (He : elements a =
               sig ++ encode_chunk first ++
               concat (map encode_chunk middle) ++ encode_chunk last ++ trailing)
    by reflexivity.
  assert (Hlen : zlength (elements a) =
                 8 + (12 + zlength (cdata first)) +
                 zlength (concat (map encode_chunk middle) ++
                          encode_chunk last ++ trailing)).
  { rewrite He, !zlength_app, (encode_chunk_length Hfirst), ?zlength_app. lia. }
  pose proof (zlength_nonneg (cdata first)).
  pose proof (zlength_nonneg (concat (map encode_chunk middle) ++
                              encode_chunk last ++ trailing)).
  change (Datatypes.length (sig ++ encode_chunk first ++
            concat (map encode_chunk middle) ++ encode_chunk last ++ trailing))
    with (Datatypes.length (elements a)).
  assert (Hfuel : Z.of_nat (Datatypes.length (elements a)) = zlength (elements a))
    by reflexivity.
  destruct (Datatypes.length (elements a)) as [|f]; [lia|].
  cbn [chunk_loop].
  replace (offset chunks0 <? zlength (elements a)) with true
    by (symmetry; apply Z.ltb_lt; cbn [offset chunks0]; lia).
  rewrite (@chunk_step_ihdr a sig w h depth colour rest crc0
             (concat (map encode_chunk middle) ++ encode_chunk last ++ trailing)
             chunks0 He Hfirst ltac:(cbn; lia) Hw Hh Hd Hc).
  cbn [bind].
  rewrite (@chunk_loop_stream a last trailing Hlast Hend middle
             (sig ++ encode_chunk first)); auto.
  - cbn [offset width height bitDepth colorType idatChunks chunks0 app].
    rewrite (encode_chunk_length Hfirst). reflexivity.
  - rewrite <- app_assoc. exact He.
  - cbn [offset chunks0]. rewrite zlength_app, (encode_chunk_length Hfirst).
    change (cdata first) with (ihdr_data w h depth colour rest). lia.
  - cbn [offset chunks0].
    change (cdata first) with (ihdr_data w h depth colour rest) in *. lia.
Qed.

(** On such a stream whose header is not 8-bit RGB or RGBA the function
    returns the fallback colour, whatever the platform. *)
Corollary unsupported_stream_is_black sig w h depth colour rest crc0 middle
  last trailing beyond inflate log1p maxByteLength :
  length sig = 8%nat ->
  0 <= w < 4294967296 -> 0 <= h < 4294967296 ->
  0 <= depth < 256 -> 0 <= colour < 256 ->
  length crc0 = 4%nat -> zlength rest < 4294967286 ->
  Forall framed middle ->
  Forall (fun c => type_name c <> js "IHDR" /\ type_name c <> js "IEND")
         middle ->
  framed last -> type_name last = js "IEND" ->
  depth <> 8 \/ (colour <> 2 /\ colour <> 6) ->
  vibrantColorFromPng inflate log1p maxByteLength
    (mkArray (sig ++
              encode_chunk (mkChunk (bytes_of [73; 72; 68; 82])
                              (ihdr_data w h depth colour rest) crc0) ++
              concat (map encode_chunk middle) ++
              encode_chunk last ++ trailing) beyond) =
  Ok (mkRGB 0 0 0).
Proof.
  intros Hsig Hw Hh Hd Hc Hcrc Hrest Hfr Hty Hlast Hend Hun.
  unfold vibrantColorFromPng.
  rewrite (@parseChunks_well_formed sig w h depth colour rest crc0 middle last
             trailing beyond) by assumption.
  cbn [bind].
  replace (unsupported _) with true; [reflexivity|].
  symmetry. apply unsupported_iff. cbn [bitDepth colorType].
  destruct Hun as [H|[H1 H2]]; [left | right; split]; congruence.
Qed.

End StreamFacts.

Module PngClaims.
Import Png PngFacts.
Open Scope Z_scope.

Section Platform.

Variable inflate : list Byte.byte -> option (list Byte.byte).
Variable log1p : float -> float.
Variable maxByteLength : Z.

Local Abbreviation vibrantColorFromPng :=
  (vibrantColorFromPng inflate log1p maxByteLength).

(** C4, as the code has it.  [vibrantColorFromPng] returns a colour
    unless the chunk loop reads beyond the buffer, the image data does
    not inflate, or the pixel array is longer than the engine allows; in
    those cases it throws.  An unsupported header gives the fallback
    colour before anything is inflated. *)
Theorem vibrantColorFromPng_outcomes (pngBuffer : Uint8Array) :
  match parseChunks pngBuffer with
  | Throw e =>
      e = RangeError /\ vibrantColorFromPng pngBuffer = Throw RangeError
  | Ok st =>
      if unsupported st then vibrantColorFromPng pngBuffer = Ok (mkRGB 0 0 0)
      else
        match inflate (concat (idatChunks st)) with
        | None => vibrantColorFromPng pngBuffer = Throw TypeError
        | Some _ =>
            if maxByteLength <?
               height st * (width st * (if is_value (colorType st) 6 then 4 else 3))
            then vibrantColorFromPng pngBuffer = Throw RangeError
            else exists c, vibrantColorFromPng pngBuffer = Ok c
        end
  end.
Proof.
  unfold Png.vibrantColorFromPng.
  destruct (parseChunks pngBuffer) as [st|e] eqn:Ep; cbn [bind].
  - destruct (unsupported st); [reflexivity|].
    destruct (inflate (concat (idatChunks st))) as [raw|]; [|reflexivity].
    destruct (maxByteLength <? _); [reflexivity|].
    destruct (sample_loop _ _ _ _ _ _ _); eauto.
  - apply parseChunks_throws in Ep. subst e. auto.
Qed.

(** C5. A header with a bit depth other than 8, or a colour type other
    than 2 and 6, gives [{0, 0, 0}] whatever the platform's inflate does,
    so without inflating; and a supported image none of whose sampled
    pixels passes the alpha, grey, black and white tests gives
    [{0, 0, 0}] too. *)
Theorem unsupported_or_colourless_is_black (pngBuffer : Uint8Array)
  (st : Chunks) :
  parseChunks pngBuffer = Ok st ->
  (bitDepth st <> Some 8 \/
   (colorType st <> Some 2 /\ colorType st <> Some 6) ->
   forall inflate' log1p' maxByteLength',
     Png.vibrantColorFromPng inflate' log1p' maxByteLength' pngBuffer =
       Ok (mkRGB 0 0 0)) /\
  (bitDepth st = Some 8 ->
   colorType st = Some 2 \/ colorType st = Some 6 ->
   forall decompressed,
     inflate (concat (idatChunks st)) = Some decompressed ->
     let channels := if is_value (colorType st) 6 then 4 else 3 in
     let stride := width st * channels in
     let pixels := defilter (map u8 decompressed) channels stride (height st) in
     let total := width st * height st in
     let step := Z.max 1 (total / 10000) in
     height st * stride <= maxByteLength ->
     (forall k, 0 <= k -> k * step < total ->
                pixel_survives pixels channels (k * step) = false) ->
     vibrantColorFromPng pngBuffer = Ok (mkRGB 0 0 0)).
Proof.
  intros Hp. split.
  - intros Hun inflate' log1p' maxByteLength'.
    unfold Png.vibrantColorFromPng. rewrite Hp. cbn [bind].
    apply unsupported_iff in Hun. rewrite Hun. reflexivity.
  - intros Hbd Hct decompressed Hinf channels stride pixels total step
           Hfit Hnone.
    unfold Png.vibrantColorFromPng. rewrite Hp. cbn [bind].
    replace (unsupported st) with false.
    2: { symmetry. apply not_true_iff_false. intros Hun.
         apply unsupported_iff in Hun.
         destruct Hun as [H|[H1 H2]]; [congruence|].
         destruct Hct; congruence. }
    rewrite Hinf. fold channels. fold stride.
    replace (maxByteLength <? height st * stride) with false
      by (symmetry; apply Z.ltb_ge; exact Hfit).
    fold pixels. fold total. fold step.
    change 0 with (0 * step) at 1.
    rewrite sample_loop_skip; [reflexivity | unfold step; lia | lia |].
    intros k' Hk' Hlt. apply Hnone; lia.
Qed.

End Platform.

(** C4 as stated fails: on a file cut inside a chunk header the function
    throws a [RangeError], whatever the platform; and it throws a
    [TypeError] when the image data does not inflate. *)
Lemma vibrantColorFromPng_throws :
  parseChunks truncated = Throw RangeError /\
  (forall inflate log1p maxByteLength,
      vibrantColorFromPng inflate log1p maxByteLength truncated =
        Throw RangeError) /\
  (forall log1p maxByteLength,
      vibrantColorFromPng (fun _ => None) log1p maxByteLength small =
        Throw TypeError).
Proof. repeat split. Qed.

Example small_parses :
  parseChunks small =
    Ok (mkChunks 48 2 1 (Some 8) (Some 2) [bytes_of [1; 2; 3]]).
Proof. reflexivity. Qed.

Lemma unsupported_or_colourless_is_black_witness :
  parseChunks deep = Ok (mkChunks 33 2 1 (Some 16) (Some 2) []) /\
  vibrantColorFromPng (fun _ => None) (fun x => x) 0 deep = Ok (mkRGB 0 0 0) /\
  parseChunks small =
    Ok (mkChunks 48 2 1 (Some 8) (Some 2) [bytes_of [1; 2; 3]]) /\
  vibrantColorFromPng grey_row (fun x => x) 1000 small = Ok (mkRGB 0 0 0).
Proof.
  split; [reflexivity|]. split; [|split; [reflexivity|]].
  - apply (@unsupported_or_colourless_is_black (fun _ => None) (fun x => x) 0
             deep (mkChunks 33 2 1 (Some 16) (Some 2) []) eq_refl).
    left. discriminate.
  - eapply (@unsupported_or_colourless_is_black grey_row (fun x => x) 1000
              small (mkChunks 48 2 1 (Some 8) (Some 2) [bytes_of [1; 2; 3]])
              eq_refl).
    + reflexivity.
    + left. reflexivity.
    + reflexivity.
    + cbn. lia.
    + intros k Hk Hlt. cbn in Hlt.
      assert (Hk2 : k = 0 \/ k = 1) by lia.
      destruct Hk2 as [->| ->]; reflexivity.
Defined.

Example red_pixels_win :
  vibrantColorFromPng red_row (fun x => x) 1000 small = Ok (mkRGB 200 24 24).
Proof. reflexivity. Qed.

End PngClaims.

Module NumeralFacts.
Import Png PngFacts StreamFacts Ksuid.
Open Scope Z_scope.

(** ** Digits and the numbers they write *)

Lemma number_from base ds : forall acc,
  fold_left (fun a d => a * base + d) ds acc =
  acc * base ^ zlength ds + number base ds.
Proof.
  unfold number. induction ds as [|d ds IH]; intros acc.
  - cbn. lia.
  - cbn [fold_left]. rewrite IH, (IH (0 * base + d)), zlength_cons.
    pose proof (zlength_nonneg ds).
    rewrite Z.pow_add_r, Z.pow_1_r by lia. ring.
Qed.

Lemma number_cons base d ds :
  number base (d :: ds) = d * base ^ zlength ds + number base ds.
Proof. unfold number at 1. cbn [fold_left]. rewrite number_from. ring. Qed.

Lemma number_app base a b :
  number base (a ++ b) = number base a * base ^ zlength b + number base b.
Proof.
  unfold number at 1. rewrite fold_left_app.
  fold (number base a). apply number_from.
Qed.

Lemma number_snoc base a d : number base (a ++ [d]) = number base a * base + d.
Proof.
  rewrite number_app. change (zlength [d]) with 1. rewrite Z.pow_1_r.
  unfold number at 2. cbn [fold_left]. ring.
Qed.

Lemma number_bounds base ds :
  0 < base -> below base ds -> 0 <= number base ds < base ^ zlength ds.
Proof.
  intros Hb H. induction H as [|d ds Hd _ IH].
  - cbn. lia.
  - rewrite number_cons, zlength_cons. pose proof (zlength_nonneg ds).
    rewrite Z.pow_add_r, Z.pow_1_r by lia.
    assert (0 < base ^ zlength ds) by (apply Z.pow_pos_nonneg; lia).
    nia.
Qed.

Lemma normal_zero base ds :
  0 < base -> below base ds -> normal ds -> number base ds = 0 -> ds = [].
Proof.
  intros Hb H Hn H0. destruct ds as [|d ds]; [reflexivity|].
  exfalso. apply Forall_cons_iff in H. destruct H as [Hd H]. cbn in Hn.
  rewrite number_cons in H0.
  pose proof (number_bounds Hb H).
  assert (0 < base ^ zlength ds)
    by (apply Z.pow_pos_nonneg; [lia | apply zlength_nonneg]).
  nia.
Qed.

Lemma numeral_length base n v : length (numeral base n v) = n.
Proof.
  revert v. induction n as [|n IH]; intros v; cbn; [reflexivity|].
  rewrite length_app, IH. cbn. lia.
Qed.

Lemma numeral_below base n v : 0 < base -> below base (numeral base n v).
Proof.
  intros Hb. revert v. induction n as [|n IH]; intros v; cbn.
  - constructor.
  - apply Forall_app. split; [apply IH|].
    constructor; [|constructor]. apply Z.mod_pos_bound. lia.
Qed.

Lemma number_numeral base n v :
  0 < base -> 0 <= v ->
  number base (numeral base n v) = v mod base ^ Z.of_nat n.
Proof.
  intros Hb. revert v. induction n as [|n IH]; intros v Hv.
  - cbn. rewrite Z.mod_1_r. reflexivity.
  - cbn [numeral]. rewrite number_snoc, IH by (apply Z.div_pos; lia).
    rewrite Nat2Z.inj_succ, Z.pow_succ_r by lia.
    rewrite Z.rem_mul_r by (try apply Z.pow_nonzero; lia).
    ring.
Qed.

Lemma numeral_number base ds :
  0 < base -> below base ds ->
  numeral base (length ds) (number base ds) = ds.
Proof.
  intros Hb H. induction ds as [|d ds IH] using rev_ind; [reflexivity|].
  apply Forall_app in H. destruct H as [H Hd].
  apply Forall_cons_iff in Hd. destruct Hd as [Hd _].
  rewrite length_app, Nat.add_comm. cbn [length Nat.add numeral].
  rewrite number_snoc.
  replace ((number base ds * base + d) / base) with (number base ds).
  - rewrite IH by assumption. f_equal. f_equal.
    rewrite Z.add_comm, Z.mod_add by lia. apply Z.mod_small. assumption.
  - rewrite Z.add_comm, Z.div_add by lia. rewrite Z.div_small by assumption.
    reflexivity.
Qed.

Lemma numeral_zero base n : numeral base n 0 = repeat 0 n.
Proof.
  induction n as [|n IH]; [reflexivity|].
  cbn [numeral]. rewrite Zdiv_0_l, IH, Zmod_0_l.
  clear IH. induction n as [|n IH]; [reflexivity|].
  cbn [repeat app] in *. rewrite IH. reflexivity.
Qed.

Lemma numeral_app base n m v :
  0 < base ->
  numeral base (n + m) v =
  numeral base n (v / base ^ Z.of_nat m) ++ numeral base m v.
Proof.
  intros Hb. revert v. induction m as [|m IH]; intros v.
  - rewrite Nat.add_0_r. cbn. rewrite Z.div_1_r, app_nil_r. reflexivity.
  - rewrite Nat.add_succ_r. cbn [numeral]. rewrite IH, app_assoc.
    f_equal. f_equal.
    rewrite Nat2Z.inj_succ, Z.pow_succ_r by lia.
    rewrite Z.div_div by (try apply Z.pow_pos_nonneg; lia).
    reflexivity.
Qed.

(** ** The long division *)

Lemma divide_snoc src dst bp c :
  divide src dst (bp ++ [c]) = divide_step src dst (divide src dst bp) c.
Proof. unfold divide. rewrite fold_left_app. reflexivity. Qed.

Lemma divide_spec src dst bp :
  0 < src -> 0 < dst -> below src bp ->
  number src bp = number src (fst (divide src dst bp)) * dst
                  + snd (divide src dst bp) /\
  0 <= snd (divide src dst bp) < dst /\
  below src (fst (divide src dst bp)) /\
  normal (fst (divide src dst bp)).
Proof.
  intros Hs Hd. induction bp as [|c bp IH] using rev_ind; intros H.
  - cbn. repeat split; try lia. constructor.
  - apply Forall_app in H. destruct H as [H Hc].
    apply Forall_cons_iff in Hc. destruct Hc as [Hc _].
    destruct (IH H) as (E & Hr & Hq & Hn). clear IH.
    rewrite divide_snoc, number_snoc.
    destruct (divide src dst bp) as [q r]. cbn [fst snd] in *.
    unfold divide_step.
    assert (Hv : 0 <= c + r * src < dst * src) by nia.
    rewrite Z.quot_div_nonneg, Z.rem_mod_nonneg by lia.
    pose proof (Z.div_mod (c + r * src) dst ltac:(lia)) as Hdm.
    pose proof (Z.mod_pos_bound (c + r * src) dst Hd) as Hm.
    assert (Hdig : 0 <= (c + r * src) / dst < src).
    { split; [apply Z.div_pos; lia|].
      apply Z.div_lt_upper_bound; lia. }
    destruct (length q =? 0)%nat eqn:El.
    + apply Nat.eqb_eq in El. destruct q; [|discriminate]. cbn [negb orb].
      destruct ((c + r * src) / dst =? 0) eqn:Ez; cbn [negb fst snd].
      * apply Z.eqb_eq in Ez. cbn in E |- *. repeat split; try lia.
        constructor.
      * apply Z.eqb_neq in Ez. cbn [app]. unfold number in E |- *.
        cbn in E |- *. repeat split; try lia.
        constructor; [lia | constructor].
    + cbn [negb orb fst snd]. rewrite number_snoc.
      repeat split; try lia; try nia.
      * apply Forall_app. split; [assumption|].
        constructor; [lia | constructor].
      * destruct q; [discriminate | exact Hn].
Qed.

Lemma divide_quotient src dst bp :
  0 < src -> 0 < dst -> below src bp ->
  number src (fst (divide src dst bp)) = number src bp / dst /\
  snd (divide src dst bp) = number src bp mod dst.
Proof.
  intros Hs Hd H. destruct (divide_spec Hs Hd H) as (E & Hr & _).
  split.
  - apply Z.div_unique with (r := snd (divide src dst bp)); lia.
  - apply Z.mod_unique with (q := number src (fst (divide src dst bp))); lia.
Qed.

End NumeralFacts.

Module Base62Facts.
Import Png PngFacts StreamFacts Ksuid NumeralFacts.
Open Scope Z_scope.

(** ** Writing into an array *)

Lemma zset_at (A : Type) (pre : list A) x post v :
  zset (pre ++ x :: post) (zlength pre) v = pre ++ v :: post.
Proof.
  induction pre as [|y pre IH].
  - reflexivity.
  - rewrite zlength_cons. pose proof (zlength_nonneg pre).
    cbn [app zset].
    destruct (1 + zlength pre <? 0) eqn:E1; [apply Z.ltb_lt in E1; lia|].
    destruct (1 + zlength pre =? 0) eqn:E2; [apply Z.eqb_eq in E2; lia|].
    replace (1 + zlength pre - 1) with (zlength pre) by lia.
    rewrite IH. reflexivity.
Qed.

Lemma repeat_snoc (A : Type) (x : A) n : repeat x (S n) = repeat x n ++ [x].
Proof.
  induction n as [|n IH]; [reflexivity|].
  cbn [repeat app] in *. rewrite <- IH. reflexivity.
Qed.

Lemma zlength_repeat (A : Type) (x : A) n : zlength (repeat x n) = Z.of_nat n.
Proof. unfold zlength. rewrite repeat_length. reflexivity. Qed.

(** ** The alphabet *)

Lemma range_all (P : Z -> bool) n :
  forallb P (range n) = true -> forall d, 0 <= d < n -> P d = true.
Proof.
  intros H d Hd. rewrite forallb_forall in H. apply H.
  unfold range. apply in_map_iff. exists (Z.to_nat d). split; [lia|].
  apply in_seq. lia.
Qed.

Lemma charAt_symbol d : 0 <= d < 62 -> charAt BASE62 d = [symbol d].
Proof.
  intros Hd.
  assert (H := @range_all
                 (fun d => if list_eq_dec N.eq_dec (charAt BASE62 d) [symbol d]
                           then true else false) 62
                 ltac:(vm_compute; reflexivity) d Hd).
  cbv beta in H.
  destruct (list_eq_dec N.eq_dec (charAt BASE62 d) [symbol d]);
    [assumption | discriminate].
Qed.

Lemma symbol_value_symbol d :
  0 <= d < 62 -> symbol_value (symbol d) = Some d.
Proof.
  intros Hd.
  assert (H := @range_all
                 (fun d => match symbol_value (symbol d) with
                           | Some v => v =? d
                           | None => false
                           end) 62
                 ltac:(vm_compute; reflexivity) d Hd).
  cbv beta in H.
  destruct (symbol_value (symbol d)) as [v|]; [|discriminate].
  apply Z.eqb_eq in H. congruence.
Qed.

Lemma symbol_value_cases c v :
  symbol_value c = Some v ->
  (48 <= Z.of_N c <= 57 /\ v = Z.of_N c - 48) \/
  (65 <= Z.of_N c <= 90 /\ v = 10 + (Z.of_N c - 65)) \/
  (97 <= Z.of_N c <= 122 /\ v = 36 + (Z.of_N c - 97)).
Proof.
  unfold symbol_value. cbv zeta. generalize (Z.of_N c). intros z.
  destruct ((48 <=? z) && (z <=? 57)) eqn:E1.
  { intros H. left. ranges. split; [lia | congruence]. }
  destruct ((65 <=? z) && (z <=? 90)) eqn:E2.
  { intros H. right. left. ranges. split; [lia | congruence]. }
  destruct ((97 <=? z) && (z <=? 122)) eqn:E3.
  { intros H. right. right. ranges. split; [lia | congruence]. }
  discriminate.
Qed.

Lemma symbol_value_range c v : symbol_value c = Some v -> 0 <= v < 62.
Proof.
  intros H. apply symbol_value_cases in H. revert H.
  generalize (Z.of_N c). intros z H. lia.
Qed.

Lemma symbol_value_inj c1 c2 v :
  symbol_value c1 = Some v -> symbol_value c2 = Some v -> c1 = c2.
Proof.
  intros H1 H2. apply symbol_value_cases in H1, H2.
  apply N2Z.inj. revert H1 H2.
  generalize (Z.of_N c1) (Z.of_N c2). intros z1 z2 H1 H2. lia.
Qed.

Lemma symbol_of_value c v : symbol_value c = Some v -> symbol v = c.
Proof.
  intros H. pose proof (symbol_value_range _ H) as Hv.
  apply symbol_value_inj with (v := v); [|exact H].
  apply symbol_value_symbol. exact Hv.
Qed.

Lemma u8_range x : 0 <= u8 x < 256.
Proof. unfold u8. pose proof (Byte.to_N_bounded x). lia. Qed.

Lemma symbol_zero : js "0" = [symbol 0].
Proof. reflexivity. Qed.

Lemma concat_singletons (A : Type) (f : Z -> A) l :
  concat (map (fun d => [f d]) l) = map f l.
Proof.
  induction l as [|d l IH]; [reflexivity|].
  cbn [map concat app]. rewrite IH. reflexivity.
Qed.

(** ** The loop of [base62] *)

(** With [n] places left to the front of [str] and a number below
    [62 ^ n] in [bp], the loop writes the [n] base-62 digits of the number
    (zeros being what the places hold already) and returns. *)
Lemma base62_loop_spec : forall n fuel bp tail,
  (n < fuel)%nat -> below 4294967296 bp -> ((0 < n)%nat \/ normal bp) ->
  number 4294967296 bp < 62 ^ Z.of_nat n ->
  base62_loop fuel bp (Z.of_nat n) (repeat (js "0") n ++ tail) =
  Some (map (fun d => [symbol d]) (numeral 62 n (number 4294967296 bp))
        ++ tail).
Proof.
  induction n as [|n IH]; intros fuel bp tail Hf Hb Hn Hv.
  - destruct Hn as [Hn|Hn]; [lia|].
    assert (bp = []) as ->.
    { apply normal_zero with (base := 4294967296); try assumption; try lia.
      pose proof (@number_bounds 4294967296 bp ltac:(lia) Hb).
      change (62 ^ Z.of_nat 0) with 1 in Hv. lia. }
    destruct fuel; reflexivity.
  - destruct bp as [|c bp'].
    + change (number 4294967296 []) with 0. rewrite numeral_zero, map_repeat.
      rewrite <- symbol_zero. destruct fuel; reflexivity.
    + destruct fuel as [|f]; [lia|].
      cbn [base62_loop]. set (bp := c :: bp') in *.
      destruct (@divide_spec 4294967296 62 bp ltac:(lia) ltac:(lia) Hb)
        as (_ & Hr & Hq & Hnq).
      destruct (@divide_quotient 4294967296 62 bp ltac:(lia) ltac:(lia) Hb)
        as (Eq & Er).
      pose proof (@number_bounds 4294967296 bp ltac:(lia) Hb) as Hnb.
      destruct (divide 4294967296 62 bp) as [q r]. cbn [fst snd] in *.
      replace (Z.of_nat (S n) - 1) with (zlength (repeat (js "0") n))
        by (rewrite zlength_repeat; lia).
      rewrite repeat_snoc, <- app_assoc. cbn [app].
      rewrite zset_at, zlength_repeat, charAt_symbol by assumption.
      rewrite IH; try assumption; try lia.
      * cbn [numeral]. rewrite map_app, <- app_assoc, Eq, Er. reflexivity.
      * right. exact Hnq.
      * rewrite Eq. apply Z.div_lt_upper_bound; [lia|].
        rewrite Nat2Z.inj_succ, Z.pow_succ_r in Hv by lia. exact Hv.
Qed.

Lemma base62_words w0 w1 w2 w3 w4 :
  below 4294967296 [w0; w1; w2; w3; w4] ->
  base62_loop 161 [w0; w1; w2; w3; w4] 27 (repeat (js "0") 27) =
  Some (map (fun d => [symbol d])
          (numeral 62 27 (number 4294967296 [w0; w1; w2; w3; w4]))).
Proof.
  intros Hb.
  pose proof (@number_bounds 4294967296 _ ltac:(lia) Hb) as Hn.
  change (zlength [w0; w1; w2; w3; w4]) with 5 in Hn.
  assert (H62 : 4294967296 ^ 5 < 62 ^ Z.of_nat 27) by reflexivity.
  pose proof (@base62_loop_spec 27 161 [w0; w1; w2; w3; w4] []
                ltac:(lia) Hb ltac:(left; lia) ltac:(lia)) as H.
  rewrite !app_nil_r in H. exact H.
Qed.

Lemma twenty_bytes (view : list Byte.byte) :
  length view = 20%nat ->
  exists b0 b1 b2 b3 b4 b5 b6 b7 b8 b9 b10 b11 b12 b13 b14 b15 b16 b17 b18 b19,
    view = [b0; b1; b2; b3; b4; b5; b6; b7; b8; b9; b10; b11; b12; b13; b14;
            b15; b16; b17; b18; b19].
Proof.
  intros H.
  do 20 (destruct view as [|? view]; [discriminate|]).
  destruct view; [|discriminate].
  repeat eexists.
Qed.

Lemma word_below b0 b1 b2 b3 :
  0 <= u8 b0 * 16777216 + u8 b1 * 65536 + u8 b2 * 256 + u8 b3 < 4294967296.
Proof.
  pose proof (u8_range b0). pose proof (u8_range b1).
  pose proof (u8_range b2). pose proof (u8_range b3). lia.
Qed.

(** [base62] on a buffer of 20 bytes: the 27 base-62 digits of the number
    the buffer holds, each written with its symbol. *)
Lemma base62_value view :
  length view = 20%nat ->
  base62 view = Ok (map symbol (numeral 62 27 (big_endian view))).
Proof.
  intros H. destruct (twenty_bytes view H)
    as (b0 & b1 & b2 & b3 & b4 & b5 & b6 & b7 & b8 & b9 & b10 & b11 & b12 &
        b13 & b14 & b15 & b16 & b17 & b18 & b19 & ->).
  unfold base62. cbn [length Nat.eqb negb].
  change (getUint32 ?v 0) with
    (@Ok error Z (u8 b0 * 16777216 + u8 b1 * 65536 + u8 b2 * 256 + u8 b3)).
  change (getUint32 ?v 4) with
    (@Ok error Z (u8 b4 * 16777216 + u8 b5 * 65536 + u8 b6 * 256 + u8 b7)).
  change (getUint32 ?v 8) with
    (@Ok error Z (u8 b8 * 16777216 + u8 b9 * 65536 + u8 b10 * 256 + u8 b11)).
  change (getUint32 ?v 12) with
    (@Ok error Z (u8 b12 * 16777216 + u8 b13 * 65536 + u8 b14 * 256 + u8 b15)).
  change (getUint32 ?v 16) with
    (@Ok error Z (u8 b16 * 16777216 + u8 b17 * 65536 + u8 b18 * 256 + u8 b19)).
  cbn [bind length].
  change (S (32 * 5)) with 161%nat.
  rewrite base62_words.
  - rewrite concat_singletons. f_equal. f_equal. f_equal.
    unfold big_endian, number. cbn [map fold_left]. ring.
  - repeat (constructor; [apply word_below|]). constructor.
Qed.

End Base62Facts.

Module Debase62Facts.
Import Png PngFacts StreamFacts Ksuid NumeralFacts Base62Facts.
Open Scope Z_scope.

(** ** Reading the symbols *)

Lemma symbols_symbol ds : below 62 ds -> symbols (map symbol ds) = Ok ds.
Proof.
  intros H. induction H as [|d ds Hd _ IH]; [reflexivity|].
  cbn [map symbols]. rewrite symbol_value_symbol, IH by assumption.
  reflexivity.
Qed.

Lemma symbols_ok str : forall ds,
  symbols str = Ok ds ->
  below 62 ds /\ map symbol ds = str /\ length ds = length str.
Proof.
  induction str as [|c str IH]; intros ds; cbn [symbols].
  - intros [= <-]. repeat split. constructor.
  - destruct (symbol_value c) as [v|] eqn:Ev; [|discriminate].
    destruct (symbols str) as [vs|e]; [|discriminate].
    cbn [bind]. intros [= <-].
    destruct (IH vs eq_refl) as (Hb & Hm & Hl).
    repeat split.
    + constructor; [eapply symbol_value_range; eassumption | assumption].
    + cbn [map]. rewrite Hm, (symbol_of_value _ Ev). reflexivity.
    + cbn [length]. rewrite Hl. reflexivity.
Qed.

(** The loop stops at the first code unit that is no symbol. *)
Lemma symbols_throw pre c post :
  Forall (fun x => symbol_value x <> None) pre -> symbol_value c = None ->
  symbols (pre ++ c :: post) = Throw (unexpected_symbol c).
Proof.
  intros H Hc. induction H as [|x pre Hx _ IH]; cbn [app symbols].
  - rewrite Hc. reflexivity.
  - destruct (symbol_value x); [|congruence]. rewrite IH. reflexivity.
Qed.

Lemma symbols_thrown str : forall e,
  symbols str = Throw e ->
  exists pre c post,
    str = pre ++ c :: post /\
    Forall (fun x => symbol_value x <> None) pre /\
    symbol_value c = None /\ e = unexpected_symbol c.
Proof.
  induction str as [|c str IH]; intros e; cbn [symbols]; [discriminate|].
  destruct (symbol_value c) as [v|] eqn:Ev.
  - destruct (symbols str) as [vs|e'] eqn:Es; [discriminate|].
    cbn [bind]. intros [= <-].
    destruct (IH e' eq_refl) as (pre & c' & post & -> & Hp & Hc & He).
    exists (c :: pre), c', post. repeat split; try assumption.
    constructor; [congruence | assumption].
  - intros [= <-]. exists [], c, str. repeat split; try assumption.
    constructor.
Qed.

(** ** The bytes of a word *)

Lemma byte_of_Z_eq a b : a mod 256 = b mod 256 -> byte_of_Z a = byte_of_Z b.
Proof. unfold byte_of_Z. intros ->. reflexivity. Qed.

Lemma byte_of_Z_mod a : byte_of_Z (a mod 256) = byte_of_Z a.
Proof. apply byte_of_Z_eq. apply Z.mod_mod. lia. Qed.

Lemma byte_u8 x : byte_of_Z (u8 x) = x.
Proof. destruct x; reflexivity. Qed.

Lemma sar_byte r k :
  0 <= r < 4294967296 -> 0 <= k <= 24 ->
  byte_of_Z (sar r k) = byte_of_Z (r / 2 ^ k).
Proof.
  intros Hr Hk. apply byte_of_Z_eq. unfold sar, ToInt32. cbv zeta.
  rewrite (Z.mod_small r 4294967296) by assumption.
  rewrite Z.shiftr_div_pow2 by lia.
  destruct (2147483648 <=? r); [|reflexivity].
  assert (E : 4294967296 = 256 * 2 ^ (24 - k) * 2 ^ k).
  { rewrite <- Z.mul_assoc, <- Z.pow_add_r by lia.
    replace (24 - k + k) with 24 by lia. reflexivity. }
  replace (r - 4294967296) with (r + (- (256 * 2 ^ (24 - k))) * 2 ^ k) by lia.
  rewrite Z.div_add by (apply Z.pow_nonzero; lia).
  replace (r / 2 ^ k + - (256 * 2 ^ (24 - k)))
    with (r / 2 ^ k + (- 2 ^ (24 - k)) * 256) by lia.
  apply Z.mod_add. lia.
Qed.

Lemma digit_of_remainder v a b m :
  0 < a -> 0 < b -> 0 < m ->
  (v mod (a * (b * m)) / a) mod b = (v / a) mod b.
Proof.
  intros Ha Hb Hm.
  rewrite Z.rem_mul_r by lia.
  rewrite (Z.mul_comm a), Z.div_add by lia.
  rewrite (Z.div_small (v mod a)) by (apply Z.mod_pos_bound; lia).
  rewrite Z.add_0_l, Z.rem_mul_r by lia.
  rewrite Z.mul_comm, Z.mod_add by lia. apply Z.mod_mod. lia.
Qed.

Lemma word_bytes v r :
  0 <= v -> r = v mod 4294967296 ->
  map byte_of_Z (numeral 256 4 v) =
  [byte_of_Z (sar r 24); byte_of_Z (sar r 16); byte_of_Z (sar r 8);
   byte_of_Z r].
Proof.
  intros Hv ->.
  pose proof (Z.mod_pos_bound v 4294967296 ltac:(lia)) as Hr.
  rewrite !sar_byte by lia.
  cbn [numeral map app]. rewrite !byte_of_Z_mod.
  rewrite !Z.div_div by lia.
  f_equal; [|f_equal; [|f_equal; [|f_equal]]]; apply byte_of_Z_eq; symmetry.
  - apply (digit_of_remainder v (a := 2 ^ 24) (b := 256) (m := 1)); lia.
  - apply (digit_of_remainder v (a := 2 ^ 16) (b := 256) (m := 256)); lia.
  - apply (digit_of_remainder v (a := 2 ^ 8) (b := 256) (m := 65536)); lia.
  - pose proof (digit_of_remainder v (a := 1) (b := 256) (m := 16777216)
                  ltac:(lia) ltac:(lia) ltac:(lia)) as H.
    rewrite !Z.div_1_r in H. exact H.
Qed.

(** ** The loop of [debase62] *)

Lemma zset_shift (A : Type) (pre post : list A) j v :
  0 <= j -> zset (pre ++ post) (zlength pre + j) v = pre ++ zset post j v.
Proof.
  intros Hj. induction pre as [|y pre IH].
  - reflexivity.
  - rewrite zlength_cons. pose proof (zlength_nonneg pre).
    cbn [app zset].
    destruct (1 + zlength pre + j <? 0) eqn:E1; [apply Z.ltb_lt in E1; lia|].
    destruct (1 + zlength pre + j =? 0) eqn:E2; [apply Z.eqb_eq in E2; lia|].
    replace (1 + zlength pre + j - 1) with (zlength pre + j) by lia.
    rewrite IH. reflexivity.
Qed.

Lemma zset_four (A : Type) (pre post : list A) x0 x1 x2 x3 v0 v1 v2 v3 n :
  n - 4 = zlength pre ->
  zset (zset (zset (zset (pre ++ x0 :: x1 :: x2 :: x3 :: post)
                      (n - 4) v0) (n - 3) v1) (n - 2) v2) (n - 1) v3 =
  pre ++ v0 :: v1 :: v2 :: v3 :: post.
Proof.
  intros H.
  replace (n - 4) with (zlength pre + 0) by lia.
  replace (n - 3) with (zlength pre + 1) by lia.
  replace (n - 2) with (zlength pre + 2) by lia.
  replace (n - 1) with (zlength pre + 3) by lia.
  rewrite zset_shift by lia. cbn [zset Z.ltb Z.eqb Z.compare].
  rewrite zset_shift by lia.
  change (zset (v0 :: x1 :: x2 :: x3 :: post) 1 v1)
    with (v0 :: v1 :: x2 :: x3 :: post).
  rewrite zset_shift by lia.
  change (zset (v0 :: v1 :: x2 :: x3 :: post) 2 v2)
    with (v0 :: v1 :: v2 :: x3 :: post).
  rewrite zset_shift by lia. reflexivity.
Qed.

(** With room for [k] words in front of [dst] the loop writes the number
    of [bp] there when it is below [256 ^ (4 * k)], and throws when it is
    not: the round that finds no room left throws. *)
Lemma debase62_loop_spec : forall k fuel bp tail,
  (k < fuel)%nat -> below 62 bp -> ((0 < k)%nat \/ normal bp) ->
  debase62_loop fuel bp (4 * Z.of_nat k) (repeat Byte.x00 (4 * k) ++ tail) =
  Some (if number 62 bp <? 256 ^ (4 * Z.of_nat k)
        then Ok (map byte_of_Z (numeral 256 (4 * k) (number 62 bp)) ++ tail)
        else Throw (Error (js "short buffer"))).
Proof.
  induction k as [|k IH]; intros fuel bp tail Hf Hb Hn.
  - destruct Hn as [Hn|Hn]; [lia|].
    pose proof (@number_bounds 62 bp ltac:(lia) Hb) as Hv.
    destruct bp as [|c bp'].
    + destruct fuel; reflexivity.
    + destruct fuel as [|f]; [lia|].
      destruct (number 62 (c :: bp') <? 256 ^ (4 * Z.of_nat 0)) eqn:E.
      * apply Z.ltb_lt in E. change (256 ^ (4 * Z.of_nat 0)) with 1 in E.
        assert (H0 : number 62 (c :: bp') = 0) by lia.
        apply (@normal_zero 62) in H0; try assumption; try lia.
        discriminate.
      * cbn [debase62_loop].
        destruct (divide 62 4294967296 (c :: bp')) as [q r].
        reflexivity.
  - destruct bp as [|c bp'].
    + change (number 62 []) with 0.
      assert (E : (0 <? 256 ^ (4 * Z.of_nat (S k))) = true).
      { apply Z.ltb_lt. apply Z.pow_pos_nonneg; lia. }
      rewrite E, numeral_zero, map_repeat.
      destruct fuel; reflexivity.
    + destruct fuel as [|f]; [lia|].
      cbn [debase62_loop]. set (bp := c :: bp') in *.
      destruct (@divide_spec 62 4294967296 bp ltac:(lia) ltac:(lia) Hb)
        as (_ & Hr & Hq & Hnq).
      destruct (@divide_quotient 62 4294967296 bp ltac:(lia) ltac:(lia) Hb)
        as (Eq & Er).
      pose proof (@number_bounds 62 bp ltac:(lia) Hb) as Hv.
      destruct (divide 62 4294967296 bp) as [q r]. cbn [fst snd] in *.
      destruct (4 * Z.of_nat (S k) <? 4) eqn:E4; [apply Z.ltb_lt in E4; lia|].
      replace (4 * S k)%nat with (4 * k + 4)%nat by lia.
      rewrite repeat_app, <- app_assoc.
      change (repeat Byte.x00 4 ++ tail)
        with (Byte.x00 :: Byte.x00 :: Byte.x00 :: Byte.x00 :: tail).
      rewrite zset_four by (rewrite zlength_repeat; lia).
      replace (4 * Z.of_nat (S k) - 4) with (4 * Z.of_nat k) by lia.
      rewrite IH; try assumption; try lia; [|right; exact Hnq].
      f_equal.
      assert (E256 : 256 ^ (4 * Z.of_nat (S k)) =
                     256 ^ (4 * Z.of_nat k) * 4294967296).
      { replace (4 * Z.of_nat (S k)) with (4 * Z.of_nat k + 4) by lia.
        rewrite Z.pow_add_r by lia. reflexivity. }
      assert (Hp : 0 < 256 ^ (4 * Z.of_nat k))
        by (apply Z.pow_pos_nonneg; lia).
      rewrite Eq.
      destruct (number 62 bp / 4294967296 <? 256 ^ (4 * Z.of_nat k)) eqn:E1;
        destruct (number 62 bp <? 256 ^ (4 * Z.of_nat (S k))) eqn:E2.
      * rewrite numeral_app by lia. rewrite map_app, <- app_assoc.
        change (256 ^ Z.of_nat 4) with 4294967296.
        rewrite (@word_bytes (number 62 bp) r) by lia.
        reflexivity.
      * exfalso. apply Z.ltb_lt in E1. apply Z.ltb_ge in E2.
        rewrite E256 in E2.
        pose proof (Z.div_mod (number 62 bp) 4294967296 ltac:(lia)).
        pose proof (Z.mod_pos_bound (number 62 bp) 4294967296 ltac:(lia)).
        nia.
      * exfalso. apply Z.ltb_ge in E1. apply Z.ltb_lt in E2.
        rewrite E256 in E2.
        assert (number 62 bp / 4294967296 < 256 ^ (4 * Z.of_nat k));
          [apply Z.div_lt_upper_bound; lia | lia].
      * reflexivity.
Qed.

(** [debase62] on 27 symbols: the number they write in base 62, as 20
    bytes when it fits, and [short buffer] when it does not. *)
Lemma debase62_value str ds :
  length str = 27%nat -> symbols str = Ok ds ->
  debase62 str =
  if number 62 ds <? 2 ^ 160
  then Ok (map byte_of_Z (numeral 256 20 (number 62 ds)))
  else Throw (Error (js "short buffer")).
Proof.
  intros Hl Hs. unfold debase62. rewrite Hl, Hs. cbn [Nat.eqb negb bind].
  destruct (symbols_ok _ Hs) as (Hb & _ & Hlen).
  pose proof (@debase62_loop_spec 5 (S (length ds)) ds []
                ltac:(lia) Hb ltac:(left; lia)) as H.
  rewrite !app_nil_r in H.
  change (4 * Z.of_nat 5) with 20 in H. change (4 * 5)%nat with 20%nat in H.
  rewrite H. change (256 ^ 20) with (2 ^ 160).
  destruct (number 62 ds <? 2 ^ 160); reflexivity.
Qed.

End Debase62Facts.

Module KsuidFacts.
Import Png PngFacts StreamFacts Ksuid NumeralFacts Base62Facts Debase62Facts.
Open Scope Z_scope.

(** ** Buffers and their numbers *)

Lemma bytes_below (bytes : list Byte.byte) : below 256 (map u8 bytes).
Proof.
  induction bytes as [|x bytes IH]; constructor; [apply u8_range | exact IH].
Qed.

Lemma big_endian_bounds bytes :
  0 <= big_endian bytes < 256 ^ zlength bytes.
Proof.
  unfold big_endian.
  pose proof (@number_bounds 256 _ ltac:(lia) (bytes_below bytes)) as H.
  unfold zlength in *. rewrite length_map in H. exact H.
Qed.

Lemma bytes_of_big_endian bytes :
  map byte_of_Z (numeral 256 (length bytes) (big_endian bytes)) = bytes.
Proof.
  unfold big_endian.
  rewrite <- (length_map u8 bytes) at 1.
  rewrite numeral_number by (try apply bytes_below; lia).
  rewrite map_map. rewrite <- (map_id bytes) at 2.
  apply map_ext. apply byte_u8.
Qed.

Lemma big_endian_of_bytes n v :
  0 <= v < 256 ^ Z.of_nat n ->
  big_endian (map byte_of_Z (numeral 256 n v)) = v.
Proof.
  intros Hv. unfold big_endian. rewrite map_map.
  rewrite (map_ext_in _ (fun d => d)), map_id.
  - rewrite number_numeral by lia. apply Z.mod_small. exact Hv.
  - intros d Hd.
    pose proof (@numeral_below 256 n v ltac:(lia)) as Hb.
    unfold below in Hb. rewrite Forall_forall in Hb.
    apply u8_small. apply Hb. exact Hd.
Qed.

Lemma base62_length view s : base62 view = Ok s -> length view = 20%nat.
Proof.
  unfold base62. destruct (length view =? 20)%nat eqn:E.
  - intros _. apply Nat.eqb_eq. exact E.
  - discriminate.
Qed.

Lemma fits_27_symbols view :
  length view = 20%nat -> 0 <= big_endian view < 62 ^ 27.
Proof.
  intros H. pose proof (big_endian_bounds view) as Hb.
  unfold zlength in Hb. rewrite H in Hb.
  assert (256 ^ Z.of_nat 20 < 62 ^ 27) by reflexivity. lia.
Qed.

(** [debase62] reads the symbols [base62] writes back into the buffer. *)
Lemma debase62_numeral view :
  length view = 20%nat ->
  debase62 (map symbol (numeral 62 27 (big_endian view))) = Ok view.
Proof.
  intros Hl.
  pose proof (fits_27_symbols view Hl) as Hv.
  pose proof (@numeral_below 62 27 (big_endian view) ltac:(lia)) as Hb.
  rewrite (@debase62_value _ (numeral 62 27 (big_endian view))).
  - rewrite number_numeral by lia.
    change (62 ^ Z.of_nat 27) with (62 ^ 27).
    rewrite Z.mod_small by exact Hv.
    pose proof (big_endian_bounds view) as Hbe.
    unfold zlength in Hbe. rewrite Hl in Hbe.
    change (256 ^ Z.of_nat 20) with (2 ^ 160) in Hbe.
    destruct (big_endian view <? 2 ^ 160) eqn:E;
      [|apply Z.ltb_ge in E; lia].
    rewrite <- Hl at 1. rewrite bytes_of_big_endian. reflexivity.
  - rewrite length_map. apply numeral_length.
  - apply symbols_symbol. exact Hb.
Qed.

(** ** The order of the symbols *)

Lemma symbol_order d1 d2 :
  0 <= d1 < 62 -> 0 <= d2 < 62 ->
  (symbol d1 <? symbol d2)%N = (d1 <? d2) /\
  (symbol d1 =? symbol d2)%N = (d1 =? d2).
Proof.
  intros H1 H2.
  assert (H := @range_all
                 (fun a => forallb
                    (fun b => Bool.eqb (symbol a <? symbol b)%N (a <? b) &&
                              Bool.eqb (symbol a =? symbol b)%N (a =? b))
                    (range 62)) 62
                 ltac:(vm_compute; reflexivity) d1 H1).
  cbv beta in H.
  apply (@range_all _ 62 H) in H2.
  apply andb_true_iff in H2. destruct H2 as [Ha Hb].
  apply Bool.eqb_prop in Ha, Hb. split; assumption.
Qed.

Lemma string_lt_numbers : forall ds1 ds2,
  length ds1 = length ds2 -> below 62 ds1 -> below 62 ds2 ->
  string_lt (map symbol ds1) (map symbol ds2) =
  (number 62 ds1 <? number 62 ds2).
Proof.
  induction ds1 as [|d1 ds1 IH]; intros [|d2 ds2] Hl H1 H2;
    try discriminate; [reflexivity|].
  apply Forall_cons_iff in H1, H2. destruct H1 as [Hd1 H1], H2 as [Hd2 H2].
  injection Hl as Hl.
  cbn [map string_lt]. rewrite IH by assumption.
  destruct (symbol_order Hd1 Hd2) as [-> ->].
  rewrite !number_cons.
  pose proof (@number_bounds 62 ds1 ltac:(lia) H1) as B1.
  pose proof (@number_bounds 62 ds2 ltac:(lia) H2) as B2.
  unfold zlength in *. rewrite Hl in *.
  set (p := 62 ^ Z.of_nat (length ds2)) in *.
  assert (0 < p) by (apply Z.pow_pos_nonneg; lia).
  destruct (d1 <? d2) eqn:E1; cbn [orb].
  - apply Z.ltb_lt in E1. symmetry. apply Z.ltb_lt. nia.
  - apply Z.ltb_ge in E1. destruct (d1 =? d2) eqn:E2; cbn [andb].
    + apply Z.eqb_eq in E2. subst d2.
      destruct (number 62 ds1 <? number 62 ds2) eqn:E3; symmetry.
      * apply Z.ltb_lt in E3. apply Z.ltb_lt. lia.
      * apply Z.ltb_ge in E3. apply Z.ltb_ge. lia.
    + apply Z.eqb_neq in E2. symmetry. apply Z.ltb_ge. nia.
Qed.

Lemma string_lt_prefix p a b : string_lt (p ++ a) (p ++ b) = string_lt a b.
Proof.
  induction p as [|c p IH]; [reflexivity|].
  cbn [app string_lt]. rewrite IH, N.ltb_irrefl, N.eqb_refl. reflexivity.
Qed.

End KsuidFacts.

Module Base62Properties.
Import Png PngFacts StreamFacts Ksuid NumeralFacts Base62Facts Debase62Facts
       KsuidFacts.
Open Scope Z_scope.

(** [base62] rejects a buffer that is not 20 bytes long; for a buffer of 20
    bytes it returns 27 symbols of the alphabet, whose digits write in
    base 62 the number the buffer holds, most significant byte first (the
    string is padded with the symbol of zero on the left). *)
Theorem base62_writes_the_number (view : list Byte.byte) :
  (length view <> 20%nat ->
   base62 view = Throw (Error (js "incorrect buffer size"))) /\
  (length view = 20%nat ->
   exists digits,
     base62 view = Ok (map symbol digits) /\
     length digits = 27%nat /\ below 62 digits /\
     Forall (fun c => In c BASE62) (map symbol digits) /\
     number 62 digits = big_endian view).
Proof.
  split.
  - intros H. unfold base62.
    destruct (length view =? 20)%nat eqn:E; [|reflexivity].
    apply Nat.eqb_eq in E. contradiction.
  - intros H. exists (numeral 62 27 (big_endian view)).
    pose proof (fits_27_symbols view H) as Hv.
    pose proof (@numeral_below 62 27 (big_endian view) ltac:(lia)) as Hb.
    repeat split.
    + apply base62_value. exact H.
    + exact Hb.
    + apply Forall_map. unfold below in Hb.
      eapply Forall_impl; [|exact Hb].
      intros d Hd. cbv beta.
      pose proof (charAt_symbol Hd) as Hc. unfold charAt, char_at in Hc.
      destruct (d <? 0); [discriminate|].
      destruct (nth_error BASE62 (Z.to_nat d)) as [c|] eqn:En;
        [|discriminate].
      injection Hc as ->. eapply nth_error_In. exact En.
    + rewrite number_numeral by lia. apply Z.mod_small.
      change (62 ^ Z.of_nat 27) with (62 ^ 27). exact Hv.
Qed.

Example base62_of_a_known_identifier :
  base62 (bytes_of [6; 105; 247; 239; 181; 161; 205; 52; 181; 249; 157; 17;
                    84; 251; 104; 83; 52; 92; 151; 53]) =
  Ok (js "0ujtsYcgvSTl8PAuAdqWYSMnLOv").
Proof. vm_compute. reflexivity. Qed.

(** [debase62] gives back the buffer [base62] was given. *)
Theorem debase62_inverts_base62 (view : list Byte.byte) (s : jsstring) :
  base62 view = Ok s -> debase62 s = Ok view.
Proof.
  intros H. pose proof (base62_length _ H) as Hl.
  rewrite (base62_value _ Hl) in H.
  assert (s = map symbol (numeral 62 27 (big_endian view))) as ->
    by congruence.
  clear H.
  apply debase62_numeral. exact Hl.
Qed.

Lemma debase62_inverts_base62_witness :
  base62 (repeat Byte.xff 20) = Ok (js "aWgEPTl1tmebfsQzFP4bxwgy80V") /\
  debase62 (js "aWgEPTl1tmebfsQzFP4bxwgy80V") = Ok (repeat Byte.xff 20).
Proof.
  split; [vm_compute; reflexivity|].
  apply (@debase62_inverts_base62 (repeat Byte.xff 20)).
  vm_compute. reflexivity.
Defined.

(** The four outcomes of [debase62]: a string that is not 27 units long
    and a string with a unit outside the alphabet are rejected, the first
    such unit being named; 27 symbols that write a number of 160 bits or
    less give the 20 bytes of that number; and 27 symbols that write a
    larger number are rejected with [short buffer]. *)
Theorem debase62_outcomes (str : jsstring) :
  (length str <> 27%nat ->
   debase62 str =
     Throw (Error (js "Expected 27 characters long base62 string"))) /\
  (length str = 27%nat ->
   (forall pre c post,
      str = pre ++ c :: post ->
      Forall (fun x => symbol_value x <> None) pre ->
      symbol_value c = None ->
      debase62 str = Throw (unexpected_symbol c)) /\
   (forall digits,
      symbols str = Ok digits ->
      below 62 digits /\ str = map symbol digits /\
      (number 62 digits < 2 ^ 160 ->
       exists bytes,
         debase62 str = Ok bytes /\ length bytes = 20%nat /\
         big_endian bytes = number 62 digits) /\
      (2 ^ 160 <= number 62 digits ->
       debase62 str = Throw (Error (js "short buffer"))))).
Proof.
  split; [|intros Hl; split].
  - intros H. unfold debase62.
    destruct (length str =? 27)%nat eqn:E; [|reflexivity].
    apply Nat.eqb_eq in E. contradiction.
  - intros pre c post -> Hp Hc. unfold debase62.
    rewrite Hl, (@symbols_throw pre c post Hp Hc). reflexivity.
  - intros digits Hs. destruct (symbols_ok _ Hs) as (Hb & Hm & Hlen).
    pose proof (@number_bounds 62 digits ltac:(lia) Hb) as Hn.
    repeat split; [exact Hb | symmetry; exact Hm | |].
    + intros Hv. rewrite (@debase62_value str digits Hl Hs).
      apply Z.ltb_lt in Hv. rewrite Hv. apply Z.ltb_lt in Hv.
      eexists. split; [reflexivity|]. split.
      * rewrite length_map. apply numeral_length.
      * apply big_endian_of_bytes.
        change (256 ^ Z.of_nat 20) with (2 ^ 160). lia.
    + intros Hv. rewrite (@debase62_value str digits Hl Hs).
      apply Z.ltb_ge in Hv. rewrite Hv. reflexivity.
Qed.

Example debase62_of_the_largest_string :
  debase62 (js "zzzzzzzzzzzzzzzzzzzzzzzzzzz") = Throw (Error (js "short buffer")) /\
  debase62 (js "aWgEPTl1tmebfsQzFP4bxwgy80W") = Throw (Error (js "short buffer")) /\
  debase62 (js "aWgEPTl1tmebfsQzFP4bxwgy8_V") = Throw (unexpected_symbol 95%N) /\
  debase62 (js "0") =
    Throw (Error (js "Expected 27 characters long base62 string")).
Proof. repeat split; vm_compute; reflexivity. Qed.

(** [base62] gives back the string [debase62] accepted. *)
Theorem base62_inverts_debase62 (str : jsstring) (bytes : list Byte.byte) :
  debase62 str = Ok bytes -> base62 bytes = Ok str.
Proof.
  intros H.
  assert (Hl : length str = 27%nat).
  { unfold debase62 in H. destruct (length str =? 27)%nat eqn:E;
      [apply Nat.eqb_eq; exact E | discriminate]. }
  destruct (symbols str) as [digits|e] eqn:Hs.
  2:{ unfold debase62 in H. rewrite Hl, Hs in H. discriminate. }
  destruct (symbols_ok _ Hs) as (Hb & Hm & Hlen).
  pose proof (@number_bounds 62 digits ltac:(lia) Hb) as Hn.
  rewrite (@debase62_value str digits Hl Hs) in H.
  destruct (number 62 digits <? 2 ^ 160) eqn:Hv; [|discriminate].
  apply Z.ltb_lt in Hv.
  assert (bytes = map byte_of_Z (numeral 256 20 (number 62 digits))) as ->
    by congruence.
  clear H.
  rewrite base62_value by (rewrite length_map; apply numeral_length).
  rewrite big_endian_of_bytes
    by (change (256 ^ Z.of_nat 20) with (2 ^ 160); lia).
  replace 27%nat with (length digits) by congruence.
  rewrite numeral_number by (assumption || lia).
  rewrite Hm. reflexivity.
Qed.

Lemma base62_inverts_debase62_witness :
  debase62 (js "0ujtsYcgvSTl8PAuAdqWYSMnLOv") =
    Ok (bytes_of [6; 105; 247; 239; 181; 161; 205; 52; 181; 249; 157; 17;
                  84; 251; 104; 83; 52; 92; 151; 53]) /\
  base62 (bytes_of [6; 105; 247; 239; 181; 161; 205; 52; 181; 249; 157; 17;
                    84; 251; 104; 83; 52; 92; 151; 53]) =
    Ok (js "0ujtsYcgvSTl8PAuAdqWYSMnLOv").
Proof.
  split; [vm_compute; reflexivity|].
  apply (@base62_inverts_debase62 (js "0ujtsYcgvSTl8PAuAdqWYSMnLOv")).
  vm_compute. reflexivity.
Defined.

(** The order of two identifiers as strings is the order of the numbers
    their buffers hold: a buffer that comes first byte by byte has the
    string that comes first. *)
Theorem base62_keeps_the_order (view1 view2 : list Byte.byte)
  (s1 s2 : jsstring) :
  base62 view1 = Ok s1 -> base62 view2 = Ok s2 ->
  string_lt s1 s2 = (big_endian view1 <? big_endian view2).
Proof.
  intros H1 H2.
  pose proof (base62_length _ H1) as L1.
  pose proof (base62_length _ H2) as L2.
  rewrite (base62_value _ L1) in H1. rewrite (base62_value _ L2) in H2.
  assert (s1 = map symbol (numeral 62 27 (big_endian view1))) as ->
    by congruence.
  assert (s2 = map symbol (numeral 62 27 (big_endian view2))) as ->
    by congruence.
  clear H1 H2.
  pose proof (fits_27_symbols view1 L1) as V1.
  pose proof (fits_27_symbols view2 L2) as V2.
  rewrite string_lt_numbers.
  - rewrite !number_numeral by lia.
    change (62 ^ Z.of_nat 27) with (62 ^ 27).
    rewrite !Z.mod_small by assumption. reflexivity.
  - rewrite !numeral_length. reflexivity.
  - apply numeral_below. lia.
  - apply numeral_below. lia.
Qed.

Lemma base62_keeps_the_order_witness :
  base62 (be32 1 ++ repeat Byte.xff 16) =
    Ok (js "00000Fa84QWiAxLXUJaHZmEVPEF") /\
  base62 (be32 2 ++ repeat Byte.x00 16) =
    Ok (js "00000Fa84QWiAxLXUJaHZmEVPEG") /\
  string_lt (js "00000Fa84QWiAxLXUJaHZmEVPEF") (js "00000Fa84QWiAxLXUJaHZmEVPEG") =
    (big_endian (be32 1 ++ repeat Byte.xff 16) <?
     big_endian (be32 2 ++ repeat Byte.x00 16)).
Proof.
  assert (H1 : base62 (be32 1 ++ repeat Byte.xff 16) =
               Ok (js "00000Fa84QWiAxLXUJaHZmEVPEF")) by (vm_compute; reflexivity).
  assert (H2 : base62 (be32 2 ++ repeat Byte.x00 16) =
               Ok (js "00000Fa84QWiAxLXUJaHZmEVPEG")) by (vm_compute; reflexivity).
  split; [exact H1|]. split; [exact H2|].
  exact (base62_keeps_the_order _ _ H1 H2).
Defined.

End Base62Properties.

Module GenerateFacts.
Import Png PngFacts StreamFacts Ksuid NumeralFacts Base62Facts Debase62Facts
       KsuidFacts.
Open Scope Z_scope.

(** ** The buffer [generate] fills *)

Lemma ToUint32_range x : 0 <= ToUint32 x < 4294967296.
Proof.
  unfold ToUint32. destruct (Prim2SF x); try lia.
  apply Z.mod_pos_bound. lia.
Qed.

Lemma setUint32_fresh value :
  setUint32 (repeat Byte.x00 20) 0 value =
  Ok (be32 (ToUint32 value) ++ repeat Byte.x00 16).
Proof. reflexivity. Qed.

Lemma set_bytes_spec : forall rs pre rest,
  set_bytes (pre ++ rest) (zlength pre) rs =
  if (length rs <=? length rest)%nat
  then Ok (pre ++ rs ++ skipn (length rs) rest)
  else Throw ViewRangeError.
Proof.
  intros rnd. induction rnd as [|b rnd IH]; intros pre rest.
  - reflexivity.
  - cbn [set_bytes]. unfold setUint8.
    pose proof (zlength_nonneg pre) as Hp.
    rewrite zlength_app.
    destruct rest as [|x rest].
    + change (zlength (@nil Byte.byte)) with 0.
      destruct (0 <=? zlength pre) eqn:E1; [|apply Z.leb_gt in E1; lia].
      destruct (zlength pre <? zlength pre + 0) eqn:E2;
        [apply Z.ltb_lt in E2; lia|].
      reflexivity.
    + rewrite zlength_cons. pose proof (zlength_nonneg rest) as Hr.
      destruct (0 <=? zlength pre) eqn:E1; [|apply Z.leb_gt in E1; lia].
      destruct (zlength pre <? zlength pre + (1 + zlength rest)) eqn:E2;
        [|apply Z.ltb_ge in E2; lia].
      cbn [andb bind]. rewrite zset_at.
      replace (zlength pre + 1) with (zlength (pre ++ [b]))
        by (rewrite zlength_app; reflexivity).
      replace (pre ++ b :: rest) with ((pre ++ [b]) ++ rest)
        by (rewrite <- app_assoc; reflexivity).
      rewrite IH. cbn [length skipn Nat.leb].
      destruct (length rnd <=? length rest)%nat; [|reflexivity].
      rewrite <- app_assoc. reflexivity.
Qed.

Lemma big_endian_be32 n : 0 <= n < 4294967296 -> big_endian (be32 n) = n.
Proof.
  intros Hn. unfold big_endian, be32, number. cbn [map fold_left].
  rewrite !u8_byte_of_Z. pose proof (be32_value Hn). lia.
Qed.

Lemma big_endian_app a b :
  big_endian (a ++ b) = big_endian a * 256 ^ zlength b + big_endian b.
Proof.
  unfold big_endian. rewrite map_app, number_app.
  unfold zlength. rewrite length_map. reflexivity.
Qed.

(** What [generate] hands to [base62]: the four bytes of the time stamp,
    the random bytes, and zeros up to 20 bytes. *)
Lemma generate_buffer ts rnd :
  (length rnd <= 16)%nat ->
  (do view1 <- setUint32 (repeat Byte.x00 20) 0 ts; set_bytes view1 4 rnd) =
  Ok (be32 (ToUint32 ts) ++ rnd ++ repeat Byte.x00 (16 - length rnd)).
Proof.
  intros Hl. rewrite setUint32_fresh. cbn [bind].
  change 4 with (zlength (be32 (ToUint32 ts))).
  rewrite set_bytes_spec, repeat_length.
  destruct (length rnd <=? 16)%nat eqn:E; [|apply Nat.leb_gt in E; lia].
  f_equal. f_equal. f_equal.
  replace 16%nat with (length rnd + (16 - length rnd))%nat at 1 by lia.
  rewrite repeat_app, skipn_app, repeat_length, Nat.sub_diag.
  rewrite skipn_all2 by (rewrite repeat_length; lia). reflexivity.
Qed.

Lemma generate_overflow prefix desc timestamp rnd :
  (16 < length rnd)%nat ->
  generate prefix desc timestamp rnd = Throw ViewRangeError.
Proof.
  intros Hl. unfold generate. rewrite setUint32_fresh. cbn [bind].
  change 4 with (zlength (be32 (ToUint32 (toEpoch timestamp desc)))).
  rewrite set_bytes_spec, repeat_length.
  destruct (length rnd <=? 16)%nat eqn:E; [apply Nat.leb_le in E; lia|].
  reflexivity.
Qed.

(** The tag in front of the symbols. *)
Lemma generate_value prefix desc timestamp rnd :
  (length rnd <= 16)%nat ->
  generate prefix desc timestamp rnd =
  Ok ((if truthy prefix then text_of prefix ++ js "_" else []) ++
      (if desc then js "z" else []) ++
      map symbol
        (numeral 62 27
           (big_endian (be32 (ToUint32 (toEpoch timestamp desc)) ++ rnd ++
                        repeat Byte.x00 (16 - length rnd))))).
Proof.
  intros Hl. unfold generate.
  pose proof (generate_buffer (toEpoch timestamp desc) rnd Hl) as H.
  destruct (setUint32 (repeat Byte.x00 20) 0 (toEpoch timestamp desc))
    as [view1|e]; [|discriminate].
  cbn [bind] in H |- *. rewrite H. cbn [bind].
  rewrite base62_value.
  - cbn [bind]. destruct desc, (truthy prefix); cbn [app];
      rewrite <- ?app_assoc; reflexivity.
  - rewrite !length_app, repeat_length. cbn [be32 length]. lia.
Qed.

(** ** Looking for the underscore *)

Lemma indexOf_absent : forall s i,
  ~ In (cu "_") s -> indexOf (js "_") s i = None.
Proof.
  induction s as [|c s IH]; intros i H; [reflexivity|].
  cbn [indexOf js list_ascii_of_string map starts_with].
  destruct (N.eqb (cu "_") c) eqn:E.
  - apply N.eqb_eq in E. exfalso. apply H. left. symmetry. exact E.
  - cbn [andb]. apply IH. intros Hin. apply H. right. exact Hin.
Qed.

Lemma indexOf_first : forall p rest i,
  ~ In (cu "_") p ->
  indexOf (js "_") (p ++ cu "_" :: rest) i = Some (i + length p)%nat.
Proof.
  induction p as [|c p IH]; intros rest i H.
  - cbn [app indexOf js list_ascii_of_string map starts_with length].
    rewrite N.eqb_refl. cbn [andb]. f_equal. lia.
  - cbn [app indexOf js list_ascii_of_string map starts_with length].
    destruct (N.eqb (cu "_") c) eqn:E.
    + apply N.eqb_eq in E. exfalso. apply H. left. symmetry. exact E.
    + cbn [andb]. rewrite IH by (intros Hin; apply H; right; exact Hin).
      f_equal. lia.
Qed.

Lemma symbol_not_underscore ds : below 62 ds -> ~ In (cu "_") (map symbol ds).
Proof.
  intros H Hin. apply in_map_iff in Hin. destruct Hin as (d & Hd & Hin).
  unfold below in H. rewrite Forall_forall in H. apply H in Hin.
  pose proof (symbol_value_symbol Hin) as Hs. rewrite Hd in Hs.
  discriminate.
Qed.

Lemma slice_front (p rest : jsstring) : slice (p ++ rest) 0 (length p) = p.
Proof.
  unfold slice. rewrite Nat.sub_0_r. cbn [skipn].
  rewrite firstn_app, Nat.sub_diag, firstn_all. cbn [firstn].
  apply app_nil_r.
Qed.

Lemma slice_back (p rest : jsstring) c :
  slice (p ++ c :: rest) (length p + 1) (length (p ++ c :: rest)) = rest.
Proof.
  unfold slice. rewrite skipn_app.
  rewrite skipn_all2 by lia.
  replace (length p + 1 - length p)%nat with 1%nat by lia.
  cbn [app skipn]. rewrite length_app. cbn [length].
  replace (length p + S (length rest) - (length p + 1))%nat
    with (length rest) by lia.
  apply firstn_all.
Qed.

Lemma getUint32_front n post :
  0 <= n < 4294967296 -> getUint32 (be32 n ++ post) 0 = Ok n.
Proof.
  intros Hn. unfold getUint32.
  pose proof (@getUint32_be32 (of_bytes (be32 n ++ post)) [] n post) as H.
  change (zlength (@nil Byte.byte)) with 0 in H.
  rewrite H; [reflexivity | | exact Hn].
  cbn [of_bytes elements beyond]. rewrite app_nil_r. reflexivity.
Qed.

Lemma first_occurrence (c : codeunit) l :
  In c l -> exists p1 p2, l = p1 ++ c :: p2 /\ ~ In c p1.
Proof.
  induction l as [|x l IH]; intros H; [contradiction|].
  destruct (N.eq_dec x c) as [->|Hx].
  - exists [], l. split; [reflexivity | intros []].
  - destruct H as [H|H]; [contradiction|].
    destruct (IH H) as (p1 & p2 & -> & Hp).
    exists (x :: p1), p2. split; [reflexivity|].
    intros [E|Hin]; [contradiction | exact (Hp Hin)].
Qed.

End GenerateFacts.

Module ParseFacts.
Import Png PngFacts StreamFacts Ksuid NumeralFacts Base62Facts Debase62Facts
       KsuidFacts GenerateFacts.
Open Scope Z_scope.

(** [parse] on a string with a prefix free of underscores: the prefix is
    split off and the rest parsed as a string without one. *)
Lemma parse_prefixed p body :
  ~ In (cu "_") p -> ~ In (cu "_") body ->
  parse (p ++ cu "_" :: body) =
  match parse body with
  | Ok r => Ok (mkParsed (ts r) (rnd r) (Some p))
  | Throw e => Throw e
  end.
Proof.
  intros Hp Hb. unfold parse.
  rewrite (@indexOf_first p body 0 Hp), (@indexOf_absent body 0 Hb).
  cbn [Nat.add]. rewrite slice_front, slice_back.
  destruct ((28 <? length body) || (length body <? 27))%nat%bool;
    [reflexivity|].
  destruct ((length body =? 28)%nat && negb (has_z body))%bool;
    [reflexivity|].
  destruct (debase62 _) as [buf|e]; [|reflexivity].
  cbn [bind]. destruct (getUint32 buf 0) as [tsValue|e]; reflexivity.
Qed.

(** [parse] on the symbols [base62] wrote for a buffer, with the mark of
    the descending order in front or not. *)
Lemma parse_symbols (desc : bool) (view : list Byte.byte) :
  length view = 20%nat ->
  parse ((if desc then js "z" else []) ++
         map symbol (numeral 62 27 (big_endian view))) =
  match getUint32 view 0 with
  | Ok tsValue =>
      Ok (mkParsed (fromEpoch (Num.of_Z tsValue) desc) (zskip view 4) None)
  | Throw e => Throw e
  end.
Proof.
  intros Hl.
  pose proof (fits_27_symbols view Hl) as Hv.
  pose proof (@numeral_below 62 27 (big_endian view) ltac:(lia)) as Hb.
  pose proof (symbol_not_underscore Hb) as Hu.
  pose proof (debase62_numeral view Hl) as H62.
  set (syms := map symbol (numeral 62 27 (big_endian view))) in *.
  assert (Hs : length syms = 27%nat)
    by (unfold syms; rewrite length_map; apply numeral_length).
  unfold parse. destruct desc.
  - rewrite indexOf_absent.
    2:{ cbn [js list_ascii_of_string map app]. intros [E|Hin];
          [discriminate | exact (Hu Hin)]. }
    cbn [js list_ascii_of_string map app length]. rewrite Hs.
    cbn [Nat.ltb Nat.leb Nat.eqb orb andb].
    change (has_z (cu "z" :: syms)) with true. cbn [negb].
    replace (slice (cu "z" :: syms) 1 28) with syms.
    + rewrite H62. cbn [bind]. destruct (getUint32 view 0); reflexivity.
    + unfold slice. cbn [skipn Nat.sub]. symmetry. apply firstn_all2. lia.
  - cbn [app]. rewrite (@indexOf_absent syms 0 Hu), Hs.
    cbn [Nat.ltb Nat.leb Nat.eqb orb andb].
    rewrite H62. cbn [bind]. destruct (getUint32 view 0); reflexivity.
Qed.

End ParseFacts.

Module KsuidProperties.
Import Png PngFacts StreamFacts Ksuid NumeralFacts Base62Facts Debase62Facts
       KsuidFacts GenerateFacts ParseFacts.
Open Scope Z_scope.

(** [parse] reads back what [generate] was given: the 16 random bytes, the
    prefix (a missing and an empty prefix both read back as missing) and,
    as the time, the 32-bit word [generate] stored for the time stamp.
    The prefix must be free of underscores. *)
Theorem parse_inverts_generate (prefix : option jsstring) (desc : bool)
  (timestamp : float) (rnd : list Byte.byte) :
  length rnd = 16%nat ->
  (forall p, prefix = Some p -> ~ In (cu "_") p) ->
  exists id,
    generate prefix desc timestamp rnd = Ok id /\
    parse id =
      Ok (mkParsed
            (fromEpoch (Num.of_Z (ToUint32 (toEpoch timestamp desc))) desc)
            rnd (if truthy prefix then prefix else None)).
Proof.
  intros Hl Hp. eexists. split; [apply generate_value; lia|].
  rewrite Hl. cbn [Nat.sub repeat]. rewrite app_nil_r.
  set (word := ToUint32 (toEpoch timestamp desc)).
  pose proof (ToUint32_range (toEpoch timestamp desc)) as Hw. fold word in Hw.
  set (view := be32 word ++ rnd).
  assert (Hv : length view = 20%nat)
    by (unfold view; rewrite length_app, Hl; reflexivity).
  assert (Hparse :
    parse ((if desc then js "z" else []) ++
           map symbol (numeral 62 27 (big_endian view))) =
    Ok (mkParsed (fromEpoch (Num.of_Z word) desc) rnd None)).
  { rewrite (parse_symbols desc view Hv). unfold view.
    rewrite (getUint32_front rnd Hw).
    change 4 with (zlength (be32 word)). rewrite zskip_app. reflexivity. }
  destruct (truthy prefix) eqn:Et.
  - destruct prefix as [[|c p]|]; try discriminate.
    cbn [text_of].
    set (body := (if desc then js "z" else []) ++
                 map symbol (numeral 62 27 (big_endian view))) in *.
    replace (((c :: p) ++ js "_") ++ body) with ((c :: p) ++ cu "_" :: body)
      by (rewrite <- app_assoc; reflexivity).
    rewrite parse_prefixed.
    + rewrite Hparse. reflexivity.
    + apply Hp. reflexivity.
    + pose proof (@numeral_below 62 27 (big_endian view) ltac:(lia)) as Hb.
      pose proof (symbol_not_underscore Hb) as Hu.
      unfold body. destruct desc; cbn [js list_ascii_of_string map app].
      * intros [E|Hin]; [discriminate | exact (Hu Hin)].
      * exact Hu.
  - cbn [app]. exact Hparse.
Qed.

Lemma parse_inverts_generate_witness :
  length (bytes_of [1; 2; 3; 4; 5; 6; 7; 8; 9; 10; 11; 12; 13; 14; 15; 16]) =
    16%nat /\
  (forall p, Some (js "inv") = Some p -> ~ In (cu "_") p) /\
  exists id,
    generate (Some (js "inv")) true 1700000000123
      (bytes_of [1; 2; 3; 4; 5; 6; 7; 8; 9; 10; 11; 12; 13; 14; 15; 16]) =
      Ok id /\
    parse id =
      Ok (mkParsed
            (fromEpoch (Num.of_Z (ToUint32 (toEpoch 1700000000123 true))) true)
            (bytes_of [1; 2; 3; 4; 5; 6; 7; 8; 9; 10; 11; 12; 13; 14; 15; 16])
            (if truthy (Some (js "inv")) then Some (js "inv") else None)).
Proof.
  assert (H : forall p, Some (js "inv") = Some p -> ~ In (cu "_") p).
  { intros p [= <-]. cbn. intros [E|[E|[E|[]]]]; discriminate. }
  split; [reflexivity|]. split; [exact H|].
  exact (@parse_inverts_generate (Some (js "inv")) true 1700000000123
           (bytes_of [1; 2; 3; 4; 5; 6; 7; 8; 9; 10; 11; 12; 13; 14; 15; 16])
           eq_refl H).
Defined.

Example generate_then_parse :
  generate (Some (js "inv")) false 1700000000123
    (bytes_of [1; 2; 3; 4; 5; 6; 7; 8; 9; 10; 11; 12; 13; 14; 15; 16]) =
    Ok (js "inv_2YBXZHs6BlGX8pWZXyp2K5Eb2GG") /\
  parse (js "inv_2YBXZHs6BlGX8pWZXyp2K5Eb2GG") =
    Ok (mkParsed 1700000000000
          (bytes_of [1; 2; 3; 4; 5; 6; 7; 8; 9; 10; 11; 12; 13; 14; 15; 16])
          (Some (js "inv"))).
Proof. split; vm_compute; reflexivity. Qed.

(** A prefix with an underscore in it gives an identifier that [parse]
    rejects: [parse] cuts at the first underscore and finds the rest too
    long, or 28 units long without the mark [z] in front. *)
Theorem underscore_in_prefix_breaks_parse (p : jsstring) (desc : bool)
  (timestamp : float) (rnd : list Byte.byte) :
  length rnd = 16%nat -> In (cu "_") p ->
  exists id message,
    generate (Some p) desc timestamp rnd = Ok id /\
    parse id = Throw (Error message).
Proof.
  intros Hl Hin.
  destruct (first_occurrence _ _ Hin) as (p1 & p2 & -> & Hp1).
  assert (Et : truthy (Some (p1 ++ cu "_" :: p2)) = true)
    by (destruct p1; reflexivity).
  pose proof (@generate_value (Some (p1 ++ cu "_" :: p2)) desc timestamp rnd
                ltac:(lia)) as Hg.
  rewrite Et in Hg. cbn [text_of] in Hg.
  set (syms := map symbol (numeral 62 27 _)) in Hg.
  assert (Hs : length syms = 27%nat)
    by (unfold syms; rewrite length_map; apply numeral_length).
  set (z := if desc then js "z" else []) in Hg.
  replace (((p1 ++ cu "_" :: p2) ++ js "_") ++ z ++ syms)
    with (p1 ++ cu "_" :: (p2 ++ cu "_" :: z ++ syms)) in Hg
    by (rewrite <- !app_assoc; reflexivity).
  set (rest := p2 ++ cu "_" :: z ++ syms) in Hg.
  assert (Hr : length rest = (length p2 + length z + 28)%nat)
    by (unfold rest; rewrite !length_app; cbn [length];
        rewrite length_app, Hs; lia).
  exists (p1 ++ cu "_" :: rest).
  assert (Hparse : exists message,
             parse (p1 ++ cu "_" :: rest) = Throw (Error message)).
  { unfold parse.
    rewrite (@indexOf_first p1 rest 0 Hp1). cbn [Nat.add].
    rewrite slice_front, slice_back.
    destruct ((28 <? length rest) || (length rest <? 27))%nat%bool eqn:E.
    - eexists. reflexivity.
    - apply orb_false_iff in E. destruct E as [E _].
      apply Nat.ltb_ge in E.
      assert (Hp2 : p2 = []).
      { destruct p2 as [|x p2]; [reflexivity|].
        cbn [length] in Hr. lia. }
      assert (Hz : desc = false).
      { destruct desc; [|reflexivity].
        change (length z) with 1%nat in Hr. lia. }
      subst p2 desc.
      replace (length rest) with 28%nat by (rewrite Hr; reflexivity).
      change (has_z rest) with false.
      eexists. reflexivity. }
  destruct Hparse as (message & Hparse).
  exists message. split; [|exact Hparse].
  refine (eq_trans Hg _). f_equal. unfold rest, z. rewrite <- !app_assoc. reflexivity.
Qed.

Lemma underscore_in_prefix_breaks_parse_witness :
  length (bytes_of [1; 2; 3; 4; 5; 6; 7; 8; 9; 10; 11; 12; 13; 14; 15; 16]) =
    16%nat /\
  In (cu "_") (js "a_b") /\
  exists id message,
    generate (Some (js "a_b")) false 1700000000123
      (bytes_of [1; 2; 3; 4; 5; 6; 7; 8; 9; 10; 11; 12; 13; 14; 15; 16]) =
      Ok id /\
    parse id = Throw (Error message).
Proof.
  assert (H : In (cu "_") (js "a_b")) by (right; left; reflexivity).
  split; [reflexivity|]. split; [exact H|].
  exact (@underscore_in_prefix_breaks_parse (js "a_b") false 1700000000123
           (bytes_of [1; 2; 3; 4; 5; 6; 7; 8; 9; 10; 11; 12; 13; 14; 15; 16])
           eq_refl H).
Defined.

Example prefix_with_underscore :
  generate (Some (js "a_b")) false 1700000000123
    (bytes_of [1; 2; 3; 4; 5; 6; 7; 8; 9; 10; 11; 12; 13; 14; 15; 16]) =
    Ok (js "a_b_2YBXZHs6BlGX8pWZXyp2K5Eb2GG") /\
  parse (js "a_b_2YBXZHs6BlGX8pWZXyp2K5Eb2GG") =
    Throw (Error (js "Incorrect length: 29, expected 27 or 28")).
Proof. split; vm_compute; reflexivity. Qed.

(** Identifiers made with the same prefix and direction sort, as strings,
    by the 32-bit word stored for the time stamp, whatever the random
    bytes are. *)
Theorem identifiers_sort_by_time_word (prefix : option jsstring)
  (desc : bool) (t1 t2 : float) (rnd1 rnd2 : list Byte.byte)
  (id1 id2 : jsstring) :
  generate prefix desc t1 rnd1 = Ok id1 ->
  generate prefix desc t2 rnd2 = Ok id2 ->
  ToUint32 (toEpoch t1 desc) < ToUint32 (toEpoch t2 desc) ->
  string_lt id1 id2 = true.
Proof.
  intros H1 H2 Hlt.
  assert (L1 : (length rnd1 <= 16)%nat).
  { destruct (Nat.leb_spec (length rnd1) 16) as [L|L]; [exact L|].
    rewrite generate_overflow in H1 by exact L. discriminate. }
  assert (L2 : (length rnd2 <= 16)%nat).
  { destruct (Nat.leb_spec (length rnd2) 16) as [L|L]; [exact L|].
    rewrite generate_overflow in H2 by exact L. discriminate. }
  rewrite generate_value in H1, H2 by assumption.
  set (tail1 := rnd1 ++ repeat Byte.x00 (16 - length rnd1)) in *.
  set (tail2 := rnd2 ++ repeat Byte.x00 (16 - length rnd2)) in *.
  set (w1 := ToUint32 (toEpoch t1 desc)) in *.
  set (w2 := ToUint32 (toEpoch t2 desc)) in *.
  assert (id1 = (if truthy prefix then text_of prefix ++ js "_" else []) ++
                (if desc then js "z" else []) ++
                map symbol (numeral 62 27 (big_endian (be32 w1 ++ tail1))))
    as -> by congruence.
  assert (id2 = (if truthy prefix then text_of prefix ++ js "_" else []) ++
                (if desc then js "z" else []) ++
                map symbol (numeral 62 27 (big_endian (be32 w2 ++ tail2))))
    as -> by congruence.
  clear H1 H2. rewrite !string_lt_prefix.
  assert (T1 : length tail1 = 16%nat)
    by (unfold tail1; rewrite length_app, repeat_length; lia).
  assert (T2 : length tail2 = 16%nat)
    by (unfold tail2; rewrite length_app, repeat_length; lia).
  pose proof (ToUint32_range (toEpoch t1 desc)) as R1. fold w1 in R1.
  pose proof (ToUint32_range (toEpoch t2 desc)) as R2. fold w2 in R2.
  assert (V1 : length (be32 w1 ++ tail1) = 20%nat)
    by (rewrite length_app, T1; reflexivity).
  assert (V2 : length (be32 w2 ++ tail2) = 20%nat)
    by (rewrite length_app, T2; reflexivity).
  pose proof (fits_27_symbols _ V1) as F1.
  pose proof (fits_27_symbols _ V2) as F2.
  rewrite string_lt_numbers;
    [| rewrite !numeral_length; reflexivity
     | apply numeral_below; lia | apply numeral_below; lia].
  rewrite !number_numeral by lia.
  change (62 ^ Z.of_nat 27) with (62 ^ 27).
  rewrite !Z.mod_small by assumption.
  apply Z.ltb_lt. rewrite !big_endian_app, !big_endian_be32 by assumption.
  pose proof (big_endian_bounds tail1) as B1.
  pose proof (big_endian_bounds tail2) as B2.
  unfold zlength in *. rewrite T1, T2 in *.
  change (256 ^ Z.of_nat 16) with 340282366920938463463374607431768211456
    in *.
  lia.
Qed.

Lemma identifiers_sort_by_time_word_witness :
  generate None false 1700000000123 (repeat Byte.xff 16) =
    Ok (js "2YBXZPdGJRu8nIleNVZxG7dMkzX") /\
  generate None false 1700000001123 (repeat Byte.x00 16) =
    Ok (js "2YBXZPdGJRu8nIleNVZxG7dMkzY") /\
  ToUint32 (toEpoch 1700000000123 false) <
    ToUint32 (toEpoch 1700000001123 false) /\
  string_lt (js "2YBXZPdGJRu8nIleNVZxG7dMkzX") (js "2YBXZPdGJRu8nIleNVZxG7dMkzY") =
    true.
Proof.
  assert (H1 : generate None false 1700000000123 (repeat Byte.xff 16) =
               Ok (js "2YBXZPdGJRu8nIleNVZxG7dMkzX"))
    by (vm_compute; reflexivity).
  assert (H2 : generate None false 1700000001123 (repeat Byte.x00 16) =
               Ok (js "2YBXZPdGJRu8nIleNVZxG7dMkzY"))
    by (vm_compute; reflexivity).
  assert (H3 : ToUint32 (toEpoch 1700000000123 false) <
               ToUint32 (toEpoch 1700000001123 false))
    by (vm_compute; reflexivity).
  split; [exact H1|]. split; [exact H2|]. split; [exact H3|].
  exact (identifiers_sort_by_time_word _ _ _ _ _ _ H1 H2 H3).
Defined.

End KsuidProperties.

Module RunFacts.
Import RegexFacts.

(** ** Matching literal text and runs of a class *)

(** What may follow a greedy run of [p]: nothing, or a unit outside [p]. *)
Lemma lit_match l s c k : rmatch (Lit l) (map cu l ++ s) c k = k s c.
Proof.
  induction l as [|a l IH]; [reflexivity|].
  cbn [Lit map app rmatch Chr]. unfold is_char. rewrite N.eqb_refl.
  apply IH.
Qed.

Lemma lit_mismatch l r s c k :
  starts_with (map cu l) s = false -> rmatch (Seq (Lit l) r) s c k = None.
Proof.
  revert s. induction l as [|a l IH]; intros s H; [discriminate|].
  cbn [rmatch Lit Chr]. destruct s as [|x s]; [reflexivity|].
  cbn [map starts_with] in H. unfold is_char.
  rewrite N.eqb_sym. destruct (N.eqb (cu a) x); [|reflexivity].
  cbn [andb] in H. specialize (IH s H). cbn [rmatch] in IH. exact IH.
Qed.

Lemma class_cons p a s c k :
  rmatch (Class p) (a :: s) c k = if p a then k s c else None.
Proof. reflexivity. Qed.

Lemma star_run p run rest c k x :
  forallb p run = true ->
  match rest with [] => True | y :: _ => p y = false end ->
  k rest c = Some x ->
  rmatch (Star (Class p)) (run ++ rest) c k = Some x.
Proof.
  intros Hrun Hrest Hk. induction run as [|a run IH].
  - rewrite star_unfold. cbn [app].
    destruct rest as [|y rest]; [exact Hk|].
    rewrite class_cons, Hrest. exact Hk.
  - cbn [forallb] in Hrun. apply andb_true_iff in Hrun.
    destruct Hrun as [Ha Hrun].
    rewrite star_unfold. cbn [app]. rewrite class_cons, Ha.
    assert (E : (length (run ++ rest) <? length (a :: run ++ rest)) = true)
      by (apply Nat.ltb_lt; cbn [length]; lia).
    rewrite E, (IH Hrun). reflexivity.
Qed.

Lemma group_run n p run rest c k x :
  run <> [] -> forallb p run = true ->
  match rest with [] => True | y :: _ => p y = false end ->
  k rest ((n, run) :: c) = Some x ->
  rmatch (Group n (Plus (Class p))) (run ++ rest) c k = Some x.
Proof.
  intros Hne Hrun Hrest Hk. destruct run as [|a run]; [contradiction|].
  cbn [forallb] in Hrun. apply andb_true_iff in Hrun.
  destruct Hrun as [Ha Hrun].
  unfold Plus. cbn [app].
  change (rmatch (Group n (Seq (Class p) (Star (Class p))))
            (a :: run ++ rest) c k)
    with (rmatch (Class p) (a :: run ++ rest) c
            (fun s1 c1 =>
               rmatch (Star (Class p)) s1 c1
                 (fun s2 c2 =>
                    k s2 ((n, firstn (length (a :: run ++ rest) - length s2)
                                (a :: run ++ rest)) :: c2)))).
  rewrite class_cons, Ha.
  apply star_run; try assumption.
  replace (length (a :: run ++ rest) - length rest) with (length (a :: run))
    by (cbn [length]; rewrite length_app; lia).
  change (a :: run ++ rest) with ((a :: run) ++ rest).
  rewrite firstn_app, Nat.sub_diag, firstn_all. cbn [firstn].
  rewrite app_nil_r. exact Hk.
Qed.

(** ** A pattern that is one class *)

Lemma search_class p s i :
  search (Class p) s i =
  match s with
  | [] => None
  | c :: t =>
      if p c then Some (mkMatch i [c] []) else search (Class p) t (S i)
  end.
Proof.
  destruct s as [|c t]; [reflexivity|].
  cbn [search]. unfold match_here. cbn [rmatch].
  destruct (p c); [|reflexivity].
  replace (length (c :: t) - length t) with 1 by (cbn [length]; lia).
  reflexivity.
Qed.

Lemma search_class_some p : forall s i m,
  search (Class p) s i = Some m ->
  exists pre c post,
    s = pre ++ c :: post /\ forallb (fun x => negb (p x)) pre = true /\
    p c = true /\ m = mkMatch (i + length pre) [c] [].
Proof.
  induction s as [|c t IH]; intros i m; rewrite search_class;
    [discriminate|].
  destruct (p c) eqn:Ep.
  - intros [= <-]. exists [], c, t. repeat split; try assumption.
    cbn [length]. rewrite Nat.add_0_r. reflexivity.
  - intros H. destruct (IH _ _ H) as (pre & c' & post & -> & Hpre & Hc & ->).
    exists (c :: pre), c', post. repeat split; try assumption.
    + cbn [forallb]. rewrite Ep, Hpre. reflexivity.
    + cbn [length]. f_equal. lia.
Qed.

Lemma search_class_none p : forall s i,
  search (Class p) s i = None -> forallb (fun x => negb (p x)) s = true.
Proof.
  induction s as [|c t IH]; intros i; rewrite search_class;
    [reflexivity|].
  destruct (p c) eqn:Ep; [discriminate|].
  intros H. cbn [forallb]. rewrite Ep, (IH _ H). reflexivity.
Qed.

Lemma flat_map_outside (p : codeunit -> bool) (rep : jsstring) s :
  forallb (fun x => negb (p x)) s = true ->
  flat_map (fun c => if p c then rep else [c]) s = s.
Proof.
  induction s as [|c t IH]; [reflexivity|].
  cbn [forallb flat_map]. intros H. apply andb_true_iff in H.
  destruct H as [Hc Ht]. destruct (p c); [discriminate|].
  rewrite (IH Ht). reflexivity.
Qed.

(** Replacing every unit of a class: each such unit becomes the
    replacement text and the others stay. *)
Lemma replace_class p rep s :
  replace (Class p) rep s = flat_map (fun c => if p c then rep else [c]) s.
Proof.
  unfold replace.
  assert (H : forall fuel s, length s < fuel ->
              replace_loop fuel (Class p) rep s =
              flat_map (fun c => if p c then rep else [c]) s).
  { clear s. induction fuel as [|f IH]; intros s Hf; [lia|].
    cbn [replace_loop].
    destruct (search (Class p) s 0) as [m|] eqn:Es.
    - apply search_class_some in Es.
      destruct Es as (pre & c & post & -> & Hpre & Hc & ->).
      cbn [index matched match_end length Nat.add].
      rewrite firstn_app, Nat.sub_diag, firstn_all. cbn [firstn].
      rewrite app_nil_r.
      replace (length pre + 1) with (length pre + 1 + 0) by lia.
      rewrite skipn_app.
      rewrite skipn_all2 by lia.
      replace (length pre + 1 + 0 - length pre) with 1 by lia.
      cbn [app skipn].
      rewrite IH by (rewrite length_app in Hf; cbn [length] in Hf; lia).
      rewrite flat_map_app, (flat_map_outside p rep pre Hpre).
      cbn [flat_map]. rewrite Hc. reflexivity.
    - apply search_class_none in Es.
      symmetry. apply flat_map_outside. exact Es. }
  apply H. lia.
Qed.

End RunFacts.

Module CssColorFacts.
Import RegexFacts RunFacts Gradient CssColor.

Lemma seq_unfold r1 r2 s c k :
  rmatch (Seq r1 r2) s c k = rmatch r1 s c (fun s1 c1 => rmatch r2 s1 c1 k).
Proof. reflexivity. Qed.

Lemma chr_match a s c k : rmatch (Chr a) (cu a :: s) c k = k s c.
Proof.
  unfold Chr. rewrite class_cons. unfold is_char. rewrite N.eqb_refl.
  reflexivity.
Qed.

Lemma digit_not_space y : digit y = true -> is_space y = false.
Proof.
  unfold digit, is_space, in_range. cbn [cu N_of_ascii N_of_digits].
  intros H. apply andb_true_iff in H. destruct H as [H1 H2].
  apply N.leb_le in H1, H2.
  repeat match goal with
         | |- (_ || _)%bool = false => apply orb_false_iff; split
         | |- (_ && _)%bool = false => apply andb_false_iff
         | |- N.eqb _ _ = false => apply N.eqb_neq; lia
         end.
  - right. apply N.leb_gt. lia.
  - left. apply N.leb_gt. lia.
Qed.

Lemma digit_not_comma : digit (cu ",") = false.
Proof. reflexivity. Qed.

(** The three channels, from the first digit on. *)
Lemma channels_match d1 d2 d3 s2 s3 rest c k x :
  d1 <> [] -> d2 <> [] -> d3 <> [] ->
  forallb digit d1 = true -> forallb digit d2 = true ->
  forallb digit d3 = true ->
  forallb is_space s2 = true -> forallb is_space s3 = true ->
  match rest with [] => True | y :: _ => digit y = false end ->
  k rest ((3, d3) :: (2, d2) :: (1, d1) :: c) = Some x ->
  rmatch (seqs [Group 1 (Plus (Class digit)); Chr ","; ws;
                Group 2 (Plus (Class digit)); Chr ","; ws;
                Group 3 (Plus (Class digit))])
    (d1 ++ cu "," :: s2 ++ d2 ++ cu "," :: s3 ++ d3 ++ rest) c k = Some x.
Proof.
  intros N1 N2 N3 D1 D2 D3 S2 S3 Hrest Hk.
  cbn [seqs]. rewrite seq_unfold.
  apply group_run; [assumption | assumption | exact digit_not_comma |].
  rewrite seq_unfold, chr_match, seq_unfold. unfold ws.
  apply star_run; [assumption | |].
  { destruct d2 as [|y d2]; [contradiction|]. cbn [app].
    apply digit_not_space. cbn [forallb] in D2.
    apply andb_true_iff in D2. apply D2. }
  rewrite seq_unfold.
  apply group_run; [assumption | assumption | exact digit_not_comma |].
  rewrite seq_unfold, chr_match, seq_unfold.
  apply star_run; [assumption | |].
  { destruct d3 as [|y d3]; [contradiction|]. cbn [app].
    apply digit_not_space. cbn [forallb] in D3.
    apply andb_true_iff in D3. apply D3. }
  apply group_run; assumption.
Qed.

(** The whole pattern at the head of a colour. *)
Lemma rgbRe_match (alpha : bool) d1 d2 d3 s2 s3 rest c k x :
  d1 <> [] -> d2 <> [] -> d3 <> [] ->
  forallb digit d1 = true -> forallb digit d2 = true ->
  forallb digit d3 = true ->
  forallb is_space s2 = true -> forallb is_space s3 = true ->
  match rest with [] => True | y :: _ => digit y = false end ->
  k rest ((3, d3) :: (2, d2) :: (1, d1) :: c) = Some x ->
  rmatch rgbRe
    (js "rgb" ++ (if alpha then js "a" else []) ++ js "(" ++
     d1 ++ js "," ++ s2 ++ d2 ++ js "," ++ s3 ++ d3 ++ rest) c k = Some x.
Proof.
  intros N1 N2 N3 D1 D2 D3 S2 S3 Hrest Hk.
  pose proof (channels_match s2 s3 rest c k N1 N2 N3 D1 D2 D3 S2 S3 Hrest Hk)
    as H.
  unfold rgbRe.
  change (seqs (lit "rgb" :: Opt (Chr "a") :: Chr "(" :: ?l))
    with (Seq (lit "rgb") (Seq (Opt (Chr "a")) (Seq (Chr "(") (seqs l)))).
  unfold lit. rewrite seq_unfold.
  change (js "rgb") with (map cu (list_ascii_of_string "rgb")).
  rewrite lit_match, seq_unfold.
  change (js ",") with [cu ","]. change (js "(") with [cu "("].
  change (js "a") with [cu "a"].
  unfold Opt. destruct alpha; cbn [app].
  - change (rmatch (Or (Chr "a") Empty) ?s ?c ?k)
      with (match rmatch (Chr "a") s c k with
            | Some x => Some x
            | None => rmatch Empty s c k
            end).
    rewrite chr_match, seq_unfold, chr_match. cbv beta.
    rewrite H. reflexivity.
  - change (rmatch (Or (Chr "a") Empty) ?s ?c ?k)
      with (match rmatch (Chr "a") s c k with
            | Some x => Some x
            | None => rmatch Empty s c k
            end).
    unfold Chr at 1. rewrite class_cons.
    change (is_char "a" (cu "(")) with false. cbv iota.
    change (rmatch Empty ?s ?c ?k) with (k s c). cbv beta.
    rewrite seq_unfold, chr_match. cbv beta. exact H.
Qed.

Lemma search_absent l r : forall s i,
  includes (map cu l) s = false -> search (Seq (Lit l) r) s i = None.
Proof.
  induction s as [|y s IH]; intros i H; cbn [includes] in H;
    apply orb_false_iff in H; destruct H as [H1 H2];
    cbn [search]; unfold match_here;
    rewrite (@lit_mismatch l r _ [] (fun s' c => Some (s', c)) H1).
  - reflexivity.
  - apply IH. exact H2.
Qed.

End CssColorFacts.

Module CssColorProperties.
Import RegexFacts RunFacts Gradient CssColor CssColorFacts.

(** A colour that starts with [rgb(] or [rgba(], three runs of digits
    separated by a comma and any white space, and then anything that is
    not a digit: [cssRgbToPdfLib] calls [rgb] with the three numbers
    divided by 255, and ignores the rest (the alpha among it). *)
Theorem cssRgbToPdfLib_reads_channels (Colour : Type)
  (rgb : float -> float -> float -> Colour) (alpha : bool)
  (d1 d2 d3 s2 s3 rest : jsstring) :
  d1 <> [] -> d2 <> [] -> d3 <> [] ->
  forallb digit d1 = true -> forallb digit d2 = true ->
  forallb digit d3 = true ->
  forallb is_space s2 = true -> forallb is_space s3 = true ->
  match rest with [] => True | y :: _ => digit y = false end ->
  cssRgbToPdfLib rgb
    (js "rgb" ++ (if alpha then js "a" else []) ++ js "(" ++
     d1 ++ js "," ++ s2 ++ d2 ++ js "," ++ s3 ++ d3 ++ rest) =
  rgb (Number d1 / 255)%float (Number d2 / 255)%float
      (Number d3 / 255)%float.
Proof.
  intros N1 N2 N3 D1 D2 D3 S2 S3 Hrest.
  unfold cssRgbToPdfLib. set (color := js "rgb" ++ _).
  assert (H : match_here rgbRe color =
              Some (length color - length rest,
                    [(3, d3); (2, d2); (1, d1)])).
  { unfold match_here, color.
    erewrite (@rgbRe_match alpha d1 d2 d3 s2 s3 rest [] _
                (rest, [(3, d3); (2, d2); (1, d1)]));
      try assumption; reflexivity. }
  destruct color as [|y color'] eqn:Ec; [discriminate|].
  cbn [search]. rewrite H. reflexivity.
Qed.

Lemma cssRgbToPdfLib_reads_channels_witness :
  cssRgbToPdfLib rgb (js "rgba(0, 128, 255, 0.5)") =
  rgb (Number (js "0") / 255)%float (Number (js "128") / 255)%float
      (Number (js "255") / 255)%float.
Proof.
  apply (@cssRgbToPdfLib_reads_channels PdfColor rgb true (js "0") (js "128")
           (js "255") (js " ") (js " ") (js ", 0.5)"));
    try discriminate; reflexivity.
Defined.

(** A colour in which the text [rgb] does not occur (a named colour, a
    hexadecimal or [hsl()] one) gives [rgb(1, 1, 1)]. *)
Theorem cssRgbToPdfLib_falls_back_to_white (Colour : Type)
  (rgb : float -> float -> float -> Colour) (color : jsstring) :
  includes (js "rgb") color = false ->
  cssRgbToPdfLib rgb color = rgb 1%float 1%float 1%float.
Proof.
  intros H. unfold cssRgbToPdfLib, rgbRe.
  change (seqs (lit "rgb" :: ?l)) with (Seq (lit "rgb") (seqs l)).
  unfold lit. rewrite search_absent; [reflexivity|]. exact H.
Qed.

Lemma cssRgbToPdfLib_falls_back_to_white_witness :
  cssRgbToPdfLib rgb (js "hsl(120, 100%, 50%)") = rgb 1 1 1.
Proof.
  apply (@cssRgbToPdfLib_falls_back_to_white PdfColor rgb
           (js "hsl(120, 100%, 50%)")).
  reflexivity.
Defined.

(** The values for the colours the browser computes, and three inputs
    the pattern does not read as the author of the colour meant them:
    the space-separated syntax and a space before a comma give white, and
    a channel above 255 gives an argument above 1. *)
Example cssRgbToPdfLib_values :
  cssRgbToPdfLib rgb (js "rgb(255, 100, 50)") =
    rgb 1 0.39215686274509803 0.19607843137254902 /\
  cssRgbToPdfLib rgb (js "rgb(255 100 50)") = rgb 1 1 1 /\
  cssRgbToPdfLib rgb (js "rgb(1 , 2, 3)") = rgb 1 1 1 /\
  cssRgbToPdfLib rgb (js "rgb(300, 0, 0)") = rgb 1.1764705882352942 0 0.
Proof. repeat split; vm_compute; reflexivity. Qed.

End CssColorProperties.

Module LinkAnnotationProperties.
Import RegexFacts RunFacts LinkAnnotation.

(** A backslash becomes two backslashes, a quote a backslash and a quote,
    and every other unit stays. *)
Lemma escapedUrl_units url :
  escapedUrl url =
  flat_map (fun c => if is_char "\" c then js "\\"
                     else if is_char "'" c then js "\'"
                     else [c]) url.
Proof.
  unfold escapedUrl, Chr. rewrite !replace_class.
  induction url as [|c url IH]; [reflexivity|].
  cbn [flat_map]. rewrite flat_map_app, IH. f_equal.
  destruct (is_char "\" c) eqn:E1.
  - reflexivity.
  - cbn [flat_map]. rewrite app_nil_r. reflexivity.
Qed.

(** The action text is [app.launchURL('], the escaped URL, and
    [', true);]; and the escaped URL read as the inside of a single-quoted
    string literal is the URL again, the literal ending at the quote the
    function writes after it.  So no quote or backslash of the URL ends
    the literal early or escapes its closing quote.  A line break in the
    URL, which the function leaves as it is, is excluded. *)
Theorem launch_action_reads_back (url rest : jsstring) :
  Forall (fun c => c <> 10%N /\ c <> 13%N) url ->
  launchAction url = js "app.launchURL('" ++ escapedUrl url ++ js "', true);" /\
  read_literal (escapedUrl url ++ js "'" ++ rest) = Some (url, rest).
Proof.
  intros H. split; [reflexivity|].
  rewrite escapedUrl_units.
  change (js "'" ++ rest) with (cu "'" :: rest).
  set (units := fun c : codeunit => _).
  induction H as [|c url [H10 H13] _ IH].
  - reflexivity.
  - cbn [flat_map]. rewrite <- app_assoc. unfold units at 1.
    destruct (is_char "\" c) eqn:E1.
    + unfold is_char in E1. apply N.eqb_eq in E1. subst c.
      change (js "\\") with [cu "\"; cu "\"].
      cbn [app read_literal].
      change (is_char "'" (cu "\")) with false.
      change (is_char "\" (cu "\")) with true.
      cbn [orb]. cbv iota. rewrite IH. reflexivity.
    + destruct (is_char "'" c) eqn:E2.
      * unfold is_char in E2. apply N.eqb_eq in E2. subst c.
        change (js "\'") with [cu "\"; cu "'"].
        cbn [app read_literal].
        change (is_char "'" (cu "\")) with false.
        change (is_char "\" (cu "\")) with true.
        change (is_char "\" (cu "'")) with false.
        change (is_char "'" (cu "'")) with true.
        cbn [orb]. cbv iota. rewrite IH. reflexivity.
      * cbn [app read_literal]. rewrite E1, E2.
        apply N.eqb_neq in H10, H13. rewrite H10, H13. cbn [orb].
        rewrite IH. reflexivity.
Qed.

Lemma launch_action_reads_back_witness :
  Forall (fun c => c <> 10%N /\ c <> 13%N) (js "https://a.b/c'd\e") /\
  launchAction (js "https://a.b/c'd\e") =
    js "app.launchURL('" ++ escapedUrl (js "https://a.b/c'd\e") ++ js "', true);" /\
  read_literal (escapedUrl (js "https://a.b/c'd\e") ++ js "'" ++ js ", true);") =
    Some (js "https://a.b/c'd\e", js ", true);").
Proof.
  assert (H : Forall (fun c => c <> 10%N /\ c <> 13%N) (js "https://a.b/c'd\e"))
    by (repeat constructor; discriminate).
  split; [exact H|].
  exact (launch_action_reads_back (js ", true);") H).
Defined.

Example launch_action_text :
  launchAction (js "https://a.b/c'd\e") =
  js "app.launchURL('https://a.b/c\'d\\e', true);".
Proof. vm_compute. reflexivity. Qed.

End LinkAnnotationProperties.

Module ArrayFacts.
Import Png PngFacts StreamFacts Base62Facts.
Open Scope Z_scope.

(** ** Counting loops *)

Lemma fold_seq_invariant (St : Type) (f : St -> Z -> St)
  (P : Z -> St -> Prop) (n : Z) :
  (forall x s, 0 <= x < n -> P x s -> P (x + 1) (f s x)) ->
  forall len a s,
    Z.of_nat a + Z.of_nat len <= n -> P (Z.of_nat a) s ->
    P (Z.of_nat a + Z.of_nat len)
      (fold_left f (map Z.of_nat (seq a len)) s).
Proof.
  intros Hstep. induction len as [|len IH]; intros a s Hn Hs.
  - cbn [seq map fold_left]. rewrite Z.add_0_r. exact Hs.
  - cbn [seq map fold_left].
    replace (Z.of_nat a + Z.of_nat (S len))
      with (Z.of_nat (S a) + Z.of_nat len) by lia.
    apply IH; [lia|].
    replace (Z.of_nat (S a)) with (Z.of_nat a + 1) by lia.
    apply Hstep; [lia | exact Hs].
Qed.

(** A loop [for (x = 0; x < n; x++)] keeps an invariant that every round
    keeps. *)
Lemma fold_range_invariant (St : Type) (f : St -> Z -> St)
  (P : Z -> St -> Prop) (n : Z) (init : St) :
  0 <= n -> P 0 init ->
  (forall x s, 0 <= x < n -> P x s -> P (x + 1) (f s x)) ->
  P n (fold_left f (range n) init).
Proof.
  intros Hn H0 Hstep. unfold range.
  pose proof (@fold_seq_invariant St f P n Hstep (Z.to_nat n) 0%nat init
                ltac:(lia) H0) as H.
  replace (Z.of_nat 0 + Z.of_nat (Z.to_nat n)) with n in H by lia.
  exact H.
Qed.

(** ** Reading by index *)

Lemma zget_nth_error (A : Type) (l : list A) : forall i,
  0 <= i -> zget l i = nth_error l (Z.to_nat i).
Proof.
  induction l as [|x l IH]; intros i Hi.
  - cbn [zget]. destruct (Z.to_nat i); reflexivity.
  - cbn [zget].
    destruct (i <? 0) eqn:E1; [apply Z.ltb_lt in E1; lia|].
    destruct (i =? 0) eqn:E2.
    + apply Z.eqb_eq in E2. subst i. reflexivity.
    + apply Z.eqb_neq in E2. rewrite IH by lia.
      replace (Z.to_nat i) with (S (Z.to_nat (i - 1))) by lia.
      reflexivity.
Qed.

Lemma zget_negative (A : Type) (l : list A) i : i < 0 -> zget l i = None.
Proof.
  intros Hi. destruct l as [|x l]; [reflexivity|].
  cbn [zget]. destruct (i <? 0) eqn:E; [reflexivity|].
  apply Z.ltb_ge in E. lia.
Qed.

Lemma zget_map_range (g : Z -> Z) n x :
  0 <= x < n -> zget (map g (range n)) x = Some (g x).
Proof.
  intros Hx. rewrite zget_nth_error by lia. unfold range.
  rewrite map_map, nth_error_map, nth_error_seq.
  destruct (Z.to_nat x <? Z.to_nat n)%nat eqn:E.
  - cbn [option_map]. f_equal. f_equal. lia.
  - apply Nat.ltb_ge in E. lia.
Qed.

(** Rows of one length laid end to end: the unit [j] of row [y]. *)
Lemma zget_concat (rows : list (list Z)) (len : Z) :
  Forall (fun row => zlength row = len) rows ->
  forall y j, 0 <= y -> 0 <= j < len ->
    zget (concat rows) (y * len + j) =
    match nth_error rows (Z.to_nat y) with
    | Some row => zget row j
    | None => None
    end.
Proof.
  intros H. induction H as [|row rows Hrow _ IH]; intros y j Hy Hj.
  - cbn [concat]. destruct (Z.to_nat y); reflexivity.
  - cbn [concat]. destruct (Z.eq_dec y 0) as [->|Hy0].
    + cbn [Z.to_nat nth_error]. rewrite Z.mul_0_l, Z.add_0_l.
      rewrite !zget_nth_error by lia.
      apply nth_error_app1. unfold zlength in Hrow. lia.
    + replace (y * len + j) with (zlength row + ((y - 1) * len + j))
        by (rewrite Hrow; ring).
      rewrite zget_app by nia.
      rewrite IH by lia.
      replace (Z.to_nat y) with (S (Z.to_nat (y - 1))) by lia.
      reflexivity.
Qed.

(** ** An array filled from the front *)

Lemma px_filled (image : list Z) k j :
  0 <= j < Z.of_nat k -> (k <= length image)%nat ->
  px (firstn k image ++ repeat 0 (length image - k)) j = px image j.
Proof.
  intros Hj Hk. unfold px. rewrite !zget_nth_error by lia.
  rewrite nth_error_app1 by (rewrite length_firstn; lia).
  rewrite nth_error_firstn.
  destruct (Z.to_nat j <? k)%nat eqn:E; [reflexivity|].
  apply Nat.ltb_ge in E. lia.
Qed.

Lemma fill_next (image : list Z) k :
  (k < length image)%nat ->
  zset (firstn k image ++ repeat 0 (length image - k)) (Z.of_nat k)
    (px image (Z.of_nat k)) =
  firstn (S k) image ++ repeat 0 (length image - S k).
Proof.
  intros Hk.
  replace (length image - k)%nat with (S (length image - S k)) by lia.
  cbn [repeat].
  replace (Z.of_nat k) with (zlength (firstn k image)) at 1
    by (unfold zlength; rewrite length_firstn; lia).
  rewrite zset_at.
  unfold px. rewrite zget_nth_error by lia. rewrite Nat2Z.id.
  destruct (nth_error image k) as [v|] eqn:E.
  - apply nth_error_split in E. destruct E as (l1 & l2 & -> & <-).
    rewrite (firstn_app (length l1) l1 (v :: l2)).
    rewrite Nat.sub_diag, firstn_all, firstn_O, app_nil_r.
    replace (S (length l1)) with (length l1 + 1)%nat by lia.
    rewrite (firstn_app (length l1 + 1) l1 (v :: l2)).
    replace (length l1 + 1 - length l1)%nat with 1%nat by lia.
    rewrite firstn_all2 by lia. cbn [firstn].
    rewrite <- app_assoc. reflexivity.
  - apply nth_error_None in E. lia.
Qed.

End ArrayFacts.

Module DefilterFacts.
Import Png PngFacts StreamFacts Base62Facts ArrayFacts PngFilter.
Open Scope Z_scope.

(** ** Undoing one byte *)

Lemma land_255 z : Z.land z 255 = z mod 256.
Proof. change 255 with (Z.ones 8). rewrite Z.land_ones by lia. reflexivity. Qed.

Lemma add_mask_undoes o p :
  0 <= o <= 255 -> add_mask (Some ((o - p) mod 256)) p = o.
Proof.
  intros Ho. cbn [add_mask]. rewrite land_255.
  rewrite Z.add_mod_idemp_l by lia.
  replace (o - p + p) with o by lia. apply Z.mod_small. lia.
Qed.

Lemma store_undoes o : 0 <= o <= 255 -> store (Some ((o - 0) mod 256)) = o.
Proof.
  intros Ho. cbn [store]. rewrite Z.sub_0_r. apply Z.mod_small. lia.
Qed.

(** ** The rows of the filtered image *)

Lemma nth_combine_range (types : list Z) : forall a y ft,
  nth_error types y = Some ft ->
  nth_error (combine (map Z.of_nat (seq a (length types))) types) y =
  Some (Z.of_nat (a + y), ft).
Proof.
  induction types as [|t types IH]; intros a y ft H.
  - destruct y; discriminate.
  - destruct y as [|y]; cbn [length seq map combine nth_error] in *.
    + rewrite Nat.add_0_r. congruence.
    + rewrite (IH (S a) y ft H). f_equal. f_equal. lia.
Qed.

Section Rows.

Variables (image : list Z) (channels stride : Z) (types : list Z).
Hypothesis Hstride : 0 <= stride.

Lemma rows_length :
  Forall (fun row => zlength row = stride + 1)
    (map (fun p => filter_row image channels stride (fst p) (snd p))
       (combine (range (zlength types)) types)).
Proof.
  apply Forall_map. apply Forall_forall. intros p _.
  unfold filter_row, zlength, range. cbn [length].
  rewrite !length_map, length_seq. lia.
Qed.

Lemma filter_type_at y ft :
  0 <= y -> nth_error types (Z.to_nat y) = Some ft ->
  zget (filter_image image channels stride types) (y * (stride + 1)) =
  Some ft.
Proof.
  intros Hy Hft. unfold filter_image.
  replace (y * (stride + 1)) with (y * (stride + 1) + 0) by lia.
  rewrite (zget_concat rows_length) by lia.
  rewrite nth_error_map. unfold range, zlength. rewrite Nat2Z.id.
  rewrite (nth_combine_range types 0 _ Hft). reflexivity.
Qed.

Lemma filtered_byte_at y x ft :
  0 <= y -> 0 <= x < stride ->
  nth_error types (Z.to_nat y) = Some ft ->
  zget (filter_image image channels stride types)
    (y * (stride + 1) + 1 + x) =
  Some (filter_byte image channels stride ft y x).
Proof.
  intros Hy Hx Hft. unfold filter_image.
  replace (y * (stride + 1) + 1 + x) with (y * (stride + 1) + (1 + x))
    by lia.
  rewrite (zget_concat rows_length) by lia.
  rewrite nth_error_map. unfold range at 1, zlength. rewrite Nat2Z.id.
  rewrite (nth_combine_range types 0 _ Hft).
  cbn [option_map fst snd Nat.add]. rewrite Z2Nat.id by lia.
  unfold filter_row. cbn [zget].
  destruct (1 + x <? 0) eqn:E1; [apply Z.ltb_lt in E1; lia|].
  destruct (1 + x =? 0) eqn:E2; [apply Z.eqb_eq in E2; lia|].
  replace (1 + x - 1) with x by lia.
  apply zget_map_range. exact Hx.
Qed.

End Rows.

(** ** The reconstruction, byte by byte *)

Section Reconstruction.

Variables (image : list Z) (channels stride : Z) (types : list Z).
Hypothesis Hchannels : 0 < channels.
Hypothesis Hstride : 0 <= stride.
Hypothesis Hlength : zlength image = zlength types * stride.
Hypothesis Hbytes : Forall (fun v => 0 <= v <= 255) image.

Lemma image_byte k : 0 <= px image k <= 255.
Proof.
  unfold px. destruct (Z_lt_dec k 0) as [Hk|Hk].
  - rewrite zget_negative by exact Hk. lia.
  - rewrite zget_nth_error by lia.
    destruct (nth_error image (Z.to_nat k)) as [v|] eqn:E; [|lia].
    apply nth_error_In in E. rewrite Forall_forall in Hbytes.
    apply Hbytes. exact E.
Qed.

(** One round of the inner loop, with the bytes before [(y, x)]
    reconstructed already, reconstructs the byte at [(y, x)]. *)
Lemma defilter_byte_step y x ft :
  0 <= y -> 0 <= x < stride ->
  nth_error types (Z.to_nat y) = Some ft ->
  defilter_byte (filter_image image channels stride types) channels stride
    y (firstn (Z.to_nat (y * stride + x)) image ++
       repeat 0 (length image - Z.to_nat (y * stride + x))) x =
  firstn (Z.to_nat (y * stride + x + 1)) image ++
  repeat 0 (length image - Z.to_nat (y * stride + x + 1)).
Proof.
  intros Hy Hx Hft.
  assert (Hrow : (Z.to_nat y < length types)%nat)
    by (apply nth_error_Some; congruence).
  assert (Hk : 0 <= y * stride + x < zlength image).
  { rewrite Hlength. unfold zlength. split; [nia|].
    assert (y + 1 <= Z.of_nat (length types)) by lia. nia. }
  unfold zlength in Hk.
  unfold defilter_byte. cbv zeta.
  rewrite (filter_type_at image channels types Hstride Hy Hft).
  rewrite (filtered_byte_at image channels types Hstride Hy Hx Hft).
  set (pixels := firstn _ image ++ _).
  assert (Ea : (if channels <=? x
                then px pixels (y * stride + x - channels) else 0) =
               left_of image channels stride y x).
  { unfold left_of. destruct (channels <=? x) eqn:E; [|reflexivity].
    apply Z.leb_le in E. apply px_filled; [nia | lia]. }
  assert (Eb : (if 0 <? y then px pixels (y * stride - stride + x) else 0) =
               above image stride y x).
  { unfold above. destruct (0 <? y) eqn:E; [|reflexivity].
    apply Z.ltb_lt in E.
    replace ((y - 1) * stride + x) with (y * stride - stride + x) by ring.
    apply px_filled; [nia | lia]. }
  assert (Ec : (if ((channels <=? x) && (0 <? y))%bool
                then px pixels (y * stride - stride + x - channels) else 0) =
               above_left image channels stride y x).
  { unfold above_left.
    destruct ((channels <=? x) && (0 <? y))%bool eqn:E; [|reflexivity].
    apply andb_true_iff in E. destruct E as [E1 E2].
    apply Z.leb_le in E1. apply Z.ltb_lt in E2.
    replace ((y - 1) * stride + x - channels)
      with (y * stride - stride + x - channels) by ring.
    apply px_filled; [nia | lia]. }
  rewrite Ea, Eb, Ec. unfold filter_byte.
  set (a := left_of image channels stride y x).
  set (b := above image stride y x).
  set (c := above_left image channels stride y x).
  pose proof (image_byte (y * stride + x)) as Ho.
  set (o := px image (y * stride + x)) in *.
  assert (Hval :
    match Some ft with
    | Some 0 => store (Some ((o - predictor ft a b c) mod 256))
    | Some 1 => add_mask (Some ((o - predictor ft a b c) mod 256)) a
    | Some 2 => add_mask (Some ((o - predictor ft a b c) mod 256)) b
    | Some 3 =>
        add_mask (Some ((o - predictor ft a b c) mod 256))
          (Z.shiftr (a + b) 1)
    | Some 4 =>
        add_mask (Some ((o - predictor ft a b c) mod 256)) (paeth a b c)
    | _ => store (Some ((o - predictor ft a b c) mod 256))
    end = o).
  { rewrite Z.shiftr_div_pow2 by lia. change (2 ^ 1) with 2.
    destruct ft as [|p|p];
      [| destruct p as [[p|p|]|[p|[p|p|]|]|] |];
      cbn [predictor];
      first [apply store_undoes; exact Ho | apply add_mask_undoes; exact Ho]. }
  rewrite Hval. unfold pixels, o.
  pose proof (@fill_next image (Z.to_nat (y * stride + x)) ltac:(lia))
    as Hfill.
  rewrite !Z2Nat.id in Hfill by lia. rewrite Hfill.
  replace (Z.to_nat (y * stride + x + 1)) with (S (Z.to_nat (y * stride + x)))
    by lia.
  reflexivity.
Qed.

Lemma defilter_row_step y :
  0 <= y < zlength types ->
  defilter_row (filter_image image channels stride types) channels stride
    (firstn (Z.to_nat (y * stride)) image ++
     repeat 0 (length image - Z.to_nat (y * stride))) y =
  firstn (Z.to_nat ((y + 1) * stride)) image ++
  repeat 0 (length image - Z.to_nat ((y + 1) * stride)).
Proof.
  intros Hy. unfold defilter_row.
  destruct (nth_error types (Z.to_nat y)) as [ft|] eqn:Hft.
  2:{ apply nth_error_None in Hft. unfold zlength in Hy. lia. }
  pose proof (@fold_range_invariant (list Z)
                (defilter_byte (filter_image image channels stride types)
                   channels stride y)
                (fun x pixels =>
                   pixels =
                   firstn (Z.to_nat (y * stride + x)) image ++
                   repeat 0 (length image - Z.to_nat (y * stride + x)))
                stride
                (firstn (Z.to_nat (y * stride)) image ++
                 repeat 0 (length image - Z.to_nat (y * stride)))
                Hstride) as H.
  cbv beta in H. rewrite H.
  - replace (y * stride + stride) with ((y + 1) * stride) by ring.
    reflexivity.
  - rewrite Z.add_0_r. reflexivity.
  - intros x pixels Hx ->.
    replace (y * stride + (x + 1)) with (y * stride + x + 1) by ring.
    apply (@defilter_byte_step y x ft); [lia | lia | exact Hft].
Qed.

End Reconstruction.

End DefilterFacts.

Module PngFilterProperties.
Import Png PngFacts StreamFacts Base62Facts ArrayFacts PngFilter DefilterFacts.
Open Scope Z_scope.

(** The reconstruction undoes the five filters of the PNG format: for an
    image of bytes, [stride] bytes a row, and any choice of a filter type
    for each row, what [defilter] makes of the filtered rows is the image.
    (A type above 4 is treated, by both, as type 0.) *)
Theorem defilter_inverts_the_filters (image : list Z) (channels stride : Z)
  (types : list Z) :
  0 < channels -> 0 <= stride ->
  zlength image = zlength types * stride ->
  Forall (fun v => 0 <= v <= 255) image ->
  defilter (filter_image image channels stride types) channels stride
    (zlength types) = image.
Proof.
  intros Hchannels Hstride Hlength Hbytes. unfold defilter.
  pose proof (zlength_nonneg types) as Ht.
  pose proof (@fold_range_invariant (list Z)
                (defilter_row (filter_image image channels stride types)
                   channels stride)
                (fun y pixels =>
                   pixels =
                   firstn (Z.to_nat (y * stride)) image ++
                   repeat 0 (length image - Z.to_nat (y * stride)))
                (zlength types)
                (repeat 0 (Z.to_nat (zlength types * stride)))
                Ht) as H.
  cbv beta in H. rewrite H.
  - rewrite <- Hlength. unfold zlength. rewrite Nat2Z.id.
    rewrite firstn_all, Nat.sub_diag. apply app_nil_r.
  - rewrite Z.mul_0_l. cbn [Z.to_nat firstn app].
    rewrite <- Hlength. unfold zlength. rewrite Nat2Z.id, Nat.sub_0_r.
    reflexivity.
  - intros y pixels Hy ->. apply defilter_row_step; assumption.
Qed.

(** A 2 by 2 image of RGB pixels, its first row filtered with Paeth and
    its second with Average. *)
Lemma defilter_inverts_the_filters_witness :
  0 < 3 /\ 0 <= 6 /\
  zlength [200; 20; 20; 210; 30; 25; 190; 25; 15; 100; 200; 250] =
    zlength [4; 3] * 6 /\
  Forall (fun v => 0 <= v <= 255)
    [200; 20; 20; 210; 30; 25; 190; 25; 15; 100; 200; 250] /\
  defilter
    (filter_image [200; 20; 20; 210; 30; 25; 190; 25; 15; 100; 200; 250]
       3 6 [4; 3]) 3 6 (zlength [4; 3]) =
  [200; 20; 20; 210; 30; 25; 190; 25; 15; 100; 200; 250].
Proof.
  assert (H : Forall (fun v => 0 <= v <= 255)
                [200; 20; 20; 210; 30; 25; 190; 25; 15; 100; 200; 250])
    by (repeat constructor; lia).
  split; [lia|]. split; [lia|]. split; [reflexivity|]. split; [exact H|].
  exact (@defilter_inverts_the_filters
           [200; 20; 20; 210; 30; 25; 190; 25; 15; 100; 200; 250] 3 6 [4; 3]
           ltac:(lia) ltac:(lia) eq_refl H).
Defined.

Example filtered_rows :
  filter_image [200; 20; 20; 210; 30; 25; 190; 25; 15; 100; 200; 250]
    3 6 [4; 3] =
  [4; 200; 20; 20; 10; 10; 5; 3; 90; 15; 5; 156; 173; 230].
Proof. vm_compute. reflexivity. Qed.

End PngFilterProperties.

Module SamplingFacts.
Import Png PngFacts StreamFacts Base62Facts ArrayFacts PngFilter DefilterFacts
       RoundFacts.
Open Scope Z_scope.

(** ** Bytes stay bytes *)

Lemma px_byte pixels i :
  Forall (fun v => 0 <= v <= 255) pixels -> 0 <= px pixels i <= 255.
Proof.
  intros H. unfold px. destruct (Z_lt_dec i 0) as [Hi|Hi].
  - rewrite zget_negative by exact Hi. lia.
  - rewrite zget_nth_error by lia.
    destruct (nth_error pixels (Z.to_nat i)) as [v|] eqn:E; [|lia].
    apply nth_error_In in E. rewrite Forall_forall in H. apply H. exact E.
Qed.

Lemma zset_bytes (pixels : list Z) v : forall i,
  Forall (fun v => 0 <= v <= 255) pixels -> 0 <= v <= 255 ->
  Forall (fun v => 0 <= v <= 255) (zset pixels i v).
Proof.
  induction pixels as [|x pixels IH]; intros i H Hv; [constructor|].
  apply Forall_cons_iff in H. destruct H as [Hx H].
  cbn [zset]. destruct (i <? 0); [constructor; assumption|].
  destruct (i =? 0); constructor; try assumption.
  apply IH; assumption.
Qed.

Lemma add_mask_byte rawByte p : 0 <= add_mask rawByte p <= 255.
Proof.
  destruct rawByte as [v|]; cbn [add_mask]; [|lia].
  rewrite land_255. pose proof (Z.mod_pos_bound (v + p) 256). lia.
Qed.

Lemma store_byte (raw : list Z) i :
  Forall (fun v => 0 <= v <= 255) raw -> 0 <= store (zget raw i) <= 255.
Proof.
  intros H. pose proof (@px_byte raw i H) as Hp. unfold px in Hp.
  destruct (zget raw i); cbn [store]; exact Hp.
Qed.

Lemma defilter_byte_bytes raw channels stride y pixels x :
  Forall (fun v => 0 <= v <= 255) raw ->
  Forall (fun v => 0 <= v <= 255) pixels ->
  Forall (fun v => 0 <= v <= 255)
    (defilter_byte raw channels stride y pixels x).
Proof.
  intros Hraw Hpixels. unfold defilter_byte. cbv zeta.
  apply zset_bytes; [exact Hpixels|].
  pose proof (@store_byte raw (y * (stride + 1) + 1 + x) Hraw) as Hs.
  destruct (zget raw (y * (stride + 1))) as [ft|]; [|exact Hs].
  destruct ft as [|p|p];
    [| destruct p as [[p|p|]|[p|[p|p|]|]|] |];
    first [exact Hs | apply add_mask_byte].
Qed.

Lemma defilter_bytes raw channels stride height :
  Forall (fun v => 0 <= v <= 255) raw ->
  Forall (fun v => 0 <= v <= 255) (defilter raw channels stride height).
Proof.
  intros Hraw. unfold defilter.
  assert (Hfold : forall (A : Type) (f : list Z -> A -> list Z) l init,
             (forall s a, Forall (fun v => 0 <= v <= 255) s ->
                          Forall (fun v => 0 <= v <= 255) (f s a)) ->
             Forall (fun v => 0 <= v <= 255) init ->
             Forall (fun v => 0 <= v <= 255) (fold_left f l init)).
  { intros A f l. induction l as [|a l IH]; intros init Hf Hi; [exact Hi|].
    cbn [fold_left]. apply IH; [exact Hf | apply Hf; exact Hi]. }
  apply Hfold.
  - intros s y Hs. unfold defilter_row. apply Hfold; [|exact Hs].
    intros s' x Hs'. apply defilter_byte_bytes; assumption.
  - apply Forall_forall. intros v Hv. apply repeat_spec in Hv. subst v. cbv beta. lia.
Qed.

(** ** Quantising *)

Lemma quantize_bounds v :
  0 <= v <= 240 -> 0 <= quantize v <= 240 /\ quantize v mod 8 = 0.
Proof.
  intros Hv. unfold quantize. split.
  - pose proof (Z.div_mod (v + 4) 8 ltac:(lia)).
    pose proof (Z.mod_pos_bound (v + 4) 8 ltac:(lia)).
    assert ((v + 4) / 8 < 31) by (apply Z.div_lt_upper_bound; lia).
    assert (0 <= (v + 4) / 8) by (apply Z.div_pos; lia). lia.
  - apply Z.mod_mul. lia.
Qed.

Lemma quantize_monotone u v : u <= v -> quantize u <= quantize v.
Proof.
  intros H. unfold quantize.
  assert ((u + 4) / 8 <= (v + 4) / 8) by (apply Z.div_le_mono; lia). lia.
Qed.

Lemma quantize_max u v : quantize (Z.max u v) = Z.max (quantize u) (quantize v).
Proof.
  destruct (Z.le_ge_cases u v) as [H|H].
  - pose proof (quantize_monotone H). rewrite !Z.max_r by lia. reflexivity.
  - pose proof (quantize_monotone H). rewrite !Z.max_l by lia. reflexivity.
Qed.

Lemma quantize_min u v : quantize (Z.min u v) = Z.min (quantize u) (quantize v).
Proof.
  destruct (Z.le_ge_cases u v) as [H|H].
  - pose proof (quantize_monotone H). rewrite !Z.min_l by lia. reflexivity.
  - pose proof (quantize_monotone H). rewrite !Z.min_r by lia. reflexivity.
Qed.

Lemma quantize_apart u v : u + 30 <= v -> quantize u + 24 <= quantize v.
Proof.
  intros H. unfold quantize.
  assert ((u + 4) / 8 + 3 <= (v + 4) / 8).
  { rewrite <- Z.div_add by lia. apply Z.div_le_mono; lia. }
  lia.
Qed.

Lemma quantize_40 v : 40 <= v -> 40 <= quantize v.
Proof. intros H. apply (quantize_monotone H). Qed.

(** A pixel of bytes that passes the grey, black and white tests is
    quantised to a vivid colour. *)
Lemma quantized_vivid vr vg vb :
  0 <= vr -> 0 <= vg -> 0 <= vb ->
  ((Z.max (Z.max vr vg) vb - Z.min (Z.min vr vg) vb <? 30) ||
   (Z.max (Z.max vr vg) vb <? 40) || (240 <? Z.max (Z.max vr vg) vb)) = false ->
  vivid (mkRGB (quantize vr) (quantize vg) (quantize vb)).
Proof.
  intros Hr Hg Hb H.
  apply orb_false_iff in H. destruct H as [H H3].
  apply orb_false_iff in H. destruct H as [H1 H2].
  apply Z.ltb_ge in H1, H2, H3.
  unfold vivid. cbn [r g b]. cbv zeta.
  rewrite <- !quantize_max, <- !quantize_min.
  assert (0 <= vr <= 240 /\ 0 <= vg <= 240 /\ 0 <= vb <= 240)
    as (Br & Bg & Bb) by lia.
  destruct (quantize_bounds Br) as [? ?].
  destruct (quantize_bounds Bg) as [? ?].
  destruct (quantize_bounds Bb) as [? ?].
  repeat split; try assumption; try lia.
  - apply quantize_40. lia.
  - pose proof (@quantize_apart (Z.min (Z.min vr vg) vb)
                  (Z.max (Z.max vr vg) vb) ltac:(lia)). lia.
Qed.

(** ** The buckets hold vivid colours, counted *)

Lemma bump_keeps (P Q : Entry -> Prop) k fresh m :
  Q fresh ->
  (forall e, P e -> Q e) ->
  (forall e, P e -> Q (mkEntry (er e) (eg e) (eb e) (count e + 1))) ->
  Forall (fun ke => P (snd ke)) m ->
  Forall (fun ke => Q (snd ke)) (bump k fresh m).
Proof.
  intros Hfresh Hweak Hnext H. induction H as [|[k' e] m He Hm IH];
    cbn [bump].
  - constructor; [exact Hfresh | constructor].
  - cbn [snd] in He. destruct (key_eqb k k'); constructor; cbn [snd].
    + apply Hnext. exact He.
    + apply Forall_forall. intros ke Hin. rewrite Forall_forall in Hm.
      apply Hweak. apply (Hm ke Hin).
    + apply Hweak. exact He.
    + exact IH.
Qed.

(** After a round every bucket holds a vivid colour, counted at least
    once and at most once more than before. *)
Lemma sample_keeps pixels channels buckets i n :
  Forall (fun v => 0 <= v <= 255) pixels -> 0 <= n ->
  Forall (fun ke => vivid (mkRGB (er (snd ke)) (eg (snd ke)) (eb (snd ke)))
                    /\ 1 <= count (snd ke) <= n) buckets ->
  Forall (fun ke => vivid (mkRGB (er (snd ke)) (eg (snd ke)) (eb (snd ke)))
                    /\ 1 <= count (snd ke) <= n + 1)
    (sample pixels channels buckets i).
Proof.
  intros Hp Hn H.
  assert (Hweak : Forall
            (fun ke => vivid (mkRGB (er (snd ke)) (eg (snd ke)) (eb (snd ke)))
                       /\ 1 <= count (snd ke) <= n + 1) buckets).
  { apply Forall_forall. intros ke Hin. rewrite Forall_forall in H.
    destruct (H ke Hin) as [Hv Hc]. split; [exact Hv | lia]. }
  unfold sample. cbv zeta.
  destruct (alpha_at pixels channels i <? 200); [exact Hweak|].
  destruct (_ || _ || _) eqn:E; [exact Hweak|].
  apply (@bump_keeps
           (fun e => vivid (mkRGB (er e) (eg e) (eb e)) /\ 1 <= count e <= n)
           (fun e => vivid (mkRGB (er e) (eg e) (eb e)) /\
                     1 <= count e <= n + 1)).
  - cbn [er eg eb count]. split; [|lia].
    apply quantized_vivid; try exact E; apply px_byte; exact Hp.
  - intros e [He Hc]. split; [exact He | lia].
  - intros e [He Hc]. cbn [er eg eb count]. split; [exact He | lia].
  - exact H.
Qed.

Lemma sample_loop_keeps pixels channels total step fuel :
  forall i buckets n,
  Forall (fun v => 0 <= v <= 255) pixels -> 0 <= n ->
  Forall (fun ke => vivid (mkRGB (er (snd ke)) (eg (snd ke)) (eb (snd ke)))
                    /\ 1 <= count (snd ke) <= n) buckets ->
  Forall (fun ke => vivid (mkRGB (er (snd ke)) (eg (snd ke)) (eb (snd ke)))
                    /\ 1 <= count (snd ke) <= n + Z.of_nat fuel)
    (sample_loop pixels channels fuel total step i buckets).
Proof.
  induction fuel as [|fuel IH]; intros i buckets n Hp Hn H.
  - replace (n + Z.of_nat 0) with n by lia.
    cbn [sample_loop]. destruct (i <? total); exact H.
  - cbn [sample_loop]. destruct (i <? total).
    + replace (n + Z.of_nat (S fuel)) with (n + 1 + Z.of_nat fuel) by lia.
      apply IH; [exact Hp | lia | apply sample_keeps; assumption].
    + apply Forall_forall. intros ke Hin. rewrite Forall_forall in H.
      destruct (H ke Hin) as [Hv Hc]. split; [exact Hv | lia].
Qed.

(** ** The dimensions read from the stream are not negative *)

Lemma chunk_step_dims a st st' :
  0 <= width st /\ 0 <= height st ->
  chunk_step a st = Ok (inl st') \/ chunk_step a st = Ok (inr st') ->
  0 <= width st' /\ 0 <= height st'.
Proof.
  intros Hst. unfold chunk_step.
  destruct (getUint32 a (offset st)) as [len|e];
    [|intros [H|H]; discriminate].
  cbn [bind]. destruct (list_eq_dec _ _ _).
  - destruct (getUint32 a (offset st + 8)) as [w|e1] eqn:Ew;
      [|intros [H|H]; discriminate].
    destruct (getUint32 a (offset st + 12)) as [h|e2] eqn:Eh;
      [|intros [H|H]; discriminate].
    apply getUint32_nonneg in Ew, Eh. cbn [bind].
    intros [H|H]; [|discriminate].
    injection H as <-. cbn [width height]. split; assumption.
  - destruct (list_eq_dec _ _ _).
    + intros [H|H]; [|discriminate].
      injection H as <-. cbn [width height]. exact Hst.
    + destruct (list_eq_dec _ _ _).
      * intros [H|H]; [discriminate|].
        assert (st' = st) as -> by congruence. exact Hst.
      * intros [H|H]; [|discriminate].
        injection H as <-. cbn [width height]. exact Hst.
Qed.

Lemma chunk_loop_dims a : forall fuel st st',
  0 <= width st /\ 0 <= height st ->
  chunk_loop a fuel st = Ok st' ->
  0 <= width st' /\ 0 <= height st'.
Proof.
  induction fuel as [|fuel IH]; intros st st' Hst; cbn [chunk_loop].
  - destruct (offset st <? _); intros H;
      (assert (st' = st) as -> by congruence); exact Hst.
  - destruct (offset st <? _).
    + destruct (chunk_step a st) as [[next|last]|e] eqn:E; cbn [bind].
      * apply IH. apply (@chunk_step_dims a st next Hst). left. exact E.
      * intros H. assert (st' = last) as -> by congruence.
        apply (@chunk_step_dims a st last Hst). right. exact E.
      * discriminate.
    + intros H. assert (st' = st) as -> by congruence. exact Hst.
Qed.

Lemma parseChunks_dims a st :
  parseChunks a = Ok st -> 0 <= width st /\ 0 <= height st.
Proof.
  apply chunk_loop_dims. cbn. lia.
Qed.

(** ** Scores *)

(** The saturation of a colour whose largest channel is above its
    smallest, both multiples of 8 up to 240, is a number that is not
    negative: the thirty-one by thirty-one cases, computed. *)
Lemma saturation_table :
  forallb (fun i => forallb (fun j =>
    if j <? i then
      match Prim2SF
              (let max := (Num.of_Z (8 * i) / 255)%float in
               let min := (Num.of_Z (8 * j) / 255)%float in
               let l := ((max + min) / 2)%float in
               ((max - min) / (1 - PrimFloat.abs (2 * l - 1)))%float) with
      | S754_finite false _ _ => true
      | _ => false
      end
    else true) (range 31)) (range 31) = true.
Proof. vm_compute. reflexivity. Qed.

Lemma minus_one_below v :
  Num.signed false (Prim2SF v) -> ((-1) <? v)%float = true.
Proof.
  intros H. rewrite ltb_spec. change (Prim2SF (-1)) with
    (S754_finite true 4503599627370496 (-52)).
  destruct (Prim2SF v) as [s|s| |s m e]; cbn in H |- *;
    try contradiction; try subst s; reflexivity.
Qed.

Section Scores.

Variable log1p : float -> float.
Variable most : Z.
Hypothesis log1p_positive : forall n, 1 <= n <= most ->
  exists m e, Prim2SF (log1p (Num.of_Z n)) = S754_finite false m e.

Lemma score_above_minus_one e :
  vivid (mkRGB (er e) (eg e) (eb e)) -> 1 <= count e <= most ->
  ((-1) <? score log1p e)%float = true.
Proof.
  intros Hv Hc. apply minus_one_below.
  destruct (log1p_positive Hc) as (m & ex & Hl).
  unfold score. cbv zeta. apply mul_signed with (m := m) (e := ex);
    [|exact Hl].
  unfold vivid in Hv. cbn [r g b] in Hv.
  cbv zeta in Hv.
  set (M := Z.max (Z.max (er e) (eg e)) (eb e)) in *.
  set (n := Z.min (Z.min (er e) (eg e)) (eb e)) in *.
  destruct Hv as ((Hr & Hg & Hb) & (Mr & Mg & Mb) & H40 & H24).
  assert (HM : M mod 8 = 0)
    by (unfold M; repeat apply Z.max_case; assumption).
  assert (Hn : n mod 8 = 0)
    by (unfold n; repeat apply Z.min_case; assumption).
  assert (BM : 0 <= M <= 240) by (unfold M; lia).
  assert (Bn : 0 <= n <= 240) by (unfold n; lia).
  pose proof (Z.div_mod M 8 ltac:(lia)) as EM.
  pose proof (Z.div_mod n 8 ltac:(lia)) as En.
  pose proof (@range_all _ 31 saturation_table (M / 8) ltac:(lia)) as T.
  cbv beta in T.
  pose proof (@range_all _ 31 T (n / 8) ltac:(lia)) as T'.
  cbv beta in T'.
  replace (n / 8 <? M / 8) with true in T' by (symmetry; apply Z.ltb_lt; lia).
  replace (8 * (M / 8)) with M in T' by lia.
  replace (8 * (n / 8)) with n in T' by lia.
  cbv zeta in T'.
  destruct (Prim2SF (_ / _)%float) as [s|s| |s mm ee]; try discriminate.
  destruct s; [discriminate | exact eq_refl].
Qed.

Lemma pick_some acc e :
  fst (pick log1p acc e) = fst acc \/
  fst (pick log1p acc e) = mkRGB (er e) (eg e) (eb e).
Proof.
  unfold pick. cbv zeta. destruct (snd acc <? score log1p e)%float;
    [right | left]; reflexivity.
Qed.

Lemma fold_pick_some es : forall acc,
  fst (fold_left (pick log1p) es acc) = fst acc \/
  exists e, In e es /\
            fst (fold_left (pick log1p) es acc) = mkRGB (er e) (eg e) (eb e).
Proof.
  induction es as [|e es IH]; intros acc; [left; reflexivity|].
  cbn [fold_left]. destruct (IH (pick log1p acc e)) as [H | (e' & Hin & H)].
  - rewrite H. destruct (pick_some acc e) as [H' | H'].
    + left. exact H'.
    + right. exists e. split; [left; reflexivity | exact H'].
  - right. exists e'. split; [right; exact Hin | exact H].
Qed.

(** Of buckets that are not empty, [best] is the colour of one of
    them. *)
Lemma best_of_entry buckets :
  buckets <> [] ->
  Forall (fun ke => vivid (mkRGB (er (snd ke)) (eg (snd ke)) (eb (snd ke)))
                    /\ 1 <= count (snd ke) <= most) buckets ->
  exists ke, In ke buckets /\
             best_of log1p buckets =
             mkRGB (er (snd ke)) (eg (snd ke)) (eb (snd ke)).
Proof.
  intros Hne H. destruct buckets as [|ke buckets]; [congruence|]. clear Hne.
  apply Forall_cons_iff in H. destruct H as [[Hv Hc] _].
  unfold best_of. cbn [map fold_left].
  assert (E : pick log1p (mkRGB 128 128 128, (-1)%float) (snd ke) =
              (mkRGB (er (snd ke)) (eg (snd ke)) (eb (snd ke)),
               score log1p (snd ke))).
  { unfold pick. cbv zeta. cbn [snd].
    rewrite (@score_above_minus_one (snd ke) Hv Hc). reflexivity. }
  rewrite E.
  destruct (fold_pick_some (map snd buckets)
              (mkRGB (er (snd ke)) (eg (snd ke)) (eb (snd ke)),
               score log1p (snd ke))) as [H | (e & Hin & H)].
  - exists ke. split; [left; reflexivity | exact H].
  - apply in_map_iff in Hin. destruct Hin as (ke' & <- & Hin).
    exists ke'. split; [right; exact Hin | exact H].
Qed.

End Scores.

End SamplingFacts.

Module VibrantProperties.
Import Png PngFacts StreamFacts Base62Facts ArrayFacts PngFilter DefilterFacts
       SamplingFacts.
Open Scope Z_scope.

(** With a [Math.log1p] that is positive on the numbers from 1 to the
    largest array length, the colour [vibrantColorFromPng] returns is
    black (the fallback) or a vivid colour: channels that are multiples of
    8 between 0 and 240, the largest at least 40 and at least 24 above the
    smallest.  It is never the mid grey that [best] starts from. *)
Theorem vibrant_colour_is_black_or_vivid
  (inflate : list Byte.byte -> option (list Byte.byte))
  (log1p : float -> float) (maxByteLength : Z) (pngBuffer : Uint8Array)
  (c : RGB) :
  (forall n, 1 <= n <= maxByteLength ->
     exists m e, Prim2SF (log1p (Num.of_Z n)) = S754_finite false m e) ->
  vibrantColorFromPng inflate log1p maxByteLength pngBuffer = Ok c ->
  c = mkRGB 0 0 0 \/ vivid c.
Proof.
  intros Hlog H. unfold vibrantColorFromPng in H.
  destruct (parseChunks pngBuffer) as [st|err] eqn:Est; cbn [bind] in H;
    [|discriminate].
  apply parseChunks_dims in Est. destruct Est as [Hw Hh].
  destruct (unsupported st); [left; congruence|].
  cbv zeta in H. destruct (inflate _) as [decompressed|]; [|discriminate].
  set (channels := if is_value (colorType st) 6 then 4 else 3) in *.
  destruct (maxByteLength <? _) eqn:Emax; [discriminate|].
  apply Z.ltb_ge in Emax.
  assert (Htotal : width st * height st <= maxByteLength).
  { assert (3 <= channels) by (unfold channels; destruct (is_value _ _); lia).
    nia. }
  set (pixels := defilter _ _ _ _) in *.
  assert (Hp : Forall (fun v => 0 <= v <= 255) pixels).
  { apply defilter_bytes. apply Forall_forall. intros v Hv.
    apply in_map_iff in Hv. destruct Hv as (x & <- & _).
    pose proof (u8_range x). lia. }
  pose proof (@sample_loop_keeps pixels channels (width st * height st)
                (Z.max 1 (width st * height st / 10000))
                (Z.to_nat (width st * height st)) 0 [] 0 Hp (Z.le_refl 0)
                (Forall_nil _)) as Hb.
  rewrite Z2Nat.id, Z.add_0_l in Hb by nia.
  destruct (sample_loop _ _ _ _ _ _ _) as [|ke buckets] eqn:E;
    [left; congruence|].
  right. assert (c = best_of log1p (ke :: buckets)) as -> by congruence.
  assert (Hb' : Forall
            (fun ke => vivid (mkRGB (er (snd ke)) (eg (snd ke)) (eb (snd ke)))
                       /\ 1 <= count (snd ke) <= maxByteLength)
            (ke :: buckets)).
  { apply Forall_forall. intros x Hx. rewrite Forall_forall in Hb.
    destruct (Hb x Hx) as [Hv Hc]. split; [exact Hv | lia]. }
  destruct (@best_of_entry log1p maxByteLength Hlog (ke :: buckets)
              ltac:(discriminate) Hb') as (ke' & Hin & ->).
  rewrite Forall_forall in Hb'. apply (Hb' ke' Hin).
Qed.

(** A one-pixel image of the colour (203, 41, 38), stored uncompressed,
    with the identity for [Math.log1p] and arrays of up to 1000 bytes. *)
Lemma vibrant_colour_is_black_or_vivid_witness :
  (forall n, 1 <= n <= 1000 ->
     exists m e, Prim2SF ((fun x => x) (Num.of_Z n)) =
                 S754_finite false m e) /\
  vibrantColorFromPng (fun z => Some z) (fun x => x) 1000
    (of_bytes (signature ++ ihdr 1 1 8 2 ++ idat [0; 203; 41; 38] ++ iend)) =
  Ok (mkRGB 200 40 40) /\
  (mkRGB 200 40 40 = mkRGB 0 0 0 \/ vivid (mkRGB 200 40 40)).
Proof.
  assert (H : forall n, 1 <= n <= 1000 ->
            exists m e, Prim2SF ((fun x => x) (Num.of_Z n)) =
                        S754_finite false m e).
  { intros n Hn.
    assert (T : forallb (fun k =>
                  match Prim2SF (Num.of_Z (k + 1)) with
                  | S754_finite false _ _ => true
                  | _ => false
                  end) (range 1000) = true) by (vm_compute; reflexivity).
    pose proof (@range_all _ 1000 T (n - 1) ltac:(lia)) as Hk.
    cbv beta in Hk. replace (n - 1 + 1) with n in Hk by lia.
    destruct (Prim2SF (Num.of_Z n)) as [s|s| |s m e]; try discriminate.
    destruct s; [discriminate|]. exists m, e. reflexivity. }
  split; [exact H|].
  assert (E : vibrantColorFromPng (fun z => Some z) (fun x => x) 1000
                (of_bytes (signature ++ ihdr 1 1 8 2 ++
                           idat [0; 203; 41; 38] ++ iend)) =
              Ok (mkRGB 200 40 40))
    by (vm_compute; reflexivity).
  split; [exact E|].
  exact (@vibrant_colour_is_black_or_vivid (fun z => Some z)
           (fun x => x) 1000 _ _ H E).
Defined.

End VibrantProperties.

Module DecodeFacts.
Import Png PngFacts StreamFacts Base62Facts ArrayFacts PngFilter DefilterFacts.
Open Scope Z_scope.

(** The rows of the whole image, reconstructed one after the other. *)
Lemma defilter_restores (image : list Z) (channels stride : Z)
  (types : list Z) :
  0 < channels -> 0 <= stride ->
  zlength image = zlength types * stride ->
  Forall (fun v => 0 <= v <= 255) image ->
  defilter (filter_image image channels stride types) channels stride
    (zlength types) = image.
Proof.
  intros Hchannels Hstride Hlength Hbytes. unfold defilter.
  pose proof (zlength_nonneg types) as Ht.
  rewrite (@fold_range_invariant (list Z)
             (defilter_row (filter_image image channels stride types)
                channels stride)
             (fun y pixels =>
                pixels =
                firstn (Z.to_nat (y * stride)) image ++
                repeat 0 (length image - Z.to_nat (y * stride)))
             (zlength types)
             (repeat 0 (Z.to_nat (zlength types * stride)))
             Ht).
  - rewrite <- Hlength. unfold zlength. rewrite Nat2Z.id.
    rewrite firstn_all, Nat.sub_diag. apply app_nil_r.
  - rewrite Z.mul_0_l. cbn [Z.to_nat firstn app].
    rewrite <- Hlength. unfold zlength. rewrite Nat2Z.id, Nat.sub_0_r.
    reflexivity.
  - intros y pixels Hy ->. apply defilter_row_step; assumption.
Qed.

Lemma unsupported_8bit (alpha : bool) offset w h idats :
  unsupported (mkChunks offset w h (Some 8) (Some (if alpha then 6 else 2))
                 idats) = false.
Proof. destruct alpha; reflexivity. Qed.

Lemma is_value_alpha (alpha : bool) :
  is_value (Some (if alpha then 6 else 2)) 6 = alpha.
Proof. destruct alpha; reflexivity. Qed.

End DecodeFacts.

Module DecodeProperties.
Import Png PngFacts StreamFacts Base62Facts ArrayFacts PngFilter DefilterFacts
       DecodeFacts.
Open Scope Z_scope.

(** The decoder reads back what an encoder wrote.  Take an image of
    bytes, [w] pixels a row with or without an alpha channel, filtered row
    by row with any of the five filter types, the filtered rows compressed
    into the data of the [IDAT] chunks of a stream: a signature, an [IHDR]
    chunk of depth 8 and colour type 2 or 6, any chunks, [IEND].  Then
    [vibrantColorFromPng] returns what the sampling and the scoring give
    on the image itself. *)
Theorem vibrantColorFromPng_reads_the_image
  (inflate : list Byte.byte -> option (list Byte.byte))
  (log1p : float -> float) (maxByteLength : Z)
  (sig rest crc0 : list Byte.byte) (middle : list Chunk) (last : Chunk)
  (trailing beyond : list Byte.byte)
  (w : Z) (alpha : bool) (image types : list Z)
  (decompressed : list Byte.byte) :
  let h := zlength types in
  let channels := if alpha then 4 else 3 in
  let colour := if alpha then 6 else 2 in
  let first := mkChunk (bytes_of [73; 72; 68; 82])
                 (ihdr_data w h 8 colour rest) crc0 in
  let total := w * h in
  length sig = 8%nat -> length crc0 = 4%nat -> zlength rest < 4294967286 ->
  Forall framed middle ->
  Forall (fun c => type_name c <> js "IHDR" /\ type_name c <> js "IEND")
         middle ->
  framed last -> type_name last = js "IEND" ->
  0 <= w < 4294967296 -> h < 4294967296 ->
  zlength image = h * (w * channels) ->
  Forall (fun v => 0 <= v <= 255) image ->
  inflate (concat (map cdata (filter (type_is "IDAT") middle))) =
    Some decompressed ->
  map u8 decompressed = filter_image image channels (w * channels) types ->
  h * (w * channels) <= maxByteLength ->
  vibrantColorFromPng inflate log1p maxByteLength
    (mkArray (sig ++ encode_chunk first ++ concat (map encode_chunk middle) ++
              encode_chunk last ++ trailing) beyond) =
  Ok match sample_loop image channels (Z.to_nat total) total
             (Z.max 1 (total / 10000)) 0 [] with
     | [] => mkRGB 0 0 0
     | bucket :: buckets => best_of log1p (bucket :: buckets)
     end.
Proof.
  intros h channels colour first total Hsig Hcrc Hrest Hmiddle Htypes Hlast
    Hend Hw Hh Hlength Hbytes Hinflate Hraw Hmax.
  pose proof (zlength_nonneg types) as Hh0.
  subst h channels colour first total. unfold vibrantColorFromPng.
  rewrite (@parseChunks_well_formed sig w (zlength types) 8
             (if alpha then 6 else 2) rest crc0 middle last
             trailing beyond Hsig Hw ltac:(lia) ltac:(lia)
             ltac:(destruct alpha; lia) Hcrc Hrest Hmiddle
             Htypes Hlast Hend).
  cbn [bind]. rewrite unsupported_8bit.
  cbn [colorType idatChunks width height]. rewrite is_value_alpha.
  set (channels := if alpha then 4 else 3) in *.
  rewrite Hinflate, Hraw.
  replace (maxByteLength <? zlength types * (w * channels)) with false
    by (symmetry; apply Z.ltb_ge; exact Hmax).
  assert (Hc : 0 < channels) by (unfold channels; destruct alpha; lia).
  rewrite (@defilter_restores image channels (w * channels) types Hc
             ltac:(lia) Hlength Hbytes).
  destruct (sample_loop _ _ _ _ _ _ _); reflexivity.
Qed.

(** The image [two_rows] in the stream [two_rows_png]: the third pixel,
    the most saturated of the three that pass the tests, wins. *)
Lemma vibrantColorFromPng_reads_the_image_witness :
  (length signature = 8%nat /\ length (bytes_of [1; 2; 3; 4]) = 4%nat /\
   zlength (bytes_of [0; 0; 0]) < 4294967286) /\
  (Forall framed [two_rows_idat] /\
   Forall (fun c => type_name c <> js "IHDR" /\ type_name c <> js "IEND")
     [two_rows_idat] /\
   framed iend_chunk /\ type_name iend_chunk = js "IEND") /\
  (0 <= 2 < 4294967296 /\ zlength [4; 3] < 4294967296 /\
   zlength two_rows = zlength [4; 3] * (2 * 3) /\
   Forall (fun v => 0 <= v <= 255) two_rows) /\
  ((fun z => Some z)
     (concat (map cdata (filter (type_is "IDAT") [two_rows_idat]))) =
     Some (bytes_of (filter_image two_rows 3 6 [4; 3])) /\
   map u8 (bytes_of (filter_image two_rows 3 6 [4; 3])) =
     filter_image two_rows 3 (2 * 3) [4; 3] /\
   zlength [4; 3] * (2 * 3) <= 1000) /\
  vibrantColorFromPng (fun z => Some z) (fun x => x) 1000 two_rows_png =
  Ok (mkRGB 192 24 16).
Proof.
  assert (H1 : length signature = 8%nat) by reflexivity.
  assert (H2 : length (bytes_of [1; 2; 3; 4]) = 4%nat) by reflexivity.
  assert (H3 : zlength (bytes_of [0; 0; 0]) < 4294967286) by reflexivity.
  assert (H4 : Forall framed [two_rows_idat])
    by (repeat constructor; vm_compute; reflexivity).
  assert (H5 : Forall (fun c => type_name c <> js "IHDR" /\
                                type_name c <> js "IEND") [two_rows_idat])
    by (repeat constructor; vm_compute; discriminate).
  assert (H6 : framed iend_chunk)
    by (repeat constructor; vm_compute; reflexivity).
  assert (H7 : type_name iend_chunk = js "IEND") by reflexivity.
  assert (H8 : 0 <= 2 < 4294967296) by lia.
  assert (H9 : zlength [4; 3] < 4294967296) by reflexivity.
  assert (H10 : zlength two_rows = zlength [4; 3] * (2 * 3)) by reflexivity.
  assert (H11 : Forall (fun v => 0 <= v <= 255) two_rows)
    by (repeat constructor; lia).
  assert (H12 : (fun z : list Byte.byte => Some z)
                  (concat (map cdata
                             (filter (type_is "IDAT") [two_rows_idat]))) =
                Some (bytes_of (filter_image two_rows 3 6 [4; 3])))
    by (vm_compute; reflexivity).
  assert (H13 : map u8 (bytes_of (filter_image two_rows 3 6 [4; 3])) =
                filter_image two_rows 3 (2 * 3) [4; 3])
    by (vm_compute; reflexivity).
  assert (H14 : zlength [4; 3] * (2 * 3) <= 1000) by (vm_compute; discriminate).
  split; [exact (conj H1 (conj H2 H3))|].
  split; [exact (conj H4 (conj H5 (conj H6 H7)))|].
  split; [exact (conj H8 (conj H9 (conj H10 H11)))|].
  split; [exact (conj H12 (conj H13 H14))|].
  refine (eq_trans
            (@vibrantColorFromPng_reads_the_image (fun z => Some z)
               (fun x => x) 1000 signature (bytes_of [0; 0; 0])
               (bytes_of [1; 2; 3; 4]) [two_rows_idat] iend_chunk [] []
               2 false two_rows [4; 3]
               (bytes_of (filter_image two_rows 3 6 [4; 3]))
               H1 H2 H3 H4 H5 H6 H7 H8 H9 H10 H11 H12 H13 H14) _).
  vm_compute. reflexivity.
Defined.

End DecodeProperties.

Module CaptureLogFacts.
Import Orchestrator OrchestratorClaims CaptureLog.

Section Main.

Variables (World PageInput : Type).
Variable capturePageInput :
  World -> jsstring -> CaptureOptions -> result thrown PageInput * World.

Local Abbreviation captureItem := (captureItem capturePageInput).
Local Abbreviation item_loop := (item_loop capturePageInput).

Lemma captured_app (l1 l2 : list (Call PageInput)) :
  captured (l1 ++ l2) = captured l1 ++ captured l2.
Proof. apply flat_map_app. Qed.

Lemma captured_failures (l : list (Call PageInput)) :
  Forall (fun c => exists err, call_outcome c = Throw err /\
                               retryable err = true) l ->
  captured l = [] /\ filter (@succeeded PageInput) l = [].
Proof.
  induction 1 as [|c l (err & Hc & _) _ [IH1 IH2]]; [split; reflexivity|].
  unfold succeeded in *. cbn [captured flat_map filter].
  rewrite Hc. cbn [app]. split; assumption.
Qed.

(** The calls made for one item: only the last can have succeeded, and
    it has exactly when the item is captured. *)
Lemma captureItem_log body item w log :
  exists calls,
    snd (captureItem body item w log) = log ++ calls /\
    1 <= length calls <= 3 /\
    match fst (fst (captureItem body item w log)) with
    | Captured p =>
        captured calls = [p] /\
        map (@call_url PageInput) (filter (@succeeded PageInput) calls) =
          [url item]
    | _ => captured calls = []
    end.
Proof.
  destruct (captureItem_calls capturePageInput body item w log)
    as (before & final & Hlog & Hlen & _ & Hurl & Hfail & Hres).
  exists (before ++ [final]). split; [exact Hlog|].
  unfold MAX_ATTEMPTS in Hlen. rewrite length_app. cbn [length].
  split; [lia|].
  destruct (captured_failures Hfail) as [Hc Hs].
  rewrite captured_app, filter_app, Hc, Hs. cbn [app captured flat_map filter].
  apply Forall_app in Hurl. destruct Hurl as [_ Hurl].
  apply Forall_cons_iff in Hurl. destruct Hurl as [Hurl _].
  unfold succeeded.
  destruct (fst (fst (captureItem body item w log))) as [p|err|lastError].
  - rewrite Hres. cbn [app map]. rewrite Hurl. split; reflexivity.
  - destruct Hres as [-> _]. reflexivity.
  - destruct Hres as (_ & err & -> & _). reflexivity.
Qed.

(** The loop over the items, from any point on. *)
Lemma item_loop_log body todo :
  forall pageInputs w log,
  exists calls,
    snd (item_loop body todo pageInputs w log) = log ++ calls /\
    length calls <= 3 * length todo /\
    match fst (fst (item_loop body todo pageInputs w log)) with
    | Ok out =>
        out = pageInputs ++ captured calls /\
        map (@call_url PageInput) (filter (@succeeded PageInput) calls) =
          map url todo /\
        length todo <= length calls
    | Throw _ => length (captured calls) < length todo
    end.
Proof.
  induction todo as [|item todo IH]; intros pageInputs w log.
  - exists []. cbn. rewrite !app_nil_r. repeat split; lia.
  - cbn [Orchestrator.item_loop].
    destruct (captureItem_log body item w log)
      as (calls & Hlog & Hlen & Hres).
    destruct (captureItem body item w log) as [[res w'] log'].
    cbn [fst snd] in Hlog, Hres. subst log'.
    destruct res as [p|err|lastError].
    + destruct Hres as [Hc Hu].
      destruct (IH (pageInputs ++ [p]) w' (log ++ calls))
        as (calls' & Hlog' & Hlen' & Hres').
      exists (calls ++ calls'). rewrite Hlog', app_assoc.
      split; [reflexivity|]. rewrite length_app. cbn [length].
      split; [lia|].
      destruct (fst (fst (item_loop body todo (pageInputs ++ [p]) w'
                            (log ++ calls)))) as [out|err].
      * destruct Hres' as (-> & Hu' & Hn).
        rewrite captured_app, filter_app, map_app, Hc, Hu, Hu',
          <- app_assoc.
        repeat split; try reflexivity. lia.
      * rewrite captured_app, length_app, Hc. cbn [length]. lia.
    + exists calls. cbn [fst snd]. rewrite Hres. cbn [length].
      repeat split; lia.
    + exists calls. cbn [fst snd]. rewrite Hres. cbn [length].
      repeat split; lia.
Qed.

End Main.

End CaptureLogFacts.

Module MainProperties.
Import Orchestrator CaptureLog CaptureLogFacts.


(** A browser that fails twice and then answers: three calls for the
    one item, the third captured. *)
Example one_item_three_calls :
  item_loop flaky one_body (items one_body) [] 0 [] =
  (Ok [2], 3,
   [mkCall (js "https://example.com/") 1
      (Throw (OtherError (js "Navigation timeout")));
    mkCall (js "https://example.com/") 2
      (Throw (OtherError (js "Navigation timeout")));
    mkCall (js "https://example.com/") 3 (Ok 2)]).
Proof. reflexivity. Qed.

End MainProperties.

Module LineFacts.
Import RegexFacts FloatFacts WrapFacts BreakFacts ScanFacts BoundaryFacts.

Lemma slice_all (s : jsstring) : slice s 0 (length s) = s.
Proof. unfold slice. rewrite Nat.sub_0_r. cbn [skipn]. apply firstn_all. Qed.

Lemma slice_to_end (s : jsstring) i : slice s i (length s) = skipn i s.
Proof.
  unfold slice. rewrite <- length_skipn. apply firstn_all.
Qed.

Lemma slice_from_start (s : jsstring) j : slice s 0 j = firstn j s.
Proof. unfold slice. rewrite Nat.sub_0_r. reflexivity. Qed.

(** A boundary ends after at least one unit. *)
Lemma boundary_positive seg e : boundary seg e -> 0 < e.
Proof.
  intros H. destruct (boundary_break H) as (p & l & Hb & <-).
  apply break_here_bounds in Hb. lia.
Qed.

(** A boundary of what follows index [e] is a boundary of the whole. *)
Lemma boundary_of_suffix seg e b :
  boundary (skipn e seg) b -> boundary seg (e + b).
Proof.
  intros H. destruct (boundary_break H) as (p & l & Hb & <-).
  rewrite skipn_skipn in Hb. rewrite Nat.add_assoc.
  rewrite (Nat.add_comm e p). apply break_boundary. exact Hb.
Qed.

(** The last break is the largest boundary. *)
Lemma lastBreak_largest seg e :
  boundary seg e -> (forall e', boundary seg e' -> e' <= e) ->
  lastBreak seg = Z.of_nat e.
Proof.
  intros He Hmax. pose proof (boundary_positive He) as Hpos.
  destruct (Z_lt_dec 0 (lastBreak seg)) as [Hl|Hl].
  - destruct (lastBreak_boundary seg Hl) as [Hb Hlast].
    pose proof (Hmax _ Hb). pose proof (Hlast _ He). lia.
  - exfalso. apply (@lastBreak_no_boundary seg ltac:(lia) e He).
Qed.

Section Fitting.

Variables (text : jsstring) (maxWidth : float)
          (measureFn : jsstring -> float).
Hypothesis all_fit : forall i j, fits text maxWidth measureFn i j = true.

(** Nothing stops the inner loop before the end of the text. *)
Lemma growEnd_all start :
  start < length text ->
  growEnd text maxWidth measureFn start = length text + 1.
Proof.
  intros Hs.
  destruct (@growEnd_spec text maxWidth measureFn start Hs)
    as (Hb & _ & Hstop).
  rewrite all_fit, andb_true_r in Hstop. apply Nat.leb_gt in Hstop. lia.
Qed.

Lemma step_plain start lines :
  start < length text ->
  step text maxWidth measureFn false start lines =
  (lines ++ [skipn start text], length text).
Proof.
  intros Hs. unfold step. rewrite (growEnd_all Hs).
  replace (length text + 1 - 1) with (length text) by lia.
  replace (length text <=? start) with false
    by (symmetry; apply Nat.leb_gt; exact Hs).
  rewrite slice_to_end. reflexivity.
Qed.

Lemma step_url_no_break start lines :
  start < length text ->
  (lastBreak (skipn start text) <= 0)%Z ->
  step text maxWidth measureFn true start lines =
  (lines ++ [skipn start text], length text).
Proof.
  intros Hs Hl. unfold step. rewrite (growEnd_all Hs).
  replace (length text + 1 - 1) with (length text) by lia.
  replace (length text <=? start) with false
    by (symmetry; apply Nat.leb_gt; exact Hs).
  rewrite slice_to_end.
  replace (0 <? lastBreak (skipn start text))%Z with false
    by (symmetry; apply Z.ltb_ge; exact Hl).
  reflexivity.
Qed.

Lemma step_url_break lines e :
  0 < length text -> lastBreak text = Z.of_nat e -> 0 < e ->
  step text maxWidth measureFn true 0 lines =
  (lines ++ [firstn e text], e).
Proof.
  intros Hs Hl He. unfold step. rewrite (growEnd_all Hs).
  replace (length text + 1 - 1) with (length text) by lia.
  replace (length text <=? 0) with false
    by (symmetry; apply Nat.leb_gt; exact Hs).
  rewrite slice_all, Hl.
  replace (0 <? Z.of_nat e)%Z with true by (symmetry; apply Z.ltb_lt; lia).
  rewrite Nat2Z.id, Nat.add_0_l, slice_from_start. reflexivity.
Qed.

(** The loop is left as soon as [start] is the length of the text. *)
Lemma wrapLoop_done urlMode fuel lines :
  wrapLoop text maxWidth measureFn urlMode fuel (length text) lines =
  Some lines.
Proof.
  destruct fuel; cbn [wrapLoop]; rewrite Nat.ltb_irrefl; reflexivity.
Qed.

Lemma wrapText_of_loop urlMode lines :
  wrapLoop text maxWidth measureFn urlMode (length text) 0 [] = Some lines ->
  wrapText text maxWidth measureFn urlMode = lines.
Proof. unfold wrapText. intros ->. reflexivity. Qed.

(** The two rounds of the loop on a text with its last boundary
    inside it. *)
Lemma url_loop_two_lines e :
  boundary text e -> (forall e', boundary text e' -> e' <= e) ->
  e < length text ->
  wrapLoop text maxWidth measureFn true (length text) 0 [] =
  Some [firstn e text; skipn e text].
Proof.
  intros He Hmax Hlt. pose proof (boundary_positive He) as Hpos.
  destruct (length text) as [|[|n]] eqn:El; try lia. rewrite <- El in Hlt.
  cbn [wrapLoop].
  replace (0 <? length text) with true by (symmetry; apply Nat.ltb_lt; lia).
  rewrite (@step_url_break [] e ltac:(lia) (lastBreak_largest He Hmax) Hpos).
  cbn [app].
  replace (e <? length text) with true by (symmetry; apply Nat.ltb_lt; lia).
  rewrite (@step_url_no_break e [firstn e text] ltac:(lia)).
  - cbn [app]. apply wrapLoop_done.
  - destruct (Z_lt_dec 0 (lastBreak (skipn e text))) as [Hl|Hl]; [|lia].
    exfalso. destruct (lastBreak_boundary (skipn e text) Hl) as [Hb _].
    pose proof (boundary_positive Hb).
    apply boundary_of_suffix in Hb. apply Hmax in Hb. lia.
Qed.

End Fitting.

(** Counting one for each code unit, a text of up to sixteen units fits
    in a width of fifty, and so does every part of it. *)
Lemma short_text_fits (text : jsstring) i j :
  length text <= 16 ->
  fits text 50 (fun s => Num.of_nat (length s)) i j = true.
Proof.
  intros H. unfold fits.
  assert (Hl : length (slice text i j) <= 16).
  { unfold slice. rewrite length_firstn, length_skipn. lia. }
  destruct (length (slice text i j)) as [|n]; [reflexivity|].
  do 16 (destruct n as [|n]; [reflexivity|]). lia.
Qed.

End LineFacts.

Module LineProperties.
Import RegexFacts FloatFacts WrapFacts BreakFacts ScanFacts BoundaryFacts
       LineFacts.

(** No line [wrapText] returns is empty, and there are at most as many
    lines as the text has code units; so the empty text has no lines. *)
Theorem wrapText_lines_not_empty (text : jsstring) (maxWidth : float)
  (measureFn : jsstring -> float) (urlMode : bool) :
  Forall (fun line => line <> [])
    (wrapText text maxWidth measureFn urlMode) /\
  length (wrapText text maxWidth measureFn urlMode) <= length text.
Proof.
  apply (@wrapText_invariant text maxWidth measureFn urlMode
           (fun start lines =>
              Forall (fun line => line <> []) lines /\
              length lines <= start)).
  - intros start lines Hs [Hne Hlen].
    destruct (@step_slice text maxWidth measureFn urlMode start lines Hs)
      as (e & -> & He).
    cbn [fst snd]. split.
    + apply Forall_app. split; [exact Hne|].
      constructor; [|constructor]. intros E.
      apply (f_equal (@length _)) in E.
      rewrite slice_length in E by lia. cbn in E. lia.
    + rewrite length_app. cbn [length]. lia.
  - split; [constructor | cbn; lia].
Qed.

(** A text every part of which fits in the width comes back as one line
    in plain mode, and in URL mode too when no boundary lies inside it. *)
Theorem fitting_text_is_one_line (text : jsstring) (maxWidth : float)
  (measureFn : jsstring -> float) :
  (forall i j, fits text maxWidth measureFn i j = true) ->
  text <> [] ->
  wrapText text maxWidth measureFn false = [text] /\
  ((forall e, boundary text e -> e = length text) ->
   wrapText text maxWidth measureFn true = [text]).
Proof.
  intros Hfit Hne.
  assert (Hlen : 0 < length text) by (destruct text; [congruence | cbn; lia]).
  split.
  - apply wrapText_of_loop.
    destruct (length text) as [|n] eqn:El; [lia|]. rewrite <- El in Hlen.
    cbn [wrapLoop]. replace (0 <? length text) with true
      by (symmetry; apply Nat.ltb_lt; lia).
    rewrite (step_plain Hfit [] Hlen). cbn [app skipn].
    apply wrapLoop_done.
  - intros Hb. apply wrapText_of_loop.
    destruct (length text) as [|n] eqn:El; [lia|]. rewrite <- El in Hlen.
    cbn [wrapLoop]. replace (0 <? length text) with true
      by (symmetry; apply Nat.ltb_lt; lia).
    destruct (Z_lt_dec 0 (lastBreak text)) as [Hl|Hl].
    + destruct (lastBreak_boundary text Hl) as [Hlast _].
      apply Hb in Hlast.
      rewrite (@step_url_break text maxWidth measureFn Hfit []
                 (length text) Hlen ltac:(lia) Hlen).
      rewrite firstn_all. cbn [app]. apply wrapLoop_done.
    + rewrite (@step_url_no_break text maxWidth measureFn Hfit 0 [] Hlen
                 ltac:(cbn [skipn]; lia)).
      cbn [app skipn]. apply wrapLoop_done.
Qed.

Lemma fitting_text_is_one_line_witness :
  (forall i j,
      fits (js "Source") 50 (fun s => Num.of_nat (length s)) i j = true) /\
  js "Source" <> [] /\
  wrapText (js "Source") 50 (fun s => Num.of_nat (length s)) false =
    [js "Source"] /\
  ((forall e, boundary (js "Source") e -> e = length (js "Source")) ->
   wrapText (js "Source") 50 (fun s => Num.of_nat (length s)) true =
     [js "Source"]).
Proof.
  assert (H : forall i j,
             fits (js "Source") 50 (fun s => Num.of_nat (length s)) i j = true)
    by (intros i j; apply short_text_fits; cbn; lia).
  split; [exact H|]. split; [discriminate|].
  exact (@fitting_text_is_one_line (js "Source") 50
           (fun s => Num.of_nat (length s)) H ltac:(discriminate)).
Defined.

(** In URL mode a text is broken after its last boundary even when every
    part of it fits in the width: with the last boundary inside the text,
    the lines are the text up to it and the rest. *)
Theorem fitting_url_is_broken_at_last_boundary (text : jsstring)
  (maxWidth : float) (measureFn : jsstring -> float) (e : nat) :
  (forall i j, fits text maxWidth measureFn i j = true) ->
  boundary text e -> (forall e', boundary text e' -> e' <= e) ->
  e < length text ->
  wrapText text maxWidth measureFn true = [firstn e text; skipn e text].
Proof.
  intros Hfit He Hmax Hlt. apply wrapText_of_loop.
  apply url_loop_two_lines; assumption.
Qed.

Lemma fitting_url_is_broken_at_last_boundary_witness :
  (forall i j,
      fits (js "example.com/page") 50 (fun s => Num.of_nat (length s)) i j =
      true) /\
  boundary (js "example.com/page") 12 /\
  (forall e', boundary (js "example.com/page") e' -> e' <= 12) /\
  12 < length (js "example.com/page") /\
  wrapText (js "example.com/page") 50 (fun s => Num.of_nat (length s)) true =
    [js "example.com/"; js "page"].
Proof.
  assert (H : forall i j,
             fits (js "example.com/page") 50
               (fun s => Num.of_nat (length s)) i j = true)
    by (intros i j; apply short_text_fits; cbn; lia).
  destruct (@lastBreak_boundary (js "example.com/page")
              ltac:(vm_compute; reflexivity)) as [Hb Hmax].
  change (Z.to_nat (lastBreak (js "example.com/page"))) with 12 in Hb, Hmax.
  assert (Hlt : 12 < length (js "example.com/page")) by (cbn; lia).
  split; [exact H|]. split; [exact Hb|]. split; [exact Hmax|].
  split; [exact Hlt|].
  exact (@fitting_url_is_broken_at_last_boundary (js "example.com/page") 50
           (fun s => Num.of_nat (length s)) 12 H Hb Hmax Hlt).
Defined.

End LineProperties.

Module ReplaceFacts.
Import RegexFacts RunFacts.

(** ** A global replace, one step at a time *)

Lemma search_from r : forall s i,
  search r s i =
  match search r s 0 with
  | Some m => Some (mkMatch (i + index m) (matched m) (groups m))
  | None => None
  end.
Proof.
  induction s as [|x t IH]; intros i; cbn [search].
  - destruct (match_here r []) as [[l c]|]; [|reflexivity].
    cbn [index matched groups]. rewrite Nat.add_0_r. reflexivity.
  - destruct (match_here r (x :: t)) as [[l c]|].
    + cbn [index matched groups]. rewrite Nat.add_0_r. reflexivity.
    + rewrite (IH (S i)), (IH 1).
      destruct (search r t 0) as [m|]; [|reflexivity].
      cbn [index matched groups]. f_equal. f_equal. lia.
Qed.

Lemma replace_loop_unfold f r rep s :
  replace_loop (S f) r rep s =
  match search r s 0 with
  | None => s
  | Some m =>
      firstn (index m) s ++ rep ++
      match matched m with
      | [] =>
          match skipn (index m) s with
          | [] => []
          | x :: t => x :: replace_loop f r rep t
          end
      | _ :: _ => replace_loop f r rep (skipn (match_end m) s)
      end
  end.
Proof. reflexivity. Qed.

Lemma search_here r s l c :
  match_here r s = Some (l, c) ->
  search r s 0 = Some (mkMatch 0 (firstn l s) c).
Proof. intros H. destruct s; cbn [search]; rewrite H; reflexivity. Qed.

(** A match at the head is replaced, and the scan goes on behind it. *)
Lemma replace_here r rep s l c :
  match_here r s = Some (l, c) -> 0 < l ->
  replace r rep s = rep ++ replace r rep (skipn l s).
Proof.
  intros H Hl. pose proof (match_here_length _ _ H) as Hlen.
  unfold replace.
  rewrite (replace_loop_unfold (length s) r rep s), (search_here _ _ H).
  cbn [index matched firstn app].
  assert (Hm : length (firstn l s) = l) by (rewrite length_firstn; lia).
  destruct (firstn l s) as [|y m] eqn:E; [cbn in Hm; lia|].
  unfold match_end. cbn [index matched Nat.add]. rewrite Hm.
  f_equal. apply replace_loop_fuel; rewrite length_skipn; lia.
Qed.

(** Where nothing matches at the head, the head stays. *)
Lemma replace_skip r rep x t :
  match_here r (x :: t) = None ->
  replace r rep (x :: t) = x :: replace r rep t.
Proof.
  intros H. unfold replace.
  rewrite (replace_loop_unfold (length (x :: t)) r rep (x :: t)),
    (replace_loop_unfold (length t) r rep t).
  cbn [length search]. rewrite H, (search_from r t 1).
  destruct (search r t 0) as [m|] eqn:Es; [|reflexivity].
  pose proof (search_bounds _ _ _ Es) as Hb.
  cbn [index matched groups match_end Nat.add firstn skipn app].
  f_equal. f_equal. f_equal.
  destruct (matched m) as [|y rest] eqn:Em.
  - destruct (skipn (index m) t) as [|z t'] eqn:Ek; [reflexivity|].
    f_equal. assert (Hl : length (skipn (index m) t) = S (length t'))
      by (rewrite Ek; reflexivity).
    rewrite length_skipn in Hl. apply replace_loop_fuel; lia.
  - unfold match_end in *. cbn [index matched Nat.add skipn]. rewrite Em in *.
    cbn [length] in *.
    apply replace_loop_fuel; rewrite length_skipn; cbn [length]; lia.
Qed.

Lemma replace_nil r rep :
  match_here r [] = None -> replace r rep [] = [].
Proof.
  intros H. unfold replace. cbn [replace_loop length search]. rewrite H.
  reflexivity.
Qed.

(** What a replace returns is made of units of the string and of the
    replacement text. *)
Lemma replace_units (P : codeunit -> Prop) r rep :
  Forall P rep -> forall s, Forall P s -> Forall P (replace r rep s).
Proof.
  intros Hrep. unfold replace.
  assert (H : forall fuel s, Forall P s -> Forall P (replace_loop fuel r rep s)).
  { induction fuel as [|f IH]; intros s Hs; [exact Hs|].
    cbn [replace_loop]. destruct (search r s 0) as [m|]; [|exact Hs].
    apply Forall_app. split.
    - rewrite <- (firstn_skipn (index m) s) in Hs.
      apply Forall_app in Hs. apply Hs.
    - apply Forall_app. split; [exact Hrep|].
      destruct (matched m).
      + rewrite <- (firstn_skipn (index m) s) in Hs.
        apply Forall_app in Hs. destruct Hs as [_ Hs].
        destruct (skipn (index m) s) as [|x t]; [constructor|].
        apply Forall_cons_iff in Hs. destruct Hs as [Hx Ht].
        constructor; [exact Hx | apply IH; exact Ht].
      + apply IH. rewrite <- (firstn_skipn (match_end m) s) in Hs.
        apply Forall_app in Hs. apply Hs. }
  intros s. apply H.
Qed.

End ReplaceFacts.

Module FileNameFacts.
Import RegexFacts RunFacts ReplaceFacts FileName.

(** ** Texts that start with or include another *)

Lemma starts_with_app p : forall s x,
  starts_with p s = true -> starts_with p (s ++ x) = true.
Proof.
  induction p as [|a p IH]; intros s x H; [reflexivity|].
  destruct s as [|b s]; [discriminate|]. cbn [starts_with app] in *.
  apply andb_true_iff in H. destruct H as [-> H]. apply (IH _ _ H).
Qed.

Lemma includes_app p : forall s x,
  includes p s = true -> includes p (s ++ x) = true.
Proof.
  induction s as [|b s IH]; intros x H.
  - cbn [includes] in H. rewrite orb_false_r in H.
    destruct p; [|discriminate]. destruct x; reflexivity.
  - cbn [includes app] in *. apply orb_true_iff in H. destruct H as [H|H].
    + change (b :: s ++ x) with ((b :: s) ++ x).
      rewrite (starts_with_app _ _ x H). reflexivity.
    + rewrite (IH _ H). apply orb_true_r.
Qed.

Lemma includes_tail p c s : includes p (c :: s) = false -> includes p s = false.
Proof. cbn [includes]. intros H. apply orb_false_iff in H. apply H. Qed.

Lemma includes_front p s x :
  includes p (s ++ x) = false -> includes p s = false.
Proof.
  intros H. destruct (includes p s) eqn:E; [|reflexivity].
  rewrite (includes_app _ _ x E) in H. discriminate.
Qed.

(** A text without two underscores in a row, behind a unit. *)
Lemma no_double_cons c s :
  includes (js "__") s = false ->
  (is_char "_" c = false \/ starts_with (js "_") s = false) ->
  includes (js "__") (c :: s) = false.
Proof.
  intros Hs H. cbn [includes]. rewrite Hs, orb_false_r.
  change (js "__") with [cu "_"; cu "_"]. cbn [starts_with].
  unfold is_char in H. rewrite (N.eqb_sym (cu "_") c).
  destruct H as [->|H]; [reflexivity|].
  change (js "_") with [cu "_"] in H. cbn [starts_with] in H.
  destruct s as [|b s]; [apply andb_false_r|].
  rewrite andb_true_r in H. rewrite H. apply andb_false_r.
Qed.

Lemma starts_with_underscore c s :
  starts_with (js "_") (c :: s) = is_char "_" c.
Proof.
  change (js "_") with [cu "_"]. cbn [starts_with]. unfold is_char.
  rewrite andb_true_r. apply N.eqb_sym.
Qed.

(** ** [_$] *)

Lemma match_last_underscore s :
  match_here last_underscore s =
  match s with
  | [c] => if is_char "_" c then Some (1, []) else None
  | _ => None
  end.
Proof.
  unfold match_here, last_underscore, Chr.
  destruct s as [|c [|d t]]; cbn [rmatch]; try reflexivity.
  - destruct (is_char "_" c); reflexivity.
  - destruct (is_char "_" c); reflexivity.
Qed.

Lemma strip_last_cons c d t :
  replace last_underscore [] (c :: d :: t) =
  c :: replace last_underscore [] (d :: t).
Proof. apply replace_skip. rewrite match_last_underscore. reflexivity. Qed.

Lemma strip_last_one c :
  replace last_underscore [] [c] = if is_char "_" c then [] else [c].
Proof.
  destruct (is_char "_" c) eqn:E.
  - rewrite (@replace_here last_underscore [] [c] 1 []);
      [reflexivity | | lia].
    rewrite match_last_underscore, E. reflexivity.
  - rewrite replace_skip by (rewrite match_last_underscore, E; reflexivity).
    reflexivity.
Qed.

(** Replacing [_$] removes an underscore at the end, and nothing else. *)
Lemma strip_last front c :
  replace last_underscore [] (front ++ [c]) =
  if is_char "_" c then front else front ++ [c].
Proof.
  induction front as [|a front IH].
  - apply strip_last_one.
  - cbn [app]. destruct (front ++ [c]) as [|d t] eqn:E.
    + destruct front; discriminate.
    + rewrite strip_last_cons, IH. destruct (is_char "_" c); reflexivity.
Qed.

Lemma strip_last_nil : replace last_underscore [] [] = [].
Proof. reflexivity. Qed.

(** ** [^_|_$] *)

Lemma match_first_underscore c t :
  match_here (Or (Chr "_") last_underscore) (c :: t) =
  if is_char "_" c then Some (1, []) else None.
Proof.
  unfold match_here, last_underscore, Chr. cbn [rmatch].
  destruct (is_char "_" c); [|reflexivity].
  replace (length (c :: t) - length t) with 1 by (cbn [length]; lia).
  reflexivity.
Qed.

Lemma strip_ends_cons c t :
  strip_ends (c :: t) =
  if is_char "_" c then replace last_underscore [] t
  else replace last_underscore [] (c :: t).
Proof.
  unfold strip_ends. rewrite match_first_underscore.
  destruct (is_char "_" c); reflexivity.
Qed.

(** ** [_+] *)

Lemma match_underscores_none c t :
  is_char "_" c = false -> match_here underscores (c :: t) = None.
Proof.
  intros H. unfold match_here, underscores, Plus, Chr.
  cbn [rmatch]. rewrite H. reflexivity.
Qed.

Lemma match_underscores_run run rest :
  run <> [] -> forallb (is_char "_") run = true ->
  match rest with [] => True | y :: _ => is_char "_" y = false end ->
  match_here underscores (run ++ rest) = Some (length run, []).
Proof.
  intros Hne Hrun Hrest. destruct run as [|c run]; [congruence|].
  cbn [forallb] in Hrun. apply andb_true_iff in Hrun.
  destruct Hrun as [Hc Hrun].
  unfold match_here, underscores, Plus, Chr.
  change (rmatch (Seq (Class (is_char "_")) (Star (Class (is_char "_"))))
            ((c :: run) ++ rest) [] (fun s' c0 => Some (s', c0)))
    with (rmatch (Class (is_char "_")) (c :: run ++ rest) []
            (fun s1 c1 => rmatch (Star (Class (is_char "_"))) s1 c1
                            (fun s' c0 => Some (s', c0)))).
  rewrite class_cons, Hc. cbv beta.
  match goal with
  | |- context [rmatch _ _ _ ?k] =>
      rewrite (@star_run (is_char "_") run rest [] k (rest, []) Hrun Hrest
                 eq_refl)
  end.
  rewrite !length_app. cbn [length app].
  f_equal. f_equal. lia.
Qed.

(** The underscores at the head of a text, and what follows them. *)
Lemma leading_run : forall s,
  exists run rest,
    s = run ++ rest /\ forallb (is_char "_") run = true /\
    match rest with [] => True | y :: _ => is_char "_" y = false end.
Proof.
  induction s as [|c s (run & rest & -> & Hrun & Hrest)].
  - exists [], []. repeat split.
  - destruct (is_char "_" c) eqn:E.
    + exists (c :: run), rest. cbn [forallb app]. rewrite E, Hrun.
      repeat split. exact Hrest.
    + exists [], (c :: run ++ rest). repeat split. exact E.
Qed.

(** Replacing every run of underscores by one leaves no two in a row,
    and an underscore at the head only where there was one. *)
Lemma squeeze_spec : forall n s, length s <= n ->
  includes (js "__") (replace underscores (js "_") s) = false /\
  (starts_with (js "_") s = false ->
   starts_with (js "_") (replace underscores (js "_") s) = false).
Proof.
  induction n as [|n IH]; intros s Hn.
  - destruct s; [|cbn in Hn; lia]. split; reflexivity.
  - destruct s as [|c t]; [split; reflexivity|].
    cbn [length] in Hn. destruct (is_char "_" c) eqn:E.
    + destruct (leading_run t) as (run & rest & -> & Hrun & Hrest).
      rewrite (@replace_here underscores (js "_") (c :: run ++ rest)
                 (length (c :: run)) []).
      * change (c :: run ++ rest) with ((c :: run) ++ rest).
        rewrite skipn_app, Nat.sub_diag, skipn_all. cbn [app skipn].
        rewrite length_app in Hn.
        destruct (IH rest ltac:(lia)) as [H1 H2].
        split.
        -- change (js "_" ++ ?x) with (cu "_" :: x).
           apply no_double_cons; [exact H1|]. right. apply H2.
           destruct rest as [|y rest]; [reflexivity|].
           rewrite starts_with_underscore. exact Hrest.
        -- rewrite starts_with_underscore, E. discriminate.
      * change (c :: run ++ rest) with ((c :: run) ++ rest).
        apply match_underscores_run; [discriminate | | exact Hrest].
        cbn [forallb]. rewrite E, Hrun. reflexivity.
      * cbn [length]. lia.
    + rewrite replace_skip by (apply match_underscores_none; exact E).
      destruct (IH t ltac:(lia)) as [H1 H2]. split.
      * apply no_double_cons; [exact H1 | left; exact E].
      * intros _. rewrite starts_with_underscore. exact E.
Qed.

(** ** The stem of the file name *)

Lemma safe_units s :
  Forall (fun c => unsafe c = false)
    (replace (Class unsafe) (js "_") s).
Proof.
  rewrite replace_class. induction s as [|c s IH]; [constructor|].
  cbn [flat_map]. destruct (unsafe c) eqn:E.
  - apply Forall_app. split; [|exact IH]. repeat constructor.
  - constructor; [exact E | exact IH].
Qed.

Lemma strip_ends_units (P : codeunit -> Prop) s :
  Forall P s -> Forall P (strip_ends s).
Proof.
  intros H. unfold strip_ends.
  destruct (match_here _ s) as [[l c]|]; apply replace_units;
    try constructor; try exact H.
  rewrite <- (firstn_skipn l s) in H. apply Forall_app in H. apply H.
Qed.

(** What is left of a text without two underscores in a row has none at
    either end. *)
Lemma strip_ends_spec s :
  includes (js "__") s = false ->
  includes (js "__") (strip_ends s) = false /\
  (forall rest, strip_ends s <> js "_" ++ rest) /\
  (forall front, strip_ends s <> front ++ js "_").
Proof.
  intros H.
  assert (Hlast : forall t,
            includes (js "__") t = false ->
            includes (js "__") (replace last_underscore [] t) = false /\
            (starts_with (js "_") t = false ->
             starts_with (js "_") (replace last_underscore [] t) = false) /\
            (forall front,
                replace last_underscore [] t <> front ++ js "_")).
  { intros t Ht. destruct t as [|a t0] using rev_ind.
    - rewrite strip_last_nil. repeat split; try reflexivity.
      intros front E. destruct front; discriminate.
    - clear IHt0. rewrite strip_last. destruct (is_char "_" a) eqn:Ea.
      + repeat split.
        * apply (includes_front _ _ _ Ht).
        * intros Hs. destruct t0 as [|b t0]; [reflexivity|].
          cbn [app] in Hs. rewrite starts_with_underscore in *. exact Hs.
        * intros front E. subst t0.
          rewrite <- app_assoc in Ht. unfold is_char in Ea.
          apply N.eqb_eq in Ea. subst a.
          change (js "_" ++ [cu "_"]) with (js "__") in Ht.
          clear -Ht. induction front as [|b front IH].
          -- discriminate.
          -- apply IH. apply (includes_tail _ _ _ Ht).
      + split; [exact Ht|]. split; [exact (fun Hs => Hs)|].
        intros front E. change (js "_") with [cu "_"] in E.
        apply app_inj_tail in E. destruct E as [_ ->].
        vm_compute in Ea. discriminate. }
  destruct s as [|c t].
  - repeat split; try reflexivity.
    + intros rest E. discriminate.
    + intros front E. destruct front; discriminate.
  - rewrite strip_ends_cons. destruct (is_char "_" c) eqn:Ec.
    + destruct (Hlast t (includes_tail _ _ _ H)) as (H1 & H2 & H3).
      split; [exact H1|]. split; [|exact H3].
      intros rest E.
      assert (Ht : starts_with (js "_") t = false).
      { destruct t as [|b t]; [reflexivity|].
        rewrite starts_with_underscore.
        cbn [includes] in H. apply orb_false_iff in H. destruct H as [H _].
        change (js "__") with [cu "_"; cu "_"] in H. cbn [starts_with] in H.
        unfold is_char in *. rewrite (N.eqb_sym (cu "_") c), Ec in H.
        rewrite andb_true_r, andb_true_l in H. rewrite N.eqb_sym. exact H. }
      apply H2 in Ht. rewrite E in Ht. discriminate.
    + destruct (Hlast (c :: t) H) as (H1 & H2 & H3).
      split; [exact H1|]. split; [|exact H3].
      intros rest E.
      assert (Ht : starts_with (js "_") (c :: t) = false)
        by (rewrite starts_with_underscore; exact Ec).
      apply H2 in Ht. rewrite E in Ht. discriminate.
Qed.

End FileNameFacts.

Module FileNameProperties.
Import RegexFacts RunFacts ReplaceFacts FileName FileNameFacts.

(** For a URL the parser accepts, [buildFileName] returns a stem and
    [.pdf]; the stem is made of letters, digits, [_] and [-] only, has no
    two underscores in a row, and neither starts nor ends with an
    underscore.  (It can be empty.)  For any other string it throws. *)
Theorem buildFileName_is_safe
  (parseURL : jsstring -> option (jsstring * jsstring)) (url : jsstring) :
  match parseURL url with
  | Some _ =>
      exists stem,
        buildFileName parseURL url = Ok (stem ++ js ".pdf") /\
        Forall (fun c => unsafe c = false) stem /\
        includes (js "__") stem = false /\
        (forall rest, stem <> js "_" ++ rest) /\
        (forall front, stem <> front ++ js "_")
  | None => buildFileName parseURL url = Throw TypeError
  end.
Proof.
  unfold buildFileName.
  destruct (parseURL url) as [[hostname pathname]|]; [|reflexivity].
  eexists. split; [reflexivity|].
  set (s1 := replace (Class unsafe) (js "_") (hostname ++ pathname)).
  set (s2 := replace underscores (js "_") s1).
  assert (H1 : Forall (fun c => unsafe c = false) s1) by apply safe_units.
  assert (H2 : Forall (fun c => unsafe c = false) s2)
    by (apply replace_units; [repeat constructor | exact H1]).
  destruct (@squeeze_spec (length s1) s1 (le_n _)) as [Hd _]. fold s2 in Hd.
  split; [apply strip_ends_units; exact H2|].
  apply strip_ends_spec. exact Hd.
Qed.

(** The example of the function's documentation, and a URL that leaves
    nothing for the stem. *)
Example buildFileName_values :
  buildFileName example_parser (js "https://example.com/foo/bar?x=1") =
    Ok (js "example_com_foo_bar.pdf") /\
  buildFileName example_parser (js "file:///") = Ok (js ".pdf") /\
  buildFileName example_parser (js "not a url") = Throw TypeError.
Proof. repeat split; vm_compute; reflexivity. Qed.

End FileNameProperties.

Module FooterProperties.
Import RegexFacts FloatFacts WrapFacts BreakFacts ScanFacts BoundaryFacts
       LineFacts Layout.

(** The footer of a page whose URL fits in the text width and has its
    last boundary inside it (a separator before the last path segment,
    say): [computeLayout] gives it two lines, the URL up to the boundary
    and the rest, and a bottom margin of at least 48 points, the height of
    a footer of two lines. *)
Theorem short_url_takes_two_footer_lines
  (widthOfTextAtSize : jsstring -> float -> float) (rect : ElementRect.t)
  (url : jsstring) (marginOpt paddingOpt : option Spacing.t) (e : nat) :
  let layout := computeLayout widthOfTextAtSize rect url marginOpt paddingOpt in
  (forall i j,
      fits url (paddedWidth layout - textPadX layout * 2)
        (fun s => widthOfTextAtSize s (urlFontSize layout)) i j = true) ->
  boundary url e -> (forall e', boundary url e' -> e' <= e) ->
  e < length url ->
  urlLines layout = [firstn e url; skipn e url] /\
  bottomMargin layout = Num.Math_max (Spacing.bottom (margin layout)) 48.
Proof.
  intros layout Hfit He Hmax Hlt.
  assert (Hlines : urlLines layout = [firstn e url; skipn e url]).
  { apply wrapText_of_loop. apply url_loop_two_lines; assumption. }
  split; [exact Hlines|].
  change (bottomMargin layout) with
    (Num.Math_max (Spacing.bottom (margin layout))
       (5 + (9 + 2) + 4 +
        Num.of_nat (length (urlLines layout)) * (12 + 2))%float).
  rewrite Hlines. reflexivity.
Qed.

(** A 400 pixel wide element and the monospaced font of the examples:
    a URL of 24 units of 7.2 points fits in the 320 points of text width,
    and is broken after its last [/]. *)
Lemma short_url_takes_two_footer_lines_witness :
  (forall i j,
      fits (js "https://example.com/page")
        (paddedWidth (computeLayout courier rect400
                        (js "https://example.com/page") None None) -
         textPadX (computeLayout courier rect400
                     (js "https://example.com/page") None None) * 2)
        (fun s =>
           courier s
             (urlFontSize (computeLayout courier rect400
                             (js "https://example.com/page") None None)))
        i j = true) /\
  boundary (js "https://example.com/page") 20 /\
  (forall e', boundary (js "https://example.com/page") e' -> e' <= 20) /\
  20 < length (js "https://example.com/page") /\
  urlLines (computeLayout courier rect400 (js "https://example.com/page")
              None None) =
    [js "https://example.com/"; js "page"] /\
  bottomMargin (computeLayout courier rect400
                  (js "https://example.com/page") None None) = 48%float.
Proof.
  set (layout := computeLayout courier rect400
                   (js "https://example.com/page") None None).
  assert (H : forall i j,
             fits (js "https://example.com/page")
               (paddedWidth layout - textPadX layout * 2)
               (fun s => courier s (urlFontSize layout)) i j = true).
  { intros i j. unfold fits, courier.
    assert (Hl : length (slice (js "https://example.com/page") i j) <= 24).
    { unfold slice. rewrite length_firstn, length_skipn.
      change (length (js "https://example.com/page")) with 24. lia. }
    destruct (length (slice (js "https://example.com/page") i j)) as [|n];
      [vm_compute; reflexivity|].
    do 24 (destruct n as [|n]; [vm_compute; reflexivity|]). lia. }
  destruct (@lastBreak_boundary (js "https://example.com/page")
              ltac:(vm_compute; reflexivity)) as [Hb Hmax].
  change (Z.to_nat (lastBreak (js "https://example.com/page"))) with 20
    in Hb, Hmax.
  assert (Hlt : 20 < length (js "https://example.com/page")) by (cbn; lia).
  split; [exact H|]. split; [exact Hb|]. split; [exact Hmax|].
  split; [exact Hlt|].
  exact (@short_url_takes_two_footer_lines courier rect400
           (js "https://example.com/page") None None 20 H Hb Hmax Hlt).
Defined.

End FooterProperties.

Module CaptureFacts.
Import Orchestrator Capture.

Lemma begins_refl l : begins l l.
Proof. exists []. symmetry. apply app_nil_r. Qed.

Lemma begins_nil l : begins [] l.
Proof. exists l. reflexivity. Qed.

Lemma begins_app l l1 l2 : begins l1 l2 -> begins (l ++ l1) (l ++ l2).
Proof. intros [rest ->]. exists rest. apply app_assoc. Qed.

Lemma begins_cons x l1 l2 : begins l1 l2 -> begins (x :: l1) (x :: l2).
Proof. apply (@begins_app [x]). Qed.

Lemma begins_longer l1 l2 l3 : begins l1 l2 -> begins l1 (l2 ++ l3).
Proof. intros [rest ->]. exists (rest ++ l3). symmetry. apply app_assoc. Qed.

Lemma begins_without x l1 l2 : begins l1 l2 -> ~ In x l2 -> ~ In x l1.
Proof. intros [rest ->] H Hin. apply H. apply in_or_app. left. exact Hin. Qed.

Section Page.

Variable World : Type.
Variable answer : Op -> World -> result thrown unit * World.
Variable isolated :
  option jsstring -> World -> result thrown (option ElementRect.t) * World.
Variable produced : Op -> World -> result thrown (list Byte.byte) * World.
Variable closed : World -> World.
Variable inflate : list Byte.byte -> option (list Byte.byte).
Variable log1p : float -> float.
Variable maxByteLength : Z.
Variable message : Png.error -> jsstring.

Local Abbreviation setupPage := (setupPage answer).
Local Abbreviation removeElements := (removeElements answer).
Local Abbreviation capturePageInput :=
  (capturePageInput answer isolated produced closed inflate log1p
     maxByteLength message).

Lemma call_follows (A : Type)
  (f : Op -> World -> result thrown A * World) op :
  follows (call f op) [op].
Proof.
  intros w log. exists [op]. unfold call. destruct (f op w) as [r w'].
  cbn [fst snd]. split; [reflexivity|].
  destruct r; [reflexivity | apply begins_refl].
Qed.

Lemma ret_follows (A : Type) (a : A) : follows (@ret World A a) [].
Proof. intros w log. exists []. cbn. rewrite app_nil_r. auto. Qed.

Lemma then_follows (A B : Type) (t : Task World A) (f : A -> Task World B)
  script1 script2 :
  follows t script1 -> (forall a, follows (f a) script2) ->
  follows (then_ t f) (script1 ++ script2).
Proof.
  intros Ht Hf w log. destruct (Ht w log) as (ops1 & Hlog & Hres).
  unfold then_. destruct (t (w, log)) as [[a|e] [w1 log1]];
    cbn [fst snd] in *; subst log1.
  - subst ops1. destruct (Hf a w1 (log ++ script1)) as (ops2 & Hlog2 & Hres2).
    exists (script1 ++ ops2). rewrite Hlog2, app_assoc.
    split; [reflexivity|].
    destruct (fst (f a (w1, log ++ script1))).
    + subst ops2. reflexivity.
    + apply begins_app. exact Hres2.
  - exists ops1. split; [reflexivity|]. apply begins_longer. exact Hres.
Qed.

Lemma for_of_follows (A : Type) (f : A -> Task World unit) (g : A -> Op) l :
  (forall x, follows (f x) [g x]) -> follows (for_of l f) (map g l).
Proof.
  intros Hf. induction l as [|x l IH]; cbn [for_of map].
  - apply ret_follows.
  - apply (@then_follows unit unit (f x) (fun _ => for_of l f) [g x]
             (map g l)); [apply Hf | intros _; exact IH].
Qed.

Lemma setupPage_follows url selector wait :
  follows (setupPage url selector wait)
    ([setUserAgent USER_AGENT; setViewport 1920 1080 1 true false true;
      emulateMediaType (js "screen"); goto url (js "networkidle0") 60000] ++
     map (fun w => waitForSelector (Some w) 60000) wait ++
     [waitForSelector selector 60000]).
Proof.
  unfold Capture.setupPage.
  apply (@then_follows unit unit _ _ [_] (_ ++ _ ++ _));
    [apply call_follows | intros _].
  apply (@then_follows unit unit _ _ [_] (_ ++ _ ++ _));
    [apply call_follows | intros _].
  apply (@then_follows unit unit _ _ [_] (_ ++ _ ++ _));
    [apply call_follows | intros _].
  apply (@then_follows unit unit _ _ [_] (_ ++ _));
    [apply call_follows | intros _].
  apply then_follows; [|intros _; apply call_follows].
  apply for_of_follows. intros x. apply call_follows.
Qed.

Lemma removeElements_follows selectors :
  follows (removeElements selectors)
    match selectors with
    | [] => []
    | _ :: _ => [evaluate_remove selectors]
    end.
Proof.
  destruct selectors; [apply ret_follows | apply call_follows].
Qed.

Lemma opening_without_close url options : ~ In close (opening url options).
Proof.
  unfold opening. intros H.
  repeat (apply in_app_or in H; destruct H as [H|H]).
  - cbn in H. repeat (destruct H as [H|H]; [discriminate|]). exact H.
  - apply in_map_iff in H. destruct H as (x & Hx & _). discriminate.
  - cbn in H. repeat (destruct H as [H|H]; [discriminate|]). exact H.
  - destruct (opt_remove options); cbn in H;
      repeat (destruct H as [H|H]; [discriminate|]); exact H.
  - cbn in H. repeat (destruct H as [H|H]; [discriminate|]). exact H.
Qed.

Lemma rendering_without_close rect : ~ In close (rendering rect).
Proof.
  cbn. intros H. repeat (destruct H as [H|H]; [discriminate|]). exact H.
Qed.

(** Up to the isolation script. *)
Lemma preparation_follows url options :
  follows
    (then_ (setupPage url (selector options) (opt_wait options))
       (fun _ => removeElements (opt_remove options)))
    ([setUserAgent USER_AGENT; setViewport 1920 1080 1 true false true;
      emulateMediaType (js "screen"); goto url (js "networkidle0") 60000] ++
     map (fun w => waitForSelector (Some w) 60000) (opt_wait options) ++
     [waitForSelector (selector options) 60000] ++
     match opt_remove options with
     | [] => []
     | _ :: _ => [evaluate_remove (opt_remove options)]
     end).
Proof.
  pose proof (@then_follows unit unit _ _ _ _
                (setupPage_follows url (selector options) (opt_wait options))
                (fun _ => removeElements_follows (opt_remove options)))
    as H.
  rewrite <- !app_assoc in H. exact H.
Qed.

Lemma throw_follows (A : Type) e : follows (@throw World A e) [].
Proof.
  intros w log. exists []. cbn. rewrite app_nil_r.
  split; [reflexivity | apply begins_nil].
Qed.

Lemma vibrantColor_follows buffer :
  follows (@vibrantColor World inflate log1p maxByteLength message buffer) [].
Proof.
  unfold vibrantColor.
  destruct (Png.vibrantColorFromPng _ _ _ _);
    [apply ret_follows | apply throw_follows].
Qed.

(** What follows the isolation script when it has returned [rect]. *)
Local Abbreviation rendered url options rect :=
  (then_ (call produced
            (screenshot (ElementRect.left rect) (ElementRect.top rect)
               (ElementRect.width rect) (ElementRect.height rect)
               0.1 (js "png")))
         (fun screenshotBuffer =>
   then_ (@vibrantColor World inflate log1p maxByteLength message screenshotBuffer)
         (fun dominantColor =>
   then_ (fixGradientTransparency answer) (fun _ =>
   then_ (call produced
            (pdf (ElementRect.fullWidth rect)
               (ElementRect.fullHeight rect) true))
         (fun rawPdf =>
   ret (PageInput.mk rawPdf rect dominantColor url (opt_margin options)
          (opt_padding options))))))).

Lemma rendered_follows url options rect :
  follows (rendered url options rect) (rendering rect).
Proof.
  apply (@then_follows _ _ _ _ [_] [_; _]);
    [apply call_follows | intros buffer].
  apply (@then_follows _ _ _ _ [] [_; _]);
    [apply vibrantColor_follows | intros c].
  apply (@then_follows _ _ _ _ [_] [_]);
    [apply call_follows | intros _].
  apply (@then_follows _ _ _ _ [_] []);
    [apply call_follows | intros rawPdf].
  apply ret_follows.
Qed.

(** The page input returned is made of the rectangle, the URL and the
    spacings given. *)
Lemma rendered_value url options rect s p :
  fst (rendered url options rect s) = Ok p ->
  PageInput.rect p = rect /\ PageInput.url p = url /\
  PageInput.margin p = opt_margin options /\
  PageInput.padding p = opt_padding options.
Proof.
  unfold fixGradientTransparency, vibrantColor, then_, call, ret, throw.
  destruct s as [w log].
  destruct (produced _ w) as [[buffer|e] w1]; [|discriminate].
  destruct (Png.vibrantColorFromPng _ _ _ _) as [c|e]; [|discriminate].
  cbv beta iota.
  destruct (answer _ w1) as [[[]|e] w2]; [|discriminate].
  cbv beta iota.
  destruct (produced _ w2) as [[rawPdf|e] w3]; [|discriminate].
  cbn [fst]. intros [= <-]. repeat split.
Qed.

Lemma after_isolation (A : Type) selector
  (k : option ElementRect.t -> Task World A) w1 log1 :
  then_ (isolateElement isolated selector) k (w1, log1) =
  match isolated selector w1 with
  | (Ok rect, w2) => k rect (w2, log1 ++ [evaluate_isolate selector])
  | (Throw e, w2) => (Throw e, (w2, log1 ++ [evaluate_isolate selector]))
  end.
Proof.
  unfold then_, isolateElement, call.
  destruct (isolated selector w1) as [[rect|e] w2]; reflexivity.
Qed.

(** The body of the [try], with the preparation taken together. *)
Lemma capturePageInput_unfold url options s :
  capturePageInput url options s =
  (let '(r, s') :=
     match then_ (setupPage url (selector options) (opt_wait options))
             (fun _ => removeElements (opt_remove options)) s with
     | (Ok _, s1) =>
         then_ (isolateElement isolated (selector options))
           (fun rect =>
              match rect with
              | None => throw (selectorNotFound (selector options) url)
              | Some rect => rendered url options rect
              end) s1
     | (Throw e, s1) => (Throw e, s1)
     end in
   (r, let '(w', log') := s' in (closed w', log' ++ [close]))).
Proof.
  unfold Capture.capturePageInput, finally, then_.
  destruct (setupPage url (selector options) (opt_wait options) s)
    as [[[]|e] s1]; [|reflexivity].
  destruct (removeElements (opt_remove options) s1) as [[[]|e] s2];
    reflexivity.
Qed.

End Page.

End CaptureFacts.


Module CaptureProperties.
Import Orchestrator Capture CaptureFacts.

(** Whatever the page answers, [capturePageInput] closes it, once and as
    its last call.  The calls before are the script of a capture: all of
    it when a page input is returned (made of the rectangle found, the URL
    and the spacings given), and a beginning of it when something is
    thrown; nothing is rendered before the isolation script has
    returned. *)
Theorem capture_closes_the_page (World : Type)
  (answer : Op -> World -> result thrown unit * World)
  (isolated :
     option jsstring -> World -> result thrown (option ElementRect.t) * World)
  (produced : Op -> World -> result thrown (list Byte.byte) * World)
  (closed : World -> World)
  (inflate : list Byte.byte -> option (list Byte.byte))
  (log1p : float -> float) (maxByteLength : Z)
  (message : Png.error -> jsstring)
  (url : jsstring) (options : CaptureOptions) (w : World) (log : list Op) :
  let run :=
    capturePageInput answer isolated produced closed inflate log1p
      maxByteLength message url options (w, log) in
  exists ops,
    snd (snd run) = log ++ ops ++ [close] /\
    ~ In close ops /\
    match fst run with
    | Ok p =>
        ops = opening url options ++ rendering (PageInput.rect p) /\
        PageInput.url p = url /\
        PageInput.margin p = opt_margin options /\
        PageInput.padding p = opt_padding options
    | Throw _ =>
        begins ops (opening url options) \/
        exists rect, begins ops (opening url options ++ rendering rect)
    end.
Proof.
  intros run. subst run. rewrite capturePageInput_unfold.
  destruct (preparation_follows answer url options w log)
    as (ops1 & Hlog1 & Hres1).
  set (script := _ ++ _ ++ _ ++ _) in Hres1.
  assert (Hopening : opening url options =
                     script ++ [evaluate_isolate (selector options)]).
  { unfold opening, script. rewrite <- !app_assoc. reflexivity. }
  destruct (then_ _ _ (w, log)) as [[[]|e] [w1 log1]];
    cbn [fst snd] in Hlog1, Hres1; subst log1.
  - subst ops1. rewrite after_isolation.
    destruct (isolated (selector options) w1) as [[[rect|]|e] w2].
    + destruct (rendered_follows answer produced inflate log1p maxByteLength
                  message url options rect w2
                  ((log ++ script) ++ [evaluate_isolate (selector options)]))
        as (ops2 & Hlog2 & Hres2).
      pose proof (@rendered_value World answer produced inflate log1p
                    maxByteLength message url options rect
                    (w2, (log ++ script) ++
                         [evaluate_isolate (selector options)])) as Hvalue.
      destruct (then_ _ _ (w2, _)) as [[p|e] [w3 log3]];
        cbn [fst snd] in *; subst log3;
        exists (opening url options ++ ops2);
        (split; [rewrite Hopening, <- !app_assoc; reflexivity|]).
      * subst ops2. destruct (Hvalue p eq_refl) as (-> & Hu & Hm & Hp).
        split; [|repeat split; assumption].
        intros Hin. apply in_app_or in Hin. destruct Hin as [Hin|Hin].
        -- exact (@opening_without_close _ _ Hin).
        -- exact (@rendering_without_close _ Hin).
      * split.
        -- apply (@begins_without close _ (opening url options ++ rendering rect)).
           ++ apply begins_app. exact Hres2.
           ++ intros Hin. apply in_app_or in Hin. destruct Hin as [Hin|Hin].
              ** exact (@opening_without_close _ _ Hin).
              ** exact (@rendering_without_close _ Hin).
        -- right. exists rect. apply begins_app. exact Hres2.
    + exists (opening url options). cbn [fst snd throw].
      split; [rewrite Hopening, <- !app_assoc; reflexivity|].
      split; [apply opening_without_close|]. left. apply begins_refl.
    + exists (opening url options). cbn [fst snd].
      split; [rewrite Hopening, <- !app_assoc; reflexivity|].
      split; [apply opening_without_close|]. left. apply begins_refl.
  - exists ops1. cbn [fst snd]. split; [rewrite app_assoc; reflexivity|].
    assert (Hb : begins ops1 (opening url options))
      by (rewrite Hopening; apply begins_longer; exact Hres1).
    split; [|left; exact Hb].
    apply (@begins_without close _ _ Hb). apply opening_without_close.
Qed.

(** When the calls before it have answered and the isolation script
    returns [null], [capturePageInput] throws the [SelectorNotFoundError]
    that names the selector and the URL; it has made the calls up to the
    isolation script and then closed the page, and has taken no screenshot
    and printed nothing. *)
Theorem missing_element_is_reported (World : Type)
  (answer : Op -> World -> result thrown unit * World)
  (isolated :
     option jsstring -> World -> result thrown (option ElementRect.t) * World)
  (produced : Op -> World -> result thrown (list Byte.byte) * World)
  (closed : World -> World)
  (inflate : list Byte.byte -> option (list Byte.byte))
  (log1p : float -> float) (maxByteLength : Z)
  (message : Png.error -> jsstring)
  (url : jsstring) (options : CaptureOptions) (w w1 w2 : World)
  (log log1 : list Op) :
  then_ (setupPage answer url (selector options) (opt_wait options))
    (fun _ => removeElements answer (opt_remove options)) (w, log) =
    (Ok tt, (w1, log1)) ->
  isolated (selector options) w1 = (Ok None, w2) ->
  capturePageInput answer isolated produced closed inflate log1p
    maxByteLength message url options (w, log) =
  (Throw (SelectorNotFoundError
            (js "Selector " ++ [34%N] ++ text_of (selector options) ++
             [34%N] ++ js " not found on " ++ url)),
   (closed w2, log ++ opening url options ++ [close])).
Proof.
  intros Hprep Hisolated. rewrite capturePageInput_unfold.
  destruct (preparation_follows answer url options w log)
    as (ops1 & Hlog1 & Hres1).
  rewrite Hprep in *. cbn [fst snd] in Hlog1, Hres1. subst ops1 log1.
  rewrite after_isolation, Hisolated.
  cbn [throw]. unfold selectorNotFound, opening.
  rewrite <- !app_assoc. reflexivity.
Qed.

Lemma missing_element_is_reported_witness :
  then_ (setupPage (blank_answer tt) (js "https://example.com/")
           (selector main_only) (opt_wait main_only))
    (fun _ => removeElements (blank_answer tt) (opt_remove main_only))
    (0, []) =
    (Ok tt,
     (6, [setUserAgent USER_AGENT; setViewport 1920 1080 1 true false true;
          emulateMediaType (js "screen");
          goto (js "https://example.com/") (js "networkidle0") 60000;
          waitForSelector (Some (js "#main")) 60000;
          evaluate_remove [js ".ads"]])) /\
  blank_isolated (selector main_only) 6 = (Ok None, 7) /\
  capturePageInput (blank_answer tt) blank_isolated (blank_answer [])
    S (fun z => Some z) (fun x => x) 0 (fun _ => js "error")
    (js "https://example.com/") main_only (0, []) =
  (Throw (SelectorNotFoundError
            (js "Selector " ++ [34%N] ++ js "#main" ++ [34%N] ++
             js " not found on https://example.com/")),
   (8, [setUserAgent USER_AGENT; setViewport 1920 1080 1 true false true;
        emulateMediaType (js "screen");
        goto (js "https://example.com/") (js "networkidle0") 60000;
        waitForSelector (Some (js "#main")) 60000;
        evaluate_remove [js ".ads"];
        evaluate_isolate (Some (js "#main")); close])).
Proof.
  split; [reflexivity|]. split; [reflexivity|].
  exact (@missing_element_is_reported nat (blank_answer tt) blank_isolated
           (blank_answer []) S (fun z => Some z) (fun x => x) 0
           (fun _ => js "error") (js "https://example.com/") main_only
           0 6 7 [] _ eq_refl eq_refl).
Defined.

(** [main] with this [capturePageInput]: when the items before [item]
    have been captured and, on the page of [item], the isolation script
    returns [null], the first attempt for [item] is the last call of the
    batch.  [main] throws the [SelectorNotFoundError] of that attempt; the
    page has been closed, and then the browser. *)
Theorem missing_element_aborts_the_batch (World : Type)
  (answer : Op -> World -> result thrown unit * World)
  (isolated :
     option jsstring -> World -> result thrown (option ElementRect.t) * World)
  (produced : Op -> World -> result thrown (list Byte.byte) * World)
  (closed : World -> World)
  (inflate : list Byte.byte -> option (list Byte.byte))
  (log1p : float -> float) (maxByteLength : Z)
  (message : Png.error -> jsstring)
  (close_browser : State World -> State World)
  (deliver : list PageInput.t -> State World ->
             result thrown jsstring * State World)
  (body : Body) (done rest : list Item) (item : Item)
  (pageInputs : list PageInput.t) (s0 : State World) (w w1 w2 : World)
  (log log1 : list Op) (calls : list (Call PageInput.t)) :
  let capture := fun s url options =>
    capturePageInput answer isolated produced closed inflate log1p
      maxByteLength message url options s in
  let options := optionsOf body item in
  items body = done ++ item :: rest ->
  item_loop capture body done [] s0 [] = (Ok pageInputs, (w, log), calls) ->
  then_ (setupPage answer (url item) (selector options) (opt_wait options))
    (fun _ => removeElements answer (opt_remove options)) (w, log) =
    (Ok tt, (w1, log1)) ->
  isolated (selector options) w1 = (Ok None, w2) ->
  main capture close_browser deliver body s0 =
  (Throw (selectorNotFound (selector options) (url item)),
   close_browser (closed w2, log ++ opening (url item) options ++ [close]),
   calls ++ [mkCall (url item) 1
               (Throw (selectorNotFound (selector options) (url item)))]).
Proof.
  intros capture options Hitems Hdone Hprep Hisolated.
  rewrite (@OrchestratorClaims.main_aborts _ _ capture close_browser deliver
             body done item rest pageInputs s0 (w, log) calls Hitems Hdone).
  assert (Hcapture :
            capture (w, log) (url item) options =
            (Throw (selectorNotFound (selector options) (url item)),
             (closed w2, log ++ opening (url item) options ++ [close]))).
  { unfold capture. rewrite capturePageInput_unfold.
    destruct (preparation_follows answer (url item) options w log)
      as (ops1 & Hlog1 & Hres1).
    rewrite Hprep in *. cbn [fst snd] in Hlog1, Hres1. subst ops1 log1.
    rewrite after_isolation, Hisolated.
    cbn [throw]. unfold opening. rewrite <- !app_assoc. reflexivity. }
  unfold captureItem, MAX_ATTEMPTS. cbn [seq attempt_loop].
  fold options. rewrite Hcapture. reflexivity.
Qed.

Lemma missing_element_aborts_the_batch_witness :
  items one_body = [] ++ one_item :: [] /\
  item_loop
    (fun s url options =>
       capturePageInput (blank_answer tt) blank_isolated (blank_answer [])
         S (fun z => Some z) (fun x => x) 0 (fun _ => js "error")
         url options s)
    one_body [] [] (0, []) [] = (Ok [], (0, []), []) /\
  then_ (setupPage (blank_answer tt) (url one_item)
           (selector (optionsOf one_body one_item))
           (opt_wait (optionsOf one_body one_item)))
    (fun _ => removeElements (blank_answer tt)
                (opt_remove (optionsOf one_body one_item))) (0, []) =
    (Ok tt,
     (5, [setUserAgent USER_AGENT; setViewport 1920 1080 1 true false true;
          emulateMediaType (js "screen");
          goto (js "https://example.com/") (js "networkidle0") 60000;
          waitForSelector (Some (js "#main")) 60000])) /\
  blank_isolated (selector (optionsOf one_body one_item)) 5 = (Ok None, 6) /\
  main
    (fun s url options =>
       capturePageInput (blank_answer tt) blank_isolated (blank_answer [])
         S (fun z => Some z) (fun x => x) 0 (fun _ => js "error")
         url options s)
    (fun s => s) (fun _ s => (Ok (js "pdf"), s)) one_body (0, []) =
  (Throw (SelectorNotFoundError
            (js "Selector " ++ [34%N] ++ js "#main" ++ [34%N] ++
             js " not found on https://example.com/")),
   (7, [setUserAgent USER_AGENT; setViewport 1920 1080 1 true false true;
        emulateMediaType (js "screen");
        goto (js "https://example.com/") (js "networkidle0") 60000;
        waitForSelector (Some (js "#main")) 60000;
        evaluate_isolate (Some (js "#main")); close]),
   [mkCall (js "https://example.com/") 1
      (Throw (SelectorNotFoundError
                (js "Selector " ++ [34%N] ++ js "#main" ++ [34%N] ++
                 js " not found on https://example.com/")))]).
Proof.
  split; [reflexivity|]. split; [reflexivity|]. split; [reflexivity|].
  split; [reflexivity|].
  exact (@missing_element_aborts_the_batch nat (blank_answer tt)
           blank_isolated (blank_answer []) S (fun z => Some z)
           (fun x => x) 0 (fun _ => js "error") (fun s => s)
           (fun _ s => (Ok (js "pdf"), s)) one_body [] [] one_item []
           (0, []) 0 5 6 [] _ [] eq_refl eq_refl eq_refl eq_refl).
Defined.

End CaptureProperties.

Module FormFacts.
Import Gradient Form.

(** ** [split] *)

Lemma split_not_nil sep s : split sep s <> [].
Proof.
  destruct s as [|c t]; cbn [split]; [discriminate|].
  destruct (N.eqb c sep); [discriminate|].
  destruct (split sep t); discriminate.
Qed.

Lemma split_without sep : forall s piece,
  In piece (split sep s) -> ~ In sep piece.
Proof.
  induction s as [|c t IH]; intros piece H; cbn [split] in H.
  - destruct H as [<-|[]]. intros [].
  - destruct (N.eqb c sep) eqn:E.
    + destruct H as [<-|H]; [intros [] | apply (IH _ H)].
    + apply N.eqb_neq in E. destruct (split sep t) as [|p ps] eqn:Es.
      * destruct H as [<-|[]]. intros [->|[]]. congruence.
      * destruct H as [<-|H].
        -- intros [->|Hin]; [congruence|].
           apply (IH p); [left; reflexivity | exact Hin].
        -- apply IH. right. exact H.
Qed.

Lemma split_none sep : forall l, ~ In sep l -> split sep l = [l].
Proof.
  induction l as [|c l IH]; intros H; [reflexivity|].
  cbn [split]. destruct (N.eqb c sep) eqn:E.
  - apply N.eqb_eq in E. exfalso. apply H. left. exact E.
  - rewrite IH; [reflexivity|]. intros Hin. apply H. right. exact Hin.
Qed.

Lemma split_app sep : forall l t,
  ~ In sep l -> split sep (l ++ sep :: t) = l :: split sep t.
Proof.
  induction l as [|c l IH]; intros t H.
  - cbn [app split]. rewrite N.eqb_refl. reflexivity.
  - cbn [app split]. destruct (N.eqb c sep) eqn:E.
    + apply N.eqb_eq in E. exfalso. apply H. left. exact E.
    + rewrite IH; [reflexivity|]. intros Hin. apply H. right. exact Hin.
Qed.

Lemma split_join lines :
  lines <> [] -> Forall (fun l => ~ In 10%N l) lines ->
  split 10%N (join_lines lines) = lines.
Proof.
  intros Hne H. induction H as [|l rest Hl Hrest IH]; [congruence|].
  destruct rest as [|l2 rest].
  - cbn [join_lines]. apply split_none. exact Hl.
  - change (join_lines (l :: l2 :: rest))
      with (l ++ 10%N :: join_lines (l2 :: rest)).
    rewrite split_app by exact Hl. rewrite IH by discriminate. reflexivity.
Qed.

(** ** [trim] *)

Lemma trimStart_head : forall s c rest,
  trimStart s = c :: rest -> is_space c = false.
Proof.
  induction s as [|x s IH]; intros c rest H; cbn [trimStart] in H;
    [discriminate|].
  destruct (is_space x) eqn:E; [apply (IH _ _ H)|]. congruence.
Qed.

Lemma trimStart_suffix : forall s, exists sp, s = sp ++ trimStart s.
Proof.
  induction s as [|x s [sp IH]]; [exists []; reflexivity|].
  cbn [trimStart]. destruct (is_space x).
  - exists (x :: sp). cbn [app]. rewrite <- IH. reflexivity.
  - exists []. reflexivity.
Qed.

Lemma trimStart_id s :
  (forall c rest, s = c :: rest -> is_space c = false) -> trimStart s = s.
Proof.
  intros H. destruct s as [|x s]; [reflexivity|].
  cbn [trimStart]. rewrite (H x s eq_refl). reflexivity.
Qed.

Lemma trimEnd_last s front c :
  trimEnd s = front ++ [c] -> is_space c = false.
Proof.
  unfold trimEnd. intros H. apply (f_equal (@rev _)) in H.
  rewrite rev_involutive, rev_app_distr in H. cbn [rev app] in H.
  apply (@trimStart_head _ _ _ H).
Qed.

Lemma trimEnd_prefix s : exists sp, s = trimEnd s ++ sp.
Proof.
  unfold trimEnd. destruct (trimStart_suffix (rev s)) as [sp H].
  exists (rev sp). apply (f_equal (@rev _)) in H.
  rewrite rev_involutive, rev_app_distr in H. exact H.
Qed.

Lemma trimEnd_id s :
  (forall front c, s = front ++ [c] -> is_space c = false) -> trimEnd s = s.
Proof.
  intros H. unfold trimEnd. rewrite trimStart_id; [apply rev_involutive|].
  intros c rest E. apply (H (rev rest) c).
  apply (f_equal (@rev _)) in E. rewrite rev_involutive in E. exact E.
Qed.

(** What [trim] leaves is a part of the string. *)
Lemma trim_part s : exists sp1 sp2, s = sp1 ++ trim s ++ sp2.
Proof.
  unfold trim. destruct (trimStart_suffix s) as [sp1 H1].
  destruct (trimEnd_prefix (trimStart s)) as [sp2 H2].
  exists sp1, sp2. rewrite <- H2. exact H1.
Qed.

Lemma trim_clean s : trim s <> [] -> ~ In 10%N s -> clean (trim s).
Proof.
  intros Hne Hlf. split; [exact Hne|]. split; [|split].
  - intros Hin. apply Hlf. destruct (trim_part s) as (sp1 & sp2 & E).
    rewrite E. apply in_or_app. right. apply in_or_app. left. exact Hin.
  - intros c rest E. unfold trim in E.
    destruct (trimEnd_prefix (trimStart s)) as [sp H]. rewrite E in H.
    apply (@trimStart_head _ _ _ H).
  - intros front c E. apply (@trimEnd_last _ _ _ E).
Qed.

Lemma trim_id l : clean l -> trim l = l.
Proof.
  intros (_ & _ & Hhead & Hlast). unfold trim.
  rewrite (@trimStart_id _ Hhead). apply trimEnd_id. exact Hlast.
Qed.

Lemma truthy_not_nil l : truthy l = true <-> l <> [].
Proof. destruct l; cbn; split; congruence. Qed.

End FormFacts.

Module FormProperties.
Import Gradient Orchestrator Form FormFacts.

(** Every line [parseLines] returns is clean: not empty, without a line
    feed and without white space at either end. *)
Theorem parseLines_lines_are_clean (s : jsstring) :
  Forall clean (parseLines s).
Proof.
  unfold parseLines. apply Forall_forall. intros l Hin.
  apply filter_In in Hin. destruct Hin as [Hin Ht].
  apply in_map_iff in Hin. destruct Hin as (piece & <- & Hpiece).
  apply trim_clean; [apply truthy_not_nil; exact Ht|].
  apply (@split_without _ _ _ Hpiece).
Qed.

(** Clean lines written one a line are read back as they are. *)
Theorem parseLines_reads_back (lines : list jsstring) :
  Forall clean lines -> parseLines (join_lines lines) = lines.
Proof.
  intros H. destruct lines as [|l rest]; [reflexivity|].
  unfold parseLines. rewrite split_join; [|discriminate|].
  - induction H as [|x xs Hx _ IH]; [reflexivity|].
    cbn [map filter]. rewrite (@trim_id _ Hx).
    destruct Hx as (Hne & _). apply truthy_not_nil in Hne. rewrite Hne.
    f_equal. exact IH.
  - apply Forall_forall. intros x Hx. rewrite Forall_forall in H.
    apply (H x Hx).
Qed.

Lemma parseLines_reads_back_witness :
  Forall clean [js "#cookie-banner"; js ".ad"] /\
  parseLines (join_lines [js "#cookie-banner"; js ".ad"]) =
    [js "#cookie-banner"; js ".ad"].
Proof.
  assert (H : Forall clean [js "#cookie-banner"; js ".ad"]).
  { constructor; [|constructor; [|constructor]].
    - split; [discriminate|]. split; [|split].
      + cbn. intros H. repeat (destruct H as [H|H]; [discriminate|]). exact H.
      + intros c rest [= <- _]. reflexivity.
      + intros front c E.
        change (js "#cookie-banner") with (js "#cookie-banne" ++ [cu "r"]) in E.
        apply app_inj_tail in E. destruct E as [_ <-]. reflexivity.
    - split; [discriminate|]. split; [|split].
      + cbn. intros H. repeat (destruct H as [H|H]; [discriminate|]). exact H.
      + intros c rest [= <- _]. reflexivity.
      + intros front c E.
        change (js ".ad") with (js ".a" ++ [cu "d"]) in E.
        apply app_inj_tail in E. destruct E as [_ <-]. reflexivity. }
  split; [exact H|].
  exact (@parseLines_reads_back [js "#cookie-banner"; js ".ad"] H).
Defined.

(** From the form to the options of a capture: a field of an item that
    is left blank takes the value of the form's field of the same name,
    and a field that is filled in replaces it.  For the main selector
    blank is the empty string; for the selectors to wait for and to remove
    it is a text without a clean line. *)
Theorem blank_fields_inherit (form_selectors item_selectors : SelectorFields)
  (name : option jsstring) (form_document : option Document)
  (items : list Item) (url : jsstring) (document : option Document) :
  let body :=
    mkBody name (buildSelectors form_selectors) form_document items in
  let item := mkItem url (buildSelectors item_selectors) document in
  selector (optionsOf body item) =
    (if truthy (main item_selectors) then Some (main item_selectors)
     else if truthy (main form_selectors) then Some (main form_selectors)
     else None) /\
  opt_wait (optionsOf body item) =
    match parseLines (wait item_selectors) with
    | [] => parseLines (wait form_selectors)
    | line :: lines => line :: lines
    end /\
  opt_remove (optionsOf body item) =
    match parseLines (remove item_selectors) with
    | [] => parseLines (remove form_selectors)
    | line :: lines => line :: lines
    end.
Proof.
  intros body item. unfold optionsOf, body, item, buildSelectors.
  cbn [selectors body_selectors selector opt_wait opt_remove].
  destruct (truthy (main item_selectors)),
           (truthy (main form_selectors)),
           (parseLines (wait item_selectors)),
           (parseLines (wait form_selectors)),
           (parseLines (remove item_selectors)),
           (parseLines (remove form_selectors));
    repeat split.
Qed.

(** An item with a main selector of its own and nothing else, under a
    form that waits for one selector. *)
Example item_under_form :
  optionsOf
    (mkBody None
       (buildSelectors (mkFields (js "#main") (js " .loaded ") []))
       None [])
    (mkItem (js "https://example.com/")
       (buildSelectors (mkFields (js "article") (js "   ") [])) None) =
  mkOptions (Some (js "article")) [js ".loaded"] [] None None.
Proof. reflexivity. Qed.

End FormProperties.

Module TokenFacts.
Import RegexFacts RunFacts CssColorFacts ReplaceFacts FileNameFacts.
Import Gradient GradientSyntax.

(** ** Runs of a class, with what follows failing or not *)

Lemma keep_some (A : Type) (o : option A) :
  match o with Some x => Some x | None => None end = o.
Proof. destruct o; reflexivity. Qed.

(** A greedy run gives back nothing when what follows cannot start inside
    the run. *)
Lemma star_stop p run rest c (k : cont) :
  forallb p run = true ->
  match rest with [] => True | y :: _ => p y = false end ->
  (forall u v x, run = u ++ x :: v -> k (x :: v ++ rest) c = None) ->
  rmatch (Star (Class p)) (run ++ rest) c k = k rest c.
Proof.
  intros Hrun Hrest. induction run as [|a run IH]; intros Hk.
  - rewrite star_unfold. cbn [app].
    destruct rest as [|y rest]; [reflexivity|].
    rewrite class_cons, Hrest. reflexivity.
  - cbn [forallb] in Hrun. apply andb_true_iff in Hrun.
    destruct Hrun as [Ha Hrun].
    rewrite star_unfold. cbn [app]. rewrite class_cons, Ha.
    assert (E : (length (run ++ rest) <? length (a :: run ++ rest)) = true)
      by (apply Nat.ltb_lt; cbn [length]; lia).
    rewrite E, (IH Hrun).
    + rewrite (Hk [] run a eq_refl). apply keep_some.
    + intros u v x ->. apply (Hk (a :: u) v x). reflexivity.
Qed.

Lemma star_skip p rest c (k : cont) :
  match rest with [] => True | y :: _ => p y = false end ->
  rmatch (Star (Class p)) rest c k = k rest c.
Proof.
  intros Hrest. apply (@star_stop p [] rest c k eq_refl Hrest).
  intros [|? ?] v x H; discriminate.
Qed.

(** One unit of the class: first with it taken, then without. *)
Lemma star_one p x rest c (k : cont) :
  p x = true ->
  match rest with [] => True | y :: _ => p y = false end ->
  rmatch (Star (Class p)) (x :: rest) c k =
  match k rest c with
  | Some y => Some y
  | None => k (x :: rest) c
  end.
Proof.
  intros Hx Hrest. rewrite star_unfold, class_cons, Hx.
  assert (E : (length rest <? length (x :: rest)) = true)
    by (apply Nat.ltb_lt; cbn [length]; lia).
  rewrite E, (@star_skip p rest c k Hrest). reflexivity.
Qed.

(** ** The units of a colour token *)

Local Abbreviation figure := (fun c => digit c || is_char "." c)%bool.

Lemma digit_figure y : digit y = true -> figure y = true.
Proof. intros H. cbv beta. rewrite H. reflexivity. Qed.

Lemma figure_range y : figure y = true -> (46 <= y <= 57)%N /\ y <> 47%N.
Proof.
  cbv beta. unfold digit, in_range, is_char.
  cbn [cu N_of_ascii N_of_digits]. intros H.
  apply orb_true_iff in H. destruct H as [H|H].
  - apply andb_true_iff in H. destruct H as [H1 H2].
    apply N.leb_le in H1, H2. lia.
  - apply N.eqb_eq in H. lia.
Qed.

Lemma figure_not_space y : figure y = true -> is_space y = false.
Proof.
  intros H. apply figure_range in H.
  unfold is_space, in_range.
  repeat match goal with
         | |- (_ || _)%bool = false => apply orb_false_iff; split
         | |- N.eqb _ _ = false => apply N.eqb_neq; lia
         end.
  - apply andb_false_iff. right. apply N.leb_gt. lia.
  - apply andb_false_iff. left. apply N.leb_gt. lia.
Qed.

Lemma figure_not_char a y :
  figure y = true -> (cu a < 46)%N \/ cu a = 47%N \/ (57 < cu a)%N ->
  is_char a y = false.
Proof.
  intros H Ha. apply figure_range in H. unfold is_char.
  apply N.eqb_neq. lia.
Qed.

Lemma space_is_space : is_space (cu " ") = true.
Proof. reflexivity. Qed.

Lemma numeral_head n :
  numeral n -> exists y t, n = y :: t /\ digit y = true /\
                           forallb digit t = true.
Proof.
  intros [Hne H]. destruct n as [|y t]; [contradiction|].
  cbn [forallb] in H. apply andb_true_iff in H. destruct H as [Hy Ht].
  exists y, t. repeat split; assumption.
Qed.

Lemma alpha_head a :
  alpha_value a -> exists y t, a = y :: t /\ figure y = true /\
                               forallb figure t = true.
Proof.
  intros [Hne H]. destruct a as [|y t]; [contradiction|].
  cbn [forallb] in H. apply andb_true_iff in H. destruct H as [Hy Ht].
  exists y, t. repeat split; assumption.
Qed.

Lemma digits_figures t : forallb digit t = true -> forallb figure t = true.
Proof.
  induction t as [|y t IH]; [reflexivity|]. cbn [forallb]. intros H.
  apply andb_true_iff in H. destruct H as [Hy Ht].
  rewrite (digit_figure _ Hy), (IH Ht). reflexivity.
Qed.

Lemma is_zero_cons y t :
  is_zero (y :: t) = (is_char "0" y && match t with [] => true | _ => false end)%bool.
Proof.
  unfold is_zero, is_char.
  destruct (list_eq_dec N.eq_dec (y :: t) (js "0")) as [E|E].
  - injection E as -> ->. reflexivity.
  - destruct (N.eqb_spec y (cu "0")) as [->|Hy]; [|reflexivity].
    destruct t; [contradiction E; reflexivity | reflexivity].
Qed.

(** ** The pattern for a transparent black, piece by piece *)

Lemma ws_figure F Y c (k : cont) :
  F <> [] -> forallb figure F = true ->
  rmatch ws (F ++ Y) c k = k (F ++ Y) c.
Proof.
  intros Hne HF. destruct F as [|y F]; [contradiction|].
  cbn [forallb] in HF. apply andb_true_iff in HF.
  apply star_skip. cbn [app]. apply figure_not_space. apply HF.
Qed.

Lemma ws_space_figure F Y c (k : cont) :
  F <> [] -> forallb figure F = true ->
  k (cu " " :: F ++ Y) c = None ->
  rmatch ws (cu " " :: F ++ Y) c k = k (F ++ Y) c.
Proof.
  intros Hne HF Hk. unfold ws. rewrite star_one.
  - rewrite Hk. apply keep_some.
  - reflexivity.
  - destruct F as [|y F]; [contradiction|].
    cbn [forallb] in HF. apply andb_true_iff in HF.
    cbn [app]. apply figure_not_space. apply HF.
Qed.

Lemma zero_figure F Y c (k : cont) :
  F <> [] -> forallb figure F = true ->
  (forall y s, figure y = true -> k (y :: s) c = None) ->
  rmatch (Chr "0") (F ++ Y) c k = if is_zero F then k Y c else None.
Proof.
  intros Hne HF Hk. destruct F as [|y F]; [contradiction|].
  cbn [forallb] in HF. apply andb_true_iff in HF. destruct HF as [Hy HF].
  cbn [app]. unfold Chr. rewrite class_cons, is_zero_cons.
  destruct (is_char "0" y); [|reflexivity].
  destruct F as [|z F]; [reflexivity|].
  cbn [forallb] in HF. apply andb_true_iff in HF.
  cbn [andb app]. apply Hk. apply HF.
Qed.

Lemma zero_space r s c k : rmatch (Seq (Chr "0") r) (cu " " :: s) c k = None.
Proof. reflexivity. Qed.

(** What stands behind a [0] of the pattern does not start with a figure. *)
Lemma ws_chr_figure a r y s c k :
  figure y = true -> (cu a < 46)%N \/ cu a = 47%N \/ (57 < cu a)%N ->
  rmatch (Seq ws (Seq (Chr a) r)) (y :: s) c k = None.
Proof.
  intros Hy Ha. rewrite seq_unfold. unfold ws. rewrite star_skip.
  - rewrite seq_unfold. unfold Chr. rewrite class_cons.
    rewrite (@figure_not_char a y Hy Ha). reflexivity.
  - apply figure_not_space. exact Hy.
Qed.

Lemma ws_end_figure a y s c k :
  figure y = true -> (cu a < 46)%N \/ cu a = 47%N \/ (57 < cu a)%N ->
  rmatch (Seq ws (Chr a)) (y :: s) c k = None.
Proof.
  intros Hy Ha. rewrite seq_unfold. unfold ws. rewrite star_skip.
  - unfold Chr. rewrite class_cons.
    rewrite (@figure_not_char a y Hy Ha). reflexivity.
  - apply figure_not_space. exact Hy.
Qed.

Lemma ws1_outside r y s c k :
  is_space y = false -> rmatch (Seq ws1 r) (y :: s) c k = None.
Proof.
  intros Hy. unfold ws1, Plus. rewrite !seq_unfold, class_cons, Hy.
  reflexivity.
Qed.

(** [\s*0] and what follows, on a number. *)
Lemma ws_zero r F Y c k :
  F <> [] -> forallb figure F = true ->
  (forall y s, figure y = true -> rmatch r (y :: s) c k = None) ->
  rmatch (Seq ws (Seq (Chr "0") r)) (F ++ Y) c k =
  if is_zero F then rmatch r Y c k else None.
Proof.
  intros Hne HF Hr.
  rewrite seq_unfold, (@ws_figure F Y c _ Hne HF), seq_unfold.
  apply (@zero_figure F Y c (fun s1 c1 => rmatch r s1 c1 k) Hne HF Hr).
Qed.

Lemma ws_zero_space r F Y c k :
  F <> [] -> forallb figure F = true ->
  (forall y s, figure y = true -> rmatch r (y :: s) c k = None) ->
  rmatch (Seq ws (Seq (Chr "0") r)) (cu " " :: F ++ Y) c k =
  if is_zero F then rmatch r Y c k else None.
Proof.
  intros Hne HF Hr.
  rewrite seq_unfold, (@ws_space_figure F Y c _ Hne HF); [|apply zero_space].
  rewrite seq_unfold.
  apply (@zero_figure F Y c (fun s1 c1 => rmatch r s1 c1 k) Hne HF Hr).
Qed.

(** [\s*] and a separator, on the separator. *)
Lemma ws_chr a r Y c k :
  is_space (cu a) = false ->
  rmatch (Seq ws (Seq (Chr a) r)) (cu a :: Y) c k = rmatch r Y c k.
Proof.
  intros Ha. rewrite seq_unfold. unfold ws. rewrite star_skip by exact Ha.
  rewrite seq_unfold, chr_match. reflexivity.
Qed.

Lemma ws_chr_space a r y Y c k :
  is_space (cu a) = false -> is_space y = false ->
  rmatch (Seq ws (Seq (Chr a) r)) (cu " " :: y :: Y) c k =
  if is_char a y then rmatch r Y c k else None.
Proof.
  intros Ha Hy. rewrite seq_unfold. unfold ws.
  rewrite star_one; [|reflexivity|exact Hy].
  rewrite !seq_unfold. unfold Chr. rewrite !class_cons.
  replace (is_char a (cu " ")) with false.
  - destruct (is_char a y); [apply keep_some | reflexivity].
  - unfold is_char. symmetry. apply N.eqb_neq. intros E.
    rewrite <- E in Ha. discriminate.
Qed.

Lemma ws1_zero_space r F Y c k :
  F <> [] -> forallb figure F = true ->
  (forall y s, figure y = true -> rmatch r (y :: s) c k = None) ->
  rmatch (Seq ws1 (Seq (Chr "0") r)) (cu " " :: F ++ Y) c k =
  if is_zero F then rmatch r Y c k else None.
Proof.
  intros Hne HF Hr. unfold ws1, Plus.
  rewrite !seq_unfold, class_cons, space_is_space.
  change (Star (Class is_space)) with ws.
  rewrite (@ws_figure F Y c _ Hne HF), seq_unfold.
  apply (@zero_figure F Y c (fun s1 c1 => rmatch r s1 c1 k) Hne HF Hr).
Qed.

Lemma ws_close rest c k :
  rmatch (Seq ws (Chr ")")) (cu ")" :: rest) c k = k rest c.
Proof.
  rewrite seq_unfold. unfold ws. rewrite star_skip by reflexivity.
  apply chr_match.
Qed.

(** The end of the second alternative, [0[^)]*\)], on an alpha. *)
Lemma zero_to_close y t rest c k :
  forallb figure t = true ->
  rmatch (Seq (Chr "0")
            (Seq (Star (Class (fun x => negb (is_char ")" x)))) (Chr ")")))
    (y :: t ++ cu ")" :: rest) c k =
  if is_char "0" y then k rest c else None.
Proof.
  intros Ht. rewrite seq_unfold. unfold Chr at 1. rewrite class_cons.
  destruct (is_char "0" y); [|reflexivity].
  rewrite seq_unfold, star_stop.
  - apply chr_match.
  - clear - Ht. induction t as [|z t IH]; [reflexivity|].
    cbn [forallb] in *. apply andb_true_iff in Ht. destruct Ht as [Hz Ht].
    rewrite (IH Ht), (@figure_not_char ")" z Hz); [reflexivity|].
    left. cbn. lia.
  - reflexivity.
  - intros u v x ->. rewrite forallb_app in Ht.
    apply andb_true_iff in Ht. destruct Ht as [_ Ht].
    cbn [forallb] in Ht. apply andb_true_iff in Ht. destruct Ht as [Hx _].
    unfold Chr. rewrite class_cons, (@figure_not_char ")" x Hx);
      [reflexivity|]. left. cbn. lia.
Qed.

Lemma comma_below : (cu "," < 46)%N \/ cu "," = 47%N \/ (57 < cu ",")%N.
Proof. left. cbn. lia. Qed.

Lemma close_below : (cu ")" < 46)%N \/ cu ")" = 47%N \/ (57 < cu ")")%N.
Proof. left. cbn. lia. Qed.

Lemma slash_below : (cu "/" < 46)%N \/ cu "/" = 47%N \/ (57 < cu "/")%N.
Proof. right. left. reflexivity. Qed.

(** ** The pattern for a transparent black on a colour token *)

Lemma legacy_on_legacy r1 r2 R G B a rest c k :
  TRANSPARENT_RE = Or r1 r2 ->
  numeral R -> numeral G -> numeral B -> alpha_value a ->
  rmatch r1
    (js "rgba(" ++ R ++ js ", " ++ G ++ js ", " ++ B ++ js ", " ++ a ++
     js ")" ++ rest) c k =
  if (is_zero R && is_zero G && is_zero B && is_zero a)%bool
  then k rest c else None.
Proof.
  intros E [NR HR] [NG HG] [NB HB] [Na Ha]. injection E as <- _.
  apply digits_figures in HR, HG, HB.
  cbn [seqs]. unfold lit. rewrite seq_unfold.
  change (js "rgba(") with (map cu (list_ascii_of_string "rgba(")).
  rewrite lit_match.
  repeat change (js ", " ++ ?X) with (cu "," :: cu " " :: X).
  change (js ")" ++ ?X) with (cu ")" :: X).
  rewrite (@ws_zero _ R _ c k NR HR)
    by (intros; apply ws_chr_figure; [assumption | apply comma_below]).
  destruct (is_zero R); [|reflexivity].
  rewrite (@ws_chr "," _ _ c k) by reflexivity.
  rewrite (@ws_zero_space _ G _ c k NG HG)
    by (intros; apply ws_chr_figure; [assumption | apply comma_below]).
  destruct (is_zero G); [|reflexivity].
  rewrite (@ws_chr "," _ _ c k) by reflexivity.
  rewrite (@ws_zero_space _ B _ c k NB HB)
    by (intros; apply ws_chr_figure; [assumption | apply comma_below]).
  destruct (is_zero B); [|reflexivity].
  rewrite (@ws_chr "," _ _ c k) by reflexivity.
  rewrite (@ws_zero_space _ a _ c k Na Ha)
    by (intros; apply ws_end_figure; [assumption | apply close_below]).
  destruct (is_zero a); [|reflexivity].
  apply ws_close.
Qed.

Lemma legacy_on_modern r1 r2 R G Y c k :
  TRANSPARENT_RE = Or r1 r2 ->
  numeral R -> numeral G ->
  rmatch r1 (js "rgba(" ++ R ++ js " " ++ G ++ Y) c k = None.
Proof.
  intros E [NR HR] HG. injection E as <- _.
  destruct (numeral_head HG) as (y & t & -> & Hy & _).
  apply digits_figures in HR. apply digit_figure in Hy.
  cbn [seqs]. unfold lit. rewrite seq_unfold.
  change (js "rgba(") with (map cu (list_ascii_of_string "rgba(")).
  rewrite lit_match.
  repeat change (js " " ++ ?X) with (cu " " :: X). cbn [app].
  rewrite (@ws_zero _ R _ c k NR HR)
    by (intros; apply ws_chr_figure; [assumption | apply comma_below]).
  destruct (is_zero R); [|reflexivity].
  rewrite ws_chr_space;
    [|reflexivity | apply figure_not_space; exact Hy].
  rewrite (@figure_not_char "," y Hy comma_below). reflexivity.
Qed.

Lemma modern_on_legacy r1 r2 R Y c k :
  TRANSPARENT_RE = Or r1 r2 ->
  numeral R ->
  rmatch r2 (js "rgba(" ++ R ++ js ", " ++ Y) c k = None.
Proof.
  intros E [NR HR]. injection E as _ <-.
  apply digits_figures in HR.
  cbn [seqs]. unfold lit. rewrite seq_unfold.
  change (js "rgba(") with (map cu (list_ascii_of_string "rgba(")).
  rewrite lit_match.
  repeat change (js ", " ++ ?X) with (cu "," :: cu " " :: X).
  rewrite (@ws_zero _ R _ c k NR HR)
    by (intros; apply ws1_outside; apply figure_not_space; assumption).
  destruct (is_zero R); [|reflexivity].
  apply ws1_outside. reflexivity.
Qed.

Lemma modern_on_modern r1 r2 R G B y t rest c k :
  TRANSPARENT_RE = Or r1 r2 ->
  numeral R -> numeral G -> numeral B -> alpha_value (y :: t) ->
  rmatch r2
    (js "rgba(" ++ R ++ js " " ++ G ++ js " " ++ B ++ js " / " ++
     (y :: t) ++ js ")" ++ rest) c k =
  if (is_zero R && is_zero G && is_zero B && is_char "0" y)%bool
  then k rest c else None.
Proof.
  intros E [NR HR] [NG HG] [NB HB] [Na Ha]. injection E as _ <-.
  apply digits_figures in HR, HG, HB.
  cbn [forallb] in Ha. apply andb_true_iff in Ha. destruct Ha as [Hy Ht].
  cbn [seqs]. unfold lit. rewrite seq_unfold.
  change (js "rgba(") with (map cu (list_ascii_of_string "rgba(")).
  rewrite lit_match.
  change (js " / " ++ ?X) with (cu " " :: cu "/" :: cu " " :: X).
  repeat change (js " " ++ ?X) with (cu " " :: X).
  change (js ")" ++ ?X) with (cu ")" :: X).
  rewrite (@ws_zero _ R _ c k NR HR)
    by (intros; apply ws1_outside; apply figure_not_space; assumption).
  destruct (is_zero R); [|reflexivity].
  rewrite (@ws1_zero_space _ G _ c k NG HG)
    by (intros; apply ws1_outside; apply figure_not_space; assumption).
  destruct (is_zero G); [|reflexivity].
  rewrite (@ws1_zero_space _ B _ c k NB HB)
    by (intros; apply ws_chr_figure; [assumption | apply slash_below]).
  destruct (is_zero B); [|reflexivity].
  rewrite ws_chr_space by reflexivity.
  change (is_char "/" (cu "/")) with true. cbv iota.
  rewrite seq_unfold.
  change ((y :: t) ++ ?X) with ([y] ++ t ++ X).
  rewrite (@ws_space_figure [y] _ c _); [| discriminate | | apply zero_space].
  - cbn [app andb]. apply zero_to_close. exact Ht.
  - cbn [forallb]. cbv beta in Hy. rewrite Hy. reflexivity.
Qed.

Lemma transparent_or r1 r2 s c k :
  TRANSPARENT_RE = Or r1 r2 ->
  rmatch TRANSPARENT_RE s c k =
  match rmatch r1 s c k with
  | Some x => Some x
  | None => rmatch r2 s c k
  end.
Proof. intros ->. reflexivity. Qed.

(** Both alternatives start with [rgba(]. *)
Lemma transparent_start s c k :
  starts_with (js "rgba(") s = false -> rmatch TRANSPARENT_RE s c k = None.
Proof.
  intros H. rewrite (@transparent_or _ _ s c k eq_refl).
  cbn [seqs]. unfold lit.
  change (js "rgba(") with (map cu (list_ascii_of_string "rgba(")) in H.
  rewrite !(@lit_mismatch _ _ s c k H). reflexivity.
Qed.

(** The pattern matches a transparent black, all of it, and no other
    colour token. *)
Lemma transparent_token t rest c k :
  well_written_token t -> black_with_zero_led_alpha t = false ->
  rmatch TRANSPARENT_RE (write_token t ++ rest) c k =
  if transparent_black t then k rest c else None.
Proof.
  destruct t as [sy R G B al].
  unfold well_written_token, black_with_zero_led_alpha, transparent_black,
    write_token.
  cbn [syntax red_of green_of blue_of alpha_of].
  intros (HR & HG & HB & Ha) Hz.
  destruct al as [a|].
  - destruct sy; repeat rewrite <- app_assoc;
      rewrite (@transparent_or _ _ _ c k eq_refl).
    + rewrite (@legacy_on_legacy _ _ R G B a rest c k eq_refl HR HG HB Ha).
      rewrite (@modern_on_legacy _ _ R _ c k eq_refl HR).
      apply keep_some.
    + rewrite (@legacy_on_modern _ _ R G _ c k eq_refl HR HG).
      destruct (alpha_head Ha) as (y & u & -> & _).
      rewrite (@modern_on_modern _ _ R G B y u rest c k eq_refl HR HG HB Ha).
      rewrite is_zero_cons in *.
      destruct (is_zero R), (is_zero G), (is_zero B), (is_char "0" y), u;
        try reflexivity; discriminate.
  - rewrite andb_false_r.
    destruct sy; apply transparent_start; reflexivity.
Qed.

(** ** The pattern for a colour on a colour token *)

Local Abbreviation separator := (fun c => is_char "," c || is_char " " c)%bool.
Local Abbreviation alpha_mark := (fun c => is_char "," c || is_char "/" c)%bool.

Lemma space_below : (cu " " < 46)%N \/ cu " " = 47%N \/ (57 < cu " ")%N.
Proof. left. cbn. lia. Qed.

Lemma figure_not_separator y : figure y = true -> separator y = false.
Proof.
  intros H. cbv beta.
  rewrite (@figure_not_char "," y H comma_below),
    (@figure_not_char " " y H space_below). reflexivity.
Qed.

(** [\s*[, ]\s*] on a comma and a space, and on a space. *)
Lemma separator_comma r F Y c k :
  F <> [] -> forallb figure F = true ->
  rmatch (Seq ws (Seq (Class separator) (Seq ws r)))
    (cu "," :: cu " " :: F ++ Y) c k =
  match rmatch r (F ++ Y) c k with
  | Some x => Some x
  | None => rmatch r (cu " " :: F ++ Y) c k
  end.
Proof.
  intros Hne HF. rewrite seq_unfold. unfold ws.
  rewrite star_skip by reflexivity.
  rewrite seq_unfold, class_cons.
  change (separator (cu ",")) with true. cbv iota.
  rewrite seq_unfold, star_one; [reflexivity | reflexivity |].
  destruct F as [|y F]; [contradiction|].
  cbn [forallb] in HF. apply andb_true_iff in HF.
  cbn [app]. apply figure_not_space. apply HF.
Qed.

Lemma separator_space r F Y c k :
  F <> [] -> forallb figure F = true ->
  rmatch (Seq ws (Seq (Class separator) (Seq ws r)))
    (cu " " :: F ++ Y) c k =
  rmatch r (F ++ Y) c k.
Proof.
  intros Hne HF. rewrite seq_unfold. unfold ws at 1.
  assert (Hy : match F ++ Y with [] => True | y :: _ => figure y = true end).
  { destruct F as [|y F]; [contradiction|].
    cbn [forallb] in HF. apply andb_true_iff in HF. apply HF. }
  rewrite star_one; [|reflexivity|].
  - rewrite !seq_unfold.
    rewrite (class_cons _ (cu " ")).
    change (separator (cu " ")) with true. cbv iota beta.
    rewrite seq_unfold, (@ws_figure F Y c _ Hne HF).
    destruct (F ++ Y) as [|y s]; [reflexivity|].
    rewrite class_cons, (figure_not_separator _ Hy). reflexivity.
  - destruct (F ++ Y) as [|y s]; [exact I|].
    apply figure_not_space. exact Hy.
Qed.

Lemma channel_run n r F Y c k x :
  numeral F ->
  match Y with [] => True | y :: _ => digit y = false end ->
  rmatch r Y ((n, F) :: c) k = Some x ->
  rmatch (Seq (Group n (Plus (Class digit))) r) (F ++ Y) c k = Some x.
Proof.
  intros [Hne HF] HY H. rewrite seq_unfold.
  apply group_run; assumption.
Qed.

(** The optional alpha and the closing parenthesis. *)
Lemma colour_close rest c k :
  rmatch
    (Seq (Opt (seqs [ws; Class alpha_mark; ws; Plus (Class figure)]))
       (Seq ws (Chr ")")))
    (cu ")" :: rest) c k = k rest c.
Proof.
  rewrite seq_unfold. unfold Opt.
  change (rmatch (Or ?a Empty) ?s ?c ?k)
    with (match rmatch a s c k with
          | Some x => Some x
          | None => rmatch Empty s c k
          end).
  cbn [seqs]. rewrite seq_unfold. unfold ws at 1.
  rewrite star_skip by reflexivity.
  rewrite seq_unfold, class_cons.
  change (alpha_mark (cu ")")) with false. cbv iota.
  change (rmatch Empty ?s ?c ?k) with (k s c). cbv beta.
  apply ws_close.
Qed.

Lemma colour_alpha sp m a rest c k x :
  forallb is_space sp = true -> alpha_mark m = true -> is_space m = false ->
  alpha_value a ->
  k rest c = Some x ->
  rmatch
    (Seq (Opt (seqs [ws; Class alpha_mark; ws; Plus (Class figure)]))
       (Seq ws (Chr ")")))
    (sp ++ m :: cu " " :: a ++ cu ")" :: rest) c k = Some x.
Proof.
  intros Hsp Hm Hm' Ha Hk.
  destruct (alpha_head Ha) as (y & t & -> & Hy & Ht).
  rewrite seq_unfold. unfold Opt.
  change (rmatch (Or ?a Empty) ?s ?c ?k)
    with (match rmatch a s c k with
          | Some x => Some x
          | None => rmatch Empty s c k
          end).
  cbn [seqs].
  assert (H : rmatch
                (Seq ws (Seq (Class alpha_mark)
                   (Seq ws (Plus (Class figure)))))
                (sp ++ m :: cu " " :: (y :: t) ++ cu ")" :: rest) c
                (fun s1 c1 => rmatch (Seq ws (Chr ")")) s1 c1 k) = Some x).
  { rewrite seq_unfold. unfold ws at 1.
    apply star_run; [exact Hsp | exact Hm' |].
    rewrite seq_unfold, class_cons, Hm, seq_unfold. unfold ws at 1.
    apply (@star_run is_space [cu " "]); [reflexivity | |].
    { cbn [app]. apply figure_not_space. exact Hy. }
    unfold Plus. rewrite seq_unfold. cbn [app]. rewrite class_cons, Hy.
    apply star_run; [exact Ht | reflexivity |].
    rewrite ws_close. exact Hk. }
  rewrite H. reflexivity.
Qed.

(** The pattern matches a colour token, all of it, and captures its
    channels. *)
Lemma colour_token t rest c k x :
  well_written_token t ->
  k rest ((3, blue_of t) :: (2, green_of t) :: (1, red_of t) :: c) = Some x ->
  rmatch colorRe (write_token t ++ rest) c k = Some x.
Proof.
  destruct t as [sy R G B al].
  unfold well_written_token, write_token.
  cbn [syntax red_of green_of blue_of alpha_of].
  intros (HR & HG & HB & Ha) Hk.
  pose proof HR as [NR FR]. pose proof HG as [NG FG].
  pose proof HB as [NB FB]. apply digits_figures in FR, FG, FB.
  unfold colorRe.
  change (seqs (lit "rgb" :: Opt (Chr "a") :: Chr "(" :: ws :: ?l))
    with (Seq (lit "rgb") (Seq (Opt (Chr "a")) (Seq (Chr "(")
            (Seq ws (seqs l))))).
  unfold lit. rewrite seq_unfold.
  assert (Hhead : forall Y k',
            rmatch (Seq ws k') (R ++ Y) c k = Some x ->
            (rmatch (Lit (list_ascii_of_string "rgb"))
               (js "rgba(" ++ R ++ Y) c
               (fun s1 c1 =>
                  rmatch (Seq (Opt (Chr "a")) (Seq (Chr "(") (Seq ws k')))
                    s1 c1 k) = Some x) /\
            (rmatch (Lit (list_ascii_of_string "rgb"))
               (js "rgb(" ++ R ++ Y) c
               (fun s1 c1 =>
                  rmatch (Seq (Opt (Chr "a")) (Seq (Chr "(") (Seq ws k')))
                    s1 c1 k) = Some x)).
  { intros Y k' H. split.
    - change (js "rgba(" ++ R ++ Y)
        with (map cu (list_ascii_of_string "rgb") ++
              cu "a" :: cu "(" :: R ++ Y).
      rewrite lit_match, seq_unfold. unfold Opt.
      change (rmatch (Or (Chr "a") Empty) ?s ?c ?k)
        with (match rmatch (Chr "a") s c k with
              | Some x => Some x
              | None => rmatch Empty s c k
              end).
      rewrite chr_match, seq_unfold, chr_match. cbv beta.
      rewrite H. reflexivity.
    - change (js "rgb(" ++ R ++ Y)
        with (map cu (list_ascii_of_string "rgb") ++ cu "(" :: R ++ Y).
      rewrite lit_match, seq_unfold. unfold Opt.
      change (rmatch (Or (Chr "a") Empty) ?s ?c ?k)
        with (match rmatch (Chr "a") s c k with
              | Some x => Some x
              | None => rmatch Empty s c k
              end).
      unfold Chr at 1. rewrite class_cons.
      change (is_char "a" (cu "(")) with false. cbv iota.
      change (rmatch Empty ?s ?c ?k) with (k s c). cbv beta.
      rewrite seq_unfold, chr_match. exact H. }
  assert (Hsep : forall F Y, numeral F ->
            match js ", " ++ F ++ Y with [] => True | y :: _ => digit y = false end /\
            match js " " ++ F ++ Y with [] => True | y :: _ => digit y = false end).
  { intros; split; reflexivity. }
  cbn [seqs].
  destruct sy, al as [a|]; repeat rewrite <- app_assoc;
    apply Hhead; rewrite seq_unfold, (@ws_figure R _ c _ NR FR).
  - apply channel_run; [exact HR | reflexivity |].
    repeat change (js ", " ++ ?X) with (cu "," :: cu " " :: X).
    rewrite (@separator_comma _ G _ _ k NG FG).
    rewrite (@channel_run 2 _ G _ _ k x HG); [reflexivity | reflexivity |].
    rewrite (@separator_comma _ B _ _ k NB FB).
    rewrite (@channel_run 3 _ B _ _ k x HB); [reflexivity | reflexivity |].
    apply (@colour_alpha [] (cu ",") a rest _ k x);
      [reflexivity | reflexivity | reflexivity | exact Ha | exact Hk].
  - apply channel_run; [exact HR | reflexivity |].
    repeat change (js ", " ++ ?X) with (cu "," :: cu " " :: X).
    rewrite (@separator_comma _ G _ _ k NG FG).
    rewrite (@channel_run 2 _ G _ _ k x HG); [reflexivity | reflexivity |].
    rewrite (@separator_comma _ B _ _ k NB FB).
    rewrite (@channel_run 3 _ B _ _ k x HB); [reflexivity | reflexivity |].
    exact (eq_trans (@colour_close rest _ k) Hk).
  - apply channel_run; [exact HR | reflexivity |].
    repeat change (js " " ++ ?X) with (cu " " :: X).
    rewrite (@separator_space _ G _ _ k NG FG).
    apply channel_run; [exact HG | reflexivity |].
    rewrite (@separator_space _ B _ _ k NB FB).
    apply channel_run; [exact HB | reflexivity |].
    apply (@colour_alpha [cu " "] (cu "/") a rest _ k x);
      [reflexivity | reflexivity | reflexivity | exact Ha | exact Hk].
  - apply channel_run; [exact HR | reflexivity |].
    repeat change (js " " ++ ?X) with (cu " " :: X).
    rewrite (@separator_space _ G _ _ k NG FG).
    apply channel_run; [exact HG | reflexivity |].
    rewrite (@separator_space _ B _ _ k NB FB).
    apply channel_run; [exact HB | reflexivity |].
    exact (eq_trans (@colour_close rest _ k) Hk).
Qed.

(** ** Where no match can start *)

Local Abbreviation inert u X :=
  (forall a x b, u = a ++ x :: b ->
                 starts_with (js "rgb") (x :: b ++ X) = false).

Lemma starts_with_front p q : forall s,
  starts_with (p ++ q) s = true -> starts_with p s = true.
Proof.
  induction p as [|a p IH]; intros s H; [reflexivity|].
  destruct s as [|x s]; [discriminate|]. cbn [app starts_with] in *.
  apply andb_true_iff in H. destruct H as [-> H]. apply (IH _ H).
Qed.

Lemma transparent_here_none s :
  starts_with (js "rgb") s = false -> match_here TRANSPARENT_RE s = None.
Proof.
  intros H. unfold match_here. rewrite transparent_start; [reflexivity|].
  destruct (starts_with (js "rgba(") s) eqn:E; [|reflexivity].
  change (js "rgba(") with (js "rgb" ++ js "a(") in E.
  rewrite (starts_with_front _ _ _ E) in H. discriminate.
Qed.

Lemma colour_here_none s :
  starts_with (js "rgb") s = false -> match_here colorRe s = None.
Proof.
  intros H. unfold match_here, colorRe.
  change (seqs (lit "rgb" :: ?l)) with (Seq (lit "rgb") (seqs l)).
  unfold lit.
  change (js "rgb") with (map cu (list_ascii_of_string "rgb")) in H.
  rewrite (@lit_mismatch _ _ s [] _ H). reflexivity.
Qed.

Lemma search_inert r :
  (forall s, starts_with (js "rgb") s = false -> match_here r s = None) ->
  forall u X i, inert u X -> search r (u ++ X) i = search r X (i + length u).
Proof.
  intros Hr. induction u as [|x u IH]; intros X i Hu.
  - cbn [app length]. rewrite Nat.add_0_r. reflexivity.
  - cbn [app search length].
    rewrite (Hr _ (Hu [] x u eq_refl)).
    rewrite IH; [f_equal; lia|].
    intros a y b ->. apply (Hu (x :: a) y b). reflexivity.
Qed.

Lemma replace_inert r rep :
  (forall s, starts_with (js "rgb") s = false -> match_here r s = None) ->
  forall u X, inert u X -> replace r rep (u ++ X) = u ++ replace r rep X.
Proof.
  intros Hr. induction u as [|x u IH]; intros X Hu; [reflexivity|].
  cbn [app]. rewrite replace_skip by apply (Hr _ (Hu [] x u eq_refl)).
  rewrite IH; [reflexivity|].
  intros a y b ->. apply (Hu (x :: a) y b). reflexivity.
Qed.

(** A text without [rgb] in it, before a colour token or at the end. *)
Lemma plain_inert t X :
  plain t -> match X with [] => True | y :: _ => y = cu "r" end ->
  inert t X.
Proof.
  unfold plain. intros Ht HX a x b ->.
  assert (H : starts_with (js "rgb") (x :: b) = false).
  { clear HX. induction a as [|y a IH].
    - cbn [app includes] in Ht. apply orb_false_iff in Ht. apply Ht.
    - apply IH. cbn [app] in Ht. apply (includes_tail _ _ _ Ht). }
  clear Ht. destruct b as [|b1 [|b2 b]].
  - destruct X as [|y X]; [|subst y];
      cbn [app starts_with js map list_ascii_of_string];
      destruct (N.eqb (cu "r") x); reflexivity.
  - destruct X as [|y X]; [|subst y];
      cbn [app starts_with js map list_ascii_of_string];
      (destruct (N.eqb (cu "r") x); [|reflexivity]);
      destruct (N.eqb (cu "g") b1); reflexivity.
  - exact H.
Qed.

Lemma unled_inert u X :
  forallb (fun c => negb (is_char "r" c)) u = true -> inert u X.
Proof.
  intros Hu a x b ->. rewrite forallb_app in Hu.
  apply andb_true_iff in Hu. destruct Hu as [_ Hu].
  cbn [forallb] in Hu. apply andb_true_iff in Hu. destruct Hu as [Hx _].
  unfold is_char in Hx. cbn [js map list_ascii_of_string starts_with].
  rewrite N.eqb_sym. destruct (N.eqb x (cu "r")); [discriminate|].
  reflexivity.
Qed.

Lemma figures_unled F :
  forallb figure F = true ->
  forallb (fun c => negb (is_char "r" c)) F = true.
Proof.
  induction F as [|y F IH]; [reflexivity|]. cbn [forallb]. intros H.
  apply andb_true_iff in H. destruct H as [Hy HF].
  rewrite (IH HF), (@figure_not_char "r" y Hy); [reflexivity|].
  right. right. cbn. lia.
Qed.

(** A colour token starts with an [r] and has no other. *)
Lemma token_tail t :
  well_written_token t ->
  exists tl, write_token t = cu "r" :: tl /\
             forallb (fun c => negb (is_char "r" c)) tl = true.
Proof.
  destruct t as [sy R G B al].
  unfold well_written_token, write_token.
  cbn [syntax red_of green_of blue_of alpha_of].
  intros ([_ HR] & [_ HG] & [_ HB] & Ha).
  apply digits_figures, figures_unled in HR, HG, HB.
  assert (Ha' : match al with
                | Some a =>
                    forallb (fun c => negb (is_char "r" c)) a = true
                | None => True
                end).
  { destruct al as [a|]; [|exact I]. apply figures_unled, Ha. }
  clear Ha. rename Ha' into Ha.
  destruct sy, al as [a|];
    (eexists; split; [reflexivity|]);
    cbn [app]; cbn [forallb]; rewrite !forallb_app;
    rewrite ?HR, ?HG, ?HB, ?Ha; reflexivity.
Qed.

Lemma token_led t X :
  well_written_token t ->
  match write_token t ++ X with [] => True | y :: _ => y = cu "r" end.
Proof.
  intros H. destruct (token_tail H) as (tl & -> & _). reflexivity.
Qed.

(** ** The patterns at the head of a colour token *)

Lemma transparent_here t X :
  well_written_token t -> black_with_zero_led_alpha t = false ->
  match_here TRANSPARENT_RE (write_token t ++ X) =
  if transparent_black t then Some (length (write_token t), []) else None.
Proof.
  intros Ht Hz. unfold match_here. rewrite (transparent_token _ _ _ Ht Hz).
  destruct (transparent_black t); [|reflexivity].
  rewrite length_app, Nat.add_sub. reflexivity.
Qed.

Lemma colour_here t X :
  well_written_token t ->
  match_here colorRe (write_token t ++ X) =
  Some (length (write_token t),
        [(3, blue_of t); (2, green_of t); (1, red_of t)]).
Proof.
  intros Ht. unfold match_here.
  match goal with
  | |- context [rmatch _ _ _ ?k] =>
      rewrite (@colour_token t X [] k
                 (X, [(3, blue_of t); (2, green_of t); (1, red_of t)])
                 Ht eq_refl)
  end.
  rewrite length_app, Nat.add_sub. reflexivity.
Qed.

(** A colour token that is no transparent black is passed over. *)
Lemma search_token_skip t X i :
  well_written_token t -> black_with_zero_led_alpha t = false ->
  transparent_black t = false ->
  search TRANSPARENT_RE (write_token t ++ X) i =
  search TRANSPARENT_RE X (i + length (write_token t)).
Proof.
  intros Ht Hz Hb. pose proof (transparent_here X Ht Hz) as H.
  rewrite Hb in H. destruct (token_tail Ht) as (tl & E & Htl).
  rewrite E in *. cbn [app search length]. cbn [app] in H. rewrite H.
  rewrite (@search_inert TRANSPARENT_RE transparent_here_none tl X (S i)
             (@unled_inert tl X Htl)).
  f_equal. lia.
Qed.

Lemma replace_token_skip rep t X :
  well_written_token t -> black_with_zero_led_alpha t = false ->
  transparent_black t = false ->
  replace TRANSPARENT_RE rep (write_token t ++ X) =
  write_token t ++ replace TRANSPARENT_RE rep X.
Proof.
  intros Ht Hz Hb. pose proof (transparent_here X Ht Hz) as H.
  rewrite Hb in H. destruct (token_tail Ht) as (tl & E & Htl).
  rewrite E in *. cbn [app] in *. rewrite (@replace_skip TRANSPARENT_RE rep _ _ H).
  rewrite (@replace_inert TRANSPARENT_RE rep transparent_here_none tl X
             (@unled_inert tl X Htl)).
  reflexivity.
Qed.

Lemma search_hit r s i l c :
  match_here r s = Some (l, c) ->
  search r s i = Some (mkMatch i (firstn l s) c).
Proof. intros H. destruct s; cbn [search]; rewrite H; reflexivity. Qed.

(** ** The patterns on an image *)

Local Abbreviation sound l :=
  (Forall (fun p : jsstring * Token =>
             plain (fst p) /\ well_written_token (snd p)) l).
Local Abbreviation settled l :=
  (Forall (fun p : jsstring * Token =>
             black_with_zero_led_alpha (snd p) = false) l).

Lemma search_tokens : forall l e i,
  sound l -> plain e -> settled l ->
  match search TRANSPARENT_RE (write_tokens l e) i with
  | Some _ => true
  | None => false
  end = existsb transparent_black (map snd l).
Proof.
  induction l as [|[text t] l IH]; intros e i Hl He Hz.
  - cbn [write_tokens map existsb]. rewrite <- (app_nil_r e).
    rewrite (@search_inert TRANSPARENT_RE transparent_here_none e [] i
               (@plain_inert e [] He I)).
    cbn [search]. rewrite transparent_here_none; reflexivity.
  - apply Forall_cons_iff in Hl, Hz. cbn [fst snd] in Hl, Hz.
    destruct Hl as [[Htext Ht] Hl]. destruct Hz as [Hz Hzl].
    cbn [write_tokens map existsb snd].
    rewrite (@search_inert TRANSPARENT_RE transparent_here_none text _ i
               (@plain_inert text _ Htext (token_led _ Ht))).
    destruct (transparent_black t) eqn:Eb.
    + pose proof (transparent_here (write_tokens l e) Ht Hz) as H.
      rewrite Eb in H. rewrite (@search_hit _ _ (i + length text) _ _ H). reflexivity.
    + rewrite (@search_token_skip t _ _ Ht Hz Eb). apply IH; assumption.
Qed.

Lemma has_transparent_image image :
  well_written image -> no_zero_led_alpha image ->
  has_transparent (write image) = has_transparent_black image.
Proof.
  intros [Hl He] Hz. unfold has_transparent, test, exec, write.
  cbn [length Nat.ltb Nat.leb skipn].
  pose proof (@search_tokens _ _ 0 Hl He Hz) as H.
  destruct (search TRANSPARENT_RE _ 0); exact H.
Qed.

(** [TRANSPARENT_RE.test(full)] on a colour token. *)
Lemma test_token t :
  well_written_token t -> black_with_zero_led_alpha t = false ->
  fst (test TRANSPARENT_RE (write_token t) 0) = transparent_black t.
Proof.
  intros Ht Hz.
  assert (Hl : sound [([], t)]).
  { apply Forall_cons; [|apply Forall_nil]. split; [reflexivity | exact Ht]. }
  assert (Hs : settled [([], t)]).
  { apply Forall_cons; [exact Hz | apply Forall_nil]. }
  pose proof (@search_tokens [([], t)] [] 0 Hl eq_refl Hs) as H.
  cbn [write_tokens map existsb snd app] in H.
  rewrite app_nil_r, orb_false_r in H.
  unfold test, exec. cbn [length Nat.ltb Nat.leb skipn].
  destruct (search TRANSPARENT_RE _ 0); exact H.
Qed.

Lemma replace_tokens c : forall l e,
  sound l -> plain e -> settled l ->
  replace TRANSPARENT_RE (toRgba0 (red_of c) (green_of c) (blue_of c))
    (write_tokens l e) =
  write_tokens (map (fun p => (fst p, recolour c (snd p))) l) e.
Proof.
  induction l as [|[text t] l IH]; intros e Hl He Hz.
  - cbn [write_tokens map]. rewrite <- (app_nil_r e) at 1.
    rewrite (@replace_inert TRANSPARENT_RE _ transparent_here_none e []
               (@plain_inert e [] He I)).
    rewrite replace_nil by (apply transparent_here_none; reflexivity).
    apply app_nil_r.
  - apply Forall_cons_iff in Hl, Hz. cbn [fst snd] in Hl, Hz.
    destruct Hl as [[Htext Ht] Hl]. destruct Hz as [Hz Hzl].
    cbn [write_tokens map fst snd].
    rewrite (@replace_inert TRANSPARENT_RE _ transparent_here_none text _
               (@plain_inert text _ Htext (token_led _ Ht))).
    f_equal. unfold recolour. destruct (transparent_black t) eqn:Eb.
    + pose proof (transparent_here (write_tokens l e) Ht Hz) as H.
      rewrite Eb in H.
      rewrite (@replace_here TRANSPARENT_RE _ _ _ _ H).
      * rewrite skipn_app, skipn_all, Nat.sub_diag. cbn [skipn app].
        rewrite (IH e Hl He Hzl). reflexivity.
      * destruct (token_tail Ht) as (tl & -> & _). cbn [length]. lia.
    + rewrite (@replace_token_skip _ t _ Ht Hz Eb), (IH e Hl He Hzl).
      reflexivity.
Qed.

Lemma tokens_length : forall l e,
  sound l -> length l <= length (write_tokens l e).
Proof.
  induction l as [|[text t] l IH]; intros e Hl; [cbn [length]; lia|].
  apply Forall_cons_iff in Hl. cbn [snd] in Hl.
  destruct Hl as [[_ Ht] Hl]. specialize (IH e Hl).
  cbn [write_tokens length]. rewrite !length_app.
  destruct (token_tail Ht) as (tl & -> & _). cbn [length]. lia.
Qed.

(** The loop over the colour tokens keeps the channels of those that are
    no transparent black, in their order. *)
Lemma collect_tokens : forall l e pre acc fuel,
  sound l -> plain e -> settled l -> length l < fuel ->
  collect fuel (pre ++ write_tokens l e) (length pre) acc =
  acc ++ map (fun t => (red_of t, green_of t, blue_of t))
           (filter (fun t => negb (transparent_black t)) (map snd l)).
Proof.
  induction l as [|[text t] l IH]; intros e pre acc fuel Hl He Hz Hf;
    (destruct fuel as [|f]; [lia|]); cbn [collect]; unfold exec;
    (replace (length (pre ++ _) <? length pre) with false
       by (symmetry; apply Nat.ltb_ge; rewrite length_app; lia));
    rewrite skipn_app, skipn_all, Nat.sub_diag; cbn [skipn app].
  - cbn [write_tokens map filter]. rewrite <- (app_nil_r e).
    rewrite (@search_inert colorRe colour_here_none e [] (length pre)
               (@plain_inert e [] He I)).
    cbn [search]. rewrite colour_here_none by reflexivity.
    rewrite app_nil_r. reflexivity.
  - apply Forall_cons_iff in Hl, Hz. cbn [fst snd] in Hl, Hz.
    destruct Hl as [[Htext Ht] Hl]. destruct Hz as [Hz Hzl].
    cbn [write_tokens].
    rewrite (@search_inert colorRe colour_here_none text _ (length pre)
               (@plain_inert text _ Htext (token_led _ Ht))).
    rewrite (@search_hit _ _ (length pre + length text) _ _
               (colour_here (write_tokens l e) Ht)).
    rewrite firstn_app, Nat.sub_diag, firstn_all. cbn [firstn].
    rewrite app_nil_r. unfold match_end. cbn [index matched].
    rewrite (test_token Ht Hz).
    change (group 1 (mkMatch _ _ [(3, blue_of t); (2, green_of t); (1, red_of t)]))
      with (red_of t).
    change (group 2 (mkMatch _ _ [(3, blue_of t); (2, green_of t); (1, red_of t)]))
      with (green_of t).
    change (group 3 (mkMatch _ _ [(3, blue_of t); (2, green_of t); (1, red_of t)]))
      with (blue_of t).
    replace (pre ++ text ++ write_token t ++ write_tokens l e)
      with ((pre ++ text ++ write_token t) ++ write_tokens l e)
      by (rewrite <- !app_assoc; reflexivity).
    replace (length pre + length text + length (write_token t))
      with (length (pre ++ text ++ write_token t))
      by (rewrite !length_app; lia).
    cbn [length] in Hf.
    rewrite (IH e _ _ f Hl He Hzl) by lia.
    cbn [map filter snd].
    destruct (transparent_black t); cbn [negb map];
      [reflexivity | rewrite <- app_assoc; reflexivity].
Qed.

Lemma opaqueColorsOf_image image :
  well_written image -> no_zero_led_alpha image ->
  opaqueColorsOf (write image) =
  map (fun t => (red_of t, green_of t, blue_of t)) (other_tokens image).
Proof.
  intros [Hl He] Hz. unfold opaqueColorsOf, write, other_tokens.
  apply (@collect_tokens (tokens image) (ending image) [] []
           (S (length (write_tokens (tokens image) (ending image))))
           Hl He Hz).
  pose proof (tokens_length (ending image) Hl). lia.
Qed.

(** What the loop body assigns for an image. *)
Lemma fixBackground_image image :
  well_written image -> no_zero_led_alpha image ->
  fst (fixBackground 0 (write image)) =
  if (includes (js "gradient") (write image) &&
      has_transparent_black image)%bool
  then
    match other_tokens image with
    | c :: _ => Some (write (recoloured c image))
    | [] => None
    end
  else None.
Proof.
  intros Hw Hz. unfold fixBackground.
  destruct (includes (js "gradient") (write image)); [|reflexivity].
  pose proof (has_transparent_image Hw Hz) as Ht.
  unfold has_transparent in Ht.
  destruct (test TRANSPARENT_RE (write image) 0) as [found tli].
  cbn [fst] in Ht. subst found. cbn [negb andb].
  destruct (has_transparent_black image); [|reflexivity]. cbn [negb].
  rewrite (opaqueColorsOf_image Hw Hz).
  destruct (other_tokens image) as [|c rest]; [reflexivity|].
  cbn [map fst]. f_equal. destruct Hw as [Hl He].
  apply (replace_tokens c Hl He Hz).
Qed.

End TokenFacts.

Module GradientStopClaims.
Import RegexFacts Gradient GradientSyntax GradientClaims TokenFacts.



(** An image with a transparent-black stop in either syntax. *)
Example fading_written :
  write fading =
    js "linear-gradient(to right, rgba(0 0 0 / 0) 0%, rgb(255, 100, 50) 50%, rgba(0, 0, 0, 0) 100%)" /\
  has_transparent_black fading = true /\
  other_tokens fading =
    [mkToken Legacy (js "255") (js "100") (js "50") None].
Proof. repeat split. Qed.

(** A black of the modern syntax with the alpha [0.5] is matched by the
    pattern for a transparent black; the statement above is about images
    without such a token. *)
Example zero_led_alpha_is_matched :
  has_transparent half_black_to_blue = true /\
  fst (fixBackground 0 half_black_to_blue) =
    Some (js "linear-gradient(rgba(10, 20, 30, 0), rgb(10 20 30))").
Proof. split; reflexivity. Qed.

End GradientStopClaims.
